(** * rom: the write path and the retrieval path of [rom/model.py]

    A shallow embedding of [Model.__init__], [Model._apply_changes],
    [Model.save], [Model.get], [redis_writer_lua] and the server-side script
    [_redis_writer_lua], over a model of the Redis commands they issue.

    Conventions
    - Python 3 is modelled ([six.PY2] is false, [six.PY3] is true).
    - A Python [dict] is a [gmap], a [set] is a [gset]; a dict that is
      iterated is read through [map_to_list], a set through [elements].
    - [None] is the [None] of [option].
    - Effects are threaded through one state-and-exception monad [M] over a
      [world]: the contents of the Redis server, the commands this client has
      run so far, and the process-local session cache. *)

From Stdlib Require Import Ascii.
From stdpp Require Import gmap strings list fin_maps pretty sorting.

Local Open Scope string_scope.
Local Open Scope Z_scope.
Local Open Scope list_scope.
Local Open Scope stdpp_scope.

(* ================================================================== *)
(** * Python values *)
(* ================================================================== *)

(** The column values the write path inspects: integers, strings and
    booleans.  [None] is not a [pyval]; a possibly-missing value is an
    [option pyval]. *)
Inductive pyval :=
| PInt (z : Z)
| PStr (s : string)
| PBool (b : bool).

#[global] Instance pyval_eq_dec : EqDecision pyval.
Proof. solve_decision. Defined.

Definition bool_to_Z (b : bool) : Z := if b then 1 else 0.

(** Python's [==] on these values ([True == 1], [False == 0]). *)
Definition py_eq (a b : pyval) : bool :=
  match a, b with
  | PInt x, PInt y => bool_decide (x = y)
  | PStr x, PStr y => bool_decide (x = y)
  | PBool x, PBool y => bool_decide (x = y)
  | PInt x, PBool y | PBool y, PInt x => bool_decide (x = bool_to_Z y)
  | _, _ => false
  end.

(** [a == b] where either side may be [None]. *)
Definition py_eq_opt (a b : option pyval) : bool :=
  match a, b with
  | None, None => true
  | Some x, Some y => py_eq x y
  | _, _ => false
  end.

(** Truth value of an object in a condition ([if x:], [x or y]). *)
Definition truthy (v : pyval) : bool :=
  match v with
  | PInt z => negb (bool_decide (z = 0))
  | PStr s => negb (bool_decide (s = ""))
  | PBool b => b
  end.

Definition truthy_opt (v : option pyval) : bool :=
  match v with
  | None => false
  | Some x => truthy x
  end.

(** [str(v)], also what ['%s' % v] prints. *)
Definition py_str (v : pyval) : string :=
  match v with
  | PInt z => pretty z
  | PStr s => s
  | PBool b => if b then "True" else "False"
  end.

(** The exceptions the modelled code raises or lets through. *)
Inductive exn :=
| UniqueKeyViolation (value : pyval) (ikey : string)
| ColumnError (msg : string)
| InvalidColumnValue (msg : string)
| ResponseError
| ValueError
| TypeError
| AttributeError
| KeyError (key : string)
| WatchError
| RedisError (msg : string).

(** A call returns or raises. *)
Inductive result (A : Type) :=
| Ok (a : A)
| Raise (e : exn).
Arguments Ok {A} a.
Arguments Raise {A} e.

#[global] Instance result_ret : MRet result := λ A a, Ok a.

#[global] Instance result_bind : MBind result := λ A B f r,
  match r with
  | Ok a => f a
  | Raise e => Raise e
  end.

(** [s.lower()] and [s[::-1]]; on [str] only. *)
Definition ascii_lower (c : Ascii.ascii) : Ascii.ascii :=
  let n := Ascii.nat_of_ascii c in
  if bool_decide (65 ≤ n ≤ 90)%nat then Ascii.ascii_of_nat (n + 32) else c.

Fixpoint string_lower (s : string) : string :=
  match s with
  | EmptyString => EmptyString
  | String c rest => String (ascii_lower c) (string_lower rest)
  end.

Definition py_lower (v : pyval) : result pyval :=
  match v with
  | PStr s => Ok (PStr (string_lower s))
  | _ => Raise AttributeError
  end.

Definition py_reverse (v : pyval) : result pyval :=
  match v with
  | PStr s => Ok (PStr (String.rev s))
  | _ => Raise TypeError
  end.

(* ================================================================== *)
(** * The Redis server *)
(* ================================================================== *)

(** One keyspace; every key holds a value of one type.  A command sent to
    a key of another type is answered with an error (WRONGTYPE). *)
Inductive rvalue :=
| RHash (h : gmap string string)
| RSet (s : gset string)
| RZSet (z : gmap string Z).

#[global] Instance rvalue_eq_dec : EqDecision rvalue.
Proof. solve_decision. Defined.

Abbreviation store := (gmap string rvalue).

(** The commands [model.py] and its script send.  Scores are passed
    through to the sorted sets untouched; they are integers here. *)
Inductive command :=
| HGET (key field : string)
| HGETALL (key : string)
| HSET (key field value : string)
| HMSET (key : string) (args : list string)
| HDEL (key : string) (fields : list string)
| SADD (key member : string)
| SREM (key member : string)
| ZADD (key : string) (sc : Z) (member : string)
| ZREM (key member : string)
| DEL (key : string)
| WATCH (key : string)
| UNWATCH
| MULTI
| EXEC.

#[global] Instance command_eq_dec : EqDecision command.
Proof. solve_decision. Defined.

Inductive reply :=
| Nil
| Bulk (s : string)
| Int (n : Z)
| Status
| Fields (h : gmap string string).

(** The value at [key] read as a hash, set or sorted set: a missing key
    reads as the empty one, a key of another type is an error. *)
Definition hash_at (st : store) (key : string) : option (gmap string string) :=
  match st !! key with
  | None => Some ∅
  | Some (RHash h) => Some h
  | Some _ => None
  end.

Definition set_at (st : store) (key : string) : option (gset string) :=
  match st !! key with
  | None => Some ∅
  | Some (RSet s) => Some s
  | Some _ => None
  end.

Definition zset_at (st : store) (key : string) : option (gmap string Z) :=
  match st !! key with
  | None => Some ∅
  | Some (RZSet z) => Some z
  | Some _ => None
  end.

(** Redis removes a key whose hash, set or sorted set became empty. *)
Definition put_hash (key : string) (h : gmap string string) (st : store) : store :=
  if decide (h = ∅) then delete key st else <[key := RHash h]> st.

Definition put_set (key : string) (s : gset string) (st : store) : store :=
  if decide (s = ∅) then delete key st else <[key := RSet s]> st.

Definition put_zset (key : string) (z : gmap string Z) (st : store) : store :=
  if decide (z = ∅) then delete key st else <[key := RZSet z]> st.

(** The flat argument list [f1 v1 f2 v2 ...] of HMSET as pairs; an odd
    number of arguments is an arity error. *)
Fixpoint pairs_of (args : list string) : option (list (string * string)) :=
  match args with
  | [] => Some []
  | f :: v :: rest => pairs ← pairs_of rest; Some ((f, v) :: pairs)
  | [_] => None
  end.

Definition hmset_hash (pairs : list (string * string)) (h : gmap string string)
  : gmap string string :=
  foldl (λ acc fv, <[fv.1 := fv.2]> acc) h pairs.

Definition hdel_hash (fields : list string) (h : gmap string string)
  : gmap string string :=
  foldl (λ acc f, delete f acc) h fields.

Definition count_present (fields : list string) (h : gmap string string) : Z :=
  Z.of_nat (length (filter (λ f, is_Some (h !! f)) fields)).

(** One command against the data: [None] is an error reply, otherwise
    the reply and the new contents.  The transaction commands carry no
    data; what they mean is in the pipeline below. *)
Definition exec (c : command) (st : store) : option (reply * store) :=
  match c with
  | HGET key field =>
      h ← hash_at st key;
      Some (from_option Bulk Nil (h !! field), st)
  | HGETALL key =>
      h ← hash_at st key;
      Some (Fields h, st)
  | HSET key field value =>
      h ← hash_at st key;
      Some (Int (if bool_decide (is_Some (h !! field)) then 0 else 1), put_hash key (<[field := value]> h) st)
  | HMSET key args =>
      match args with
      | [] => None
      | _ =>
          pairs ← pairs_of args;
          h ← hash_at st key;
          Some (Status, put_hash key (hmset_hash pairs h) st)
      end
  | HDEL key fields =>
      match fields with
      | [] => None
      | _ =>
          h ← hash_at st key;
          Some (Int (count_present fields h), put_hash key (hdel_hash fields h) st)
      end
  | SADD key member =>
      s ← set_at st key;
      Some (Int (if decide (member ∈ s) then 0 else 1), put_set key ({[member]} ∪ s) st)
  | SREM key member =>
      s ← set_at st key;
      Some (Int (if decide (member ∈ s) then 1 else 0), put_set key (s ∖ {[member]}) st)
  | ZADD key sc member =>
      z ← zset_at st key;
      Some (Int (if bool_decide (is_Some (z !! member)) then 0 else 1), put_zset key (<[member := sc]> z) st)
  | ZREM key member =>
      z ← zset_at st key;
      Some (Int (if bool_decide (is_Some (z !! member)) then 1 else 0), put_zset key (delete member z) st)
  | DEL key =>
      Some (Int (if bool_decide (is_Some (st !! key)) then 1 else 0), delete key st)
  | WATCH _ | UNWATCH | MULTI | EXEC => Some (Status, st)
  end.

(** The commands that can change the data. *)
Definition is_write (c : command) : bool :=
  match c with
  | HGET _ _ | HGETALL _ | WATCH _ | UNWATCH | MULTI | EXEC => false
  | _ => true
  end.

(** The owner recorded for [field] in the hash at [key], if any. *)
Definition hget (st : store) (key field : string) : option string :=
  match st !! key with
  | Some (RHash h) => h !! field
  | _ => None
  end.

(* ================================================================== *)
(** * The monad of the client: state and exceptions *)
(* ================================================================== *)

(** An entity instance: the attributes [Model.__init__] sets.  [_data]
    maps a column to its current value (a column whose value is [None] has
    no entry), [_last] to the raw value last read from or written to the
    store. *)
Record entity := Entity {
  _new : bool;
  _data : gmap string pyval;
  _last : gmap string string;
  _modified : bool;
  _deleted : bool;
  _init : bool
}.

#[global] Instance entity_eq_dec : EqDecision entity.
Proof. solve_decision. Defined.

(** [db] is what the server holds, [trace] the commands run against it
    for this client so far, oldest first, and [known] the entities the
    process-local [session] holds, by ['namespace:id']. *)
Record world := World {
  db : store;
  trace : list command;
  known : gmap string entity
}.

Definition M (A : Type) : Type := world → result A * world.

#[global] Instance M_ret : MRet M := λ A a w, (Ok a, w).

#[global] Instance M_bind : MBind M := λ A B f m w,
  match m w with
  | (Ok a, w') => f a w'
  | (Raise e, w') => (Raise e, w')
  end.

Definition raise {A} (e : exn) : M A := λ w, (Raise e, w).

(** [redis.call(...)] in the script, and a command a connection runs at
    once: an error reply is raised, after the command was sent. *)
Definition call (c : command) : M reply := λ w,
  match exec c (db w) with
  | Some (r, st) => (Ok r, World st (trace w ++ [c]) (known w))
  | None => (Raise ResponseError, World (db w) (trace w ++ [c]) (known w))
  end.

(** [for x in l: body(x)] *)
Fixpoint for_each {A} (l : list A) (body : A → M unit) : M unit :=
  match l with
  | [] => mret ()
  | x :: rest => body x;; for_each rest body
  end.

(** [if c then body end] *)
Definition when (c : bool) (body : M unit) : M unit :=
  if c then body else mret ().

(* ================================================================== *)
(** * Key layout *)
(* ================================================================== *)

(** ['%s:%s' % (namespace, id)]: the entity row. *)
Definition row_key (namespace id : string) : string :=
  namespace +:+ ":" +:+ id.

(** ['%s:%s:uidx' % (namespace, col)]: the unique index of a column. *)
Definition uidx_key (namespace col : string) : string :=
  namespace +:+ ":" +:+ col +:+ ":uidx".

Definition idx_key (namespace key : string) : string :=
  namespace +:+ ":" +:+ key +:+ ":idx".

Definition pre_key (namespace attr : string) : string :=
  namespace +:+ ":" +:+ attr +:+ ":pre".

Definition suf_key (namespace attr : string) : string :=
  namespace +:+ ":" +:+ attr +:+ ":suf".

(** [namespace .. '::']: the hash of index manifests, one field per id. *)
Definition manifest_key (namespace : string) : string :=
  namespace +:+ "::".

Definition NUL : string := String Ascii.zero "".

(* ================================================================== *)
(** * The script [_redis_writer_lua] *)
(* ================================================================== *)

(** What [cjson.decode] makes of a stored manifest: the two-element form
    of older versions or the four-element form. *)
Inductive idata :=
| Idata2 (keys scored : list string)
| Idata4 (keys scored : list string) (prefix suffix : list (string * pyval)).

(** [cjson] is the script host's library; its text format is not part of
    [model.py].  [cjson_decode] answers [None] where the script would fail
    on the decoded value.

    Nor is the way the host prints a number.  [cjson.decode] makes a
    double of the JSON text of an integer; [redis.call] sends a number
    argument as [%.17g] of the double and [string.format('%s', ...)]
    prints it as [%.14g], so that not every integer comes back as its
    digits: [redis_number z] and [lua_tostring z] are what the two make of
    the integer [z] that [json.dumps] wrote. *)
Class Cjson := {
  cjson_encode : list string → list string →
                 list (string * pyval) → list (string * pyval) → string;
  cjson_decode : string → option idata;
  redis_number : Z → string;
  lua_tostring : Z → string
}.

(** [string.format('%s', v)] on a decoded JSON value: a number is
    printed, a boolean is a bad argument. *)
Definition lua_format_s `{!Cjson} (v : pyval) : option string :=
  match v with
  | PStr s => Some s
  | PInt z => Some (lua_tostring z)
  | PBool _ => None
  end.

(** A decoded JSON value as an argument of [redis.call]: a number is
    sent as the host prints it, a boolean is refused. *)
Definition lua_arg_s `{!Cjson} (v : pyval) : option string :=
  match v with
  | PStr s => Some s
  | PInt z => Some (redis_number z)
  | PBool _ => None
  end.

Definition lua_arg `{!Cjson} (v : pyval) : M string :=
  match lua_arg_s v with
  | Some s => mret s
  | None => raise ResponseError
  end.

(** [string.format('%s\0%s', token, id)] *)
Definition member_of `{!Cjson} (token : pyval) (id : string) : M string :=
  match lua_format_s token with
  | Some s => mret (s +:+ NUL +:+ id)
  | None => raise ResponseError
  end.

Inductive script_result :=
| Conflict (col : string)
| Count (n : Z).

Section script.
Context `{!Cjson}.
Variables (namespace id : string).

(** One pass of [for col, value in pairs(cjson.decode(ARGV[3]))]:
    [Some col] is the script's [return col]. *)
Fixpoint unique_pass (write : bool) (unique : list (string * string))
  : M (option string) :=
  match unique with
  | [] => mret None
  | (col, value) :: rest =>
      let key := uidx_key namespace col in
      if write then
        call (HSET key value id);;
        unique_pass write rest
      else
        known ← call (HGET key value);
        match known with
        | Bulk owner =>
            if bool_decide (owner ≠ id) then mret (Some col)
            else unique_pass write rest
        | _ => unique_pass write rest
        end
  end.

(** [for i, write in ipairs({false, true})] *)
Fixpoint unique_passes (writes : list bool) (unique : list (string * string))
  : M (option string) :=
  match writes with
  | [] => mret None
  | write :: rest =>
      r ← unique_pass write unique;
      match r with
      | Some col => mret (Some col)
      | None => unique_passes rest unique
      end
  end.

(** "remove deleted unique constraints" *)
Definition remove_unique (udeleted : list (string * pyval)) : M unit :=
  for_each udeleted (λ '(col, jvalue),
    let key := uidx_key namespace col in
    value ← lua_arg jvalue;
    known ← call (HGET key value);
    match known with
    | Bulk owner =>
        when (bool_decide (owner = id)) (call (HDEL key [value]);; mret ())
    | _ => mret ()
    end).

(** "remove old index data" *)
Definition remove_old_index : M unit :=
  r ← call (HGET (manifest_key namespace) id);
  match r with
  | Bulk s =>
      match cjson_decode s with
      | None => raise ResponseError
      | Some d =>
          let '(keys, scored, prefix, suffix) :=
            match d with
            | Idata2 k s => (k, s, [], [])
            | Idata4 k s p f => (k, s, p, f)
            end in
          for_each keys (λ key,
            call (SREM (idx_key namespace key) id);; mret ());;
          for_each scored (λ key,
            call (ZREM (idx_key namespace key) id);; mret ());;
          for_each prefix (λ '(attr, token),
            mem ← member_of token id;
            call (ZREM (pre_key namespace attr) mem);; mret ());;
          for_each suffix (λ '(attr, token),
            mem ← member_of token id;
            call (ZREM (suf_key namespace attr) mem);; mret ())
      end
  | _ => mret ()
  end.

(** "add new key index data" ... "add new suffix data" *)
Definition add_new_index (nkeys : list string) (scored : list (string * Z))
    (prefix suffix : list (string * pyval * Z)) : M unit :=
  for_each nkeys (λ key,
    call (SADD (idx_key namespace key) id);; mret ());;
  for_each scored (λ '(key, sc),
    call (ZADD (idx_key namespace key) sc id);; mret ());;
  for_each prefix (λ '(attr, token, sc),
    mem ← member_of token id;
    call (ZADD (pre_key namespace attr) sc mem);; mret ());;
  for_each suffix (λ '(attr, token, sc),
    mem ← member_of token id;
    call (ZADD (suf_key namespace attr) sc mem);; mret ()).

(** The script after its unique passes: from "remove deleted unique
    constraints" to its last line. *)
Definition script_writes (udeleted : gmap string pyval)
    (deleted data nkeys : list string) (scored : gmap string Z)
    (prefix suffix : list (string * pyval * Z)) (is_delete : bool)
  : M script_result :=
  remove_unique (map_to_list udeleted);;
  when (bool_decide (0 < length deleted)%nat)
    (call (HDEL (row_key namespace id) deleted);; mret ());;
  when (bool_decide (0 < length data)%nat)
    (call (HMSET (row_key namespace id) data);; mret ());;
  remove_old_index;;
  when is_delete
    (call (DEL (row_key namespace id));;
     call (HDEL (manifest_key namespace) [id]);; mret ());;
  add_new_index nkeys (map_to_list scored) prefix suffix;;
  let nscored := (map_to_list scored).*1 in
  let nprefix := prefix.*1 in
  let nsuffix := suffix.*1 in
  when (negb is_delete)
    (call (HSET (manifest_key namespace) id
             (cjson_encode nkeys nscored nprefix nsuffix));; mret ());;
  mret (Count (Z.of_nat (length nkeys + length nscored
                         + length nprefix + length nsuffix))).

(** The script, with [ARGV[3..11]] already decoded. *)
Definition _redis_writer_lua (unique : gmap string string)
    (udeleted : gmap string pyval) (deleted data nkeys : list string)
    (scored : gmap string Z) (prefix suffix : list (string * pyval * Z))
    (is_delete : bool) : M script_result :=
  r ← unique_passes [false; true] (map_to_list unique);
  match r with
  | Some col => mret (Conflict col)
  | None =>
      script_writes udeleted deleted data nkeys scored prefix suffix is_delete
  end.

End script.

(* ================================================================== *)
(** * Columns and model classes *)
(* ================================================================== *)

(** [util.SIMPLE] and [util.CASE_INSENSITIVE] are told apart from other
    key generators by identity ([is], [not in]). *)
Inductive keygen_id := SIMPLE | CASE_INSENSITIVE | CUSTOM.

(** What a key generator returns, by the [isinstance] tests made on it:
    a list, tuple or set of tokens; a dict of token to score; a false
    value; anything else. *)
Inductive generated :=
| GSeq (tokens : list string)
| GDict (scores : gmap string Z)
| GFalsy
| GOther.

(** What [_apply_changes] and [__init__] use of a column object.
    [_init_ cval loading] is the column descriptor's part of
    [setattr(self, attr, (model, attr, cval, loading))] during
    [__init__]: the value it stores in [_data], or the exception it
    raises. *)
Record Column := {
  _index : bool;
  _prefix : bool;
  _suffix : bool;
  _keygen : option (keygen_id * (pyval → generated));
  _to_redis : pyval → string;
  _from_redis : string → pyval;
  _init_ : option pyval → bool → result (option pyval)
}.

(** [index.GeneralIndex], used by the path without Lua only: the
    commands [index] and [_unindex] queue on the pipeline they are given. *)
Record GeneralIndex := {
  gindex_index : store → string → list string → gmap string Z →
                 list (string * pyval) → list (string * pyval) → list command;
  gindex_unindex : store → string → list command
}.

(** A model class as [_ModelMetaclass] leaves it. *)
Record Model := {
  _namespace : string;
  _pkey : string;
  _columns : list (string * Column);
  _unique : gset string;
  _cunique : gset (list string);
  _gindex : GeneralIndex
}.

(** [columns[attr]] *)
Definition column (cls : Model) (attr : string) : result Column :=
  match list_find (λ ac, ac.1 = attr) (_columns cls) with
  | Some (_, (_, ca)) => Ok ca
  | None => Raise (KeyError attr)
  end.

(** [util._prefix_score] and [util._encode_unique_constraint]. *)
Class Util := {
  _prefix_score : pyval → Z;
  _encode_unique_constraint : list string → string
}.

(* ================================================================== *)
(** * [redis_writer_lua] *)
(* ================================================================== *)

Section writer.
Context `{!Cjson, !Util}.

Definition redis_writer_lua (namespace id : string)
    (unique : gmap string string) (udelete : gmap string pyval)
    (delete : list string) (data : gmap string string) (keys : list string)
    (scored : gmap string Z) (prefix suffix : list (string * pyval))
    (is_delete : bool) : M unit :=
  let ldata := flat_map (λ pair, [pair.1; pair.2]) (map_to_list data) in
  let prefix := (λ item, (item, _prefix_score item.2)) <$> prefix in
  let suffix := (λ item, (item, _prefix_score item.2)) <$> suffix in
  result ← _redis_writer_lua namespace id unique udelete delete ldata keys
             scored prefix suffix is_delete;
  match result with
  | Conflict col =>
      match unique !! col with
      | Some value =>
          raise (UniqueKeyViolation (PStr value) (uidx_key namespace col))
      | None => raise (KeyError col)
      end
  | Count _ => mret ()
  end.

End writer.

(* ================================================================== *)
(** * [Model._apply_changes]: the locals of one pass of the loop *)
(* ================================================================== *)

(** [pipe] is the command stack of the pipeline: what [pipe.hset(...)]
    and the like have queued for [pipe.execute()]. *)
Record locals := Locals {
  changes : nat;
  keys : gset string;
  scores : gmap string Z;
  data : gmap string string;
  unique : gmap string string;
  deleted : list string;
  udeleted : gmap string pyval;
  prefix : list (string * pyval);
  suffix : list (string * pyval);
  redis_data : gmap string string;
  pipe : list command
}.

Definition locals0 : locals := Locals 0 ∅ ∅ ∅ ∅ [] ∅ [] [] ∅ [].

Definition with_changes (f : nat → nat) (l : locals) : locals :=
  Locals (f (changes l)) (keys l) (scores l) (data l) (unique l) (deleted l)
    (udeleted l) (prefix l) (suffix l) (redis_data l) (pipe l).
Definition with_keys (f : gset string → gset string) (l : locals) : locals :=
  Locals (changes l) (f (keys l)) (scores l) (data l) (unique l) (deleted l)
    (udeleted l) (prefix l) (suffix l) (redis_data l) (pipe l).
Definition with_scores (f : gmap string Z → gmap string Z) (l : locals) : locals :=
  Locals (changes l) (keys l) (f (scores l)) (data l) (unique l) (deleted l)
    (udeleted l) (prefix l) (suffix l) (redis_data l) (pipe l).
Definition with_data (f : gmap string string → gmap string string) (l : locals) : locals :=
  Locals (changes l) (keys l) (scores l) (f (data l)) (unique l) (deleted l)
    (udeleted l) (prefix l) (suffix l) (redis_data l) (pipe l).
Definition with_unique (f : gmap string string → gmap string string) (l : locals) : locals :=
  Locals (changes l) (keys l) (scores l) (data l) (f (unique l)) (deleted l)
    (udeleted l) (prefix l) (suffix l) (redis_data l) (pipe l).
Definition with_deleted (f : list string → list string) (l : locals) : locals :=
  Locals (changes l) (keys l) (scores l) (data l) (unique l) (f (deleted l))
    (udeleted l) (prefix l) (suffix l) (redis_data l) (pipe l).
Definition with_udeleted (f : gmap string pyval → gmap string pyval) (l : locals) : locals :=
  Locals (changes l) (keys l) (scores l) (data l) (unique l) (deleted l)
    (f (udeleted l)) (prefix l) (suffix l) (redis_data l) (pipe l).
Definition with_prefix (f : list (string * pyval) → list (string * pyval)) (l : locals) : locals :=
  Locals (changes l) (keys l) (scores l) (data l) (unique l) (deleted l)
    (udeleted l) (f (prefix l)) (suffix l) (redis_data l) (pipe l).
Definition with_suffix (f : list (string * pyval) → list (string * pyval)) (l : locals) : locals :=
  Locals (changes l) (keys l) (scores l) (data l) (unique l) (deleted l)
    (udeleted l) (prefix l) (f (suffix l)) (redis_data l) (pipe l).
Definition with_redis_data (f : gmap string string → gmap string string) (l : locals) : locals :=
  Locals (changes l) (keys l) (scores l) (data l) (unique l) (deleted l)
    (udeleted l) (prefix l) (suffix l) (f (redis_data l)) (pipe l).
Definition with_pipe (f : list command → list command) (l : locals) : locals :=
  Locals (changes l) (keys l) (scores l) (data l) (unique l) (deleted l)
    (udeleted l) (prefix l) (suffix l) (redis_data l) (f (pipe l)).

(* ================================================================== *)
(** * [Model._apply_changes]: computing the changes *)
(* ================================================================== *)

Section changes.
Context `{!Util}.
Variables (use_lua : bool) (cls : Model).
Variables (old : gmap string string) (new : gmap string pyval).
Variables (full delete : bool) (pk : pyval).

(** "Add/update standard index": the body of
    [if ca._keygen and not delete and nval is not None and (...)]. *)
Definition index_keys (attr : string) (ca : Column) (kid : keygen_id)
    (generated : generated) (nval : pyval) (l : locals) : result locals :=
  match generated with
  | GSeq generated =>
      let l := if _index ca
               then with_keys (λ ks, ks ∪ list_to_set ((λ k, attr +:+ ":" +:+ k) <$> generated)) l
               else l in
      let l := if _prefix ca
               then with_prefix (λ p, p ++ ((λ k, (attr, PStr k)) <$> generated)) l
               else l in
      let l := if _suffix ca
               then with_suffix (λ p, p ++ ((λ k, (attr, PStr (String.rev k))) <$> generated)) l
               else l in
      Ok l
  | GDict generated =>
      let l := with_scores (λ sc,
                 foldl (λ sc kv,
                   if bool_decide (kv.1 = "") then <[attr := kv.2]> sc
                   else <[attr +:+ ":" +:+ kv.1 := kv.2]> sc)
                 sc (map_to_list generated)) l in
      l ← (if _prefix ca then
             match kid with
             | CUSTOM => Ok l
             | SIMPLE => Ok (with_prefix (λ p, p ++ [(attr, nval)]) l)
             | CASE_INSENSITIVE =>
                 v ← py_lower nval;
                 Ok (with_prefix (λ p, p ++ [(attr, v)]) l)
             end
           else Ok l);
      (if _suffix ca then
         match kid with
         | CUSTOM => Ok l
         | SIMPLE =>
             v ← py_reverse nval;
             Ok (with_suffix (λ p, p ++ [(attr, v)]) l)
         | CASE_INSENSITIVE =>
             r ← py_reverse nval;
             v ← py_lower r;
             Ok (with_suffix (λ p, p ++ [(attr, v)]) l)
         end
       else Ok l)
  | GFalsy => Ok l
  | GOther => Raise (ColumnError "Don't know how to turn the value into a sequence of keys")
  end.

(** "Add/update standard index" *)
Definition index_step (attr : string) (ca : Column) (nval : option pyval)
    (l : locals) : result locals :=
  match _keygen ca, nval with
  | Some (kid, keygen), Some nv =>
      if negb delete && (_index ca || _prefix ca || _suffix ca)
      then index_keys attr ca kid (keygen nv) nv l
      else Ok l
  | _, _ => Ok l
  end.

(** The rest of a pass for a column that changed, or on a full save:
    from [changes += 1] to "Add/update unique index". *)
Definition change_step (attr : string) (ca : Column) (l : locals) : locals :=
  let model := _namespace cls in
  let key := row_key model (py_str pk) in
  let ikey := if bool_decide (attr ∈ _unique cls)
              then Some (uidx_key model attr) else None in
  let roval := old !! attr in
  let oval := _from_redis ca <$> roval in
  let nval := new !! attr in
  let rnval := _to_redis ca <$> nval in
  let l := with_changes S l in
  match nval, roval with
  | None, Some ro =>
      (* "Delete removed columns" *)
      if use_lua then
        let l := with_deleted (λ d, d ++ [attr]) l in
        match ikey with
        | Some _ => with_udeleted (λ u, <[attr := PStr ro]> u) l
        | None => l
        end
      else
        let l := with_pipe (λ p, p ++ [HDEL key [attr]]) l in
        match ikey with
        | Some ik => with_pipe (λ p, p ++ [HDEL ik [ro]]) l
        | None => l
        end
  | _, _ =>
      (* "Add/update column value" *)
      let l := match rnval with
               | Some r => with_data (λ d, <[attr := r]> d) l
               | None => l
               end in
      (* "Add/update unique index" *)
      match ikey with
      | None => l
      | Some ik =>
          if use_lua then
            let l := match oval with
                     | Some ov =>
                         if bool_decide (roval ≠ rnval)
                         then with_udeleted (λ u, <[attr := ov]> u) l
                         else l
                     | None => l
                     end in
            match rnval with
            | Some r => with_unique (λ u, <[attr := r]> u) l
            | None => l
            end
          else
            let l := match roval with
                     | Some ro => with_pipe (λ p, p ++ [HDEL ik [ro]]) l
                     | None => l
                     end in
            with_pipe (λ p, p ++ [HSET ik (default "None" rnval) (py_str pk)]) l
      end
  end.

(** One pass of [for attr in cls._columns], "update individual columns". *)
Definition column_step (attr : string) (ca : Column) (l : locals) : result locals :=
  let roval := old !! attr in
  let oval := _from_redis ca <$> roval in
  let nval := new !! attr in
  let rnval := _to_redis ca <$> nval in
  let l := match rnval with
           | Some r => with_redis_data (λ d, <[attr := r]> d) l
           | None => l
           end in
  l ← index_step attr ca nval l;
  if py_eq_opt nval oval && negb full then Ok l
  else Ok (change_step attr ca l).

Fixpoint column_loop (columns : list (string * Column)) (l : locals) : result locals :=
  match columns with
  | [] => Ok l
  | (attr, ca) :: rest =>
      l ← column_step attr ca l;
      column_loop rest l
  end.

(** [ndata]: the new values of a group, each through its column's
    [_to_redis], [None] kept. *)
Fixpoint cunique_ndata (uniq : list string) : result (list (option string)) :=
  match uniq with
  | [] => Ok []
  | c :: rest =>
      v ← match new !! c with
          | Some nv => ca ← column cls c; Ok (Some (_to_redis ca nv))
          | None => Ok None
          end;
      vs ← cunique_ndata rest;
      Ok (v :: vs)
  end.

(** [None not in l], and the values of such an [l]. *)
Definition no_None (l : list (option string)) : bool :=
  forallb (λ v, bool_decide (is_Some v)) l.

Definition the_values (l : list (option string)) : list string :=
  omap id l.

(** One pass of [for uniq in cls._cunique], "Add/update multi-column
    unique constraint". *)
Definition cunique_step (uniq : list string) (l : locals) : result locals :=
  let attr := String.concat ":" uniq in
  let odata := (λ c, old !! c) <$> uniq in
  ndata ← cunique_ndata uniq;
  let l := if bool_decide (odata ≠ ndata) && no_None odata
           then with_udeleted (λ u,
                  <[attr := PStr (_encode_unique_constraint (the_values odata))]> u) l
           else l in
  Ok (if no_None ndata
      then with_unique (λ u,
             <[attr := _encode_unique_constraint (the_values ndata)]> u) l
      else l).

Fixpoint cunique_loop (groups : list (list string)) (l : locals) : result locals :=
  match groups with
  | [] => Ok l
  | uniq :: rest =>
      l ← cunique_step uniq l;
      cunique_loop rest l
  end.

(** The locals after both loops: what one pass of [while 1] hands to
    the script, or has queued on the pipeline. *)
Definition compute_changes : result locals :=
  l ← column_loop (_columns cls) locals0;
  cunique_loop (elements (_cunique cls)) l.

End changes.

(* ================================================================== *)
(** * Other clients, and the pipeline of the path without Lua *)
(* ================================================================== *)

Definition command_key (c : command) : option string :=
  match c with
  | HGET k _ | HGETALL k | HSET k _ _ | HMSET k _ | HDEL k _
  | SADD k _ | SREM k _ | ZADD k _ _ | ZREM k _ | DEL k | WATCH k => Some k
  | UNWATCH | MULTI | EXEC => None
  end.

(** The data after [c]: an error reply changes nothing. *)
Definition step (c : command) (st : store) : store :=
  match exec c st with
  | Some (_, st') => st'
  | None => st
  end.

Definition replay (cmds : list command) (st : store) : store :=
  foldl (λ st c, step c st) st cmds.

(** What other clients run during one pass of the loop of
    [_apply_changes]: [early] between this client's WATCH and its read
    of the unique index, [late] between that read and [pipe.execute()]. *)
Record interference := Interference {
  early : list command;
  late : list command
}.

Definition quiet : interference := Interference [] [].

(** The state of a [redis.client.Pipeline] that matters here;
    [dirty] is the server's flag that a watched key was modified. *)
Record pipeline := Pipeline {
  watching : list string;
  explicit_transaction : bool;
  dirty : bool
}.

Definition pipeline0 : pipeline := Pipeline [] false false.

Definition lift {A} (r : result A) : M A := λ w, (r, w).

Definition get_db : M store := λ w, (Ok (db w), w).

(** Whether the server marks the clients that watch the key of [c] when
    [c] runs on [st]: HSET and HMSET do whenever they are not refused,
    the other commands when they change the data (an HDEL, SREM or ZREM
    of what is not there, an SADD of a member or a ZADD of a score that
    is there, a DEL of no key mark nothing). *)
Definition modifies (c : command) (st : store) : bool :=
  match c with
  | HSET _ _ _ | HMSET _ _ => bool_decide (is_Some (exec c st))
  | _ => bool_decide (step c st ≠ st)
  end.

(** Whether [cmds], run in order from [st], mark a client that watches
    [watched]. *)
Fixpoint marks (watched : list string) (cmds : list command) (st : store) : bool :=
  match cmds with
  | [] => false
  | c :: rest =>
      (existsb (λ k, bool_decide (command_key c = Some k)) watched
       && modifies c st)
      || marks watched rest (step c st)
  end.

(** Commands of other clients: they change the data, are no part of
    this client's trace, and mark the watched keys they modify. *)
Definition others (cmds : list command) (p : pipeline) : M pipeline := λ w,
  (Ok (Pipeline (watching p) (explicit_transaction p)
         (dirty p || marks (watching p) cmds (db w))),
   World (replay cmds (db w)) (trace w) (known w)).

(** [pipe.watch(key)] *)
Definition pipe_watch (key : string) (p : pipeline) : M pipeline :=
  if explicit_transaction p
  then raise (RedisError "Cannot issue a WATCH after a MULTI")
  else call (WATCH key);;
       mret (Pipeline (key :: watching p) false (dirty p)).

(** [pipe.multi()]; the command stack is empty wherever
    [_apply_changes] calls it. *)
Definition pipe_multi (p : pipeline) : M pipeline :=
  if explicit_transaction p
  then raise (RedisError "Cannot issue nested calls to MULTI")
  else mret (Pipeline (watching p) true (dirty p)).

(** [pipe.unwatch()] *)
Definition pipe_unwatch (p : pipeline) : M pipeline :=
  match watching p with
  | [] => mret p
  | _ => call UNWATCH;; mret (Pipeline [] (explicit_transaction p) false)
  end.

(** The queued commands run in order; an error reply does not stop
    the ones after it. *)
Fixpoint exec_all (cmds : list command) (st : store) : list (option reply) * store :=
  match cmds with
  | [] => ([], st)
  | c :: rest =>
      match exec c st with
      | Some (r, st') =>
          let '(rs, st'') := exec_all rest st' in (Some r :: rs, st'')
      | None =>
          let '(rs, st'') := exec_all rest st in (None :: rs, st'')
      end
  end.

Fixpoint all_replies (rs : list (option reply)) : option (list reply) :=
  match rs with
  | [] => Some []
  | Some r :: rest => rs' ← all_replies rest; Some (r :: rs')
  | None :: _ => None
  end.

(** What [Pipeline.reset()] sends: UNWATCH when a key is watched. *)
Definition pipe_reset (p : pipeline) : list command :=
  match watching p with
  | [] => []
  | _ => [UNWATCH]
  end.

(** [pipe.execute()] of a transactional pipeline: nothing is sent for
    an empty stack; EXEC is refused (WatchError) when a watched key was
    modified, and then none of the queued commands ran, so that the
    trace shows MULTI and EXEC only; otherwise the queued commands run
    together and the first error reply among them is raised.  Either
    way the pipeline is reset after EXEC. *)
Definition pipe_execute (p : pipeline) (stack : list command) : M (list reply) :=
  match stack with
  | [] => mret []
  | _ => λ w,
      if dirty p
      then (Raise WatchError,
            World (db w) (trace w ++ [MULTI; EXEC] ++ pipe_reset p) (known w))
      else
        let '(rs, st) := exec_all stack (db w) in
        (match all_replies rs with
         | Some rs => Ok rs
         | None => Raise ResponseError
         end,
         World st (trace w ++ [MULTI] ++ stack ++ [EXEC] ++ pipe_reset p)
           (known w))
  end.

(** [try: m except redis.exceptions.WatchError: ...]: [None] when
    the WatchError was caught. *)
Definition catch_watch {A} (m : M A) : M (option A) := λ w,
  match m w with
  | (Ok a, w') => (Ok (Some a), w')
  | (Raise WatchError, w') => (Ok None, w')
  | (Raise e, w') => (Raise e, w')
  end.

(* ================================================================== *)
(** * [Model._apply_changes] *)
(* ================================================================== *)

Section apply_changes.
Context `{!Cjson, !Util}.
Variables (use_lua : bool) (cls : Model).
Variables (old : gmap string string) (new : gmap string pyval).
Variables (full delete : bool) (pk : pyval).

(** One pass of [for col in cls._unique] under [if not use_lua],
    "check for unique keys". *)
Definition check_unique_step (iv : interference) (col : string) (p : pipeline)
  : M pipeline :=
  let model := _namespace cls in
  let ouval := old !! col in
  let nuval := new !! col in
  nuvale ← lift (match nuval with
                 | Some nv => ca ← column cls col; Ok (Some (_to_redis ca nv))
                 | None => Ok None
                 end);
  if negb (truthy_opt nuval && (bool_decide (ouval ≠ nuvale) || full))
  then mret p
  else
    let ikey := uidx_key model col in
    p ← pipe_watch ikey p;
    p ← others (early iv) p;
    ival ← call (HGET ikey (default "None" nuvale));
    let free := match ival with
                | Bulk owner =>
                    bool_decide (owner = "") || bool_decide (owner = py_str pk)
                | _ => true
                end in
    if free then pipe_multi p
    else
      pipe_unwatch p;;
      raise (UniqueKeyViolation (default (PStr "") nuval) ikey).

Fixpoint check_unique (iv : interference) (cols : list string) (p : pipeline)
  : M pipeline :=
  match cols with
  | [] => mret p
  | col :: rest =>
      p ← check_unique_step iv col p;
      check_unique iv rest p
  end.

(** One pass of [while 1]: [None] is the [continue] after a
    WatchError, [Some] the value returned. *)
Definition attempt (iv : interference) : M (option (nat * gmap string string)) :=
  let model := _namespace cls in
  let key := row_key model (py_str pk) in
  (if bool_decide (1 < size (_unique cls))%nat && negb use_lua
   then raise (ColumnError "Only one unique column allowed")
   else mret ());;
  (if bool_decide (_cunique cls ≠ ∅) && negb use_lua
   then raise (ColumnError "Cannot use multi-column unique constraint 'unique_together' with Lua disabled")
   else mret ());;
  p ← (if use_lua then mret pipeline0
       else check_unique iv (elements (_unique cls)) pipeline0);
  l ← lift (compute_changes use_lua cls old new full delete pk);
  let id_only := py_str pk in
  if use_lua then
    redis_writer_lua model id_only (unique l) (udeleted l) (deleted l)
      (data l) (elements (keys l)) (scores l) (prefix l) (suffix l) delete;;
    mret (Some (changes l, redis_data l))
  else
    st ← get_db;
    let l :=
      if delete then
        let l := with_changes S l in
        with_pipe (λ q, q ++ gindex_unindex (_gindex cls) st id_only ++ [DEL key]) l
      else
        let l := if bool_decide (data l ≠ ∅)
                 then with_pipe (λ q, q ++ [HMSET key
                        (flat_map (λ fv, [fv.1; fv.2]) (map_to_list (data l)))]) l
                 else l in
        with_pipe (λ q, q ++ gindex_index (_gindex cls) st id_only
                               (elements (keys l)) (scores l) (prefix l) (suffix l)) l in
    p ← others (late iv) p;
    r ← catch_watch (pipe_execute p (pipe l));
    match r with
    | None => mret None
    | Some _ => mret (Some (changes l, redis_data l))
    end.

(** [while 1: ...]: a pass per element of the schedule of what other
    clients do, then passes with no one else writing. *)
Fixpoint apply_loop (sched : list interference) : M (nat * gmap string string) :=
  match sched with
  | [] =>
      r ← attempt quiet;
      match r with
      | Some ret => mret ret
      | None => raise WatchError
      end
  | iv :: rest =>
      r ← attempt iv;
      match r with
      | Some ret => mret ret
      | None => apply_loop rest
      end
  end.

End apply_changes.

Section model.
Context `{!Cjson, !Util}.
Variables (use_lua : bool) (sched : list interference) (cls : Model).

(** [old.get(cls._pkey) or new.get(cls._pkey)] *)
Definition primary_key (old : gmap string string) (new : gmap string pyval)
  : option pyval :=
  match old !! _pkey cls with
  | Some s => if truthy (PStr s) then Some (PStr s) else new !! _pkey cls
  | None => new !! _pkey cls
  end.

Definition _apply_changes (old : gmap string string) (new : gmap string pyval)
    (full delete : bool) : M (nat * gmap string string) :=
  match primary_key old new with
  | Some pk =>
      if truthy pk
      then apply_loop use_lua cls old new full delete pk sched
      else raise (ColumnError "Missing primary key value")
  | None => raise (ColumnError "Missing primary key value")
  end.

(** [Model.save] *)
Definition save (self : entity) (full : bool) : M (nat * entity) :=
  let new := _data self in
  '(ret, data) ← _apply_changes (_last self) new (full || _new self) false;
  mret (ret, Entity false (_data self) data false false (_init self)).

End model.

(* ================================================================== *)
(** * [Model.__init__] *)
(* ================================================================== *)

(** [self._pk]: ['%s:%s' % (namespace, getattr(self, pkey))]. *)
Definition _pk (cls : Model) (self : entity) : string :=
  row_key (_namespace cls)
    (match _data self !! _pkey cls with
     | Some v => py_str v
     | None => "None"
     end).

(** Modelled from the spec: [util.session], the process-local identity
    cache keyed by namespace and id.  [session.get] looks an entity up;
    [session.add] records an entity that has a primary key. *)
Definition session_get (pk : string) : M (option entity) := λ w,
  (Ok (known w !! pk), w).

Definition session_add (cls : Model) (self : entity) : M unit := λ w,
  match _data self !! _pkey cls with
  | Some _ => (Ok (), World (db w) (trace w) (<[_pk cls self := self]> (known w)))
  | None => (Ok (), w)
  end.

Section init.
Variables (cls : Model) (kwargs : gmap string pyval) (loading : bool).

(** One pass of [for attr in self._columns]. *)
Definition init_step (attr : string) (ca : Column) (self : entity) : result entity :=
  let cval := kwargs !! attr in
  if _new self && bool_decide (attr = _pkey cls) && truthy_opt cval
  then Raise (InvalidColumnValue "Cannot pass primary key on object creation")
  else
    v ← _init_ ca cval (negb (_new self));
    let data := match v with
                | Some x => <[attr := x]> (_data self)
                | None => delete attr (_data self)
                end in
    let last := match cval with
                | Some (PStr s) => <[attr := s]> (_last self)
                | Some c => <[attr := _to_redis ca c]> (_last self)
                | None => _last self
                end in
    Ok (Entity (_new self) data last (_modified self) (_deleted self) (_init self)).

Fixpoint init_loop (columns : list (string * Column)) (self : entity) : result entity :=
  match columns with
  | [] => Ok self
  | (attr, ca) :: rest =>
      self ← init_step attr ca self;
      init_loop rest self
  end.

(** The constructor [cls] called with the keyword arguments [kwargs],
    and with [_loading=True] besides when [loading]. *)
Definition __init__ : M entity :=
  let self := Entity (negb loading) ∅ ∅ false false false in
  self ← lift (init_loop (_columns cls) self);
  let self := Entity (_new self) (_data self) (_last self)
                (_modified self) (_deleted self) true in
  session_add cls self;;
  mret self.

End init.

(* ================================================================== *)
(** * [Model.get] *)
(* ================================================================== *)

(** [int(s)] for a [str] of ASCII characters: optional blanks, an
    optional sign, decimal digits that single underscores may separate,
    optional blanks.  The interpreter's limit on the number of digits
    ([sys.set_int_max_str_digits], 4300 by default from Python 3.11 on)
    is a setting of the interpreter and is not modelled. *)
Definition digit_of (c : Ascii.ascii) : option Z :=
  let n := Ascii.nat_of_ascii c in
  if bool_decide (48 ≤ n ≤ 57)%nat then Some (Z.of_nat n - 48) else None.

Definition is_blank (c : Ascii.ascii) : bool :=
  let n := Ascii.nat_of_ascii c in
  bool_decide (n = 32 ∨ 9 ≤ n ≤ 13)%nat.

Inductive int_state := AtStart | AfterSign | InDigits | AfterUnderscore | Trailing.

Fixpoint int_scan (s : string) (state : int_state) (negative : bool) (acc : Z)
  : option Z :=
  match s with
  | EmptyString =>
      match state with
      | InDigits | Trailing => Some (if negative then - acc else acc)
      | _ => None
      end
  | String c rest =>
      match digit_of c with
      | Some d =>
          match state with
          | Trailing => None
          | _ => int_scan rest InDigits negative (10 * acc + d)
          end
      | None =>
          if is_blank c then
            match state with
            | AtStart => int_scan rest AtStart negative acc
            | InDigits | Trailing => int_scan rest Trailing negative acc
            | _ => None
            end
          else if bool_decide (c = "-"%char) then
            match state with
            | AtStart => int_scan rest AfterSign true acc
            | _ => None
            end
          else if bool_decide (c = "+"%char) then
            match state with
            | AtStart => int_scan rest AfterSign false acc
            | _ => None
            end
          else if bool_decide (c = "_"%char) then
            match state with
            | InDigits => int_scan rest AfterUnderscore negative acc
            | _ => None
            end
          else None
      end
  end.

Fixpoint is_ascii (s : string) : bool :=
  match s with
  | EmptyString => true
  | String c rest => bool_decide (Ascii.nat_of_ascii c < 128)%nat && is_ascii rest
  end.

(** [int] of text with characters outside ASCII: the decimal digits and
    the blanks of Unicode are accepted as well, and which characters
    these are is in the interpreter's tables, not in [model.py].
    [int_unicode s] is the integer such a text is converted to, if
    any. *)
Class Unicode := {
  int_unicode : string → option Z
}.

(** [int(v)] *)
Definition py_int `{!Unicode} (v : pyval) : result Z :=
  match v with
  | PInt z => Ok z
  | PBool b => Ok (bool_to_Z b)
  | PStr s =>
      match int_scan s AtStart false 0 with
      | Some z => Ok z
      | None =>
          if is_ascii s then Raise ValueError
          else match int_unicode s with
               | Some z => Ok z
               | None => Raise ValueError
               end
      end
  end.

(** The argument of [get]: one id, or a list, tuple, set or frozenset
    of ids in the order it is iterated. *)
Inductive ids_arg :=
| OneId (id : pyval)
| ManyIds (ids : list pyval).

(** What [get] returns: an entity or [None], or a list of entities. *)
Inductive got :=
| GotOne (e : option entity)
| GotList (l : list entity).

Fixpoint map_result {A B} (f : A → result B) (l : list A) : result (list B) :=
  match l with
  | [] => Ok []
  | x :: rest =>
      y ← f x;
      ys ← map_result f rest;
      Ok (y :: ys)
  end.

Fixpoint map_M {A B} (f : A → M B) (l : list A) : M (list B) :=
  match l with
  | [] => mret []
  | x :: rest =>
      y ← f x;
      ys ← map_M f rest;
      mret (y :: ys)
  end.

Section get.
Context `{!Unicode}.
Variable (cls : Model).

(** [for i, data in zip(idxs, pipe.execute()): if data: out[i] = cls(...)] *)
Fixpoint update_output (fetched : list (nat * reply)) (out : list (option entity))
  : M (list (option entity)) :=
  match fetched with
  | [] => mret out
  | (i, r) :: rest =>
      match r with
      | Fields data =>
          if bool_decide (data ≠ ∅) then
            e ← __init__ cls (PStr <$> data) true;
            update_output rest (<[i := Some e]> out)
          else update_output rest out
      | _ => update_output rest out
      end
  end.

(** [out[i] is None] *)
Definition missing (out : list (option entity)) (i : nat) : bool :=
  match out !! i with
  | Some None => true
  | _ => false
  end.

Definition get (ids : ids_arg) : M got :=
  let single := match ids with OneId _ => true | ManyIds _ => false end in
  let ids := match ids with OneId id => [id] | ManyIds ids => ids end in
  ints ← lift (map_result py_int ids);
  let pks := (λ id : Z, row_key (_namespace cls) (pretty id)) <$> ints in
  out ← map_M session_get pks;
  out ← (if existsb (λ x, negb (bool_decide (is_Some x))) out then
           let idxs := filter (λ i, missing out i) (seq 0 (length out)) in
           let stack := (λ i, HGETALL (default "" (pks !! i))) <$> idxs in
           fetched ← pipe_execute pipeline0 stack;
           out ← update_output (zip idxs fetched) out;
           mret (Some <$> omap id out)
         else mret out);
  if single
  then mret (GotOne (head (omap id out)))
  else mret (GotList (omap id out)).

End get.

(* ================================================================== *)
(** * Instances for the examples *)
(* ================================================================== *)

(** A codec for manifests, for running the script on concrete stores:
    every string and list is written as its length, a separator and its
    content.  The theorems below hold for every [Cjson]. *)
Module Codec.

Definition enc_str (s : string) : string :=
  pretty (String.length s) +:+ ":" +:+ s.

Definition enc_val (v : pyval) : string :=
  match v with
  | PInt z => "i" +:+ enc_str (pretty z)
  | PStr s => "s" +:+ enc_str s
  | PBool b => if b then "t" else "f"
  end.

Definition enc_list {A} (f : A → string) (l : list A) : string :=
  pretty (length l) +:+ "[" +:+ String.concat "" (f <$> l).

Definition enc_entry (e : string * pyval) : string :=
  enc_str e.1 +:+ enc_val e.2.

Definition encode (keys scored : list string)
    (prefix suffix : list (string * pyval)) : string :=
  enc_list enc_str keys +:+ enc_list enc_str scored
  +:+ enc_list enc_entry prefix +:+ enc_list enc_entry suffix.

(** A parser reads a prefix of the text and returns the rest. *)
Definition parser (A : Type) : Type := string → option (A * string).

Fixpoint dec_nat_go (s : string) (acc : nat) (seen : bool) (stop : ascii)
  : option (nat * string) :=
  match s with
  | EmptyString => None
  | String c rest =>
      if bool_decide (c = stop) then (if seen then Some (acc, rest) else None)
      else match digit_of c with
           | Some d => dec_nat_go rest (10 * acc + Z.to_nat d)%nat true stop
           | None => None
           end
  end.

Fixpoint take_chars (n : nat) (s : string) : option (string * string) :=
  match n, s with
  | O, _ => Some (EmptyString, s)
  | S n', String c rest =>
      '(t, r) ← take_chars n' rest; Some (String c t, r)
  | S _, EmptyString => None
  end.

Definition dec_str : parser string := λ s,
  '(n, rest) ← dec_nat_go s 0 false ":"%char;
  take_chars n rest.

Definition dec_val : parser pyval := λ s,
  match s with
  | String "i" rest =>
      '(t, r) ← dec_str rest;
      z ← int_scan t AtStart false 0;
      Some (PInt z, r)
  | String "s" rest => '(t, r) ← dec_str rest; Some (PStr t, r)
  | String "t" rest => Some (PBool true, rest)
  | String "f" rest => Some (PBool false, rest)
  | _ => None
  end.

Fixpoint dec_items {A} (p : parser A) (n : nat) (s : string)
  : option (list A * string) :=
  match n with
  | O => Some ([], s)
  | S n' =>
      '(x, r) ← p s;
      '(xs, r') ← dec_items p n' r;
      Some (x :: xs, r')
  end.

Definition dec_list {A} (p : parser A) : parser (list A) := λ s,
  '(n, rest) ← dec_nat_go s 0 false "["%char;
  dec_items p n rest.

Definition dec_entry : parser (string * pyval) := λ s,
  '(a, r) ← dec_str s;
  '(v, r') ← dec_val r;
  Some ((a, v), r').

Definition decode (s : string) : option idata :=
  '(keys, r1) ← dec_list dec_str s;
  '(scored, r2) ← dec_list dec_str r1;
  match r2 with
  | EmptyString => Some (Idata2 keys scored)
  | _ =>
      '(prefix, r3) ← dec_list dec_entry r2;
      '(suffix, r4) ← dec_list dec_entry r3;
      match r4 with
      | EmptyString => Some (Idata4 keys scored prefix suffix)
      | _ => None
      end
  end.

End Codec.

(** The host's printing of the double nearest to an integer, for the
    examples: [%.17g] and [%.14g] as the C library print them. *)
Module Printf.

(** The double nearest to [a], for [0 <= a]: 53 bits are kept, a tie
    goes to the even one; [None] is infinity. *)
Definition nearest_double (a : Z) : option Z :=
  let bits := Z.log2 a + 1 in
  if bool_decide (bits ≤ 53) then Some a
  else
    let e := bits - 53 in
    let q := Z.shiftr a e in
    let r := Z.land a (Z.ones e) in
    let half := Z.shiftl 1 (e - 1) in
    let q' := if bool_decide (half < r) || (bool_decide (r = half) && Z.odd q)
              then q + 1 else q in
    let d := Z.shiftl q' e in
    if bool_decide (d < 2 ^ 1024) then Some d else None.

Fixpoint drop_zeros (s : string) : string :=
  match s with
  | String "0" rest => drop_zeros rest
  | _ => s
  end.

(** [s] without the zeros at its end. *)
Definition strip_zeros (s : string) : string :=
  String.rev (drop_zeros (String.rev s)).

(** [%.Pg] of the double nearest to [z]: the digits of the double when
    it has at most [P] of them, and otherwise its first [P] digits,
    rounded, without the zeros at their end, and the power of ten. *)
Definition fmt_g (P : nat) (z : Z) : string :=
  let sign := if bool_decide (z < 0) then "-" else "" in
  match nearest_double (Z.abs z) with
  | None => sign +:+ "inf"
  | Some a =>
      let X := (String.length (pretty a) - 1)%nat in
      if bool_decide (X < P)%nat then sign +:+ pretty a
      else
        let scale := 10 ^ Z.of_nat (X + 1 - P) in
        let q := a `div` scale in
        let r := a `mod` scale in
        let m := if bool_decide (scale < 2 * r)
                    || (bool_decide (2 * r = scale) && Z.odd q)
                 then q + 1 else q in
        let '(m, X) := if bool_decide (m = 10 ^ Z.of_nat P)
                       then (10 ^ Z.of_nat (P - 1), S X) else (m, X) in
        match pretty m with
        | EmptyString => sign
        | String d rest =>
            let frac := strip_zeros rest in
            sign +:+ String d "" +:+
            (if bool_decide (frac = "") then "" else "." +:+ frac)
            +:+ "e+" +:+ (if bool_decide (X < 10)%nat then "0" else "")
            +:+ pretty X
        end
  end.

End Printf.

Definition example_cjson : Cjson := {|
  cjson_encode := Codec.encode;
  cjson_decode := Codec.decode;
  redis_number := Printf.fmt_g 17;
  lua_tostring := Printf.fmt_g 14
|}.

(** The text of the examples is ASCII. *)
Definition example_unicode : Unicode := {|
  int_unicode := λ _, None
|}.

(** Scores and composite keys for the examples: the length of the
    token's text, and the values joined by [":"]. *)
Definition example_util : Util := {|
  _prefix_score := λ v, Z.of_nat (String.length (py_str v));
  _encode_unique_constraint := String.concat ":"
|}.

(** Column types for the examples: stand-ins for the column classes
    of [columns.py], which accept every value they are given. *)
Definition unindexed (to : pyval → string) (from : string → pyval) : Column := {|
  _index := false; _prefix := false; _suffix := false;
  _keygen := None;
  _to_redis := to;
  _from_redis := from;
  _init_ := λ cval loading,
    Ok (match cval with
        | Some (PStr s) => if loading then Some (from s) else cval
        | _ => cval
        end)
|}.

Definition int_from_redis (s : string) : pyval :=
  match int_scan s AtStart false 0 with
  | Some z => PInt z
  | None => PStr s
  end.

Definition Integer : Column := unindexed py_str int_from_redis.
Definition String_ : Column := unindexed py_str PStr.

(** A secondary index that queues nothing, for the path without Lua. *)
Definition no_gindex : GeneralIndex := {|
  gindex_index := λ _ _ _ _ _ _, [];
  gindex_unindex := λ _ _, []
|}.

(** A string column with an index and a prefix index over the whole
    value. *)
Definition IndexedString : Column := {|
  _index := true; _prefix := true; _suffix := false;
  _keygen := Some (CUSTOM, λ v, GSeq [py_str v]);
  _to_redis := py_str;
  _from_redis := PStr;
  _init_ := λ cval loading, Ok cval
|}.

(** [class User(Model)] with a unique [email], an indexed [name], and
    [unique_together = [('x', 'y')]]. *)
Definition User : Model := {|
  _namespace := "User";
  _pkey := "id";
  _columns := [("email", String_); ("name", IndexedString);
               ("x", Integer); ("y", Integer); ("id", Integer)];
  _unique := {["email"]};
  _cunique := {[ ["x"; "y"] ]};
  _gindex := no_gindex
|}.

(** The same columns without the composite constraint, as the path
    without Lua requires. *)
Definition Account : Model := {|
  _namespace := "Account";
  _pkey := "id";
  _columns := [("email", String_); ("id", Integer)];
  _unique := {["email"]};
  _cunique := ∅;
  _gindex := no_gindex
|}.

Definition empty_world : world := World ∅ [] ∅.

(** A first user, new, and the world after it was saved. *)
Definition alice_data : gmap string pyval :=
  <["id" := PInt 1]> (<["email" := PStr "a@x"]> (<["name" := PStr "al"]>
  (<["x" := PInt 1]> (<["y" := PInt 2]> ∅)))).

Definition alice_new : entity := Entity true alice_data ∅ false false true.

Definition alice_saved : result (nat * entity) * world :=
  @save example_cjson example_util true [] User alice_new false empty_world.

Definition world1 : world := alice_saved.2.

Definition alice : entity :=
  match alice_saved.1 with
  | Ok (_, self) => self
  | Raise _ => alice_new
  end.

(** A user constructed with the id 0. *)
Definition zero_data : gmap string pyval :=
  <["id" := PInt 0]> (<["email" := PStr "z@x"]> ∅).

(** A second user with the email of the first. *)
Definition bob_data : gmap string pyval :=
  <["id" := PInt 2]> (<["email" := PStr "a@x"]> ∅).

Definition bob_new : entity := Entity true bob_data ∅ false false true.

(** Two accounts with the empty string as email, the first saved
    without Lua. *)
Definition carol_new : entity :=
  Entity true (<["id" := PInt 1]> (<["email" := PStr ""]> ∅)) ∅ false false true.

Definition dave_new : entity :=
  Entity true (<["id" := PInt 2]> (<["email" := PStr ""]> ∅)) ∅ false false true.

Definition carol_saved : result (nat * entity) * world :=
  @save example_cjson example_util false [] Account carol_new false empty_world.

Definition world_carol : world := carol_saved.2.

(** Two accounts with the same non-empty email. *)
Definition erin_new : entity :=
  Entity true (<["id" := PInt 1]> (<["email" := PStr "e@x"]> ∅)) ∅ false false true.

Definition frank_new : entity :=
  Entity true (<["id" := PInt 2]> (<["email" := PStr "e@x"]> ∅)) ∅ false false true.

Definition erin_saved : result (nat * entity) * world :=
  @save example_cjson example_util false [] Account erin_new false empty_world.

Definition world_erin : world := erin_saved.2.

(** The commands a call added to the trace. *)
Definition issued {A} (m : M A) (w : world) : list command :=
  drop (length (trace w)) (trace (m w).2).

Definition outcome {A} (m : M A) (w : world) : result A := (m w).1.

Definition from_result {A} (d : A) (r : result A) : A :=
  match r with
  | Ok a => a
  | Raise _ => d
  end.

(** What [_apply_changes] computes and does for the first save of the
    first user, and for its deletion afterwards. *)
Definition alice_changes : locals :=
  from_result locals0
    (@compute_changes example_util true User ∅ alice_data true false (PInt 1)).

Definition alice_applied : result (nat * gmap string string) * world :=
  @_apply_changes example_cjson example_util true [] User ∅ alice_data
    true false empty_world.

Definition alice_deleted : result (nat * gmap string string) * world :=
  @_apply_changes example_cjson example_util true [] User (_last alice) ∅
    false true world1.

Definition bob_changes : locals :=
  from_result locals0
    (@compute_changes example_util true User ∅ bob_data true false (PInt 2)).

(** The first user after [y] was set to 3. *)
Definition alice_moved_data : gmap string pyval := <["y" := PInt 3]> alice_data.

Definition moved_changes : locals :=
  from_result locals0
    (@compute_changes example_util true User (_last alice) alice_moved_data
       false false (PStr "1")).

(** A third user with [x] of the first and no [y]. *)
Definition gail_data : gmap string pyval :=
  <["id" := PInt 3]> (<["email" := PStr "g@x"]> (<["x" := PInt 1]> ∅)).

Definition gail_changes : locals :=
  from_result locals0
    (@compute_changes example_util true User ∅ gail_data true false (PInt 3)).

(** The store of [world1] after another client removed the manifest
    entry of the first user. *)
Definition world1_without_manifest : world :=
  World (replay [HDEL "User::" ["1"]] (db world1)) (trace world1) (known world1).

(* ================================================================== *)
(** * Predicates the theorems are stated with *)
(* ================================================================== *)

(** What a pass of the loop is when [use_lua] is true. *)
Definition lua_attempt `{!Cjson, !Util} (cls : Model) (old : gmap string string)
    (new : gmap string pyval) (full delete : bool) (pk : pyval)
  : M (nat * gmap string string) :=
  l ← lift (compute_changes true cls old new full delete pk);
  redis_writer_lua (_namespace cls) (py_str pk) (unique l) (udeleted l)
    (deleted l) (data l) (elements (keys l)) (scores l) (prefix l) (suffix l)
    delete;;
  mret (changes l, redis_data l).

(** The commands on sets and sorted sets. *)
Definition is_index_cmd (c : command) : bool :=
  match c with
  | SADD _ _ | SREM _ _ | ZADD _ _ _ | ZREM _ _ => true
  | _ => false
  end.

(** [m] keeps [Q] true of the data, whether it returns or raises. *)
Definition preserves {A} (Q : store → Prop) (m : M A) : Prop :=
  ∀ w, Q (db w) → Q (db (m w).2).

(** [m] leaves the session alone and extends the trace by commands
    that satisfy [P]. *)
Definition emits {A} (P : command → Prop) (m : M A) : Prop :=
  ∀ w, ∃ cs, trace (m w).2 = trace w ++ cs ∧ Forall P cs.

(** The last character of a string. *)
Fixpoint last_char (s : string) : option ascii :=
  match s with
  | EmptyString => None
  | String c EmptyString => Some c
  | String _ rest => last_char rest
  end.

Definition is_digit (c : ascii) : Prop := is_Some (digit_of c).

(** The entry [F] of the hash at [K] is owned by [owner]. *)
Definition owned (K F owner : string) (st : store) : Prop :=
  hget st K F = Some owner.

(** A loop whose body runs one command per element, where the command
    can be formed. *)
Definition call_or_fail {A} (cmd : A → option command) (x : A) : M unit :=
  match cmd x with
  | Some c => call c;; mret ()
  | None => raise ResponseError
  end.

(** The commands that add an index entry. *)
Definition is_index_add (c : command) : bool :=
  match c with
  | SADD _ _ | ZADD _ _ _ => true
  | _ => false
  end.

(** The index entries an apply writes, as the commands that write them. *)
Definition index_adds `{!Cjson, !Util} (namespace id : string) (nkeys : list string)
    (scored : list (string * Z)) (prefix suffix : list (string * pyval))
  : option (list command) :=
  pre ← mapM (λ e : string * pyval,
                s ← lua_format_s e.2;
                Some (ZADD (pre_key namespace e.1) (_prefix_score e.2)
                        (s +:+ NUL +:+ id))) prefix;
  suf ← mapM (λ e : string * pyval,
                s ← lua_format_s e.2;
                Some (ZADD (suf_key namespace e.1) (_prefix_score e.2)
                        (s +:+ NUL +:+ id))) suffix;
  Some (((λ k, SADD (idx_key namespace k) id) <$> nkeys)
        ++ ((λ ks : string * Z, ZADD (idx_key namespace ks.1) ks.2 id) <$> scored)
        ++ pre ++ suf).

(** The index entries among the locals. *)
Definition index_entries (l : locals)
  : gset string * gmap string Z * list (string * pyval) * list (string * pyval) :=
  (keys l, scores l, prefix l, suffix l).

(** What the locals hold for the unique index named [attr]. *)
Definition unique_entries (attr : string) (l : locals)
  : option string * option pyval :=
  (unique l !! attr, udeleted l !! attr).

(** The entries a group gets from its own pass of the loop. *)
Definition group_entries `{!Util} (old : gmap string string) (uniq : list string)
    (ndata : list (option string))
  : option string * option pyval :=
  let odata := (λ c, old !! c) <$> uniq in
  (if no_None ndata
   then Some (_encode_unique_constraint (the_values ndata)) else None,
   if bool_decide (odata ≠ ndata) && no_None odata
   then Some (PStr (_encode_unique_constraint (the_values odata))) else None).

(** The exceptions of the script are error replies, and computing the
    changes raises no [UniqueKeyViolation]. *)
Definition raises_only {A} (P : exn → Prop) (m : M A) : Prop :=
  ∀ w e w', m w = (Raise e, w') → P e.

(** The part of the locals that becomes writes to the entity row. *)
Definition row_changes (l : locals) : nat * gmap string string * list string :=
  (changes l, data l, deleted l).

(** The commands that are not addressed to the key [row]. *)
Definition no_row_write (row : string) (c : command) : Prop :=
  command_key c ≠ Some row.

(** The ids [get] is given, in the order it converts them. *)
Definition ids_of (ids : ids_arg) : list pyval :=
  match ids with
  | OneId id => [id]
  | ManyIds ids => ids
  end.

(** The entity [__init__] builds, apart from recording it in the
    session. *)
Definition construct (cls : Model) (kwargs : gmap string pyval) (loading : bool)
  : result entity :=
  self ← init_loop cls kwargs (_columns cls)
           (Entity (negb loading) ∅ ∅ false false false);
  Ok (Entity (_new self) (_data self) (_last self)
        (_modified self) (_deleted self) true).

Section resolve.
Variables (cls : Model) (w : world).

(** The key of the row of id [n]. *)
Definition pk_of (n : Z) : string := row_key (_namespace cls) (pretty n).

(** The entity an id stands for: the one the session holds, else the
    one built from its row when the row has fields. *)
Definition resolve (n : Z) : option entity :=
  match known w !! pk_of n with
  | Some e => Some e
  | None =>
      match hash_at (db w) (pk_of n) with
      | Some h =>
          if decide (h = ∅) then None
          else match construct cls (PStr <$> h) true with
               | Ok e => Some e
               | Raise _ => None
               end
      | None => None
      end
  end.

(** An id whose lookup runs into no error: the session holds it, or
    its key holds no value of another type and an entity can be built
    from the fields there. *)
Definition loadable (n : Z) : Prop :=
  is_Some (known w !! pk_of n)
  ∨ ∃ h, hash_at (db w) (pk_of n) = Some h
         ∧ (h = ∅ ∨ ∃ e, construct cls (PStr <$> h) true = Ok e).

End resolve.

(** The updates of [update_output] as a function of the list. *)
Definition updated (cls : Model) (i : nat) (r : reply) (out : list (option entity))
  : list (option entity) :=
  match r with
  | Fields h =>
      if decide (h = ∅) then out
      else match construct cls (PStr <$> h) true with
           | Ok e => <[i := Some e]> out
           | Raise _ => out
           end
  | _ => out
  end.

(* ================================================================== *)
(** * What a run that returns has established *)
(* ================================================================== *)

(** When [m] is run on data that satisfies [P] and returns [a], the
    data satisfies [Q a]. *)
Definition ensures {A} (P : store → Prop) (m : M A) (Q : A → store → Prop)
  : Prop :=
  ∀ w a w', P (db w) → m w = (Ok a, w') → Q a (db w').

(** [m] is a member of the set at [K]. *)
Definition member_at (st : store) (K m : string) : Prop :=
  ∃ S : gset string, st !! K = Some (RSet S) ∧ m ∈ S.

(** The keys of the set indexes a stored manifest names. *)
Definition idata_keys (d : idata) : list string :=
  match d with
  | Idata2 keys _ => keys
  | Idata4 keys _ _ _ => keys
  end.

(** The field [f] of the entity row after the script has run with
    [data] and [deleted], where it was [before]. *)
Definition row_field_after (data : gmap string string) (deleted : list string)
    (f : string) (before : option string) : option string :=
  match data !! f with
  | Some v => Some v
  | None => if bool_decide (f ∈ deleted) then None else before
  end.

(** The script from "remove old index data" to its last line. *)
Definition script_tail `{!Cjson} (namespace id : string) (nkeys : list string)
    (scored : gmap string Z) (prefix suffix : list (string * pyval * Z))
    (is_delete : bool) : M script_result :=
  remove_old_index namespace id;;
  when is_delete
    (call (DEL (row_key namespace id));;
     call (HDEL (manifest_key namespace) [id]);; mret ());;
  add_new_index namespace id nkeys (map_to_list scored) prefix suffix;;
  when (negb is_delete)
    (call (HSET (manifest_key namespace) id
             (cjson_encode nkeys (map_to_list scored).*1 prefix.*1 suffix.*1));;
     mret ());;
  mret (Count (Z.of_nat (length nkeys + length (map_to_list scored).*1
                         + length prefix.*1 + length suffix.*1))).

(** [m] changes the data by the commands it adds to the trace, and
    these satisfy [P]. *)
Definition runs {A} (P : command → Prop) (m : M A) : Prop :=
  ∀ w, ∃ cs, trace (m w).2 = trace w ++ cs
             ∧ db (m w).2 = replay cs (db w)
             ∧ Forall P cs.

(** A property of the data that only a write to the hash at [K] can
    change. *)
Definition hash_stable (K : string) (Q : store → Prop) : Prop :=
  ∀ c st,
    command_key c ≠ Some K ∨ is_index_cmd c = true ∨ is_write c = false →
    Q st → Q (step c st).

(* ================================================================== *)
(** * The columns a pass of [_apply_changes] counts *)
(* ================================================================== *)

(** [nval == oval and not full] is false for the column: the pass goes
    on to [changes += 1]. *)
Definition changed (old : gmap string string) (new : gmap string pyval)
    (full : bool) (ac : string * Column) : bool :=
  negb (py_eq_opt (new !! ac.1) (_from_redis ac.2 <$> old !! ac.1) && negb full).

(** What a pass of [_apply_changes] with Lua puts in [unique] and in
    [udeleted] under the name of a unique column that counts as
    changed. *)
Definition column_entries (old : gmap string string) (new : gmap string pyval)
    (attr : string) (ca : Column) : option string * option pyval :=
  (_to_redis ca <$> new !! attr,
   match new !! attr, old !! attr with
   | None, Some ro => Some (PStr ro)
   | Some v, Some ro =>
       if bool_decide (ro ≠ _to_redis ca v) then Some (_from_redis ca ro) else None
   | _, None => None
   end).

(* ================================================================== *)
(** * [Model.delete] and [Model.refresh] *)
(* ================================================================== *)

(** [Model.delete].  [columns._on_delete] and [session.forget] belong to
    other modules and are parameters; [skip] is
    [kwargs.get('skip_on_delete_i_really_mean_it') is SKIP_ON_DELETE].
    The entity returned is [self] after the call. *)
Definition entity_delete `{!Cjson, !Util} (use_lua : bool)
    (sched : list interference) (cls : Model)
    (_on_delete forget : entity → M unit) (skip : bool) (self : entity)
  : M entity :=
  (if skip then mret () else _on_delete self);;
  forget self;;
  _apply_changes use_lua sched cls (_last self) ∅ false true;;
  mret (Entity (_new self) (_data self) (_last self) true true (_init self)).

(** [exceptions.InvalidOperation], which [refresh] raises, besides the
    exceptions of the write path. *)
Inductive refresh_exn :=
| Raised (e : exn)
| InvalidOperation (msg : string).

(** What a call of [refresh] comes to: it returns with [self] as it is
    then, or raises. *)
Inductive refreshed :=
| Refreshed (self : entity)
| RefreshRaise (e : refresh_exn).

(** [Model.refresh]: [self.__init__(_loading=True, **data)] sets the
    attributes of [self] anew. *)
Definition refresh (cls : Model) (self : entity) (force : bool)
  : world → refreshed * world := λ w,
  if _deleted self then (Refreshed self, w)
  else if _modified self && negb force
  then (RefreshRaise (InvalidOperation
          "Cannot refresh a modified entity without passing force=True to override modified data"), w)
  else if _new self
  then (RefreshRaise (InvalidOperation "Cannot refresh a new entity"), w)
  else
    match call (HGETALL (_pk cls self)) w with
    | (Ok (Fields data), w1) =>
        match __init__ cls (PStr <$> data) true w1 with
        | (Ok self', w2) => (Refreshed self', w2)
        | (Raise e, w2) => (RefreshRaise (Raised e), w2)
        end
    | (Ok _, w1) => (RefreshRaise (Raised ResponseError), w1)
    | (Raise e, w1) => (RefreshRaise (Raised e), w1)
    end.

(* ================================================================== *)
(** * [_ModelMetaclass.__new__]: multi-column uniqueness constraints *)
(* ================================================================== *)

(** The value of the class attribute [unique_together]: one list or
    tuple of column names, or a list of such. *)
Inductive unique_together :=
| OneGroup (comp : list string)
| Groups (comps : list (list string)).

(** [tuple(sorted(set(comp)))]; strings compare by their characters in
    order. *)
Definition sorted_set (comp : list string) : list string :=
  merge_sort (λ a b : string, String.leb a b) (remove_dups comp).

(** [for col in key: if col not in columns: raise ColumnError(...)].
    The messages of this part are cut at their first format field. *)
Fixpoint check_columns (columns : list (string * Column)) (key : list string)
  : result unit :=
  match key with
  | [] => Ok ()
  | col :: rest =>
      if bool_decide (col ∈ columns.*1) then check_columns columns rest
      else Raise (ColumnError "Multi-column unique index ")
  end.

(** The loop over [composite_unique], from the [seen] and the [cunique]
    reached so far. *)
Fixpoint cunique_groups (columns : list (string * Column))
    (composite_unique : list (list string))
    (seen : gmap (list string) (list string)) (cunique : gset (list string))
  : result (gset (list string)) :=
  match composite_unique with
  | [] => Ok cunique
  | comp :: rest =>
      let key := sorted_set comp in
      if bool_decide (length key = 1%nat)
      then Raise (ColumnError "Single-column unique constraint: ")
      else if bool_decide (is_Some (seen !! key))
      then Raise (ColumnError "Multi-column unique constraint: ")
      else
        match check_columns columns key with
        | Raise e => Raise e
        | Ok _ => cunique_groups columns rest (<[key := comp]> seen)
                    ({[key]} ∪ cunique)
        end
  end.

(** What the metaclass makes of [unique_together]: a value that is true
    and whose first item is a string is one constraint. *)
Definition composite_list (ut : unique_together) : list (list string) :=
  match ut with
  | OneGroup [] => []
  | OneGroup comp => [comp]
  | Groups comps => comps
  end.

(** "handle multi-column uniqueness constraints": the [_cunique] of the
    class, or the ColumnError raised. *)
Definition composite_unique (columns : list (string * Column))
    (ut : unique_together) : result (gset (list string)) :=
  cunique_groups columns (composite_list ut) ∅ ∅.

(* ================================================================== *)
(** * Further examples *)
(* ================================================================== *)

(** The first user after its email was set to ["b@x"], and what
    [_apply_changes] does for it. *)
Definition alice_renamed_data : gmap string pyval :=
  <["email" := PStr "b@x"]> alice_data.

Definition alice_edited : entity :=
  Entity false alice_renamed_data (_last alice) true false true.

Definition alice_renamed : result (nat * gmap string string) * world :=
  @_apply_changes example_cjson example_util true [] User (_last alice)
    alice_renamed_data false false world1.

(** The arguments of the script for that change, with no index key. *)
Definition rename_script : M unit :=
  @redis_writer_lua example_cjson example_util "User" (pretty 1)
    {["email" := "b@x"]} {["email" := PStr "a@x"]} [] {["email" := "b@x"]}
    [] ∅ [] [] false.

(** A call of the script that gives the first user the index key ["k"] and
    no other. *)
Definition reindex_script : M unit :=
  @redis_writer_lua example_cjson example_util "User" (pretty 1)
    ∅ ∅ [] ∅ ["k"] ∅ [] [] false.

(** The manifest entry of the first user in [world1]. *)
Definition alice_manifest : string :=
  default "" (hget (db world1) (manifest_key "User") "1").

Definition alice_idata : idata :=
  default (Idata2 [] []) (@cjson_decode example_cjson alice_manifest).

(** The row of the first user in [world1], and the entity built from
    it. *)
Definition alice_row : gmap string string :=
  default ∅ (hash_at (db world1) (row_key "User" "1")).

Definition alice_loaded : entity :=
  from_result alice_new (construct User (PStr <$> alice_row) true).

(** A user with no primary key. *)
Definition nobody : entity :=
  Entity true (<["email" := PStr "n@x"]> ∅) ∅ false false true.

(** [world1] after another client deleted the row of the first user. *)
Definition world1_without_row : world :=
  World (replay [DEL (row_key "User" "1")] (db world1)) (trace world1)
    (known world1).

(** A second account with an email of its own, and another client that
    claims a third email while the second account is saved. *)
Definition george_data : gmap string pyval :=
  <["id" := PInt 2]> (<["email" := PStr "g@x"]> ∅).

Definition george_changes : locals :=
  from_result locals0
    (@compute_changes example_util false Account ∅ george_data true false
       (PInt 2)).

Definition rival : interference :=
  Interference [] [HSET (uidx_key "Account" "email") "z@x" "9"].

(** The deletion of the first user, with nothing to do on delete and a
    session that holds nothing. *)
Definition alice_removed : result entity * world :=
  @entity_delete example_cjson example_util true [] User
    (λ _, mret ()) (λ _, mret ()) false alice world1.

(* ================================================================== *)
(** * A run of the script that the server does not refuse *)
(* ================================================================== *)

(** The type of the value a key holds. *)
Inductive kind := KHash | KSet | KZSet.

#[global] Instance kind_eq_dec : EqDecision kind.
Proof. solve_decision. Defined.

Definition kind_of (v : rvalue) : kind :=
  match v with
  | RHash _ => KHash
  | RSet _ => KSet
  | RZSet _ => KZSet
  end.

(** Every key of the data holds a value of the type [ty] gives it. *)
Definition typed (ty : string → kind) (st : store) : Prop :=
  map_Forall (λ k v, kind_of v = ty k) st.

(** A command for a key of its type, with the arguments its arity
    requires: the server answers it with no error on typed data. *)
Definition accepted (ty : string → kind) (c : command) : Prop :=
  match c with
  | HGET k _ | HGETALL k | HSET k _ _ => ty k = KHash
  | HMSET k args => ty k = KHash ∧ args ≠ [] ∧ is_Some (pairs_of args)
  | HDEL k fields => ty k = KHash ∧ fields ≠ []
  | SADD k _ | SREM k _ => ty k = KSet
  | ZADD k _ _ | ZREM k _ => ty k = KZSet
  | DEL _ | WATCH _ | UNWATCH | MULTI | EXEC => True
  end.

(** From every world whose data satisfy [P], [m] returns, with data
    that satisfy [Q]. *)
Definition succeeds {A} (P : store → Prop) (m : M A) (Q : A → store → Prop)
  : Prop :=
  ∀ w, P (db w) → ∃ a w', m w = (Ok a, w') ∧ Q a (db w').

(** An index entry of a column: its key holds a sorted set and its
    token can be printed by [string.format]. *)
Definition token_kinded `{!Cjson} (ty : string → kind)
    (key : string → string) (entry : string * pyval) : Prop :=
  ty (key entry.1) = KZSet ∧ is_Some (lua_format_s entry.2).

(** The index entries a stored manifest names are of the types the
    script removes them from. *)
Definition manifest_kinded `{!Cjson} (ty : string → kind) (namespace : string)
    (d : idata) : Prop :=
  let '(keys, scored, prefix, suffix) :=
    match d with
    | Idata2 k s => (k, s, [], [])
    | Idata4 k s p f => (k, s, p, f)
    end in
  Forall (λ k, ty (idx_key namespace k) = KSet) keys
  ∧ Forall (λ k, ty (idx_key namespace k) = KZSet) scored
  ∧ Forall (token_kinded ty (pre_key namespace)) prefix
  ∧ Forall (token_kinded ty (suf_key namespace)) suffix.

(** The data [st] and the changes [l] of the entity [id] are such that
    the server refuses no command of the script: the data are typed by
    [ty], every key the script names for [l] is of the type of its
    command, the values it prints can be printed, and the manifest entry
    of the entity, if any, can be decoded and names keys of the types of
    their commands. *)
Definition serves `{!Cjson} (ty : string → kind) (namespace id : string)
    (l : locals) (st : store) : Prop :=
  typed ty st
  ∧ map_Forall (λ col _, ty (uidx_key namespace col) = KHash) (unique l)
  ∧ map_Forall (λ col v, ty (uidx_key namespace col) = KHash
                         ∧ is_Some (lua_arg_s v)) (udeleted l)
  ∧ ty (row_key namespace id) = KHash
  ∧ ty (manifest_key namespace) = KHash
  ∧ Forall (λ k, ty (idx_key namespace k) = KSet) (elements (keys l))
  ∧ map_Forall (λ k _, ty (idx_key namespace k) = KZSet) (scores l)
  ∧ Forall (token_kinded ty (pre_key namespace)) (prefix l)
  ∧ Forall (token_kinded ty (suf_key namespace)) (suffix l)
  ∧ match hget st (manifest_key namespace) id with
    | Some s =>
        match cjson_decode s with
        | Some d => manifest_kinded ty namespace d
        | None => False
        end
    | None => True
    end.

(** Every entry [unique] names is free, or belongs to [id] already. *)
Definition unclaimed (namespace id : string) (unique : gmap string string)
    (st : store) : Prop :=
  map_Forall (λ col v, hget st (uidx_key namespace col) v = None
                       ∨ hget st (uidx_key namespace col) v = Some id) unique.

(** A command that, when it is addressed to the hash at [K], reads an
    entry or removes entries: it sets none. *)
Definition sets_no_entry (K : string) (c : command) : Prop :=
  command_key c = Some K →
  match c with
  | HGET _ _ | HDEL _ _ => True
  | _ => False
  end.

(** The types of the keys of [User]: the sets of the index of [name],
    the sorted set of its prefixes, and hashes. *)
Definition user_kinds (k : string) : kind :=
  if bool_decide (k = pre_key "User" "name") then KZSet
  else if bool_decide (k ∈ [idx_key "User" "name:al"; idx_key "User" "name:hal"])
       then KSet
       else KHash.

(** A user with the [x] and the email of the first and no [y], and the
    changes of its first save. *)
Definition hal_data : gmap string pyval :=
  <["id" := PInt 4]> (<["email" := PStr "a@x"]> (<["name" := PStr "hal"]>
  (<["x" := PInt 1]> ∅))).

Definition hal_new : entity := Entity true hal_data ∅ false false true.

(** A user with the [x] of the first, no [y] and an email of its own. *)
Definition ida_data : gmap string pyval :=
  <["id" := PInt 5]> (<["email" := PStr "i@x"]> (<["name" := PStr "al"]>
  (<["x" := PInt 1]> ∅))).

Definition ida_new : entity := Entity true ida_data ∅ false false true.

Definition ida_changes : locals :=
  from_result locals0
    (@compute_changes example_util true User ∅ ida_data true false (PInt 5)).

Definition ida_applied : result (nat * gmap string string) * world :=
  @_apply_changes example_cjson example_util true [] User ∅ ida_data
    true false world1.

(** [class Counter(Model)] with a unique integer [n]; a counter whose
    [n] is 10**17, saved, and the save after [n] was set to 5. *)
Definition Counter : Model := {|
  _namespace := "Counter";
  _pkey := "id";
  _columns := [("n", Integer); ("id", Integer)];
  _unique := {["n"]};
  _cunique := ∅;
  _gindex := no_gindex
|}.

Definition large_new : entity :=
  Entity true (<["id" := PInt 1]> (<["n" := PInt (10 ^ 17)]> ∅)) ∅
    false false true.

Definition large_saved : result (nat * entity) * world :=
  @save example_cjson example_util true [] Counter large_new false empty_world.

Definition large : entity :=
  match large_saved.1 with
  | Ok (_, self) => self
  | Raise _ => large_new
  end.

Definition large_reset : entity :=
  Entity false (<["n" := PInt 5]> (_data large)) (_last large) true false true.

(* ================================================================== *)
(** * Reasoning in the monad *)
(* ================================================================== *)

Lemma bind_unfold {A B} (m : M A) (f : A → M B) (w : world) :
  (m ≫= f) w = match m w with
               | (Ok a, w') => f a w'
               | (Raise e, w') => (Raise e, w')
               end.
Proof. reflexivity. Qed.

Lemma ret_unfold {A} (a : A) (w : world) : (mret a : M A) w = (Ok a, w).
Proof. reflexivity. Qed.

Lemma call_unfold (c : command) (w : world) :
  call c w = match exec c (db w) with
             | Some (r, st) => (Ok r, World st (trace w ++ [c]) (known w))
             | None => (Raise ResponseError, World (db w) (trace w ++ [c]) (known w))
             end.
Proof. reflexivity. Qed.

(** The owner read by HGET is the one [hget] names. *)
Lemma hget_hash_at st key field h :
  hash_at st key = Some h → hget st key field = h !! field.
Proof.
  unfold hash_at, hget. destruct (st !! key) as [[]|]; intros; simplify_eq; done.
Qed.

Lemma exec_HGET st key field h :
  hash_at st key = Some h →
  exec (HGET key field) st = Some (from_option Bulk Nil (h !! field), st).
Proof. intros Hh. simpl. by rewrite Hh. Qed.

(* ================================================================== *)
(** * The check pass of the script *)
(* ================================================================== *)

Section check.
Context `{!Cjson}.
Variables (namespace id : string).

(** The pass with [write = false] only reads.  It stops at an entry
    owned by another id; when it runs to the end, no entry is. *)
Lemma unique_pass_check (l : list (string * string)) (w : world) :
  ∃ reads,
    (unique_pass namespace id false l w).2
      = World (db w) (trace w ++ reads) (known w)
    ∧ Forall (λ c, is_write c = false) reads
    ∧ match (unique_pass namespace id false l w).1 with
      | Ok (Some col) =>
          ∃ v o, (col, v) ∈ l
                 ∧ hget (db w) (uidx_key namespace col) v = Some o ∧ o ≠ id
      | Ok None =>
          ∀ c v o, (c, v) ∈ l →
                   hget (db w) (uidx_key namespace c) v = Some o → o = id
      | Raise _ =>
          ¬ ∀ c v, (c, v) ∈ l →
                   is_Some (hash_at (db w) (uidx_key namespace c))
      end.
Proof.
  revert w. induction l as [|[col value] rest IH]; intros w.
  - exists []. simpl. rewrite app_nil_r. destruct w; repeat split; auto.
    intros c v o Hin. by apply elem_of_nil in Hin.
  - destruct (IH (World (db w) (trace w ++ [HGET (uidx_key namespace col) value])
                    (known w))) as (reads & Hw & Hreads & Hres).
    cbn [db trace known] in Hw, Hres.
    cbn [unique_pass]. rewrite bind_unfold, call_unfold.
    destruct (hash_at (db w) (uidx_key namespace col)) as [h|] eqn:Hh; last first.
    { exists [HGET (uidx_key namespace col) value].
      cbn [exec]. rewrite Hh. cbn [mbind option_bind fst snd].
      repeat split; [by repeat constructor|].
      intros Htyped. destruct (Htyped col value) as [h Hh']; [set_solver|].
      congruence. }
    pose proof (hget_hash_at _ _ value _ Hh) as Hget.
    rewrite (exec_HGET _ _ _ h Hh).
    destruct (unique_pass namespace id false rest _) as [r w2] eqn:Hrest.
    cbn [fst snd] in Hw, Hres. subst w2.
    assert (Hnext :
      ∃ reads0, World (db w) ((trace w ++ [HGET (uidx_key namespace col) value]) ++ reads)
                  (known w) = World (db w) (trace w ++ reads0) (known w)
                ∧ Forall (λ c, is_write c = false) reads0).
    { exists (HGET (uidx_key namespace col) value :: reads).
      rewrite <- app_assoc. split; [done|]. by constructor. }
    destruct Hnext as (reads0 & Heq & Hreads0).
    destruct (h !! value) as [owner|] eqn:Hown; cbn [from_option].
    + case_bool_decide as Hne.
      * exists [HGET (uidx_key namespace col) value]. rewrite ret_unfold.
        cbn [fst snd]. repeat split; [by repeat constructor|].
        exists value, owner. repeat split; auto. set_solver.
      * rewrite Hrest. cbn [fst snd]. exists reads0. rewrite Heq.
        repeat split; [done|]. destruct r as [[c'|]|]; auto.
        -- destruct Hres as (v & o & Hin & Ho & Hneq).
           exists v, o. repeat split; auto. set_solver.
        -- intros c v o Hin Ho. apply elem_of_cons in Hin as [Heq'|Hin].
           ++ by simplify_eq.
           ++ by apply (Hres c v o).
        -- intros Htyped. apply Hres. intros c v Hin. apply (Htyped c v). set_solver.
    + rewrite Hrest. cbn [fst snd]. exists reads0. rewrite Heq.
      repeat split; [done|]. destruct r as [[c'|]|]; auto.
      * destruct Hres as (v & o & Hin & Ho & Hneq).
        exists v, o. repeat split; auto. set_solver.
      * intros c v o Hin Ho. apply elem_of_cons in Hin as [Heq'|Hin].
        -- simplify_eq.
        -- by apply (Hres c v o).
      * intros Htyped. apply Hres. intros c v Hin. apply (Htyped c v). set_solver.
Qed.

End check.

(* ================================================================== *)
(** * The path with Lua runs the script once *)
(* ================================================================== *)

Section lua_path.
Context `{!Cjson, !Util}.
Variables (cls : Model) (old : gmap string string) (new : gmap string pyval).
Variables (full delete : bool) (pk : pyval).

Lemma attempt_lua (iv : interference) (w : world) :
  attempt true cls old new full delete pk iv w
  = match lua_attempt cls old new full delete pk w with
    | (Ok ret, w') => (Ok (Some ret), w')
    | (Raise e, w') => (Raise e, w')
    end.
Proof.
  unfold attempt, lua_attempt, lift. rewrite !andb_false_r.
  cbv [mbind M_bind mret M_ret].
  destruct (compute_changes _ _ _ _ _ _ _) as [l|e]; [|done].
  destruct (redis_writer_lua _ _ _ _ _ _ _ _ _ _ _ w) as [[[]|e] w']; done.
Qed.

Lemma apply_loop_lua (sched : list interference) (w : world) :
  apply_loop true cls old new full delete pk sched w
  = lua_attempt cls old new full delete pk w.
Proof.
  destruct sched as [|iv rest]; cbn [apply_loop];
    rewrite bind_unfold, attempt_lua;
    destruct (lua_attempt _ _ _ _ _ _ w) as [[ret|e] w']; done.
Qed.

End lua_path.

Lemma apply_changes_lua `{!Cjson, !Util} sched cls old new full delete pk w :
  primary_key cls old new = Some pk →
  truthy pk = true →
  _apply_changes true sched cls old new full delete w
  = lua_attempt cls old new full delete pk w.
Proof.
  intros Hpk Ht. unfold _apply_changes. rewrite Hpk, Ht. apply apply_loop_lua.
Qed.

(* ================================================================== *)
(** * A conflict aborts the script before any write *)
(* ================================================================== *)

Section conflict.
Context `{!Cjson}.
Variables (namespace id : string).

Lemma script_conflict unique udeleted deleted data nkeys scored prefix suffix
    is_delete (w : world) col value owner :
  unique !! col = Some value →
  hget (db w) (uidx_key namespace col) value = Some owner →
  owner ≠ id →
  (∀ c v, unique !! c = Some v →
          is_Some (hash_at (db w) (uidx_key namespace c))) →
  ∃ c v o reads,
    _redis_writer_lua namespace id unique udeleted deleted data nkeys scored
      prefix suffix is_delete w
    = (Ok (Conflict c), World (db w) (trace w ++ reads) (known w))
    ∧ unique !! c = Some v
    ∧ hget (db w) (uidx_key namespace c) v = Some o ∧ o ≠ id
    ∧ Forall (λ c, is_write c = false) reads.
Proof.
  intros Hcol Howner Hne Htyped.
  destruct (unique_pass_check namespace id (map_to_list unique) w)
    as (reads & Hw & Hreads & Hres).
  unfold _redis_writer_lua. cbn [unique_passes]. rewrite !bind_unfold.
  destruct (unique_pass namespace id false (map_to_list unique) w)
    as [r w1] eqn:Hpass. cbn [fst snd] in Hw, Hres. subst w1.
  destruct r as [[c|]|e].
  - destruct Hres as (v & o & Hin & Ho & Hneq).
    exists c, v, o, reads. rewrite !ret_unfold. repeat split; auto.
    by apply elem_of_map_to_list.
  - exfalso. apply Hne. apply (Hres col value owner); [|done].
    by apply elem_of_map_to_list.
  - exfalso. apply Hres. intros c v Hin. apply (Htyped c v).
    by apply elem_of_map_to_list.
Qed.

End conflict.

(** C1. Under the atomic-script protocol, when a value the apply
    would add to a unique index (of a unique column or of a
    composite-unique group) is owned by another primary key, and the
    unique-index keys the apply names hold hashes, [_apply_changes]
    raises [UniqueKeyViolation] naming a conflicting value and the
    index key of its column, the data of the store is unchanged, and
    the commands it ran are reads only. *)
Theorem unique_conflict_aborts `{!Cjson, !Util} (sched : list interference)
    (cls : Model) (old : gmap string string) (new : gmap string pyval)
    (full delete : bool) (pk : pyval) (l : locals) (w : world)
    (col value owner : string) :
  primary_key cls old new = Some pk →
  truthy pk = true →
  compute_changes true cls old new full delete pk = Ok l →
  unique l !! col = Some value →
  hget (db w) (uidx_key (_namespace cls) col) value = Some owner →
  owner ≠ py_str pk →
  (∀ c v, unique l !! c = Some v →
          is_Some (hash_at (db w) (uidx_key (_namespace cls) c))) →
  ∃ c v o reads,
    _apply_changes true sched cls old new full delete w
    = (Raise (UniqueKeyViolation (PStr v) (uidx_key (_namespace cls) c)),
       World (db w) (trace w ++ reads) (known w))
    ∧ unique l !! c = Some v
    ∧ hget (db w) (uidx_key (_namespace cls) c) v = Some o
    ∧ o ≠ py_str pk
    ∧ Forall (λ c, is_write c = false) reads.
Proof.
  intros Hpk Ht Hl Hcol Howner Hne Htyped.
  rewrite (apply_changes_lua sched cls old new full delete pk w Hpk Ht).
  unfold lua_attempt, lift. rewrite bind_unfold, Hl.
  edestruct (script_conflict (_namespace cls) (py_str pk) (unique l))
    as (c & v & o & reads & Hrun & Hc & Ho & Hneq & Hreads); [done..|].
  exists c, v, o, reads. split; [|done].
  rewrite bind_unfold. unfold redis_writer_lua. rewrite bind_unfold, Hrun, Hc.
  done.
Qed.

(* ================================================================== *)
(** * What a command does to the field of a hash *)
(* ================================================================== *)

Lemma hget_put_hash_eq key h st field :
  hget (put_hash key h st) key field = h !! field.
Proof.
  unfold hget, put_hash. case_decide as Hh.
  - subst h. by rewrite lookup_delete_eq, lookup_empty.
  - by rewrite lookup_insert_eq.
Qed.

Lemma hget_put_hash_ne key key' h st field :
  key ≠ key' → hget (put_hash key h st) key' field = hget st key' field.
Proof.
  intros Hne. unfold hget, put_hash. case_decide.
  - by rewrite lookup_delete_ne.
  - by rewrite lookup_insert_ne.
Qed.

Lemma hget_put_set key s s0 st K F :
  set_at st key = Some s0 → hget (put_set key s st) K F = hget st K F.
Proof.
  intros Hs. unfold hget, put_set, set_at in *.
  destruct (decide (key = K)) as [->|Hne].
  - destruct (st !! K) as [[]|] eqn:HK; simplify_eq;
      case_decide; by rewrite ?lookup_delete_eq, ?lookup_insert_eq.
  - case_decide; by rewrite ?lookup_delete_ne, ?lookup_insert_ne.
Qed.

Lemma hget_put_zset key z z0 st K F :
  zset_at st key = Some z0 → hget (put_zset key z st) K F = hget st K F.
Proof.
  intros Hs. unfold hget, put_zset, zset_at in *.
  destruct (decide (key = K)) as [->|Hne].
  - destruct (st !! K) as [[]|] eqn:HK; simplify_eq;
      case_decide; by rewrite ?lookup_delete_eq, ?lookup_insert_eq.
  - case_decide; by rewrite ?lookup_delete_ne, ?lookup_insert_ne.
Qed.

Lemma hget_delete_ne key st K F :
  key ≠ K → hget (delete key st) K F = hget st K F.
Proof. intros Hne. unfold hget. by rewrite lookup_delete_ne. Qed.

(** A command on another key leaves the hash at [K] alone. *)
Lemma hget_step_other_key c st K F :
  command_key c ≠ Some K → hget (step c st) K F = hget st K F.
Proof.
  intros Hkey. unfold step.
  destruct c; cbn [exec command_key] in *;
    repeat match goal with
    | |- context [match ?l with [] => _ | _ :: _ => _ end] => destruct l
    | |- context [hash_at ?s ?k] => destruct (hash_at s k) eqn:?
    | |- context [set_at ?s ?k] => destruct (set_at s k) eqn:?
    | |- context [zset_at ?s ?k] => destruct (zset_at s k) eqn:?
    | |- context [pairs_of ?a] => destruct (pairs_of a) eqn:?
    end; cbn [mbind option_bind]; try done;
    try (apply hget_put_hash_ne; congruence);
    try (eapply hget_put_set; eassumption);
    try (eapply hget_put_zset; eassumption);
    try (apply hget_delete_ne; congruence).
Qed.

(** A set or sorted-set command leaves every hash alone. *)
Lemma hget_step_index_cmd c st K F :
  is_index_cmd c = true → hget (step c st) K F = hget st K F.
Proof.
  intros Hc. unfold step.
  destruct c; try done; cbn [exec];
    repeat match goal with
    | |- context [set_at ?s ?k] => destruct (set_at s k) eqn:?
    | |- context [zset_at ?s ?k] => destruct (zset_at s k) eqn:?
    end; cbn [mbind option_bind]; try done;
    try (eapply hget_put_set; eassumption);
    try (eapply hget_put_zset; eassumption).
Qed.

Lemma hget_step_read c st K F :
  is_write c = false → hget (step c st) K F = hget st K F.
Proof.
  intros Hc. unfold step.
  destruct c; try done; cbn [exec];
    repeat match goal with
    | |- context [hash_at ?s ?k] => destruct (hash_at s k) eqn:?
    end; cbn [mbind option_bind]; done.
Qed.

(** HSET and HDEL leave the other fields of their hash alone. *)
Lemma hget_step_HSET key field value st K F :
  (key, field) ≠ (K, F) →
  hget (step (HSET key field value) st) K F = hget st K F.
Proof.
  intros Hne. destruct (decide (key = K)) as [->|HK];
    [|by apply hget_step_other_key; cbn; congruence].
  unfold step. cbn [exec].
  destruct (hash_at st K) as [h|] eqn:Hh; cbn [mbind option_bind]; [|done].
  rewrite hget_put_hash_eq, (hget_hash_at _ _ _ _ Hh).
  apply lookup_insert_ne. congruence.
Qed.

Lemma hdel_hash_lookup fields h F :
  F ∉ fields → hdel_hash fields h !! F = h !! F.
Proof.
  unfold hdel_hash. revert h. induction fields as [|f fields IH]; intros h Hnot; [done|].
  cbn [foldl]. rewrite IH by set_solver. apply lookup_delete_ne. set_solver.
Qed.

Lemma hget_step_HDEL key fields st K F :
  key ≠ K ∨ F ∉ fields →
  hget (step (HDEL key fields) st) K F = hget st K F.
Proof.
  intros Hne. destruct (decide (key = K)) as [->|HK];
    [|by apply hget_step_other_key; cbn; congruence].
  destruct Hne as [?|Hnot]; [done|].
  unfold step. cbn [exec]. destruct fields as [|f fields]; [done|].
  destruct (hash_at st K) as [h|] eqn:Hh; cbn [mbind option_bind]; [|done].
  rewrite hget_put_hash_eq, (hget_hash_at _ _ _ _ Hh).
  by apply hdel_hash_lookup.
Qed.

(* ================================================================== *)
(** * Invariants of the data, and the commands a computation runs *)
(* ================================================================== *)

Section rules.
Context {A B : Type}.
Implicit Types (Q : store → Prop) (P : command → Prop).

Lemma preserves_ret Q (a : A) : preserves Q (mret a : M A).
Proof. by intros w. Qed.

Lemma preserves_raise Q e : preserves Q (raise e : M A).
Proof. by intros w. Qed.

Lemma preserves_lift Q (r : result A) : preserves Q (lift r).
Proof. by intros w. Qed.

Lemma preserves_bind Q (m : M A) (f : A → M B) :
  preserves Q m → (∀ a, preserves Q (f a)) → preserves Q (m ≫= f).
Proof.
  intros Hm Hf w HQ. rewrite bind_unfold. specialize (Hm w HQ).
  destruct (m w) as [[a|e] w1]; [by apply Hf|done].
Qed.

Lemma emits_ret P (a : A) : emits P (mret a : M A).
Proof. intros w. exists []. by rewrite app_nil_r. Qed.

Lemma emits_raise P e : emits P (raise e : M A).
Proof. intros w. exists []. by rewrite app_nil_r. Qed.

Lemma emits_lift P (r : result A) : emits P (lift r).
Proof. intros w. exists []. by rewrite app_nil_r. Qed.

Lemma emits_bind P (m : M A) (f : A → M B) :
  emits P m → (∀ a, emits P (f a)) → emits P (m ≫= f).
Proof.
  intros Hm Hf w. rewrite bind_unfold. destruct (Hm w) as (cs & Ht & Hcs).
  destruct (m w) as [[a|e] w1]; cbn [snd] in *; [|by exists cs].
  destruct (Hf a w1) as (cs' & Ht' & Hcs'). exists (cs ++ cs').
  rewrite Ht', Ht, app_assoc. split; [done|]. by apply Forall_app.
Qed.

Lemma emits_mono P P' (m : M A) :
  (∀ c, P c → P' c) → emits P m → emits P' m.
Proof.
  intros HP Hm w. destruct (Hm w) as (cs & Ht & Hcs). exists cs.
  split; [done|]. eapply Forall_impl; eauto.
Qed.

End rules.

Lemma preserves_call Q c :
  (∀ st, Q st → Q (step c st)) → preserves Q (call c).
Proof.
  intros Hc w HQ. rewrite call_unfold. specialize (Hc _ HQ). unfold step in Hc.
  destruct (exec c (db w)) as [[r st]|]; done.
Qed.

Lemma emits_call (P : command → Prop) c : P c → emits P (call c).
Proof.
  intros Hc w. exists [c]. rewrite call_unfold.
  destruct (exec c (db w)) as [[r st]|]; split; by repeat constructor.
Qed.

Lemma preserves_for_each {A} Q (l : list A) (body : A → M unit) :
  (∀ x, x ∈ l → preserves Q (body x)) → preserves Q (for_each l body).
Proof.
  induction l as [|x l IH]; intros Hbody; cbn [for_each].
  - apply preserves_ret.
  - apply preserves_bind; [apply Hbody; set_solver|].
    intros _. apply IH. intros y Hy. apply Hbody. set_solver.
Qed.

Lemma emits_for_each {A} (P : command → Prop) (l : list A) (body : A → M unit) :
  (∀ x, emits P (body x)) → emits P (for_each l body).
Proof.
  intros Hbody. induction l as [|x l IH]; cbn [for_each].
  - apply emits_ret.
  - apply emits_bind; [apply Hbody|]. by intros _.
Qed.

Lemma preserves_when Q c (m : M unit) : preserves Q m → preserves Q (when c m).
Proof. destruct c; [done|]. intros _. apply preserves_ret. Qed.

Lemma emits_when (P : command → Prop) c (m : M unit) : emits P m → emits P (when c m).
Proof. destruct c; [done|]. intros _. apply emits_ret. Qed.

Lemma preserves_lua_arg `{!Cjson} Q v : preserves Q (lua_arg v).
Proof. unfold lua_arg. destruct (lua_arg_s v); by intros w. Qed.

Lemma emits_lua_arg `{!Cjson} (P : command → Prop) v : emits P (lua_arg v).
Proof.
  unfold lua_arg. destruct (lua_arg_s v); [apply emits_ret|apply emits_raise].
Qed.

Lemma preserves_member_of `{!Cjson} Q v id : preserves Q (member_of v id).
Proof. unfold member_of. destruct (lua_format_s v); by intros w. Qed.

Lemma emits_member_of `{!Cjson} (P : command → Prop) v id : emits P (member_of v id).
Proof.
  unfold member_of. destruct (lua_format_s v); [apply emits_ret|apply emits_raise].
Qed.

(* ================================================================== *)
(** * The keys of one model do not collide *)
(* ================================================================== *)

Lemma string_app_nil (t : string) : EmptyString +:+ t = t.
Proof. reflexivity. Qed.

Lemma string_app_cons (c : ascii) (s t : string) :
  String c s +:+ t = String c (s +:+ t).
Proof. reflexivity. Qed.

Lemma string_length_app (s t : string) :
  String.length (s +:+ t) = (String.length s + String.length t)%nat.
Proof.
  induction s as [|c s IH]; [done|].
  rewrite string_app_cons. cbn [String.length]. by rewrite IH.
Qed.

Lemma last_char_app (s t : string) :
  t ≠ EmptyString → last_char (s +:+ t) = last_char t.
Proof.
  intros Ht. induction s as [|c s IH]; [done|].
  rewrite string_app_cons. cbn [last_char]. rewrite IH.
  destruct (s +:+ t) eqn:Hst; [|done].
  destruct s; [by rewrite string_app_nil in Hst|].
  by rewrite string_app_cons in Hst.
Qed.

Lemma pretty_N_char_digit (x : N) : is_digit (pretty_N_char x).
Proof.
  unfold is_digit, pretty_N_char.
  repeat case_match; by eexists.
Qed.

Lemma last_char_pretty_N_go (x : N) (s : string) (c : ascii) :
  last_char s = Some c → last_char (pretty_N_go x s) = Some c.
Proof.
  revert s. induction (N.lt_wf_0 x) as [x _ IH]; intros s Hs.
  destruct (decide (x = 0)%N) as [->|Hx]; [by rewrite pretty_N_go_0|].
  rewrite pretty_N_go_step by lia. apply IH.
  - apply N.div_lt; lia.
  - cbn [last_char]. by destruct s.
Qed.

Lemma last_char_pretty_N (x : N) :
  ∃ c, last_char (pretty x) = Some c ∧ is_digit c.
Proof.
  unfold pretty, pretty_N. case_decide as Hx.
  - exists "0"%char. split; [done|]. by eexists.
  - rewrite pretty_N_go_step by lia.
    destruct (decide (x `div` 10 = 0)%N) as [Hd|Hd].
    + rewrite Hd, pretty_N_go_0. eexists. split; [done|].
      apply pretty_N_char_digit.
    + eexists. split; [|apply pretty_N_char_digit].
      by apply last_char_pretty_N_go.
Qed.

(** [str(n)] ends in a digit. *)
Lemma last_char_pretty_Z (n : Z) :
  ∃ c, last_char (pretty n) = Some c ∧ is_digit c.
Proof.
  unfold pretty, pretty_Z. destruct n as [|p|p].
  - exists "0"%char. split; [done|]. by eexists.
  - apply last_char_pretty_N.
  - destruct (last_char_pretty_N (N.pos p)) as (c & Hc & Hd).
    exists c. split; [|done].
    change (last_char ("-" +:+ pretty (N.pos p)) = Some c).
    rewrite last_char_app; [done|].
    intros Hempty. by rewrite Hempty in Hc.
Qed.

(** The row of an integer id is no unique index. *)
Lemma row_key_ne_uidx_key (namespace col : string) (n : Z) :
  row_key namespace (pretty n) ≠ uidx_key namespace col.
Proof.
  unfold row_key, uidx_key. intros Heq.
  apply String.app_inj, String.app_inj in Heq.
  destruct (last_char_pretty_Z n) as (c & Hc & [d Hd]).
  rewrite Heq, last_char_app in Hc by done.
  cbn in Hc. by simplify_eq.
Qed.

(** The hash of manifests is no unique index. *)
Lemma manifest_key_ne_uidx_key (namespace col : string) :
  manifest_key namespace ≠ uidx_key namespace col.
Proof.
  unfold manifest_key, uidx_key. intros Heq.
  change "::" with (":" +:+ ":") in Heq.
  apply String.app_inj, String.app_inj in Heq.
  apply (f_equal String.length) in Heq.
  rewrite string_length_app in Heq. simpl in Heq. lia.
Qed.

(** A unique index belongs to one column. *)
Lemma string_app_inj_r (s t u : string) : s +:+ u = t +:+ u → s = t.
Proof.
  revert t. induction s as [|c s IH]; intros [|d t] Heq.
  - done.
  - apply (f_equal String.length) in Heq.
    rewrite !string_length_app in Heq. simpl in Heq. lia.
  - apply (f_equal String.length) in Heq.
    rewrite !string_length_app in Heq. simpl in Heq. lia.
  - rewrite !string_app_cons in Heq. injection Heq as -> Heq.
    f_equal. by apply IH.
Qed.

Lemma uidx_key_inj (namespace c c' : string) :
  uidx_key namespace c = uidx_key namespace c' → c = c'.
Proof.
  unfold uidx_key. intros Heq.
  apply String.app_inj, String.app_inj in Heq.
  by apply string_app_inj_r in Heq.
Qed.

Lemma call_db (c : command) (w : world) : db (call c w).2 = step c (db w).
Proof.
  rewrite call_unfold. unfold step. by destruct (exec c (db w)) as [[r st]|].
Qed.

Lemma call_ret_db (c : command) (w : world) :
  db ((call c;; mret ()) w).2 = step c (db w).
Proof.
  rewrite bind_unfold, <- call_db. by destruct (call c w) as [[r|e] w'].
Qed.

(* ================================================================== *)
(** * The script and the unique-index entries of other entities *)
(* ================================================================== *)

Section foreign.
Context `{!Cjson}.
Variables (namespace id : string).
Variables (K F owner : string).
Hypothesis foreign : owner ≠ id.

Local Abbreviation Q := (owned K F owner).

(** "remove deleted unique constraints" deletes an entry only after
    reading the entity's own id as its owner. *)
Lemma remove_unique_preserves (udeleted : list (string * pyval)) :
  preserves Q (remove_unique namespace id udeleted).
Proof.
  apply preserves_for_each. intros [col jvalue] _.
  apply preserves_bind; [apply preserves_lua_arg|]. intros value.
  intros w HQ. rewrite bind_unfold, call_unfold.
  destruct (hash_at (db w) (uidx_key namespace col)) as [h|] eqn:Hh;
    cbn [exec]; rewrite Hh; cbn [mbind option_bind]; [|done].
  destruct (h !! value) as [o|] eqn:Ho; cbn [from_option]; [|done].
  unfold when. case_bool_decide as Hown; [|done]. subst o.
  rewrite call_ret_db. cbn [db]. unfold owned in *.
  rewrite hget_step_HDEL; [done|].
  destruct (decide (uidx_key namespace col = K)) as [HK|HK]; [|by left].
  right. intros HF%list_elem_of_singleton. subst.
  rewrite (hget_hash_at _ _ _ _ Hh) in HQ. congruence.
Qed.

(** The pass with [write = true] sets the entries the check pass found
    free or owned by [id]. *)
Lemma unique_pass_write_preserves (unique : list (string * string)) :
  (∀ c v, (c, v) ∈ unique → (uidx_key namespace c, v) ≠ (K, F)) →
  preserves Q (unique_pass namespace id true unique).
Proof.
  induction unique as [|[col value] rest IH]; intros Hfree; cbn [unique_pass].
  - apply preserves_ret.
  - apply preserves_bind.
    + apply preserves_call. intros st HQ. unfold owned in *.
      rewrite hget_step_HSET; [done|]. apply Hfree. set_solver.
    + intros _. apply IH. intros c v Hin. apply Hfree. set_solver.
Qed.

Lemma unique_passes_write_preserves (unique : list (string * string)) :
  (∀ c v, (c, v) ∈ unique → (uidx_key namespace c, v) ≠ (K, F)) →
  preserves Q (unique_passes namespace id [true] unique).
Proof.
  intros Hfree. cbn [unique_passes]. apply preserves_bind.
  - by apply unique_pass_write_preserves.
  - intros [col|]; apply preserves_ret.
Qed.

(** Removing the old index entries and adding the new ones runs
    commands on sets and sorted sets, and reads the manifest. *)
Lemma remove_old_index_preserves : preserves Q (remove_old_index namespace id).
Proof.
  unfold remove_old_index. apply preserves_bind.
  { apply preserves_call. intros st HQ. unfold owned in *.
    by rewrite hget_step_read. }
  intros [|s| | |]; try apply preserves_ret.
  destruct (cjson_decode s) as [d|]; [|apply preserves_raise].
  destruct d as [keys scored|keys scored prefix suffix];
    repeat (apply preserves_bind; [|intros _]);
    try (apply preserves_for_each; intros x _);
    try destruct x as [attr token];
    repeat (apply preserves_bind; [|intros ?]);
    try apply preserves_ret; try apply preserves_member_of;
    apply preserves_call; intros st HQ; unfold owned in *;
    by rewrite hget_step_index_cmd.
Qed.

Lemma add_new_index_preserves nkeys scored prefix suffix :
  preserves Q (add_new_index namespace id nkeys scored prefix suffix).
Proof.
  unfold add_new_index.
  repeat (apply preserves_bind; [|intros _]);
    apply preserves_for_each; intros x _;
    try destruct x as [[attr token] sc]; try destruct x as [key sc];
    repeat (apply preserves_bind; [|intros ?]);
    try apply preserves_ret; try apply preserves_member_of;
    apply preserves_call; intros st HQ; unfold owned in *;
    by rewrite hget_step_index_cmd.
Qed.

(** The rest of the script writes the row and the manifest. *)
Lemma script_writes_preserves udeleted deleted data nkeys scored prefix suffix
    is_delete :
  row_key namespace id ≠ K →
  manifest_key namespace ≠ K →
  preserves Q (script_writes namespace id udeleted deleted data nkeys scored
                 prefix suffix is_delete).
Proof.
  intros Hrow Hman. unfold script_writes.
  assert (Hother : ∀ c, command_key c ≠ Some K →
                        preserves Q (call c;; mret ())).
  { intros c Hc. apply preserves_bind; [|intros; apply preserves_ret].
    apply preserves_call. intros st HQ. unfold owned in *.
    by rewrite hget_step_other_key. }
  apply preserves_bind; [apply remove_unique_preserves|intros _].
  apply preserves_bind; [apply preserves_when, Hother; cbn; congruence|intros _].
  apply preserves_bind; [apply preserves_when, Hother; cbn; congruence|intros _].
  apply preserves_bind; [apply remove_old_index_preserves|intros _].
  apply preserves_bind.
  { apply preserves_when. apply preserves_bind; [|intros _; apply Hother; cbn; congruence].
    apply preserves_call. intros st HQ. unfold owned in *.
    rewrite hget_step_other_key; [done|cbn; congruence]. }
  intros _.
  apply preserves_bind; [apply add_new_index_preserves|intros _].
  apply preserves_bind; [apply preserves_when, Hother; cbn; congruence|intros _].
  apply preserves_ret.
Qed.

(** The whole script. *)
Lemma script_preserves unique udeleted deleted data nkeys scored prefix suffix
    is_delete :
  row_key namespace id ≠ K →
  manifest_key namespace ≠ K →
  (∃ col, K = uidx_key namespace col) →
  preserves Q (_redis_writer_lua namespace id unique udeleted deleted data
                 nkeys scored prefix suffix is_delete).
Proof.
  intros Hrow Hman [col HK] w HQ. unfold _redis_writer_lua.
  cbn [unique_passes]. rewrite !bind_unfold.
  destruct (unique_pass_check namespace id (map_to_list unique) w)
    as (reads & Hw & _ & Hres).
  destruct (unique_pass namespace id false (map_to_list unique) w)
    as [r w1] eqn:Hpass. cbn [fst snd] in Hw, Hres.
  assert (HQ1 : Q (db w1)) by (by subst w1).
  destruct r as [[c|]|e]; [done| |done].
  assert (Hfree : ∀ c v, (c, v) ∈ map_to_list unique →
                         (uidx_key namespace c, v) ≠ (K, F)).
  { intros c v Hin Heq. injection Heq as Hc Hv. unfold owned in HQ.
    rewrite <- Hc, <- Hv in HQ. apply foreign. by apply (Hres c v). }
  pose proof (unique_passes_write_preserves _ Hfree w1 HQ1) as HQ2.
  cbn [unique_passes] in HQ2. rewrite bind_unfold in HQ2. rewrite bind_unfold.
  destruct (unique_pass namespace id true (map_to_list unique) w1)
    as [[[c|]|e] w2]; rewrite ?ret_unfold in *; cbn [snd] in *; [done| |done].
  by apply script_writes_preserves.
Qed.

End foreign.

(** C8. A unique-index entry owned by another entity survives:
    the removal loop of the script, run for any id, deletes an entry
    only when the owner it reads is that id, and the whole
    [redis_writer_lua], run for the id of an integer primary key with
    any other arguments and whether it returns or raises, leaves the
    entry with its owner. *)
Theorem foreign_unique_entry_survives `{!Cjson, !Util}
    (namespace col value owner : string) (w : world) :
  hget (db w) (uidx_key namespace col) value = Some owner →
  (∀ (id : string) (udeleted : list (string * pyval)),
     owner ≠ id →
     hget (db (remove_unique namespace id udeleted w).2)
       (uidx_key namespace col) value = Some owner)
  ∧ (∀ (n : Z) unique udelete delete data keys scored prefix suffix is_delete,
       owner ≠ pretty n →
       hget (db (redis_writer_lua namespace (pretty n) unique udelete delete
                   data keys scored prefix suffix is_delete w).2)
         (uidx_key namespace col) value = Some owner).
Proof.
  intros Hown. split.
  - intros id udeleted Hne.
    by apply (remove_unique_preserves namespace id _ _ owner Hne udeleted w).
  - intros n unique udelete delete data keys scored prefix suffix is_delete Hne.
    unfold redis_writer_lua. rewrite bind_unfold.
    pose proof (script_preserves namespace (pretty n) _ value owner Hne
                  unique udelete delete
                  (flat_map (λ pair, [pair.1; pair.2]) (map_to_list data)) keys
                  scored
                  ((λ item, (item, _prefix_score item.2)) <$> prefix)
                  ((λ item, (item, _prefix_score item.2)) <$> suffix)
                  is_delete
                  (row_key_ne_uidx_key namespace col n)
                  (manifest_key_ne_uidx_key namespace col)
                  (ex_intro _ col eq_refl) w Hown) as Hkeep.
    destruct (_redis_writer_lua _ _ _ _ _ _ _ _ _ _ _ w) as [[[c|cnt]|e] w1];
      cbn [snd] in Hkeep; [|done|done].
    destruct (unique !! c); done.
Qed.

(* ================================================================== *)
(** * A successful run of the script *)
(* ================================================================== *)

Lemma bind_Ok_inv {A B} (m : M A) (f : A → M B) (w w' : world) (b : B) :
  (m ≫= f) w = (Ok b, w') →
  ∃ a w1, m w = (Ok a, w1) ∧ f a w1 = (Ok b, w').
Proof.
  rewrite bind_unfold. destruct (m w) as [[a|e] w1]; [|done]. by exists a, w1.
Qed.

Lemma when_Ok_inv (c : bool) (m : M unit) (w w' : world) :
  when c m w = (Ok (), w') →
  if c then m w = (Ok (), w') else w' = w.
Proof. destruct c; [done|]. by intros [= ->]. Qed.

Lemma call_Ok_inv (c : command) (w w' : world) (r : reply) :
  call c w = (Ok r, w') →
  exec c (db w) = Some (r, db w') ∧ trace w' = trace w ++ [c]
  ∧ known w' = known w.
Proof.
  rewrite call_unfold. destruct (exec c (db w)) as [[r' st]|]; [|done].
  by intros [= -> <-].
Qed.

Lemma call_ret_Ok_inv (c : command) (w w' : world) :
  (call c;; mret ()) w = (Ok (), w') →
  (∃ r, exec c (db w) = Some (r, db w')) ∧ trace w' = trace w ++ [c].
Proof.
  intros (r & w1 & Hcall & [= ->])%bind_Ok_inv.
  apply call_Ok_inv in Hcall as (? & ? & ?). eauto.
Qed.

Lemma for_each_ext {A} (l : list A) (body body' : A → M unit) (w : world) :
  (∀ x w, body x w = body' x w) →
  for_each l body w = for_each l body' w.
Proof.
  intros Hext. revert w. induction l as [|x l IH]; intros w; [done|].
  cbn [for_each]. rewrite !bind_unfold, Hext.
  destruct (body' x w) as [[[]|e] w1]; [apply IH|done].
Qed.

Lemma for_each_calls {A} (cmd : A → option command) (l : list A) (w w' : world) :
  for_each l (call_or_fail cmd) w = (Ok (), w') →
  ∃ cs, mapM cmd l = Some cs ∧ trace w' = trace w ++ cs.
Proof.
  revert w. induction l as [|x l IH]; intros w; cbn [for_each].
  - intros [= <-]. exists []. by rewrite app_nil_r.
  - intros ([] & w1 & Hx & Hrest)%bind_Ok_inv. unfold call_or_fail in Hx.
    destruct (cmd x) as [c|] eqn:Hc; [|done].
    apply call_ret_Ok_inv in Hx as [_ Ht].
    apply IH in Hrest as (cs & Hcs & Ht'). exists (c :: cs).
    rewrite Ht', Ht, <- app_assoc. split; [|done].
    cbn. rewrite Hc. cbn. by rewrite Hcs.
Qed.

Lemma mapM_Some_total {A B} (f : A → B) (l : list A) :
  mapM (λ x, Some (f x)) l = Some (f <$> l).
Proof. induction l as [|x l IH]; [done|]. cbn. by rewrite IH. Qed.

Lemma mapM_fmap {A B C} (g : A → B) (f : B → option C) (l : list A) :
  mapM f (g <$> l) = mapM (λ x, f (g x)) l.
Proof. induction l as [|x l IH]; [done|]. cbn. by rewrite IH. Qed.

Section success.
Context `{!Cjson, !Util}.
Variables (namespace id : string).

Lemma add_new_index_Ok nkeys scored (prefix suffix : list (string * pyval))
    (w w' : world) :
  add_new_index namespace id nkeys scored
    ((λ item, (item, _prefix_score item.2)) <$> prefix)
    ((λ item, (item, _prefix_score item.2)) <$> suffix) w = (Ok (), w') →
  ∃ adds, index_adds namespace id nkeys scored prefix suffix = Some adds
          ∧ trace w' = trace w ++ adds.
Proof.
  unfold add_new_index.
  intros ([] & w1 & H1 & ([] & w2 & H2 & ([] & w3 & H3 & H4)%bind_Ok_inv)
          %bind_Ok_inv)%bind_Ok_inv.
  rewrite (for_each_ext _ _
    (call_or_fail (λ k, Some (SADD (idx_key namespace k) id)))) in H1 by done.
  rewrite (for_each_ext _ _
    (call_or_fail (λ ks : string * Z,
       Some (ZADD (idx_key namespace ks.1) ks.2 id)))) in H2
    by (by intros [??] ?).
  rewrite (for_each_ext _ _
    (call_or_fail (λ e : string * pyval * Z,
       s ← lua_format_s e.1.2;
       Some (ZADD (pre_key namespace e.1.1) e.2 (s +:+ NUL +:+ id))))) in H3.
  2:{ intros [[attr token] sc] w0. unfold call_or_fail, member_of. cbn.
      by destruct (lua_format_s token). }
  rewrite (for_each_ext _ _
    (call_or_fail (λ e : string * pyval * Z,
       s ← lua_format_s e.1.2;
       Some (ZADD (suf_key namespace e.1.1) e.2 (s +:+ NUL +:+ id))))) in H4.
  2:{ intros [[attr token] sc] w0. unfold call_or_fail, member_of. cbn.
      by destruct (lua_format_s token). }
  apply for_each_calls in H1 as (cs1 & Hcs1 & Ht1).
  apply for_each_calls in H2 as (cs2 & Hcs2 & Ht2).
  apply for_each_calls in H3 as (cs3 & Hcs3 & Ht3).
  apply for_each_calls in H4 as (cs4 & Hcs4 & Ht4).
  rewrite mapM_Some_total in Hcs1. rewrite mapM_Some_total in Hcs2.
  rewrite mapM_fmap in Hcs3. rewrite mapM_fmap in Hcs4.
  cbn in Hcs3, Hcs4. simplify_eq.
  exists (((λ k, SADD (idx_key namespace k) id) <$> nkeys)
          ++ ((λ ks : string * Z, ZADD (idx_key namespace ks.1) ks.2 id) <$> scored)
          ++ cs3 ++ cs4).
  split.
  - unfold index_adds. rewrite Hcs3. cbn. rewrite Hcs4. done.
  - rewrite Ht4, Ht3, Ht2, Ht1, <- !app_assoc. done.
Qed.

End success.

Section before_adds.
Context `{!Cjson}.
Variables (namespace id : string).

Local Abbreviation no_add := (λ c : command, is_index_add c = false).

Lemma unique_pass_emits write (unique : list (string * string)) :
  emits no_add (unique_pass namespace id write unique).
Proof.
  induction unique as [|[col value] rest IH]; cbn [unique_pass].
  - apply emits_ret.
  - destruct write.
    + apply emits_bind; [by apply emits_call|]. by intros _.
    + apply emits_bind; [by apply emits_call|].
      intros [|owner| | |]; try done. case_bool_decide; [apply emits_ret|done].
Qed.

Lemma unique_passes_emits writes (unique : list (string * string)) :
  emits no_add (unique_passes namespace id writes unique).
Proof.
  induction writes as [|write rest IH]; cbn [unique_passes].
  - apply emits_ret.
  - apply emits_bind; [apply unique_pass_emits|].
    intros [col|]; [apply emits_ret|done].
Qed.

Lemma remove_unique_emits (udeleted : list (string * pyval)) :
  emits no_add (remove_unique namespace id udeleted).
Proof.
  apply emits_for_each. intros [col jvalue].
  apply emits_bind; [apply emits_lua_arg|]. intros value.
  apply emits_bind; [by apply emits_call|].
  intros [|owner| | |]; try apply emits_ret.
  apply emits_when, emits_bind; [by apply emits_call|].
  intros _. apply emits_ret.
Qed.

Lemma remove_old_index_emits : emits no_add (remove_old_index namespace id).
Proof.
  unfold remove_old_index. apply emits_bind; [by apply emits_call|].
  intros [|s| | |]; try apply emits_ret.
  destruct (cjson_decode s) as [d|]; [|apply emits_raise].
  destruct d as [keys scored|keys scored prefix suffix];
    repeat (apply emits_bind; [|intros _]);
    try (apply emits_for_each; intros x);
    try destruct x as [attr token];
    repeat (apply emits_bind; [|intros ?]);
    try apply emits_ret; try apply emits_member_of;
    by apply emits_call.
Qed.

End before_adds.

(** What [emits] says of a run whose result is known. *)
Lemma emits_run {A} (P : command → Prop) (m : M A) (w w' : world) (r : result A) :
  emits P m → m w = (r, w') → ∃ cs, trace w' = trace w ++ cs ∧ Forall P cs.
Proof. intros Hm Hrun. specialize (Hm w). by rewrite Hrun in Hm. Qed.

Lemma fmap_fst_paired {A B} (f : A → B) (l : list A) :
  ((λ item, (item, f item)) <$> l).*1 = l.
Proof. induction l as [|x l IH]; [done|]. cbn. by rewrite IH. Qed.

Section manifest.
Context `{!Cjson, !Util}.
Variables (namespace id : string).

(** A run of the script that returns a count, not in delete mode. *)
Lemma script_writes_Ok_manifest udeleted deleted data nkeys scored
    (prefix suffix : list (string * pyval)) (w w' : world) (res : script_result) :
  script_writes namespace id udeleted deleted data nkeys scored
    ((λ item, (item, _prefix_score item.2)) <$> prefix)
    ((λ item, (item, _prefix_score item.2)) <$> suffix) false w = (Ok res, w') →
  let encoded := cjson_encode nkeys (map_to_list scored).*1 prefix suffix in
  hget (db w') (manifest_key namespace) id = Some encoded
  ∧ ∃ before adds,
      trace w' = trace w ++ before ++ adds
                 ++ [HSET (manifest_key namespace) id encoded]
      ∧ Forall (λ c, is_index_add c = false) before
      ∧ index_adds namespace id nkeys (map_to_list scored) prefix suffix
        = Some adds.
Proof.
  unfold script_writes. rewrite !fmap_fst_paired.
  intros ([] & w1 & H1 & ([] & w2 & H2 & ([] & w3 & H3 & ([] & w4 & H4
    & ([] & w5 & H5 & ([] & w6 & H6 & ([] & w7 & H7 & H8)%bind_Ok_inv)
    %bind_Ok_inv)%bind_Ok_inv)%bind_Ok_inv)%bind_Ok_inv)%bind_Ok_inv)%bind_Ok_inv.
  apply (emits_run _ _ _ _ _ (remove_unique_emits namespace id _)) in H1
    as (cs1 & Ht1 & Hcs1).
  eapply (emits_run (λ c, is_index_add c = false)) in H2 as (cs2 & Ht2 & Hcs2);
    [|apply emits_when, emits_bind; [by apply emits_call|intros; apply emits_ret]].
  eapply (emits_run (λ c, is_index_add c = false)) in H3 as (cs3 & Ht3 & Hcs3);
    [|apply emits_when, emits_bind; [by apply emits_call|intros; apply emits_ret]].
  apply (emits_run _ _ _ _ _ (remove_old_index_emits namespace id)) in H4
    as (cs4 & Ht4 & Hcs4).
  cbn [when] in H5. injection H5 as <-.
  apply add_new_index_Ok in H6 as (adds & Hadds & Ht6).
  cbn [negb when] in H7. apply call_ret_Ok_inv in H7 as [[r Hexec] Ht7].
  injection H8 as _ <-.
  split.
  - cbn [exec] in Hexec.
    destruct (hash_at (db w6) (manifest_key namespace)) as [h|]; [|done].
    cbn in Hexec. injection Hexec as _ <-.
    rewrite hget_put_hash_eq. apply lookup_insert_eq.
  - exists (cs1 ++ cs2 ++ cs3 ++ cs4), adds. split; [|split; [|done]].
    + rewrite Ht7, Ht6, Ht4, Ht3, Ht2, Ht1, <- !app_assoc. done.
    + by repeat apply Forall_app_2.
Qed.

(** A run of the script that returns a count, in delete mode and with
    no index entry to add. *)
Lemma script_writes_Ok_delete udeleted deleted data (w w' : world)
    (res : script_result) :
  script_writes namespace id udeleted deleted data [] ∅ [] [] true w
    = (Ok res, w') →
  db w' !! row_key namespace id = None
  ∧ hget (db w') (manifest_key namespace) id = None
  ∧ ∃ cs, trace w' = trace w ++ cs
            ++ [DEL (row_key namespace id); HDEL (manifest_key namespace) [id]].
Proof.
  unfold script_writes. rewrite map_to_list_empty.
  intros ([] & w1 & H1 & ([] & w2 & H2 & ([] & w3 & H3 & ([] & w4 & H4
    & ([] & w5 & H5 & ([] & w6 & H6 & ([] & w7 & H7 & H8)%bind_Ok_inv)
    %bind_Ok_inv)%bind_Ok_inv)%bind_Ok_inv)%bind_Ok_inv)%bind_Ok_inv)%bind_Ok_inv.
  apply (emits_run _ _ _ _ _ (remove_unique_emits namespace id _)) in H1
    as (cs1 & Ht1 & _).
  eapply (emits_run (λ c, is_index_add c = false)) in H2 as (cs2 & Ht2 & _);
    [|apply emits_when, emits_bind; [by apply emits_call|intros; apply emits_ret]].
  eapply (emits_run (λ c, is_index_add c = false)) in H3 as (cs3 & Ht3 & _);
    [|apply emits_when, emits_bind; [by apply emits_call|intros; apply emits_ret]].
  apply (emits_run _ _ _ _ _ (remove_old_index_emits namespace id)) in H4
    as (cs4 & Ht4 & _).
  cbn [when] in H5.
  apply bind_Ok_inv in H5 as (r & w4' & Hdel & Hhdel).
  apply call_Ok_inv in Hdel as (Hdel & Htd & _).
  apply call_ret_Ok_inv in Hhdel as [[r' Hhdel] Hth].
  injection H6 as <-. injection H7 as <-. injection H8 as _ <-.
  cbn [exec] in Hdel. injection Hdel as _ Hdb.
  cbn [exec] in Hhdel.
  destruct (hash_at (db w4') (manifest_key namespace)) as [h|] eqn:Hh; [|done].
  cbn in Hhdel. injection Hhdel as _ <-.
  split; [|split].
  - destruct (decide (manifest_key namespace = row_key namespace id)) as [Heq|Hne].
    + rewrite Heq in *. unfold hash_at in Hh. rewrite <- Hdb, lookup_delete_eq in Hh.
      injection Hh as <-. unfold put_hash, hdel_hash. cbn [foldl].
      rewrite delete_empty. rewrite decide_True by done.
      apply lookup_delete_eq.
    + unfold put_hash. case_decide.
      * rewrite lookup_delete_ne by done. rewrite <- Hdb. apply lookup_delete_eq.
      * rewrite lookup_insert_ne by done. rewrite <- Hdb. apply lookup_delete_eq.
  - rewrite hget_put_hash_eq. unfold hdel_hash. cbn [foldl].
    apply lookup_delete_eq.
  - exists (cs1 ++ cs2 ++ cs3 ++ cs4).
    rewrite Hth, Htd, Ht4, Ht3, Ht2, Ht1, <- !app_assoc. done.
Qed.

End manifest.

(* ================================================================== *)
(** * The changes computed in delete mode *)
(* ================================================================== *)

Section delete_mode.
Context `{!Util}.
Variables (use_lua : bool) (cls : Model).
Variables (old : gmap string string) (new : gmap string pyval).
Variables (full : bool) (pk : pyval).

Lemma index_step_delete attr ca nval (l : locals) :
  index_step true attr ca nval l = Ok l.
Proof. unfold index_step. by repeat case_match. Qed.

Lemma change_step_index attr ca (l : locals) :
  index_entries (change_step use_lua cls old new pk attr ca l) = index_entries l.
Proof. unfold change_step. by repeat case_match. Qed.

Lemma column_step_delete attr ca (l l' : locals) :
  column_step use_lua cls old new full true pk attr ca l = Ok l' →
  index_entries l' = index_entries l.
Proof.
  unfold column_step. rewrite index_step_delete. cbn.
  case_match; intros [= <-]; rewrite ?change_step_index;
    by case_match.
Qed.

Lemma column_loop_delete columns (l l' : locals) :
  column_loop use_lua cls old new full true pk columns l = Ok l' →
  index_entries l' = index_entries l.
Proof.
  revert l. induction columns as [|[attr ca] rest IH]; intros l; cbn [column_loop].
  - by intros [= ->].
  - destruct (column_step _ _ _ _ _ _ _ attr ca l) as [l1|e] eqn:Hstep; [|done].
    cbn. intros Hrest. rewrite (IH _ Hrest). by eapply column_step_delete.
Qed.

Lemma cunique_step_index uniq (l l' : locals) :
  cunique_step cls old new uniq l = Ok l' →
  index_entries l' = index_entries l.
Proof.
  unfold cunique_step. destruct (cunique_ndata cls new uniq) as [ndata|e]; [|done].
  cbn. intros [= <-]. by repeat case_match.
Qed.

Lemma cunique_loop_index groups (l l' : locals) :
  cunique_loop cls old new groups l = Ok l' →
  index_entries l' = index_entries l.
Proof.
  revert l. induction groups as [|uniq rest IH]; intros l; cbn [cunique_loop].
  - by intros [= ->].
  - destruct (cunique_step cls old new uniq l) as [l1|e] eqn:Hstep; [|done].
    cbn. intros Hrest. rewrite (IH _ Hrest). by eapply cunique_step_index.
Qed.

Lemma compute_changes_delete (l : locals) :
  compute_changes use_lua cls old new full true pk = Ok l →
  index_entries l = (∅, ∅, [], []).
Proof.
  unfold compute_changes.
  destruct (column_loop _ _ _ _ _ _ _ _ locals0) as [l1|e] eqn:Hcols; [|done].
  cbn. intros Hgroups. rewrite (cunique_loop_index _ _ _ Hgroups).
  by rewrite (column_loop_delete _ _ _ Hcols).
Qed.

End delete_mode.

(** C2. Under the atomic-script protocol, an apply that returns has,
    when it is no delete, left as the entity's manifest the encoding of
    exactly the set, range, prefix and suffix entries it computed, and
    the last commands it ran are the commands that write these entries
    followed by the write of the manifest, with no index entry added
    before them; when it is a delete, the entity row and the manifest
    entry are gone, and the last commands it ran are their removal. *)
Theorem apply_manifest `{!Cjson, !Util} (sched : list interference)
    (cls : Model) (old : gmap string string) (new : gmap string pyval)
    (full delete : bool) (pk : pyval) (l : locals) (w w' : world)
    (ret : nat * gmap string string) :
  primary_key cls old new = Some pk →
  compute_changes true cls old new full delete pk = Ok l →
  _apply_changes true sched cls old new full delete w = (Ok ret, w') →
  let namespace := _namespace cls in
  let id := py_str pk in
  let nscored := (map_to_list (scores l)).*1 in
  let encoded := cjson_encode (elements (keys l)) nscored (prefix l) (suffix l) in
  if delete then
    db w' !! row_key namespace id = None
    ∧ hget (db w') (manifest_key namespace) id = None
    ∧ ∃ cs, trace w' = trace w ++ cs
              ++ [DEL (row_key namespace id); HDEL (manifest_key namespace) [id]]
  else
    hget (db w') (manifest_key namespace) id = Some encoded
    ∧ ∃ before adds,
        trace w' = trace w ++ before ++ adds
                   ++ [HSET (manifest_key namespace) id encoded]
        ∧ Forall (λ c, is_index_add c = false) before
        ∧ index_adds namespace id (elements (keys l)) (map_to_list (scores l))
            (prefix l) (suffix l) = Some adds.
Proof.
  intros Hpk Hl Hrun namespace id nscored encoded.
  assert (Ht : truthy pk = true).
  { unfold _apply_changes in Hrun. rewrite Hpk in Hrun.
    by destruct (truthy pk). }
  rewrite (apply_changes_lua sched cls old new full delete pk w Hpk Ht) in Hrun.
  unfold lua_attempt, lift in Hrun. rewrite bind_unfold, Hl in Hrun.
  apply bind_Ok_inv in Hrun as ([] & w1 & Hwriter & [= _ ->]).
  unfold redis_writer_lua in Hwriter.
  apply bind_Ok_inv in Hwriter as (res & w2 & Hscript & Hres).
  destruct res as [col|cnt]; [by destruct (unique l !! col)|].
  injection Hres as ->.
  unfold _redis_writer_lua in Hscript.
  apply bind_Ok_inv in Hscript as (r & w0 & Hpasses & Hwrites).
  destruct r as [col|]; [done|].
  apply (emits_run _ _ _ _ _ (unique_passes_emits _ _ [false; true] _))
    in Hpasses as (cs0 & Ht0 & Hcs0).
  destruct delete.
  - pose proof (compute_changes_delete _ _ _ _ _ _ _ Hl) as Hidx.
    unfold index_entries in Hidx. injection Hidx as Hk Hs Hp Hf.
    rewrite Hk, Hs, Hp, Hf, elements_empty in Hwrites. cbn [fmap list_fmap] in Hwrites.
    apply script_writes_Ok_delete in Hwrites as (Hrow & Hman & cs & Htr).
    repeat split; [done..|]. exists (cs0 ++ cs).
    by rewrite Htr, Ht0, <- !app_assoc.
  - apply script_writes_Ok_manifest in Hwrites as (Hman & before & adds & Htr & Hb & Ha).
    split; [done|]. exists (cs0 ++ before), adds. repeat split; [|by apply Forall_app_2|done].
    by rewrite Htr, Ht0, <- !app_assoc.
Qed.

(* ================================================================== *)
(** * The unique entries of a composite-unique group *)
(* ================================================================== *)

Section composite.
Context `{!Util}.
Variables (use_lua : bool) (cls : Model).
Variables (old : gmap string string) (new : gmap string pyval).
Variables (full delete : bool) (pk : pyval).

(** The index part of a pass touches the index entries only. *)
Lemma index_keys_unique attr' attr ca kid g nval (l l' : locals) :
  index_keys attr ca kid g nval l = Ok l' →
  unique_entries attr' l' = unique_entries attr' l.
Proof.
  unfold index_keys, unique_entries. intros Hkeys.
  repeat (case_match; simplify_eq/=; try done);
    repeat match goal with
    | H : context [py_lower ?v] |- _ => destruct v; simplify_eq/=
    | H : context [py_reverse ?v] |- _ => destruct v; simplify_eq/=
    end; done.
Qed.

Lemma index_step_unique attr' attr ca nval (l l' : locals) :
  index_step delete attr ca nval l = Ok l' →
  unique_entries attr' l' = unique_entries attr' l.
Proof.
  unfold index_step. intros Hstep.
  repeat (case_match; simplify_eq/=; try done).
  by eapply index_keys_unique.
Qed.

(** The loop over the columns writes unique entries under the names
    of unique columns only. *)
Lemma change_step_unique_other attr' attr ca (l : locals) :
  attr' ∉ _unique cls →
  unique_entries attr' (change_step use_lua cls old new pk attr ca l)
  = unique_entries attr' l.
Proof.
  intros Hnot. unfold change_step, unique_entries.
  case_bool_decide as Hattr.
  - assert (attr ≠ attr') by congruence.
    repeat (case_match; simplify_eq/=; rewrite ?lookup_insert_ne by done;
            try done).
  - repeat (case_match; simplify_eq/=; try done).
Qed.

Lemma column_step_unique_other attr' attr ca (l l' : locals) :
  attr' ∉ _unique cls →
  column_step use_lua cls old new full delete pk attr ca l = Ok l' →
  unique_entries attr' l' = unique_entries attr' l.
Proof.
  intros Hnot. unfold column_step.
  destruct (index_step _ _ _ _ _) as [l1|e] eqn:Hidx; [|done]. cbn.
  apply (index_step_unique attr') in Hidx.
  assert (Hl1 : unique_entries attr' l1 = unique_entries attr' l).
  { rewrite Hidx. by case_match. }
  destruct (py_eq_opt _ _ && negb full); intros [= <-]; [done|].
  by rewrite change_step_unique_other.
Qed.

Lemma column_loop_unique_other attr' columns (l l' : locals) :
  attr' ∉ _unique cls →
  column_loop use_lua cls old new full delete pk columns l = Ok l' →
  unique_entries attr' l' = unique_entries attr' l.
Proof.
  intros Hnot. revert l.
  induction columns as [|[attr ca] rest IH]; intros l; cbn [column_loop].
  - by intros [= ->].
  - destruct (column_step _ _ _ _ _ _ _ attr ca l) as [l1|e] eqn:Hstep; [|done].
    cbn. intros Hrest. rewrite (IH _ Hrest). by eapply column_step_unique_other.
Qed.

(** [ndata] holds [None] exactly at the columns with no new value. *)
Lemma cunique_ndata_spec uniq ndata :
  cunique_ndata cls new uniq = Ok ndata →
  no_None ndata = bool_decide (Forall (λ c, is_Some (new !! c)) uniq).
Proof.
  revert ndata. induction uniq as [|c rest IH]; intros ndata; cbn [cunique_ndata].
  - by intros [= <-].
  - destruct (new !! c) as [nv|] eqn:Hc.
    + destruct (column cls c) as [ca|e]; [|done]. cbn.
      destruct (cunique_ndata cls new rest) as [vs|e]; [|done]. cbn.
      intros [= <-]. cbn. fold (no_None vs). rewrite (IH vs eq_refl).
      apply bool_decide_ext. rewrite Forall_cons, Hc. naive_solver.
    + cbn. destruct (cunique_ndata cls new rest) as [vs|e]; [|done]. cbn.
      intros [= <-]. cbn. symmetry. apply bool_decide_eq_false.
      rewrite Forall_cons, Hc. intros [[? ?] _]. done.
Qed.

Lemma no_None_odata uniq :
  no_None ((λ c, old !! c) <$> uniq)
  = bool_decide (Forall (λ c, is_Some (old !! c)) uniq).
Proof.
  induction uniq as [|c rest IH]; [done|]. cbn.
  fold (no_None ((λ c, old !! c) <$> rest)). rewrite IH.
  destruct (old !! c) as [ov|] eqn:Hc; cbn.
  - apply bool_decide_ext. rewrite Forall_cons, Hc. naive_solver.
  - symmetry. apply bool_decide_eq_false.
    rewrite Forall_cons, Hc. intros [[? ?] _]. done.
Qed.

Lemma cunique_step_other attr uniq (l l' : locals) :
  String.concat ":" uniq ≠ attr →
  cunique_step cls old new uniq l = Ok l' →
  unique_entries attr l' = unique_entries attr l.
Proof.
  intros Hne. unfold cunique_step, unique_entries.
  destruct (cunique_ndata cls new uniq) as [ndata|e]; [|done].
  cbn. intros [= <-].
  repeat (case_match; simplify_eq/=; rewrite ?lookup_insert_ne by done; try done).
Qed.

Lemma cunique_step_own uniq (l l' : locals) :
  unique_entries (String.concat ":" uniq) l = (None, None) →
  cunique_step cls old new uniq l = Ok l' →
  ∃ ndata, cunique_ndata cls new uniq = Ok ndata
           ∧ unique_entries (String.concat ":" uniq) l' = group_entries old uniq ndata.
Proof.
  unfold cunique_step, unique_entries, group_entries. intros [= Hu Hd].
  destruct (cunique_ndata cls new uniq) as [ndata|e]; [|done].
  cbn. intros [= <-]. exists ndata. split; [done|].
  repeat (case_match; simplify_eq/=; rewrite ?lookup_insert_eq; try done);
    by rewrite ?Hu, ?Hd.
Qed.

Lemma cunique_loop_other attr groups (l l' : locals) :
  (∀ g, g ∈ groups → String.concat ":" g ≠ attr) →
  cunique_loop cls old new groups l = Ok l' →
  unique_entries attr l' = unique_entries attr l.
Proof.
  revert l. induction groups as [|g rest IH]; intros l Hne; cbn [cunique_loop].
  - by intros [= ->].
  - destruct (cunique_step cls old new g l) as [l1|e] eqn:Hstep; [|done].
    cbn. intros Hloop. rewrite (IH l1); [|set_solver|done].
    eapply cunique_step_other; [|done]. apply Hne. set_solver.
Qed.

Lemma cunique_loop_entries uniq groups (l l' : locals) :
  NoDup groups →
  (∀ g, g ∈ groups → String.concat ":" g = String.concat ":" uniq → g = uniq) →
  unique_entries (String.concat ":" uniq) l = (None, None) →
  cunique_loop cls old new groups l = Ok l' →
  if bool_decide (uniq ∈ groups)
  then ∃ ndata, cunique_ndata cls new uniq = Ok ndata
                ∧ unique_entries (String.concat ":" uniq) l'
                  = group_entries old uniq ndata
  else unique_entries (String.concat ":" uniq) l' = (None, None).
Proof.
  intros Hnodup. revert l.
  induction groups as [|g rest IH]; intros l Hinj Hstart; cbn [cunique_loop].
  - intros [= <-]. by rewrite bool_decide_eq_false_2 by set_solver.
  - apply NoDup_cons in Hnodup as [Hg Hrest].
    destruct (cunique_step cls old new g l) as [l1|e] eqn:Hstep; [|done].
    cbn. intros Hloop.
    assert (Hinj' : ∀ g', g' ∈ rest →
              String.concat ":" g' = String.concat ":" uniq → g' = uniq).
    { intros g' Hin. apply Hinj. set_solver. }
    destruct (decide (g = uniq)) as [->|Hne].
    + rewrite bool_decide_eq_true_2 by set_solver.
      destruct (cunique_step_own _ _ _ Hstart Hstep) as (ndata & Hnd & Hown).
      exists ndata. split; [done|]. rewrite <- Hown.
      eapply cunique_loop_other; [|done].
      intros g' Hin Heq. apply Hg. by rewrite <- (Hinj' g' Hin Heq).
    + assert (Hother : unique_entries (String.concat ":" uniq) l1 = (None, None)).
      { rewrite <- Hstart. eapply cunique_step_other; [|done].
        intros Heq. apply Hne. apply Hinj; [set_solver|done]. }
      specialize (IH Hrest l1 Hinj' Hother Hloop).
      destruct (bool_decide (uniq ∈ rest)) eqn:Hin.
      * rewrite bool_decide_eq_true_2; [done|].
        apply bool_decide_eq_true in Hin. set_solver.
      * rewrite bool_decide_eq_false_2; [done|].
        apply bool_decide_eq_false in Hin. set_solver.
Qed.

(** After both loops, the unique entries of a group are those of its
    own pass, when its name is the name of no unique column and of no
    other group. *)
Lemma compute_changes_group uniq (l : locals) :
  uniq ∈ _cunique cls →
  String.concat ":" uniq ∉ _unique cls →
  (∀ g, g ∈ _cunique cls →
        String.concat ":" g = String.concat ":" uniq → g = uniq) →
  compute_changes use_lua cls old new full delete pk = Ok l →
  ∃ ndata, cunique_ndata cls new uniq = Ok ndata
           ∧ unique_entries (String.concat ":" uniq) l = group_entries old uniq ndata.
Proof.
  intros Hin Hname Hinj. unfold compute_changes.
  destruct (column_loop _ _ _ _ _ _ _ _ locals0) as [l1|e] eqn:Hcols; [|done].
  cbn. intros Hgroups.
  pose proof (column_loop_unique_other _ _ _ _ Hname Hcols) as Hstart.
  pose proof (cunique_loop_entries uniq (elements (_cunique cls)) l1 l
                (NoDup_elements _)) as Hloop.
  rewrite bool_decide_eq_true_2 in Hloop by (by apply elem_of_elements).
  apply Hloop; [|done|done].
  intros g Hg. apply Hinj. by apply elem_of_elements.
Qed.

End composite.

Lemma no_None_spec (l : list (option string)) : no_None l = true ↔ None ∉ l.
Proof.
  induction l as [|[v|] l IH]; cbn.
  - split; [|done]. intros _. apply not_elem_of_nil.
  - fold (no_None l). rewrite IH, not_elem_of_cons. naive_solver.
  - split; [done|]. intros Hnot. exfalso. apply Hnot. by left.
Qed.

Lemma is_Some_if {A} (b : bool) (x : A) :
  is_Some (if b then Some x else None) ↔ b = true.
Proof. destruct b; split; intros Hx; try done; by destruct Hx. Qed.

(** C4, as amended. For a composite-unique group whose index name
    is the name of no unique column and of no other group, the changes
    computed hold a unique-remove under that name exactly when the tuple
    of old raw values differs from the tuple of new raw values and has
    no null component, and a unique-add exactly when the tuple of new
    raw values has no null component, whether or not the tuples differ. *)
Theorem composite_unique_changes `{!Util} (use_lua : bool) (cls : Model)
    (old : gmap string string) (new : gmap string pyval) (full delete : bool)
    (pk : pyval) (uniq : list string) (l : locals) :
  uniq ∈ _cunique cls →
  String.concat ":" uniq ∉ _unique cls →
  (∀ g, g ∈ _cunique cls →
        String.concat ":" g = String.concat ":" uniq → g = uniq) →
  compute_changes use_lua cls old new full delete pk = Ok l →
  ∃ ndata,
    cunique_ndata cls new uniq = Ok ndata
    ∧ let odata := (λ c, old !! c) <$> uniq in
      let attr := String.concat ":" uniq in
      (is_Some (udeleted l !! attr) ↔ odata ≠ ndata ∧ None ∉ odata)
      ∧ (is_Some (unique l !! attr) ↔ None ∉ ndata).
Proof.
  intros Hin Hname Hinj Hl.
  destruct (compute_changes_group _ _ _ _ _ _ _ uniq l Hin Hname Hinj Hl)
    as (ndata & Hnd & Hentries).
  exists ndata. split; [done|]. intros odata attr.
  unfold unique_entries, group_entries in Hentries.
  injection Hentries as Hu Hd. fold attr in Hu, Hd. fold odata in Hd.
  rewrite Hu, Hd, <- !no_None_spec, !is_Some_if.
  by rewrite andb_true_iff, bool_decide_eq_true.
Qed.

(** The script names a conflict only for a column that has a new
    unique value. *)
Lemma script_conflict_col `{!Cjson} namespace id unique udeleted deleted data
    nkeys scored prefix suffix is_delete (w w' : world) (col : string) :
  _redis_writer_lua namespace id unique udeleted deleted data nkeys scored
    prefix suffix is_delete w = (Ok (Conflict col), w') →
  is_Some (unique !! col).
Proof.
  unfold _redis_writer_lua. cbn [unique_passes].
  intros (r & w1 & Hpasses & Hrest)%bind_Ok_inv.
  destruct r as [c|]; last first.
  { unfold script_writes in Hrest. repeat
      (apply bind_Ok_inv in Hrest as (? & ? & _ & Hrest)). done. }
  injection Hrest as -> ->.
  apply bind_Ok_inv in Hpasses as (r & w0 & Hcheck & Hrest).
  pose proof (unique_pass_check namespace id (map_to_list unique) w)
    as (reads & _ & _ & Hres).
  rewrite Hcheck in Hres. cbn [fst] in Hres.
  destruct r as [c|].
  - injection Hrest as -> _. destruct Hres as (v & o & Hin & _).
    exists v. by apply elem_of_map_to_list.
  - exfalso. apply bind_Ok_inv in Hrest as (r & w2 & Hwrite & Hrest).
    assert (r = None) as ->.
    { clear -Hwrite. revert w0 Hwrite.
      induction (map_to_list unique) as [|[c' v'] rest IH]; intros w0;
        cbn [unique_pass].
      - by intros [= <- _].
      - intros (? & ? & _ & Hrest)%bind_Ok_inv. by eapply IH. }
    done.
Qed.

Lemma raises_only_ret {A} P (a : A) : raises_only P (mret a : M A).
Proof. by intros w e w'. Qed.

Lemma raises_only_raise {A} (P : exn → Prop) e : P e → raises_only P (raise e : M A).
Proof. intros HP w e' w' [= <- _]. done. Qed.

Lemma raises_only_bind {A B} P (m : M A) (f : A → M B) :
  raises_only P m → (∀ a, raises_only P (f a)) → raises_only P (m ≫= f).
Proof.
  intros Hm Hf w e w'. rewrite bind_unfold.
  destruct (m w) as [[a|e0] w1] eqn:Hmw.
  - apply Hf.
  - intros [= <- _]. by eapply Hm.
Qed.

Lemma raises_only_call (P : exn → Prop) c :
  P ResponseError → raises_only P (call c).
Proof.
  intros HP w e w'. rewrite call_unfold.
  destruct (exec c (db w)) as [[r st]|]; [done|]. by intros [= <- _].
Qed.

Lemma raises_only_for_each {A} P (l : list A) (body : A → M unit) :
  (∀ x, raises_only P (body x)) → raises_only P (for_each l body).
Proof.
  intros Hbody. induction l as [|x l IH]; cbn [for_each].
  - apply raises_only_ret.
  - apply raises_only_bind; [apply Hbody|]. by intros _.
Qed.

Lemma raises_only_when P c (m : M unit) :
  raises_only P m → raises_only P (when c m).
Proof. destruct c; [done|]. intros _. apply raises_only_ret. Qed.

Ltac raises_only_step :=
  first
    [ apply raises_only_ret
    | apply raises_only_raise; done
    | apply raises_only_call; done
    | apply raises_only_when
    | apply raises_only_for_each; intros ?
    | apply raises_only_bind; [|intros ?] ].

Lemma script_raises_only `{!Cjson} namespace id unique udeleted deleted data
    nkeys scored prefix suffix is_delete :
  raises_only (λ e, e = ResponseError)
    (_redis_writer_lua namespace id unique udeleted deleted data nkeys scored
       prefix suffix is_delete).
Proof.
  assert (Hpass : ∀ write l,
    raises_only (λ e, e = ResponseError) (unique_pass namespace id write l)).
  { intros write l. induction l as [|[col value] rest IH]; cbn [unique_pass].
    - apply raises_only_ret.
    - destruct write; repeat raises_only_step; try done.
      repeat case_match; try done; apply raises_only_ret. }
  unfold _redis_writer_lua. cbn [unique_passes].
  apply raises_only_bind.
  { repeat (apply raises_only_bind; [apply Hpass|intros [?|]]);
      apply raises_only_ret. }
  intros [col|]; [apply raises_only_ret|].
  unfold script_writes, remove_unique, remove_old_index, add_new_index,
    lua_arg, member_of.
  repeat first
    [ raises_only_step
    | match goal with
      | |- raises_only _ (let '(_, _) := ?x in _) => destruct x
      | |- raises_only _ (match ?x with _ => _ end) => destruct x
      end ].
Qed.

Lemma compute_changes_raises `{!Util} use_lua cls old new full delete pk e v k :
  compute_changes use_lua cls old new full delete pk = Raise e →
  e ≠ UniqueKeyViolation v k.
Proof.
  assert (Hcol : ∀ c e, column cls c = Raise e → e ≠ UniqueKeyViolation v k).
  { intros c e0. unfold column. by repeat case_match; intros [= <-]. }
  assert (Hidx : ∀ attr ca nval l e,
    index_step delete attr ca nval l = Raise e → e ≠ UniqueKeyViolation v k).
  { intros attr ca nval l e0. unfold index_step, index_keys.
    repeat (case_match; simplify_eq/=; try done);
      repeat match goal with
      | |- context [py_lower ?x] => destruct x; simplify_eq/=
      | |- context [py_reverse ?x] => destruct x; simplify_eq/=
      end; by intros [= <-]. }
  assert (Hcols : ∀ columns l e,
    column_loop use_lua cls old new full delete pk columns l = Raise e →
    e ≠ UniqueKeyViolation v k).
  { induction columns as [|[attr ca] rest IH]; intros l e0; cbn [column_loop];
      [done|].
    unfold column_step at 1.
    destruct (index_step _ _ _ _ _) as [l1|e1] eqn:Hstep; cbn.
    - destruct (py_eq_opt _ _ && negb full); cbn; apply IH.
    - intros [= <-]. by eapply Hidx. }
  assert (Hnd : ∀ uniq e,
    cunique_ndata cls new uniq = Raise e → e ≠ UniqueKeyViolation v k).
  { induction uniq as [|c rest IH]; intros e0; cbn [cunique_ndata]; [done|].
    destruct (new !! c).
    - destruct (column cls c) as [ca|e1] eqn:Hc; cbn.
      + destruct (cunique_ndata cls new rest) eqn:Hrest; cbn; [done|].
        intros [= <-]. by apply IH.
      + intros [= <-]. by eapply Hcol.
    - cbn. destruct (cunique_ndata cls new rest) eqn:Hrest; cbn; [done|].
      intros [= <-]. by apply IH. }
  assert (Hgroups : ∀ groups l e,
    cunique_loop cls old new groups l = Raise e → e ≠ UniqueKeyViolation v k).
  { induction groups as [|g rest IH]; intros l e0; cbn [cunique_loop]; [done|].
    unfold cunique_step at 1.
    destruct (cunique_ndata cls new g) as [nd|e1] eqn:Hg; cbn.
    - apply IH.
    - intros [= <-]. by eapply Hnd. }
  unfold compute_changes.
  destruct (column_loop _ _ _ _ _ _ _ _ _) as [l1|e1] eqn:Hc; cbn.
  - apply Hgroups.
  - intros [= <-]. by eapply Hcols.
Qed.

(* ================================================================== *)
(** * Saving an entity whose fields did not change *)
(* ================================================================== *)

Section unchanged.
Context `{!Util}.
Variables (use_lua : bool) (cls : Model).
Variables (old : gmap string string) (new : gmap string pyval).
Variables (delete : bool) (pk : pyval).

Lemma index_step_row attr ca nval (l l' : locals) :
  index_step delete attr ca nval l = Ok l' → row_changes l' = row_changes l.
Proof.
  unfold index_step, index_keys, row_changes. intros Hstep.
  repeat (case_match; simplify_eq/=; try done);
    repeat match goal with
    | H : context [py_lower ?v] |- _ => destruct v; simplify_eq/=
    | H : context [py_reverse ?v] |- _ => destruct v; simplify_eq/=
    end; done.
Qed.

Lemma column_loop_unchanged columns (l l' : locals) :
  (∀ attr ca, (attr, ca) ∈ columns →
     py_eq_opt (new !! attr) (_from_redis ca <$> old !! attr) = true) →
  column_loop use_lua cls old new false delete pk columns l = Ok l' →
  row_changes l' = row_changes l.
Proof.
  revert l. induction columns as [|[attr ca] rest IH]; intros l Hsame;
    cbn [column_loop].
  - by intros [= ->].
  - unfold column_step at 1.
    destruct (index_step _ _ _ _ _) as [l1|e] eqn:Hstep; [|done]. cbn.
    rewrite (Hsame attr ca) by set_solver. cbn. intros Hrest.
    rewrite (IH l1); [|set_solver|done].
    rewrite (index_step_row _ _ _ _ _ Hstep). by case_match.
Qed.

Lemma cunique_loop_row groups (l l' : locals) :
  cunique_loop cls old new groups l = Ok l' → row_changes l' = row_changes l.
Proof.
  revert l. induction groups as [|g rest IH]; intros l; cbn [cunique_loop].
  - by intros [= ->].
  - unfold cunique_step at 1.
    destruct (cunique_ndata cls new g) as [ndata|e]; [|done]. cbn.
    intros Hrest. rewrite (IH _ Hrest). by repeat case_match.
Qed.

Lemma compute_changes_unchanged (l : locals) :
  (∀ attr ca, (attr, ca) ∈ _columns cls →
     py_eq_opt (new !! attr) (_from_redis ca <$> old !! attr) = true) →
  compute_changes use_lua cls old new false delete pk = Ok l →
  row_changes l = (0%nat, ∅, []).
Proof.
  intros Hsame. unfold compute_changes.
  destruct (column_loop _ _ _ _ _ _ _ _ locals0) as [l1|e] eqn:Hcols; [|done].
  cbn. intros Hgroups. rewrite (cunique_loop_row _ _ _ Hgroups).
  by rewrite (column_loop_unchanged _ _ _ Hsame Hcols).
Qed.

End unchanged.

(* ================================================================== *)
(** * Constructing an entity *)
(* ================================================================== *)

Section init_facts.
Variables (cls : Model) (kwargs : gmap string pyval).

Lemma init_step_new attr ca (self self' : entity) :
  init_step cls kwargs attr ca self = Ok self' → _new self' = _new self.
Proof.
  unfold init_step. case_match; [done|].
  destruct (_init_ ca _ _) as [v|e]; [|done]. cbn. by intros [= <-].
Qed.

(** Once the loop reaches the primary key of a new entity that was
    given a true value, it raises; before, only a column's own setter
    can. *)
Lemma init_loop_primary_key columns (self : entity) (value : pyval) :
  _new self = true →
  _pkey cls ∈ columns.*1 →
  kwargs !! _pkey cls = Some value →
  truthy value = true →
  (∃ e, init_loop cls kwargs columns self = Raise e)
  ∧ ((∀ attr ca, (attr, ca) ∈ columns → attr ≠ _pkey cls →
        ∃ v, _init_ ca (kwargs !! attr) false = Ok v) →
     init_loop cls kwargs columns self
     = Raise (InvalidColumnValue "Cannot pass primary key on object creation")).
Proof.
  intros Hnew Hin Hval Htrue. revert self Hnew.
  induction columns as [|[attr ca] rest IH]; intros self Hnew.
  { by apply elem_of_nil in Hin. }
  cbn [init_loop]. unfold init_step. rewrite Hnew. cbn [andb negb].
  destruct (decide (attr = _pkey cls)) as [->|Hne].
  - rewrite bool_decide_eq_true_2 by done. rewrite Hval. cbn. rewrite Htrue.
    split; [by eexists|done].
  - rewrite bool_decide_eq_false_2 by done. cbn [andb].
    assert (Hin' : _pkey cls ∈ rest.*1).
    { cbn in Hin. apply elem_of_cons in Hin as [?|?]; [congruence|done]. }
    destruct (_init_ ca (kwargs !! attr) false) as [v|e] eqn:Hinit; cbn.
    + match goal with
      | |- context [init_loop cls kwargs rest ?s] =>
          destruct (IH Hin' s) as [Hraise Hexact]; [done|]
      end.
      split; [done|]. intros Hok. apply Hexact.
      intros attr' ca' Hin'' Hne'. apply Hok; [set_solver|done].
    + split; [by eexists|]. intros Hok.
      destruct (Hok attr ca) as [v Hv]; [set_solver|done|congruence].
Qed.

(** Where the check of the primary key lets every column through and
    the setters accept their values, the loop returns. *)
Lemma init_loop_returns columns (self : entity) :
  (∀ attr ca, (attr, ca) ∈ columns →
     _new self && bool_decide (attr = _pkey cls) && truthy_opt (kwargs !! attr)
     = false
     ∧ ∃ v, _init_ ca (kwargs !! attr) (negb (_new self)) = Ok v) →
  ∃ self', init_loop cls kwargs columns self = Ok self'.
Proof.
  revert self. induction columns as [|[attr ca] rest IH]; intros self Hok;
    cbn [init_loop]; [by eexists|].
  destruct (Hok attr ca) as [Hguard [v Hv]]; [by left|].
  unfold init_step. rewrite Hguard, Hv. cbn.
  apply IH. intros attr' ca' Hin'. cbn [_new]. apply Hok. by right.
Qed.

(** What the loop leaves for a column: the value its setter returned,
    and the raw form of the value passed. *)
Lemma init_loop_column columns (self self' : entity) (attr : string)
    (ca : Column) (v : option pyval) :
  NoDup columns.*1 →
  (attr, ca) ∈ columns →
  _init_ ca (kwargs !! attr) (negb (_new self)) = Ok v →
  init_loop cls kwargs columns self = Ok self' →
  _data self' !! attr = v
  ∧ ∀ value, kwargs !! attr = Some value →
      _last self' !! attr
      = Some (match value with PStr s => s | c => _to_redis ca c end).
Proof.
  assert (Hkeep : ∀ columns self self',
    attr ∉ columns.*1 →
    init_loop cls kwargs columns self = Ok self' →
    _data self' !! attr = _data self !! attr
    ∧ _last self' !! attr = _last self !! attr).
  { clear. induction columns as [|[a c] rest IH]; intros self self' Hnot;
      cbn [init_loop]; [by intros [= <-]|].
    cbn in Hnot. apply not_elem_of_cons in Hnot as [Hne Hnot].
    destruct (init_step cls kwargs a c self) as [s1|e] eqn:Hstep; [|done].
    cbn. intros Hrest. destruct (IH _ _ Hnot Hrest) as [-> ->].
    unfold init_step in Hstep. case_match; [done|].
    destruct (_init_ c _ _) as [x|e]; [|done]. cbn in Hstep.
    injection Hstep as <-. cbn [_data _last].
    split; repeat case_match;
      by rewrite ?lookup_insert_ne, ?lookup_delete_ne by done. }
  revert self. induction columns as [|[a c] rest IH]; intros self Hnd Hin Hv;
    cbn [init_loop]; [by apply elem_of_nil in Hin|].
  cbn in Hnd. apply NoDup_cons in Hnd as [Ha Hnd].
  destruct (init_step cls kwargs a c self) as [s1|e] eqn:Hstep; [|done].
  cbn. intros Hrest.
  assert (Hnew : _new s1 = _new self) by (by eapply init_step_new).
  apply elem_of_cons in Hin as [[= <- <-]|Hin].
  - destruct (Hkeep _ _ _ Ha Hrest) as [-> ->].
    unfold init_step in Hstep. case_match; [done|].
    rewrite Hv in Hstep. cbn in Hstep. injection Hstep as <-. cbn [_data _last].
    split.
    + destruct v; by rewrite ?lookup_insert_eq, ?lookup_delete_eq.
    + intros value ->. destruct value; by rewrite lookup_insert_eq.
  - apply (IH s1); try done. by rewrite Hnew.
Qed.

End init_facts.

Lemma init_unfold (cls : Model) kwargs loading (w : world) :
  __init__ cls kwargs loading w
  = match construct cls kwargs loading with
    | Ok self => (Ok self, (session_add cls self w).2)
    | Raise e => (Raise e, w)
    end.
Proof.
  unfold __init__, construct, lift. rewrite bind_unfold.
  destruct (init_loop _ _ _ _) as [self|e]; [|done]. cbn.
  rewrite bind_unfold. unfold session_add. cbn [_data].
  by destruct (_data self !! _pkey cls).
Qed.

(** C9, as amended. The check of [__init__] is on the truth of the
    value passed for the primary-key column.  Constructing a new entity
    (not loading) with a true value raises, whatever else is passed; the
    exception is [InvalidColumnValue] whenever the setters of the other
    columns accept their values; so a construction that returns with
    such a value was a load.  A value that is false in a condition (0,
    the empty string, [False]) passes the check: where the setters of
    the columns accept their values, the construction returns a new
    entity to which the setter's value for the primary key is attached,
    with its raw form in [_last]. *)
Theorem primary_key_on_creation_raises (cls : Model)
    (kwargs : gmap string pyval) (value : pyval) (w : world) :
  _pkey cls ∈ (_columns cls).*1 →
  kwargs !! _pkey cls = Some value →
  (truthy value = true →
     (∃ e, __init__ cls kwargs false w = (Raise e, w))
     ∧ ((∀ attr ca, (attr, ca) ∈ _columns cls → attr ≠ _pkey cls →
           ∃ v, _init_ ca (kwargs !! attr) false = Ok v) →
        __init__ cls kwargs false w
        = (Raise (InvalidColumnValue "Cannot pass primary key on object creation"),
           w))
     ∧ (∀ loading self w',
          __init__ cls kwargs loading w = (Ok self, w') → loading = true))
  ∧ (truthy value = false →
     NoDup (_columns cls).*1 →
     (∀ attr ca, (attr, ca) ∈ _columns cls →
        ∃ v, _init_ ca (kwargs !! attr) false = Ok v) →
     ∃ self w',
       __init__ cls kwargs false w = (Ok self, w')
       ∧ _new self = true
       ∧ ∀ ca v, (_pkey cls, ca) ∈ _columns cls →
           _init_ ca (Some value) false = Ok v →
           _data self !! _pkey cls = v
           ∧ _last self !! _pkey cls
             = Some (match value with PStr s => s | c => _to_redis ca c end)).
Proof.
  intros Hin Hval. split.
  - intros Htrue.
    destruct (init_loop_primary_key cls kwargs (_columns cls)
                (Entity true ∅ ∅ false false false) value eq_refl Hin Hval Htrue)
      as [[e He] Hexact].
    assert (Hraise : __init__ cls kwargs false w = (Raise e, w)).
    { unfold __init__, lift. rewrite bind_unfold. cbn [negb]. by rewrite He. }
    split; [by exists e|split].
    + intros Hok. unfold __init__, lift. rewrite bind_unfold. cbn [negb].
      by rewrite (Hexact Hok).
    + intros [|] self w' Hrun; [done|]. by rewrite Hraise in Hrun.
  - intros Hfalse Hnd Hok.
    destruct (init_loop_returns cls kwargs (_columns cls)
                (Entity true ∅ ∅ false false false)) as [self Hself].
    { intros attr ca Hca. cbn [_new negb andb]. split; [|by eapply Hok].
      case_bool_decide as Hattr; [|done]. subst attr. rewrite Hval. cbn.
      by rewrite Hfalse. }
    assert (Hgen : ∀ columns s0 s1,
      init_loop cls kwargs columns s0 = Ok s1 → _new s1 = _new s0).
    { induction columns as [|[a c] rest IH]; intros s0 s1; cbn [init_loop];
        [by intros [= <-]|].
      destruct (init_step cls kwargs a c s0) as [s2|e] eqn:Hstep; [|done].
      cbn. intros Hrest. rewrite (IH _ _ Hrest). by eapply init_step_new. }
    pose proof (Hgen _ _ _ Hself) as Hnew. cbn [_new] in Hnew.
    rewrite init_unfold. unfold construct. cbn [negb]. rewrite Hself. cbn.
    eexists _, _. split; [done|]. split; [done|]. cbn [_data _last].
    intros ca v Hca Hv.
    eapply (init_loop_column cls kwargs (_columns cls) _ self (_pkey cls) ca v
              Hnd Hca) in Hself as [Hd Hl].
    + split; [done|]. by apply Hl.
    + cbn [_new negb]. by rewrite Hval.
Qed.

(* ================================================================== *)
(** * [int] of the decimal text of an integer *)
(* ================================================================== *)

Lemma digit_of_pretty_N_char (d : N) :
  (d < 10)%N → digit_of (pretty_N_char d) = Some (Z.of_N d).
Proof.
  intros Hd.
  assert (d = 0 ∨ d = 1 ∨ d = 2 ∨ d = 3 ∨ d = 4 ∨ d = 5 ∨ d = 6 ∨ d = 7
          ∨ d = 8 ∨ d = 9)%N as Hcases by lia.
  repeat destruct Hcases as [->|Hcases]; try subst d; done.
Qed.

(** Scanning the digits [pretty_N_go] puts in front of [s]. *)
Lemma int_scan_pretty_N_go (x : N) (s : string) (state : int_state)
    (negative : bool) :
  (0 < x)%N →
  state = AtStart ∨ state = AfterSign →
  int_scan (pretty_N_go x s) state negative 0
  = int_scan s InDigits negative (Z.of_N x).
Proof.
  revert s. induction (N.lt_wf_0 x) as [x _ IH]; intros s Hx Hstate.
  rewrite pretty_N_go_step by done.
  assert (Hd : (x `mod` 10 < 10)%N) by (apply N.mod_lt; lia).
  assert (Hx10 : Z.of_N x = 10 * Z.of_N (x `div` 10) + Z.of_N (x `mod` 10)).
  { rewrite (N.div_mod x 10) at 1 by lia. lia. }
  destruct (decide (x `div` 10 = 0)%N) as [Hz|Hnz].
  - rewrite Hz, pretty_N_go_0. cbn [int_scan].
    rewrite (digit_of_pretty_N_char _ Hd). rewrite Hx10, Hz.
    destruct Hstate as [-> | ->]; done.
  - rewrite IH; [|apply N.div_lt; lia|lia|done].
    cbn [int_scan]. rewrite (digit_of_pretty_N_char _ Hd). by rewrite Hx10.
Qed.

Lemma int_scan_pretty (n : Z) : int_scan (pretty n) AtStart false 0 = Some n.
Proof.
  destruct n as [|p|p].
  - done.
  - change (pretty (Z.pos p)) with (pretty (N.pos p)).
    unfold pretty, pretty_N. rewrite decide_False by done.
    etrans; [apply int_scan_pretty_N_go; [lia|auto]|done].
  - change (pretty (Z.neg p)) with ("-" +:+ pretty (N.pos p)).
    unfold pretty, pretty_N. rewrite decide_False by done.
    rewrite string_app_cons, string_app_nil. cbn [int_scan].
    change (digit_of "-") with (@None Z). cbn.
    etrans; [apply int_scan_pretty_N_go; [lia|auto]|done].
Qed.

Lemma py_int_numeric_string `{!Unicode} (n : Z) : py_int (PStr (pretty n)) = Ok n.
Proof. unfold py_int. by rewrite int_scan_pretty. Qed.

(** [py_int] raises nothing but [ValueError]. *)
Lemma py_int_raises `{!Unicode} (v : pyval) (e : exn) :
  py_int v = Raise e → e = ValueError.
Proof. destruct v; cbn; try done. repeat case_match; try done; by intros [= <-]. Qed.

Lemma map_result_py_int_raises `{!Unicode} (ids : list pyval) :
  Exists (λ id, ∃ e, py_int id = Raise e) ids →
  map_result py_int ids = Raise ValueError.
Proof.
  induction 1 as [id rest [e He]|id rest _ IH]; cbn [map_result].
  - rewrite He. cbn. by rewrite (py_int_raises _ _ He).
  - destruct (py_int id) as [z|e] eqn:He; cbn.
    + by rewrite IH.
    + by rewrite (py_int_raises _ _ He).
Qed.

(* ================================================================== *)
(** * What [get] returns *)
(* ================================================================== *)

Lemma session_add_db cls self w : db (session_add cls self w).2 = db w.
Proof. unfold session_add. by case_match. Qed.

Lemma map_M_session_get (pks : list string) (w : world) :
  map_M session_get pks w = (Ok ((λ pk, known w !! pk) <$> pks), w).
Proof.
  induction pks as [|pk rest IH]; [done|].
  cbn [map_M]. rewrite bind_unfold. unfold session_get at 1.
  rewrite bind_unfold, IH. done.
Qed.

Lemma exec_all_HGETALL (keys : list string) (st : store) :
  Forall (λ k, is_Some (hash_at st k)) keys →
  exec_all (HGETALL <$> keys) st
  = ((λ k, Some (Fields (default ∅ (hash_at st k)))) <$> keys, st).
Proof.
  induction 1 as [|k rest [h Hh] _ IH]; [done|].
  cbn [fmap list_fmap exec_all exec]. rewrite Hh. cbn.
  change (list_fmap _ _ HGETALL rest) with (HGETALL <$> rest). by rewrite IH.
Qed.

Lemma all_replies_Some (rs : list reply) : all_replies (Some <$> rs) = Some rs.
Proof. induction rs as [|r rs IH]; [done|]. cbn. by rewrite IH. Qed.

Lemma pipe_execute_HGETALL (keys : list string) (w : world) :
  keys ≠ [] →
  Forall (λ k, is_Some (hash_at (db w) k)) keys →
  pipe_execute pipeline0 (HGETALL <$> keys) w
  = (Ok ((λ k, Fields (default ∅ (hash_at (db w) k))) <$> keys),
     World (db w) (trace w ++ [MULTI] ++ (HGETALL <$> keys) ++ [EXEC]) (known w)).
Proof.
  intros Hne Hkeys. unfold pipe_execute.
  destruct (HGETALL <$> keys) as [|c cs] eqn:Hstack.
  { by apply fmap_nil_inv in Hstack. }
  rewrite <- Hstack. cbn [dirty pipeline0].
  rewrite (exec_all_HGETALL _ _ Hkeys).
  replace ((λ k, Some (Fields (default ∅ (hash_at (db w) k)))) <$> keys)
    with (Some <$> ((λ k, Fields (default ∅ (hash_at (db w) k))) <$> keys))
    by (by rewrite <- list_fmap_compose).
  by rewrite all_replies_Some.
Qed.

Lemma update_output_spec (cls : Model) (fetched : list (nat * reply))
    (out : list (option entity)) (w : world) :
  (∀ i r, (i, r) ∈ fetched →
     ∃ h, r = Fields h ∧ (h = ∅ ∨ ∃ e, construct cls (PStr <$> h) true = Ok e)) →
  ∃ w', update_output cls fetched out w
        = (Ok (foldl (λ o ir, updated cls ir.1 ir.2 o) out fetched), w')
        ∧ db w' = db w.
Proof.
  revert out w. induction fetched as [|[i r] rest IH]; intros out w Hok.
  - by exists w.
  - destruct (Hok i r) as (h & -> & Hh); [set_solver|].
    cbn [update_output foldl fst snd].
    change (updated cls i (Fields h) out)
      with (if decide (h = ∅) then out
            else match construct cls (PStr <$> h) true with
                 | Ok e => <[i := Some e]> out
                 | Raise _ => out
                 end).
    assert (Hrest : ∀ i r, (i, r) ∈ rest →
      ∃ h, r = Fields h ∧ (h = ∅ ∨ ∃ e, construct cls (PStr <$> h) true = Ok e)).
    { intros i' r' Hin. apply (Hok i' r'). set_solver. }
    destruct (decide (h = ∅)) as [->|Hne].
    + rewrite bool_decide_eq_false_2 by (by intros Hx; apply Hx).
      exact (IH out w Hrest).
    + rewrite bool_decide_eq_true_2 by done.
      destruct Hh as [?|[e He]]; [done|].
      rewrite bind_unfold, init_unfold, He.
      destruct (IH (<[i := Some e]> out) (session_add cls e w).2 Hrest)
        as (w' & Hrun & Hdb).
      exists w'. split; [done|]. by rewrite Hdb, session_add_db.
Qed.

Lemma updated_length cls i r out : length (updated cls i r out) = length out.
Proof. unfold updated. repeat case_match; by rewrite ?length_insert. Qed.

Lemma updated_lookup_ne cls i j r out :
  i ≠ j → updated cls i r out !! j = out !! j.
Proof.
  intros Hne. unfold updated.
  repeat case_match; by rewrite ?list_lookup_insert_ne.
Qed.

(** What [updated] leaves at its own index depends on what was there. *)
Lemma updated_lookup_eq cls i r out out' :
  out !! i = out' !! i → updated cls i r out !! i = updated cls i r out' !! i.
Proof.
  intros Heq. unfold updated. repeat case_match; try done.
  destruct (decide (i < length out)%nat) as [Hlt|Hge].
  - rewrite !list_lookup_insert_eq; [done| |done].
    apply lookup_lt_is_Some. rewrite <- Heq. by apply lookup_lt_is_Some.
  - rewrite !list_insert_ge; [done| |lia].
    apply Nat.nlt_ge. intros Hlt. apply Hge.
    apply lookup_lt_is_Some. rewrite Heq. by apply lookup_lt_is_Some.
Qed.

Lemma foldl_updated_lookup cls (F : nat → reply) (idxs : list nat)
    (out : list (option entity)) (j : nat) :
  NoDup idxs →
  foldl (λ o ir, updated cls ir.1 ir.2 o) out ((λ i, (i, F i)) <$> idxs) !! j
  = if decide (j ∈ idxs) then updated cls j (F j) out !! j else out !! j.
Proof.
  intros Hnodup. revert out.
  induction idxs as [|i rest IH]; intros out; [done|].
  apply NoDup_cons in Hnodup as [Hi Hrest].
  cbn [fmap list_fmap foldl fst snd].
  change (list_fmap _ _ (λ i, (i, F i)) rest) with ((λ i, (i, F i)) <$> rest).
  rewrite (IH Hrest).
  destruct (decide (j = i)) as [->|Hne].
  - rewrite decide_False by done. rewrite decide_True by set_solver. done.
  - destruct (decide (j ∈ rest)) as [Hin|Hnin].
    + rewrite decide_True by set_solver.
      apply updated_lookup_eq. by apply updated_lookup_ne.
    + rewrite decide_False by set_solver. by apply updated_lookup_ne.
Qed.

Lemma zip_fmap_self {A B} (f : A → B) (l : list A) :
  zip l (f <$> l) = (λ x, (x, f x)) <$> l.
Proof. induction l as [|x l IH]; [done|]. cbn. by f_equal. Qed.

Lemma omap_id_fmap {A B} (f : A → option B) (l : list A) :
  omap id (f <$> l) = omap f l.
Proof. induction l as [|x l IH]; [done|]. cbn. by rewrite IH. Qed.

Lemma omap_id_Some {A} (l : list A) : omap id (Some <$> l) = l.
Proof. induction l as [|x l IH]; [done|]. cbn. by rewrite IH. Qed.

Section get_facts.
Context `{!Unicode}.
Variables (cls : Model) (w : world).

Local Abbreviation session_of := (λ n : Z, known w !! pk_of cls n).

Lemma missing_session (ints : list Z) (j : nat) :
  missing (session_of <$> ints) j = true
  ↔ ∃ n, ints !! j = Some n ∧ known w !! pk_of cls n = None.
Proof.
  unfold missing. rewrite list_lookup_fmap.
  destruct (ints !! j) as [n|]; cbn.
  - destruct (known w !! pk_of cls n) eqn:Hk; split; try done.
    + intros (? & [= <-] & ?). congruence.
    + intros _. by exists n.
  - split; [done|]. by intros (? & ? & ?).
Qed.

(** The list [get] ends with, before the entries that are [None] are
    dropped. *)
Lemma get_output (ints : list Z) :
  Forall (loadable cls w) ints →
  let pks := (λ id : Z, row_key (_namespace cls) (pretty id)) <$> ints in
  let out := session_of <$> ints in
  ∃ w' out',
    (if existsb (λ x, negb (bool_decide (is_Some x))) out then
       let idxs := filter (λ i, missing out i) (seq 0 (length out)) in
       let stack := (λ i, HGETALL (default "" (pks !! i))) <$> idxs in
       fetched ← pipe_execute pipeline0 stack;
       out ← update_output cls (zip idxs fetched) out;
       mret (Some <$> omap id out)
     else mret out) w = (Ok out', w')
    ∧ omap id out' = omap (resolve cls w) ints.
Proof.
  intros Hload pks out.
  destruct (existsb _ out) eqn:Hmiss.
  2:{ exists w, out. split; [done|]. unfold out. rewrite omap_id_fmap.
      clear Hload. subst pks out. induction ints as [|n rest IH]; [done|].
      cbn in Hmiss. apply orb_false_iff in Hmiss as [Hn Hrest].
      cbn. rewrite (IH Hrest). unfold resolve.
      by destruct (known w !! pk_of cls n). }
  cbn zeta.
  set (idxs := filter (λ i, missing out i) (seq 0 (length out))).
  set (F := λ i : nat,
         Fields (default ∅ (hash_at (db w) (default "" (pks !! i))))).
  assert (Hidx : ∀ i, i ∈ idxs ↔
            ∃ n, ints !! i = Some n ∧ known w !! pk_of cls n = None).
  { intros i. unfold idxs. rewrite list_elem_of_filter, elem_of_seq.
    rewrite Is_true_true. unfold out. rewrite missing_session.
    split; [by intros [? _]|].
    intros (n & Hn & Hk). split; [by exists n|]. split; [lia|].
    rewrite length_fmap. cbn. by eapply lookup_lt_Some. }
  assert (Hpk : ∀ i n, ints !! i = Some n → default "" (pks !! i) = pk_of cls n).
  { intros i n Hn. unfold pks. by rewrite list_lookup_fmap, Hn. }
  assert (Hkeys : Forall (λ k, is_Some (hash_at (db w) k))
            ((λ i, default "" (pks !! i)) <$> idxs)).
  { apply Forall_fmap, Forall_forall. intros i (n & Hn & Hk)%Hidx. cbn.
    rewrite (Hpk i n Hn).
    rewrite Forall_forall in Hload.
    destruct (Hload n) as [[e He]|(h & Hh & _)];
      [by eapply list_elem_of_lookup_2|congruence|by eexists]. }
  assert (Hne : idxs ≠ []).
  { apply existsb_exists in Hmiss as (x & Hx & Hnone).
    apply list_elem_of_In, list_elem_of_lookup in Hx as [j Hj].
    intros Hnil. apply (not_elem_of_nil j). rewrite <- Hnil.
    unfold out in Hj. rewrite list_lookup_fmap in Hj.
    destruct (ints !! j) as [n|] eqn:Hn; [|done]. apply Hidx. exists n.
    split; [done|]. cbn in Hj. injection Hj as <-.
    destruct (known w !! pk_of cls n); [|done].
    by rewrite bool_decide_eq_true_2 in Hnone. }
  set (keys := (λ i, default "" (pks !! i)) <$> idxs) in *.
  replace ((λ i, HGETALL (default "" (pks !! i))) <$> idxs)
    with (HGETALL <$> keys) by (unfold keys; by rewrite <- list_fmap_compose).
  rewrite bind_unfold, pipe_execute_HGETALL;
    [|by intros ?%fmap_nil_inv|done].
  replace ((λ k, Fields (default ∅ (hash_at (db w) k))) <$> keys)
    with (F <$> idxs) by (unfold keys; by rewrite <- list_fmap_compose).
  rewrite bind_unfold, zip_fmap_self.
  edestruct (update_output_spec cls ((λ x, (x, F x)) <$> idxs) out)
    as (w' & Hrun & Hdb).
  { intros i r (i' & [= -> ->] & Hin)%list_elem_of_fmap.
    apply Hidx in Hin as (n & Hn & Hk). unfold F. rewrite (Hpk i' n Hn).
    rewrite Forall_forall in Hload.
    destruct (Hload n) as [[e He]|(h & Hh & Hcons)];
      [by eapply list_elem_of_lookup_2|congruence|].
    exists h. by rewrite Hh. }
  rewrite Hrun. eexists _, _. split; [done|].
  rewrite omap_id_Some. rewrite <- (omap_id_fmap (resolve cls w)). f_equal.
  apply list_eq. intros j.
  rewrite foldl_updated_lookup by apply NoDup_filter, NoDup_seq.
  rewrite list_lookup_fmap.
  destruct (ints !! j) as [n|] eqn:Hn; cbn.
  - unfold resolve. destruct (known w !! pk_of cls n) as [e|] eqn:Hk.
    + rewrite decide_False.
      * unfold out. by rewrite list_lookup_fmap, Hn; cbn; rewrite Hk.
      * intros (n' & Hn' & Hk')%Hidx. congruence.
    + rewrite decide_True by (apply Hidx; eauto).
      unfold F. rewrite (Hpk j n Hn).
      rewrite Forall_forall in Hload.
      destruct (Hload n) as [[e He]|(h & Hh & Hcons)];
        [by eapply list_elem_of_lookup_2|congruence|].
      rewrite Hh. cbn [default from_option]. unfold id, updated.
      destruct (decide (h = ∅)) as [->|Hnemp].
      * unfold out. by rewrite list_lookup_fmap, Hn; cbn; rewrite Hk.
      * destruct Hcons as [?|[e He]]; [done|]. rewrite He.
        rewrite list_lookup_insert_eq; [done|].
        unfold out. rewrite length_fmap. by eapply lookup_lt_Some.
  - rewrite decide_False.
    + unfold out. by rewrite list_lookup_fmap, Hn.
    + intros (n' & Hn' & _)%Hidx. congruence.
Qed.

End get_facts.

Lemma get_run `{!Unicode} (cls : Model) (w : world) (ids : ids_arg)
    (ints : list Z) :
  map_result py_int (ids_of ids) = Ok ints →
  Forall (loadable cls w) ints →
  ∃ w', get cls ids w
        = (Ok (match ids with
               | OneId _ => GotOne (head (omap (resolve cls w) ints))
               | ManyIds _ => GotList (omap (resolve cls w) ints)
               end), w').
Proof.
  intros Hints Hload. unfold get, lift. rewrite bind_unfold.
  unfold ids_of in Hints. rewrite Hints.
  rewrite bind_unfold, map_M_session_get.
  replace ((λ pk, known w !! pk)
           <$> ((λ id : Z, row_key (_namespace cls) (pretty id)) <$> ints))
    with ((λ n : Z, known w !! pk_of cls n) <$> ints)
    by (by rewrite <- list_fmap_compose).
  destruct (get_output cls w ints Hload) as (w' & out' & Hrun & Hout).
  cbn zeta in Hrun. rewrite bind_unfold, Hrun, Hout.
  exists w'. by destruct ids.
Qed.

(** C7. [get] of a single id returns the entity the id stands for,
    or [None] when it stands for none; [get] of a sequence of ids
    returns the entities the ids stand for, in the order of the ids,
    the ids that stand for none left out.  (For ids that [int] converts
    and whose lookup runs into no error.) *)
Theorem get_resolves `{!Unicode} (cls : Model) (w : world) :
  (∀ id n,
     py_int id = Ok n → loadable cls w n →
     ∃ w', get cls (OneId id) w = (Ok (GotOne (resolve cls w n)), w'))
  ∧ (∀ ids ints,
       map_result py_int ids = Ok ints → Forall (loadable cls w) ints →
       ∃ w', get cls (ManyIds ids) w
             = (Ok (GotList (omap (resolve cls w) ints)), w')).
Proof.
  split.
  - intros id n Hn Hload.
    destruct (get_run cls w (OneId id) [n]) as [w' Hrun].
    { cbn. by rewrite Hn. }
    { by constructor. }
    exists w'. rewrite Hrun. cbn. by destruct (resolve cls w n).
  - intros ids ints Hints Hload. by apply (get_run cls w (ManyIds ids)).
Qed.

(* ================================================================== *)
(** * The keys [get] reads *)
(* ================================================================== *)

(** Building entities from what was fetched sends nothing. *)
Lemma update_output_trace (cls : Model) (fetched : list (nat * reply))
    (out : list (option entity)) (w : world) :
  trace (update_output cls fetched out w).2 = trace w.
Proof.
  revert out w. induction fetched as [|[i r] rest IH]; intros out w; [done|].
  cbn [update_output]. destruct r as [| | | |data]; try apply IH.
  case_bool_decide; [|apply IH].
  rewrite bind_unfold, init_unfold.
  destruct (construct cls (PStr <$> data) true) as [e|e]; [|done].
  rewrite IH. unfold session_add. by case_match.
Qed.

(** A pipeline that watches nothing sends its stack between MULTI and
    EXEC, whatever the replies. *)
Lemma pipe_execute_trace (stack : list command) (w : world) :
  stack ≠ [] →
  trace (pipe_execute pipeline0 stack w).2 = trace w ++ [MULTI] ++ stack ++ [EXEC].
Proof.
  intros Hne. unfold pipe_execute. destruct stack as [|c stack]; [done|].
  cbn [dirty pipeline0]. destruct (exec_all _ _) as [rs st].
  cbn [snd trace pipe_reset watching]. by rewrite app_nil_r.
Qed.

Section get_keys.
Context `{!Unicode}.
Variables (cls : Model) (w : world).

(** The commands of a [get] whose ids were converted to [ints]: one
    HGETALL per id the session does not hold, at the key made of the
    integer. *)
Lemma get_trace (ids : ids_arg) (ints : list Z) :
  map_result py_int (ids_of ids) = Ok ints →
  ∃ keys,
    trace (get cls ids w).2
    = trace w ++ match keys with
                 | [] => []
                 | _ => [MULTI] ++ (HGETALL <$> keys) ++ [EXEC]
                 end
    ∧ ∀ k, k ∈ keys ↔ ∃ n, n ∈ ints ∧ k = pk_of cls n ∧ known w !! k = None.
Proof.
  intros Hints.
  set (pks := (λ id : Z, row_key (_namespace cls) (pretty id)) <$> ints).
  set (out := (λ pk, known w !! pk) <$> pks).
  set (idxs := filter (λ i, missing out i) (seq 0 (length out))).
  exists ((λ i, default "" (pks !! i)) <$> idxs).
  assert (Hidx : ∀ i, i ∈ idxs ↔ ∃ n, ints !! i = Some n
                                      ∧ known w !! pk_of cls n = None).
  { intros i. unfold idxs. rewrite list_elem_of_filter, elem_of_seq.
    unfold missing, out, pks. rewrite !list_lookup_fmap, !length_fmap.
    destruct (ints !! i) as [n|] eqn:Hn; cbn.
    - apply lookup_lt_Some in Hn as Hlt. unfold pk_of.
      destruct (known w !! row_key (_namespace cls) (pretty n)) eqn:Hk.
      + split; [by intros [? _]|]. intros (? & [= <-] & ?). congruence.
      + split; [intros _; by exists n|]. intros _. split; [done|lia].
    - split; [by intros [? _]|]. by intros (? & ? & _). }
  split.
  - unfold get, lift. rewrite bind_unfold. unfold ids_of in Hints.
    assert (Hids : map_result py_int
                     match ids with OneId id => [id] | ManyIds ids0 => ids0 end
                   = Ok ints) by (by destruct ids).
    rewrite Hids. rewrite bind_unfold, map_M_session_get. fold pks. fold out.
    rewrite bind_unfold.
    destruct (existsb (λ x, negb (bool_decide (is_Some x))) out) eqn:Hex.
    + fold idxs.
      assert (Hne : idxs ≠ []).
      { apply existsb_exists in Hex as (x & Hx & Hnone).
        apply list_elem_of_In, list_elem_of_lookup in Hx as [i Hi].
        intros Hnil. apply (elem_of_nil i). rewrite <- Hnil.
        unfold idxs. apply list_elem_of_filter. split.
        - unfold missing. rewrite Hi. destruct x; [|done].
          by rewrite bool_decide_eq_true_2 in Hnone.
        - apply elem_of_seq. apply lookup_lt_Some in Hi. lia. }
      rewrite bind_unfold.
      set (stack := (λ i, HGETALL (default "" (pks !! i))) <$> idxs).
      assert (Hstack : stack ≠ []).
      { unfold stack. by destruct idxs. }
      pose proof (pipe_execute_trace stack w Hstack) as Htr.
      destruct (pipe_execute pipeline0 stack w) as [[fetched|e] w1] eqn:Hrun;
        cbn [snd] in Htr.
      * rewrite bind_unfold.
        pose proof (update_output_trace cls (zip idxs fetched) out w1) as Hup.
        destruct (update_output cls (zip idxs fetched) out w1)
          as [[out'|e] w2]; cbn [snd] in Hup.
        -- rewrite ret_unfold. cbn [fst snd].
           destruct ids; rewrite ret_unfold; cbn [snd]; rewrite Hup, Htr;
             unfold stack; rewrite <- list_fmap_compose;
             by destruct idxs.
        -- cbn [snd]. rewrite Hup, Htr. unfold stack.
           rewrite <- list_fmap_compose. by destruct idxs.
      * cbn [snd]. rewrite Htr. unfold stack.
        rewrite <- list_fmap_compose. by destruct idxs.
    + assert (Hnil : idxs = []).
      { apply elem_of_nil_inv. intros i Hi. unfold idxs in Hi.
        apply list_elem_of_filter in Hi as [Hmiss Hi].
        unfold missing in Hmiss.
        destruct (out !! i) as [[e|]|] eqn:Ho; try done.
        assert (Hin : In (@None entity) out).
        { apply list_elem_of_In, list_elem_of_lookup. by exists i. }
        assert (existsb (λ x, negb (bool_decide (is_Some x))) out = true).
        { apply existsb_exists. exists None. split; [done|].
          rewrite bool_decide_eq_false_2; [done|]. by intros [? ?]. }
        congruence. }
      rewrite Hnil. cbn [fmap list_fmap]. rewrite ret_unfold.
      destruct ids; cbn; by rewrite app_nil_r.
  - intros k. rewrite list_elem_of_fmap. split.
    + intros (i & -> & Hi). apply Hidx in Hi as (n & Hn & Hk).
      exists n. unfold pks. rewrite list_lookup_fmap, Hn. cbn.
      split; [by eapply list_elem_of_lookup_2|]. done.
    + intros (n & Hn & -> & Hk). apply list_elem_of_lookup in Hn as [i Hi].
      exists i. split.
      * unfold pks. by rewrite list_lookup_fmap, Hi.
      * apply Hidx. by exists n.
Qed.

End get_keys.

(** C10. [get] converts every id with [int] before it builds a key
    or touches the session or the store.  When an id cannot be
    converted it raises [ValueError] and has done nothing.  The decimal
    text of an integer is converted to that integer, so that [get] of
    it is [get] of the integer.  When every id is converted, the keys
    [get] reads are those made of the integers, one HGETALL for each id
    the session does not hold, and where these lookups run into no error
    it returns the entities the integers stand for. *)
Theorem get_converts_ids `{!Unicode} (cls : Model) (w : world) :
  (∀ ids,
     Exists (λ id, ∃ e, py_int id = Raise e) (ids_of ids) →
     get cls ids w = (Raise ValueError, w))
  ∧ (∀ n : Z,
       py_int (PStr (pretty n)) = Ok n
       ∧ get cls (OneId (PStr (pretty n))) w = get cls (OneId (PInt n)) w
       ∧ ∀ ids, get cls (ManyIds (PStr (pretty n) :: ids)) w
                = get cls (ManyIds (PInt n :: ids)) w)
  ∧ (∀ ids ints,
       map_result py_int (ids_of ids) = Ok ints →
       (∃ keys,
          trace (get cls ids w).2
          = trace w ++ match keys with
                       | [] => []
                       | _ => [MULTI] ++ (HGETALL <$> keys) ++ [EXEC]
                       end
          ∧ ∀ k, k ∈ keys ↔ ∃ n, n ∈ ints ∧ k = pk_of cls n
                                 ∧ known w !! k = None)
       ∧ (Forall (loadable cls w) ints →
          ∃ w', get cls ids w
                = (Ok (match ids with
                       | OneId _ => GotOne (head (omap (resolve cls w) ints))
                       | ManyIds _ => GotList (omap (resolve cls w) ints)
                       end), w'))).
Proof.
  split; [|split].
  - intros ids Hbad. unfold get, lift. rewrite bind_unfold.
    apply map_result_py_int_raises in Hbad. unfold ids_of in Hbad.
    by rewrite Hbad.
  - intros n. split; [apply py_int_numeric_string|].
    split; [|intros ids]; unfold get, lift; rewrite !bind_unfold;
      cbn [map_result]; by rewrite py_int_numeric_string.
  - intros ids ints Hints. split; [by apply get_trace|].
    intros Hload. by apply get_run.
Qed.

(* ================================================================== *)
(** * The path without Lua *)

(** The loop of [_apply_changes] goes round again exactly when a pass
    ended in the WatchError that [pipe.execute()] raised; a value is
    returned and any other exception leaves the loop. *)
Lemma apply_loop_cons `{!Cjson, !Util} (use_lua : bool) (cls : Model)
    (old : gmap string string) (new : gmap string pyval) (full delete : bool)
    (pk : pyval) (iv : interference) (rest : list interference) (w : world) :
  apply_loop use_lua cls old new full delete pk (iv :: rest) w
  = match attempt use_lua cls old new full delete pk iv w with
    | (Ok (Some ret), w') => (Ok ret, w')
    | (Ok None, w') => apply_loop use_lua cls old new full delete pk rest w'
    | (Raise e, w') => (Raise e, w')
    end.
Proof.
  cbn [apply_loop]. rewrite bind_unfold.
  destruct (attempt _ _ _ _ _ _ _ _ w) as [[[ret|]|e] w']; done.
Qed.

Lemma catch_watch_None {A} (m : M A) (w w' : world) :
  catch_watch m w = (Ok None, w') ↔ m w = (Raise WatchError, w').
Proof.
  unfold catch_watch. destruct (m w) as [[a|e] w1]; [naive_solver|].
  destruct e; naive_solver.
Qed.

(** [pipe.execute()] raises WatchError only when a watched key was
    modified, and then none of the queued commands ran. *)
Lemma pipe_execute_WatchError (p : pipeline) (stack : list command)
    (w w' : world) :
  pipe_execute p stack w = (Raise WatchError, w') →
  dirty p = true ∧ db w' = db w
  ∧ trace w' = trace w ++ [MULTI; EXEC] ++ pipe_reset p.
Proof.
  unfold pipe_execute. destruct stack as [|c stack]; [done|].
  destruct (dirty p); [naive_solver|].
  destruct (exec_all _ _) as [rs st]. destruct (all_replies rs); naive_solver.
Qed.

(** [if not (nuval and (ouval != nuvale or full)): continue]: a unique
    value that is falsy is not looked up, whoever owns it. *)
Lemma check_unique_step_falsy (cls : Model) (old : gmap string string)
    (new : gmap string pyval) (full : bool) (pk : pyval) (iv : interference)
    (col : string) (ca : Column) (p : pipeline) (w : world) :
  column cls col = Ok ca →
  truthy_opt (new !! col) = false →
  check_unique_step cls old new full pk iv col p w = (Ok p, w).
Proof.
  intros Hca Hfalsy. unfold check_unique_step. rewrite bind_unfold.
  unfold lift. rewrite Hca. destruct (new !! col) as [nv|]; cbn.
  - cbn in Hfalsy. by rewrite Hfalsy.
  - done.
Qed.

(** C5, at the input where the code departs from it. Without Lua the
    check of a unique value is skipped when the value is falsy: the
    account with id 2 and the empty string as email, saved while the
    account with id 1 owns the empty string in the unique index, is
    saved with no WATCH and no HGET, its transaction is committed, and
    the entry of the unique index then names id 2; the script raises
    UniqueKeyViolation on the same input. A conflicting value that is
    truthy raises UniqueKeyViolation after WATCH, HGET and UNWATCH, with
    nothing committed. *)
Theorem fallback_skips_falsy_unique_value :
  hget (db world_carol) (uidx_key "Account" "email") "" = Some "1"
  ∧ (∃ self, outcome (@save example_cjson example_util false [] Account
                        dave_new false) world_carol = Ok (2%nat, self))
  ∧ issued (@save example_cjson example_util false [] Account dave_new false)
      world_carol
    = [MULTI; HSET "Account:email:uidx" "" "2";
       HMSET "Account:2" ["email"; ""; "id"; "2"]; EXEC]
  ∧ hget (db (@save example_cjson example_util false [] Account dave_new false
                world_carol).2) (uidx_key "Account" "email") "" = Some "2"
  ∧ (@save example_cjson example_util true [] Account dave_new false
       world_carol).1
    = Raise (UniqueKeyViolation (PStr "") (uidx_key "Account" "email"))
  ∧ (@save example_cjson example_util false [] Account frank_new false
       world_erin).1
    = Raise (UniqueKeyViolation (PStr "e@x") (uidx_key "Account" "email"))
  ∧ issued (@save example_cjson example_util false [] Account frank_new false)
      world_erin
    = [WATCH "Account:email:uidx"; HGET "Account:email:uidx" "e@x"; UNWATCH].
Proof.
  split; [by vm_compute|].
  split; [eexists; by vm_compute|].
  repeat split; by vm_compute.
Qed.

(* ================================================================== *)
(** * The theorems at the example models *)

#[local] Existing Instances example_cjson example_util example_unicode.

(** A property of every entry of a map given by its members, checked
    by evaluation. *)
Lemma map_Forall_run `{Countable K} {A} (P : K → A → Prop)
    `{!∀ k a, Decision (P k a)} (m : gmap K A) :
  bool_decide (map_Forall P m) = true → ∀ k a, m !! k = Some a → P k a.
Proof. intros Hb k a Hk. apply bool_decide_eq_true_1 in Hb. exact (Hb k a Hk). Qed.

(** The second user has the email of the first: its save raises, and
    the store is the one before. *)
Lemma unique_conflict_aborts_witness :
  ∃ c v o reads,
    _apply_changes true [] User ∅ bob_data true false world1
    = (Raise (UniqueKeyViolation (PStr v) (uidx_key (_namespace User) c)),
       World (db world1) (trace world1 ++ reads) (known world1))
    ∧ unique bob_changes !! c = Some v
    ∧ hget (db world1) (uidx_key (_namespace User) c) v = Some o
    ∧ o ≠ py_str (PInt 2)
    ∧ Forall (λ c, is_write c = false) reads.
Proof.
  apply (@unique_conflict_aborts example_cjson example_util [] User ∅ bob_data true false (PInt 2)
           bob_changes world1 "email" "a@x" "1").
  - by vm_compute.
  - by vm_compute.
  - by vm_compute.
  - by vm_compute.
  - by vm_compute.
  - by vm_compute.
  - refine (map_Forall_run _ _ _). by vm_compute.
Defined.

(** The first save of the first user writes its manifest last, and its
    deletion removes the row and the manifest entry. *)
Lemma apply_manifest_witness :
  (hget (db alice_applied.2) (manifest_key "User") "1"
   = Some (cjson_encode (elements (keys alice_changes))
             (map_to_list (scores alice_changes)).*1
             (prefix alice_changes) (suffix alice_changes))
   ∧ ∃ before adds,
       trace alice_applied.2
       = trace empty_world ++ before ++ adds
         ++ [HSET (manifest_key "User") "1"
               (cjson_encode (elements (keys alice_changes))
                  (map_to_list (scores alice_changes)).*1
                  (prefix alice_changes) (suffix alice_changes))]
       ∧ Forall (λ c, is_index_add c = false) before
       ∧ index_adds "User" "1" (elements (keys alice_changes))
           (map_to_list (scores alice_changes))
           (prefix alice_changes) (suffix alice_changes) = Some adds)
  ∧ (db alice_deleted.2 !! row_key "User" "1" = None
     ∧ hget (db alice_deleted.2) (manifest_key "User") "1" = None
     ∧ ∃ cs, trace alice_deleted.2
             = trace world1 ++ cs
               ++ [DEL (row_key "User" "1"); HDEL (manifest_key "User") ["1"]]).
Proof.
  split.
  - apply (@apply_manifest example_cjson example_util [] User ∅ alice_data true false (PInt 1)
             alice_changes empty_world alice_applied.2
             (from_result (0%nat, ∅) alice_applied.1)); by vm_compute.
  - apply (@apply_manifest example_cjson example_util [] User (_last alice) ∅ false true (PStr "1")
             (from_result locals0
                (compute_changes true User (_last alice) ∅ false true (PStr "1")))
             world1 alice_deleted.2
             (from_result (0%nat, ∅) alice_deleted.1)); by vm_compute.
Defined.

(** C3, the sentence as the spec has it: the first user is persisted
    and unchanged, its save with [full=False] returns 0, and the script
    runs all the same, with writes to the composite unique index, to the
    indexes and to the manifest. Where another client removed the
    manifest entry in between, the save that returns 0 changes the
    store. *)
Lemma unchanged_save_still_writes :
  _new alice = false
  ∧ Forall (λ ac : string * Column,
      py_eq_opt (_data alice !! ac.1) (_from_redis ac.2 <$> _last alice !! ac.1)
      = true) (_columns User)
  ∧ (∃ self, outcome (save true [] User alice false) world1 = Ok (0%nat, self))
  ∧ issued (save true [] User alice false) world1
    = [HGET "User:x:y:uidx" "1:2"; HSET "User:x:y:uidx" "1:2" "1";
       HGET "User::" "1"; SREM "User:name:al:idx" "1";
       ZREM "User:name:pre" ("al" +:+ NUL +:+ "1");
       SADD "User:name:al:idx" "1";
       ZADD "User:name:pre" 2 ("al" +:+ NUL +:+ "1");
       HSET "User::" "1"
         (cjson_encode ["name:al"] [] [("name", PStr "al")] [])]
  ∧ Exists (λ c, is_write c = true)
      (issued (save true [] User alice false) world1)
  ∧ (∃ self, outcome (save true [] User alice false) world1_without_manifest
             = Ok (0%nat, self))
  ∧ hget (db world1_without_manifest) (manifest_key "User") "1" = None
  ∧ hget (db (save true [] User alice false world1_without_manifest).2)
      (manifest_key "User") "1"
    = Some (cjson_encode ["name:al"] [] [("name", PStr "al")] []).
Proof.
  split; [by vm_compute|].
  split; [repeat constructor; by vm_compute|].
  split; [eexists; by vm_compute|].
  split; [by vm_compute|].
  split; [apply Exists_cons_tl, Exists_cons_hd; by vm_compute|].
  split; [eexists; by vm_compute|].
  split; by vm_compute.
Qed.

(** The first user with [y] set to 3: the old tuple is removed and the
    new one added. *)
Lemma composite_unique_changes_witness :
  ∃ ndata,
    cunique_ndata User alice_moved_data ["x"; "y"] = Ok ndata
    ∧ let odata := (λ c, _last alice !! c) <$> ["x"; "y"] in
      let attr := String.concat ":" ["x"; "y"] in
      (is_Some (udeleted moved_changes !! attr) ↔ odata ≠ ndata ∧ None ∉ odata)
      ∧ (is_Some (unique moved_changes !! attr) ↔ None ∉ ndata).
Proof.
  apply (@composite_unique_changes example_util true User (_last alice)
           alice_moved_data false false (PStr "1") ["x"; "y"] moved_changes).
  - refine (bool_decide_unpack _ _). by vm_compute.
  - refine (bool_decide_unpack _ _). by vm_compute.
  - intros g Hg _. change (_cunique User) with ({[ ["x"; "y"] ]} : gset (list string)) in Hg.
    by apply elem_of_singleton in Hg.
  - by vm_compute.
Defined.

(** C4, the sentence as the spec has it: for the first user unchanged
    the old and the new tuple of [('x', 'y')] are equal, and the
    unique-add of the group is emitted. *)
Lemma equal_tuples_still_add :
  (λ c, _last alice !! c) <$> ["x"; "y"] = [Some "1"; Some "2"]
  ∧ cunique_ndata User (_data alice) ["x"; "y"] = Ok [Some "1"; Some "2"]
  ∧ ∃ l, compute_changes true User (_last alice) (_data alice) false false
           (PStr "1") = Ok l
         ∧ unique l !! "x:y" = Some (_encode_unique_constraint ["1"; "2"])
         ∧ udeleted l !! "x:y" = None
         ∧ changes l = 0%nat.
Proof.
  split; [by vm_compute|]. split; [by vm_compute|].
  eexists. split; [by vm_compute|]. repeat split; by vm_compute.
Qed.

(** The entry of the first user in the unique index of [email] after
    the removal loop and after the whole script ran for id 2. *)
Lemma foreign_unique_entry_survives_witness :
  hget (db (remove_unique "User" "2" [("email", PStr "a@x")] world1).2)
    (uidx_key "User" "email") "a@x" = Some "1"
  ∧ hget (db (redis_writer_lua "User" (pretty 2)
                {["email" := "b@x"]} {["email" := PStr "a@x"]} ["name"]
                {["email" := "b@x"]} [] ∅ [] [] false world1).2)
      (uidx_key "User" "email") "a@x" = Some "1".
Proof.
  destruct (@foreign_unique_entry_survives example_cjson example_util
              "User" "email" "a@x" "1" world1) as [Hloop Hscript].
  - by vm_compute.
  - split.
    + apply Hloop. by vm_compute.
    + apply Hscript. by vm_compute.
Defined.

(** [User(id=1, ...)] raises, and [User(id=0, email='z@x')] is a new
    entity with the id 0. *)
Lemma primary_key_on_creation_raises_witness :
  ((∃ e, __init__ User alice_data false empty_world = (Raise e, empty_world))
   ∧ __init__ User alice_data false empty_world
     = (Raise (InvalidColumnValue "Cannot pass primary key on object creation"),
        empty_world))
  ∧ ∃ self w',
      __init__ User zero_data false empty_world = (Ok self, w')
      ∧ _new self = true
      ∧ _data self !! "id" = Some (PInt 0)
      ∧ _last self !! "id" = Some "0".
Proof.
  split.
  - destruct (primary_key_on_creation_raises User alice_data (PInt 1)
                empty_world) as [Htrue _].
    + refine (bool_decide_unpack _ _). by vm_compute.
    + by vm_compute.
    + destruct Htrue as (Hraises & Hwhich & _); [by vm_compute|].
      split; [exact Hraises|]. apply Hwhich. intros attr ca Hin _.
      assert (HF : Forall (λ ac : string * Column,
                     ∃ v, _init_ ac.2 (alice_data !! ac.1) false = Ok v)
                     (_columns User)).
      { repeat constructor; eexists; by vm_compute. }
      exact (proj1 (Forall_forall _ _) HF (attr, ca) Hin).
  - destruct (primary_key_on_creation_raises User zero_data (PInt 0)
                empty_world) as [_ Hfalse].
    + refine (bool_decide_unpack _ _). by vm_compute.
    + by vm_compute.
    + destruct Hfalse as (self & w' & Hrun & Hnew & Hpk).
      * by vm_compute.
      * refine (bool_decide_unpack _ _). by vm_compute.
      * intros attr ca Hin.
        assert (HF : Forall (λ ac : string * Column,
                       ∃ v, _init_ ac.2 (zero_data !! ac.1) false = Ok v)
                       (_columns User)).
        { repeat constructor; eexists; by vm_compute. }
        exact (proj1 (Forall_forall _ _) HF (attr, ca) Hin).
      * exists self, w'. split; [exact Hrun|]. split; [exact Hnew|].
        apply (Hpk Integer (Some (PInt 0))); [|by vm_compute].
        change (_pkey User) with "id". unfold User. cbn [_columns].
        do 4 (apply elem_of_cons; right). apply elem_of_cons. by left.
Defined.

(** C9, the sentence as the spec has it: [User(id=0, email='z@x')] is
    not loaded from the store, and it is returned with the primary-key
    value 0 attached. *)
Lemma zero_primary_key_attached :
  zero_data !! _pkey User = Some (PInt 0)
  ∧ ∃ self, outcome (__init__ User zero_data false) empty_world = Ok self
            ∧ _new self = true
            ∧ _data self !! _pkey User = Some (PInt 0).
Proof.
  split; [by vm_compute|]. eexists. split; [by vm_compute|].
  split; by vm_compute.
Qed.

(** [User.get('1')] and [User.get([1, 7])] after the first user was
    saved: the entity of id 1 is built from its row, and there is none
    of id 7. *)
Lemma get_resolves_witness :
  (∃ w', get User (OneId (PStr "1")) world1
         = (Ok (GotOne (resolve User world1 1)), w'))
  ∧ _data <$> resolve User world1 1 = Some alice_data
  ∧ (∃ w', get User (ManyIds [PInt 1; PInt 7]) world1
           = (Ok (GotList (omap (resolve User world1) [1; 7])), w'))
  ∧ length (omap (resolve User world1) [1; 7]) = 1%nat.
Proof.
  assert (Hrow : loadable User world1 1).
  { right. eexists. split; [by vm_compute|]. right. eexists. by vm_compute. }
  assert (Hnone : loadable User world1 7).
  { right. eexists. split; [by vm_compute|]. by left. }
  destruct (get_resolves User world1) as [Hone Hmany].
  split; [|split; [|split]].
  - apply (Hone (PStr "1") 1); [by vm_compute|exact Hrow].
  - by vm_compute.
  - apply (Hmany [PInt 1; PInt 7] [1; 7]); [by vm_compute|].
    constructor; [exact Hrow|]. constructor; [exact Hnone|]. constructor.
  - by vm_compute.
Defined.

(** [User.get('x')] and [User.get([1, 'x'])] raise ValueError, ['12']
    is the id 12, and [User.get('1')] reads the row of id 1 and returns
    the first user. *)
Lemma get_converts_ids_witness :
  get User (OneId (PStr "x")) world1 = (Raise ValueError, world1)
  ∧ get User (ManyIds [PInt 1; PStr "x"]) world1 = (Raise ValueError, world1)
  ∧ py_int (PStr "12") = Ok 12
  ∧ get User (OneId (PStr "12")) world1 = get User (OneId (PInt 12)) world1
  ∧ (∃ keys,
       trace (get User (OneId (PStr "1")) world1).2
       = trace world1 ++ match keys with
                         | [] => []
                         | _ => [MULTI] ++ (HGETALL <$> keys) ++ [EXEC]
                         end
       ∧ ∀ k, k ∈ keys ↔ ∃ n, n ∈ [1] ∧ k = pk_of User n
                              ∧ known world1 !! k = None)
  ∧ (∃ w', get User (OneId (PStr "1")) world1
           = (Ok (GotOne (head (omap (resolve User world1) [1]))), w'))
  ∧ issued (get User (OneId (PStr "1"))) world1
    = [MULTI; HGETALL "User:1"; EXEC]
  ∧ _data <$> head (omap (resolve User world1) [1]) = Some alice_data.
Proof.
  destruct (get_converts_ids User world1) as (Hraise & Hsame & Hkeys).
  split; [|split; [|split; [|split]]].
  - apply Hraise. apply Exists_cons_hd. eexists. by vm_compute.
  - apply Hraise. apply Exists_cons_tl, Exists_cons_hd. eexists. by vm_compute.
  - by destruct (Hsame 12) as (Hint & _).
  - by destruct (Hsame 12) as (_ & Hone & _).
  - destruct (Hkeys (OneId (PStr "1")) [1]) as [Htrace Hret]; [by vm_compute|].
    split; [exact Htrace|]. split; [|split; by vm_compute].
    apply Hret. constructor; [|constructor].
    right. eexists. split; [by vm_compute|]. right. eexists. by vm_compute.
Defined.

(* ================================================================== *)
(** * Reasoning about runs that return *)
(* ================================================================== *)

Section ensures_rules.
Context {A B : Type}.
Implicit Types (P : store → Prop).

Lemma ensures_ret P (a : A) (Q : A → store → Prop) :
  (∀ st, P st → Q a st) → ensures P (mret a : M A) Q.
Proof. intros HPQ w a' w' HP [= <- <-]. by apply HPQ. Qed.

Lemma ensures_raise P e (Q : A → store → Prop) : ensures P (raise e : M A) Q.
Proof. by intros w a w' _ ?. Qed.

Lemma ensures_bind P (m : M A) (f : A → M B) (R : A → store → Prop)
    (Q : B → store → Prop) :
  ensures P m R → (∀ a, ensures (R a) (f a) Q) → ensures P (m ≫= f) Q.
Proof.
  intros Hm Hf w b w' HP Hrun.
  apply bind_Ok_inv in Hrun as (a & w1 & Hm1 & Hf1).
  exact (Hf a w1 b w' (Hm w a w1 HP Hm1) Hf1).
Qed.

Lemma ensures_weaken P P' (m : M A) (Q Q' : A → store → Prop) :
  (∀ st, P' st → P st) → (∀ a st, Q a st → Q' a st) →
  ensures P m Q → ensures P' m Q'.
Proof. intros HP HQ Hm w a w' HP' Hrun. eapply HQ, Hm; eauto. Qed.

(** What holds of the data whatever [m] does holds when it returns. *)
Lemma preserves_ensures P (m : M A) : preserves P m → ensures P m (λ _, P).
Proof. intros Hm w a w' HP Hrun. specialize (Hm w HP). by rewrite Hrun in Hm. Qed.

End ensures_rules.

Lemma ensures_ret_bind {A B} (P : store → Prop) (a : A) (f : A → M B)
    (Q : B → store → Prop) :
  ensures P (f a) Q → ensures P (mret a ≫= f) Q.
Proof. intros Hf w b w' HP Hrun. exact (Hf w b w' HP Hrun). Qed.

Lemma ensures_call (P : store → Prop) (c : command) (Q : reply → store → Prop) :
  (∀ st r st', P st → exec c st = Some (r, st') → Q r st') →
  ensures P (call c) Q.
Proof.
  intros Hc w r w' HP Hrun. apply call_Ok_inv in Hrun as (Hexec & _).
  by eapply Hc.
Qed.

Lemma ensures_call_ret (P Q : store → Prop) (c : command) :
  (∀ st r st', P st → exec c st = Some (r, st') → Q st') →
  ensures P (call c;; mret ()) (λ _, Q).
Proof.
  intros Hc w [] w' HP Hrun. apply call_ret_Ok_inv in Hrun as [[r Hexec] _].
  by eapply Hc.
Qed.

Lemma ensures_when (P : store → Prop) (c : bool) (m : M unit)
    (Q : store → Prop) :
  (c = true → ensures P m (λ _, Q)) → (c = false → ∀ st, P st → Q st) →
  ensures P (when c m) (λ _, Q).
Proof.
  destruct c; intros Hm Hskip w [] w' HP Hrun; apply when_Ok_inv in Hrun.
  - by eapply (Hm eq_refl).
  - subst w'. by apply Hskip.
Qed.

(** A loop keeps what each pass keeps. *)
Lemma ensures_for_each {A} (I : store → Prop) (l : list A) (body : A → M unit) :
  (∀ x, x ∈ l → ensures I (body x) (λ _, I)) →
  ensures I (for_each l body) (λ _, I).
Proof.
  induction l as [|x l IH]; intros Hbody; cbn [for_each].
  - by apply ensures_ret.
  - eapply ensures_bind; [apply Hbody; set_solver|].
    intros []. apply IH. intros y Hy. apply Hbody. set_solver.
Qed.

(** A loop over distinct elements has established what the pass for
    [x] establishes and the other passes keep. *)
Lemma ensures_for_each_elem `{EqDecision A} (P Q : store → Prop) (l : list A)
    (body : A → M unit) (x : A) :
  x ∈ l → NoDup l →
  (∀ y, y ∈ l → y ≠ x → ensures P (body y) (λ _, P)) →
  ensures P (body x) (λ _, Q) →
  (∀ y, y ∈ l → y ≠ x → ensures Q (body y) (λ _, Q)) →
  ensures P (for_each l body) (λ _, Q).
Proof.
  induction l as [|y l IH]; intros Hin Hnd HP Hx HQ;
    [by apply elem_of_nil in Hin|].
  apply NoDup_cons in Hnd as [Hy Hnd]. cbn [for_each].
  destruct (decide (y = x)) as [->|Hne].
  - eapply ensures_bind; [exact Hx|]. intros [].
    apply ensures_for_each. intros z Hz. apply HQ; [set_solver|].
    intros ->. done.
  - apply elem_of_cons in Hin as [->|Hin]; [done|].
    eapply ensures_bind; [apply HP; [set_solver|done]|]. intros [].
    apply IH; [done|done| |done|]; intros z Hz ?; [apply HP|apply HQ];
      set_solver.
Qed.

(** A property of the data that a command keeps is kept by the call. *)
Lemma ensures_call_step (Q : store → Prop) (c : command) :
  (∀ st, Q st → Q (step c st)) → ensures Q (call c;; mret ()) (λ _, Q).
Proof.
  intros Hstep. apply preserves_ensures.
  apply preserves_bind; [by apply preserves_call|intros; apply preserves_ret].
Qed.

(* ================================================================== *)
(** * More keys that do not collide *)
(* ================================================================== *)

Lemma row_key_ne_manifest_key (namespace : string) (n : Z) :
  row_key namespace (pretty n) ≠ manifest_key namespace.
Proof.
  unfold row_key, manifest_key. intros Heq.
  change "::" with (":" +:+ ":") in Heq.
  apply String.app_inj, String.app_inj in Heq.
  destruct (last_char_pretty_Z n) as (c & Hc & [d Hd]).
  rewrite Heq in Hc. cbn in Hc. by simplify_eq.
Qed.

Lemma idx_key_inj (namespace k k' : string) :
  idx_key namespace k = idx_key namespace k' → k = k'.
Proof.
  unfold idx_key. intros Heq.
  apply String.app_inj, String.app_inj in Heq.
  by apply string_app_inj_r in Heq.
Qed.

(* ================================================================== *)
(** * The script and one field of one hash *)
(* ================================================================== *)

Lemma hash_stable_hget (K F : string) (o : option string) :
  hash_stable K (λ st, hget st K F = o).
Proof.
  intros c st [Hc|[Hc|Hc]] HQ.
  - by rewrite hget_step_other_key.
  - by rewrite hget_step_index_cmd.
  - by rewrite hget_step_read.
Qed.

Section one_field.
Context `{!Cjson}.
Variables (namespace id : string).
Variables (K : string) (Q : store → Prop).
Hypothesis stable : hash_stable K Q.

Lemma stable_call_other (c : command) :
  command_key c ≠ Some K → preserves Q (call c;; mret ()).
Proof.
  intros Hc. apply preserves_bind; [|intros; apply preserves_ret].
  apply preserves_call. intros st. apply stable. by left.
Qed.

Lemma stable_remove_old_index : preserves Q (remove_old_index namespace id).
Proof.
  unfold remove_old_index. apply preserves_bind.
  { apply preserves_call. intros st. apply stable. by right; right. }
  intros [|s| | |]; try apply preserves_ret.
  destruct (cjson_decode s) as [d|]; [|apply preserves_raise].
  destruct d as [keys scored|keys scored prefix suffix];
    repeat (apply preserves_bind; [|intros _]);
    try (apply preserves_for_each; intros x _);
    try destruct x as [attr token];
    repeat (apply preserves_bind; [|intros ?]);
    try apply preserves_ret; try apply preserves_member_of;
    apply preserves_call; intros st; apply stable; by right; left.
Qed.

Lemma stable_add_new_index nkeys scored prefix suffix :
  preserves Q (add_new_index namespace id nkeys scored prefix suffix).
Proof.
  unfold add_new_index.
  repeat (apply preserves_bind; [|intros _]);
    apply preserves_for_each; intros x _;
    try destruct x as [[attr token] sc]; try destruct x as [key sc];
    repeat (apply preserves_bind; [|intros ?]);
    try apply preserves_ret; try apply preserves_member_of;
    apply preserves_call; intros st; apply stable; by right; left.
Qed.

(** The pass that checks the unique values changes no data. *)
Lemma check_pass_preserves (P : store → Prop) (unique : list (string * string)) :
  preserves P (unique_pass namespace id false unique).
Proof.
  intros w HP.
  destruct (unique_pass_check namespace id unique w) as (reads & Hw & _).
  by rewrite Hw.
Qed.

End one_field.

(* ================================================================== *)
(** * The parts of a run of [redis_writer_lua] that returns *)
(* ================================================================== *)

Lemma unique_pass_write_None `{!Cjson} namespace id unique (w w' : world) r :
  unique_pass namespace id true unique w = (Ok r, w') → r = None.
Proof.
  revert w. induction unique as [|[col value] rest IH]; intros w; cbn [unique_pass].
  - by intros [= <- _].
  - intros Hrun. apply bind_Ok_inv in Hrun as (a & w1 & _ & Hrest). by eapply IH.
Qed.

Lemma writer_Ok_inv `{!Cjson, !Util} namespace id unique udelete delete data
    keys scored prefix suffix is_delete (w w' : world) :
  redis_writer_lua namespace id unique udelete delete data keys scored prefix
    suffix is_delete w = (Ok (), w') →
  ∃ w1 w2 res,
    unique_pass namespace id false (map_to_list unique) w = (Ok None, w1)
    ∧ db w1 = db w
    ∧ unique_pass namespace id true (map_to_list unique) w1 = (Ok None, w2)
    ∧ script_writes namespace id udelete delete
        (flat_map (λ pair, [pair.1; pair.2]) (map_to_list data)) keys scored
        ((λ item, (item, _prefix_score item.2)) <$> prefix)
        ((λ item, (item, _prefix_score item.2)) <$> suffix) is_delete w2
      = (Ok res, w').
Proof.
  unfold redis_writer_lua. intros Hrun.
  apply bind_Ok_inv in Hrun as (res & w3 & Hscript & Hres).
  destruct res as [col|cnt]; [by destruct (unique !! col)|].
  injection Hres as <-.
  unfold _redis_writer_lua in Hscript.
  apply bind_Ok_inv in Hscript as (r & w2 & Hpasses & Hwrites).
  cbn [unique_passes] in Hpasses.
  apply bind_Ok_inv in Hpasses as (r1 & w1 & Hcheck & Hpasses).
  destruct r1 as [c|].
  { injection Hpasses as <- <-. done. }
  apply bind_Ok_inv in Hpasses as (r2 & w2' & Hwrite & Hpasses).
  pose proof (unique_pass_write_None _ _ _ _ _ _ Hwrite) as ->.
  injection Hpasses as <- <-.
  exists w1, w2', (Count cnt). repeat split; try done.
  destruct (unique_pass_check namespace id (map_to_list unique) w)
    as (reads & Hw & _).
  rewrite Hcheck in Hw. cbn in Hw. by rewrite Hw.
Qed.

(* ================================================================== *)
(** * The unique index after a run that returns *)
(* ================================================================== *)

Section unique_entries_after.
Context `{!Cjson}.
Variables (namespace id : string).

(** An entry owned by [id] stays so through the pass that writes. *)
Lemma write_pass_keeps_own (K F : string) (unique : list (string * string)) :
  preserves (owned K F id) (unique_pass namespace id true unique).
Proof.
  induction unique as [|[col value] rest IH]; cbn [unique_pass].
  - apply preserves_ret.
  - apply preserves_bind; [|intros _; apply IH].
    apply preserves_call. intros st HQ. unfold owned in *.
    destruct (decide ((uidx_key namespace col, value) = (K, F))) as [[= <- <-]|Hne];
      [|by rewrite hget_step_HSET].
    unfold step. cbn [exec].
    destruct (hash_at st (uidx_key namespace col)) as [h|] eqn:Hh;
      cbn [mbind option_bind]; [|done].
    by rewrite hget_put_hash_eq, lookup_insert_eq.
Qed.

(** The pass that writes gives every value it is passed to [id]. *)
Lemma write_pass_sets (unique : list (string * string)) (col value : string) :
  (col, value) ∈ unique →
  ensures (λ _, True) (unique_pass namespace id true unique)
    (λ _, owned (uidx_key namespace col) value id).
Proof.
  induction unique as [|[c v] rest IH]; intros Hin;
    [by apply elem_of_nil in Hin|].
  cbn [unique_pass]. apply elem_of_cons in Hin as [[= <- <-]|Hin].
  - eapply ensures_bind; [|intros r; apply preserves_ensures, write_pass_keeps_own].
    apply ensures_call. intros st r st' _ Hexec. cbn [exec] in Hexec.
    destruct (hash_at st (uidx_key namespace col)) as [h|];
      cbn [mbind option_bind] in Hexec; [|done].
    injection Hexec as _ <-. unfold owned.
    by rewrite hget_put_hash_eq, lookup_insert_eq.
  - eapply ensures_bind; [|intros r; by apply IH].
    by intros w a w' _ _.
Qed.

Lemma preserves_ret_bind {A B} (Q : store → Prop) (a : A) (f : A → M B) :
  preserves Q (f a) → preserves Q (mret a ≫= f).
Proof. intros Hf w HQ. exact (Hf w HQ). Qed.

(** "remove deleted unique constraints" leaves alone the entries it is
    not passed. *)
Lemma remove_unique_keeps (K F : string) (o : option string)
    (udeleted : list (string * pyval)) :
  (∀ c jv, (c, jv) ∈ udeleted → uidx_key namespace c = K →
           lua_arg_s jv ≠ Some F) →
  preserves (λ st, hget st K F = o) (remove_unique namespace id udeleted).
Proof.
  intros Hother. apply preserves_for_each. intros [col jvalue] Hin.
  unfold lua_arg. destruct (lua_arg_s jvalue) as [value|] eqn:Hfmt;
    [|by intros w HQ; rewrite bind_unfold].
  apply preserves_ret_bind.
  apply preserves_bind.
  { apply preserves_call. intros st HQ. by rewrite hget_step_read. }
  intros [|owner| | |]; try apply preserves_ret.
  apply preserves_when, preserves_bind; [|intros; apply preserves_ret].
  apply preserves_call. intros st HQ. rewrite hget_step_HDEL; [done|].
  destruct (decide (uidx_key namespace col = K)) as [HK|HK]; [|by left].
  right. intros ->%list_elem_of_singleton. by eapply Hother.
Qed.

(** It removes the entry it is passed when [id] owns it. *)
Lemma remove_unique_releases (udeleted : gmap string pyval)
    (col value : string) (jv : pyval) :
  udeleted !! col = Some jv →
  lua_arg_s jv = Some value →
  ensures (owned (uidx_key namespace col) value id)
    (remove_unique namespace id (map_to_list udeleted))
    (λ _ st, hget st (uidx_key namespace col) value = None).
Proof.
  intros Hcol Hfmt.
  assert (Hothers : ∀ (o : option string) (y : string * pyval),
            y ∈ map_to_list udeleted → y ≠ (col, jv) →
            ensures (λ st, hget st (uidx_key namespace col) value = o)
              (remove_unique namespace id [y])
              (λ _ st, hget st (uidx_key namespace col) value = o)).
  { intros o [c jv'] Hy Hne. apply preserves_ensures, remove_unique_keeps.
    intros c' jv'' [= -> ->]%list_elem_of_singleton Hkey%uidx_key_inj. subst c.
    apply elem_of_map_to_list in Hy. congruence. }
  assert (Hone : ∀ (P : store → Prop) (body : string * pyval → M unit) y,
            ensures P (for_each [y] body) (λ _, P) →
            ensures P (body y) (λ _, P)).
  { intros P body y Hy w [] w' HP Hrun. apply (Hy w () w' HP).
    cbn [for_each]. by rewrite bind_unfold, Hrun. }
  unfold remove_unique in *.
  match goal with |- ensures _ (for_each _ ?b) _ => set (body := b) in * end.
  apply (ensures_for_each_elem _ _ _ _ (col, jv)).
  - by apply elem_of_map_to_list.
  - apply NoDup_map_to_list.
  - intros y Hy Hne. apply (Hone _ body). by apply (Hothers (Some id)).
  - unfold body, lua_arg. rewrite Hfmt.
    apply ensures_ret_bind.
    eapply (ensures_bind _ _ _
              (λ r st, r = Bulk id ∧ owned (uidx_key namespace col) value id st)).
    { apply ensures_call. intros st r st' Hown Hexec. unfold owned in Hown.
      cbn [exec] in Hexec.
      destruct (hash_at st (uidx_key namespace col)) as [h|] eqn:Hh;
        cbn [mbind option_bind] in Hexec; [|done].
      injection Hexec as <- <-.
      split; [|done].
      rewrite (hget_hash_at _ _ _ _ Hh) in Hown. by rewrite Hown. }
    intros r. apply (ensures_weaken (λ st, r = Bulk id ∧
                       owned (uidx_key namespace col) value id st) _ _
                       (λ _ st, hget st (uidx_key namespace col) value = None));
      [done|done|].
    intros w [] w' [-> Hown] Hrun.
    rewrite bool_decide_eq_true_2 in Hrun by done. cbn [when] in Hrun.
    apply call_ret_Ok_inv in Hrun as [[r Hexec] _]. cbn [exec] in Hexec.
    destruct (hash_at (db w) (uidx_key namespace col)) as [h|] eqn:Hh;
      cbn [mbind option_bind] in Hexec; [|done].
    injection Hexec as _ <-. rewrite hget_put_hash_eq.
    unfold hdel_hash. cbn [foldl]. apply lookup_delete_eq.
  - intros y Hy Hne. apply (Hone _ body). by apply (Hothers None).
Qed.

End unique_entries_after.

Section script_tail.
Context `{!Cjson}.
Variables (namespace id : string).
Variables (K : string) (Q : store → Prop).
Hypothesis stable : hash_stable K Q.
Hypothesis row_other : row_key namespace id ≠ K.
Hypothesis manifest_other : manifest_key namespace ≠ K.

(** After "remove deleted unique constraints" the script writes to the
    row, to the indexes and to the manifest only. *)
Lemma script_writes_ensures (P : store → Prop) udeleted deleted data nkeys
    scored prefix suffix is_delete :
  ensures P (remove_unique namespace id (map_to_list udeleted)) (λ _, Q) →
  ensures P (script_writes namespace id udeleted deleted data nkeys scored
               prefix suffix is_delete) (λ _, Q).
Proof.
  intros Hremove. unfold script_writes.
  eapply ensures_bind; [exact Hremove|]. intros [].
  apply preserves_ensures.
  pose proof (stable_call_other K Q stable) as Hother.
  apply preserves_bind; [apply preserves_when, Hother; cbn; congruence|intros _].
  apply preserves_bind; [apply preserves_when, Hother; cbn; congruence|intros _].
  apply preserves_bind; [by apply (stable_remove_old_index _ _ K)|intros _].
  apply preserves_bind.
  { apply preserves_when.
    apply preserves_bind; [|intros _; apply Hother; cbn; congruence].
    apply preserves_call. intros st. apply stable. left. cbn. congruence. }
  intros _.
  apply preserves_bind; [by apply (stable_add_new_index _ _ K)|intros _].
  apply preserves_bind; [apply preserves_when, Hother; cbn; congruence|intros _].
  apply preserves_ret.
Qed.

End script_tail.

(** X1. When [redis_writer_lua] returns for an entity with an integer
    id, every value it was passed in [unique] is owned by the entity in
    the unique index of its column, unless the same column is passed in
    [udelete] with a value the script sends to the server as that value
    (a string as it is, a number as [redis.call] prints its double). *)
Theorem unique_values_owned_after_apply `{!Cjson, !Util} (namespace : string)
    (n : Z) (unique : gmap string string) (udelete : gmap string pyval)
    (delete : list string) (data : gmap string string) (keys : list string)
    (scored : gmap string Z) (prefix suffix : list (string * pyval))
    (is_delete : bool) (w w' : world) (col value : string) :
  redis_writer_lua namespace (pretty n) unique udelete delete data keys scored
    prefix suffix is_delete w = (Ok (), w') →
  unique !! col = Some value →
  (∀ jv, udelete !! col = Some jv → lua_arg_s jv ≠ Some value) →
  hget (db w') (uidx_key namespace col) value = Some (pretty n).
Proof.
  intros Hrun Hcol Hfresh.
  apply writer_Ok_inv in Hrun as (w1 & w2 & res & _ & _ & Hwrite & Hscript).
  pose proof (write_pass_sets namespace (pretty n) (map_to_list unique) col value)
    as Hset.
  specialize (Hset ltac:(by apply elem_of_map_to_list) w1 None w2 I Hwrite).
  apply (script_writes_ensures namespace (pretty n) (uidx_key namespace col)
           (λ st, hget st (uidx_key namespace col) value = Some (pretty n))
           (hash_stable_hget _ _ _) (row_key_ne_uidx_key _ _ _)
           (manifest_key_ne_uidx_key _ _)
           (λ st, hget st (uidx_key namespace col) value = Some (pretty n))
           udelete _ _ _ _ _ _ is_delete) in Hscript; [done| |done].
  apply preserves_ensures, remove_unique_keeps.
  intros c jv Hin Hkey%uidx_key_inj. subst c.
  apply elem_of_map_to_list in Hin. by apply Hfresh.
Qed.

(** X2. When [redis_writer_lua] returns for an entity with an integer
    id, the entry of a value it was passed in [udelete], under the text
    the script sends to the server for it (a string as it is, a number
    as [redis.call] prints its double), is free in the unique index of
    its column when the entity owned it before the call, also when the
    same value is passed in [unique]. *)
Theorem superseded_unique_value_released `{!Cjson, !Util} (namespace : string)
    (n : Z) (unique : gmap string string) (udelete : gmap string pyval)
    (delete : list string) (data : gmap string string) (keys : list string)
    (scored : gmap string Z) (prefix suffix : list (string * pyval))
    (is_delete : bool) (w w' : world) (col value : string) (jv : pyval) :
  redis_writer_lua namespace (pretty n) unique udelete delete data keys scored
    prefix suffix is_delete w = (Ok (), w') →
  udelete !! col = Some jv →
  lua_arg_s jv = Some value →
  hget (db w) (uidx_key namespace col) value = Some (pretty n) →
  hget (db w') (uidx_key namespace col) value = None.
Proof.
  intros Hrun Hcol Hfmt Hown.
  apply writer_Ok_inv in Hrun as (w1 & w2 & res & _ & Hdb & Hwrite & Hscript).
  assert (Hown2 : owned (uidx_key namespace col) value (pretty n) (db w2)).
  { pose proof (write_pass_keeps_own namespace (pretty n)
                  (uidx_key namespace col) value (map_to_list unique) w1) as Hkeep.
    rewrite Hwrite in Hkeep. apply Hkeep. unfold owned. by rewrite Hdb. }
  apply (script_writes_ensures namespace (pretty n) (uidx_key namespace col)
           (λ st, hget st (uidx_key namespace col) value = None)
           (hash_stable_hget _ _ _) (row_key_ne_uidx_key _ _ _)
           (manifest_key_ne_uidx_key _ _)
           (owned (uidx_key namespace col) value (pretty n))
           udelete _ _ _ _ _ _ is_delete) in Hscript; [done| |done].
  by eapply remove_unique_releases.
Qed.

(* ================================================================== *)
(** * The entity row after a run that returns *)
(* ================================================================== *)

Lemma script_writes_tail `{!Cjson} namespace id udeleted deleted data nkeys
    scored prefix suffix is_delete :
  script_writes namespace id udeleted deleted data nkeys scored prefix suffix
    is_delete
  = (remove_unique namespace id (map_to_list udeleted);;
     when (bool_decide (0 < length deleted)%nat)
       (call (HDEL (row_key namespace id) deleted);; mret ());;
     when (bool_decide (0 < length data)%nat)
       (call (HMSET (row_key namespace id) data);; mret ());;
     script_tail namespace id nkeys scored prefix suffix is_delete).
Proof. reflexivity. Qed.

Lemma pairs_of_flat (pairs : list (string * string)) :
  pairs_of (flat_map (λ pair, [pair.1; pair.2]) pairs) = Some pairs.
Proof.
  induction pairs as [|[f v] pairs IH]; [done|].
  cbn [flat_map app fst snd pairs_of]. rewrite IH. done.
Qed.

Lemma hmset_hash_lookup (pairs : list (string * string))
    (h : gmap string string) (f : string) :
  NoDup pairs.*1 →
  hmset_hash pairs h !! f
  = match (list_to_map pairs : gmap string string) !! f with
    | Some v => Some v
    | None => h !! f
    end.
Proof.
  unfold hmset_hash. revert h.
  induction pairs as [|[k v] pairs IH]; intros h Hnd; [done|].
  apply NoDup_cons in Hnd as [Hk Hnd]. cbn [foldl fst snd list_to_map foldr].
  rewrite IH by done. destruct (decide (f = k)) as [->|Hne].
  - rewrite lookup_insert_eq.
    rewrite (not_elem_of_list_to_map_1 pairs k Hk). by rewrite lookup_insert_eq.
  - rewrite !lookup_insert_ne by done. done.
Qed.

Lemma hdel_hash_lookup_in (fields : list string) (h : gmap string string)
    (f : string) :
  f ∈ fields → hdel_hash fields h !! f = None.
Proof.
  unfold hdel_hash. revert h.
  induction fields as [|x fields IH]; intros h Hin; [by apply elem_of_nil in Hin|].
  cbn [foldl]. destruct (decide (f ∈ fields)) as [Hf|Hf]; [by apply IH|].
  apply elem_of_cons in Hin as [->|Hin]; [|done].
  pose proof (hdel_hash_lookup fields (delete x h) x Hf) as Hl.
  unfold hdel_hash in Hl. rewrite Hl. apply lookup_delete_eq.
Qed.

Section stable_phases.
Context `{!Cjson}.
Variables (namespace id : string).
Variables (K : string) (Q : store → Prop).
Hypothesis stable : hash_stable K Q.
Hypothesis no_uidx : ∀ c, uidx_key namespace c ≠ K.

(** The unique passes and the removal of unique values write to
    unique indexes only. *)
Lemma stable_write_pass (unique : list (string * string)) :
  preserves Q (unique_pass namespace id true unique).
Proof.
  induction unique as [|[col value] rest IH]; cbn [unique_pass].
  - apply preserves_ret.
  - apply preserves_bind; [|intros _; apply IH].
    apply preserves_call. intros st. apply stable. left. cbn.
    intros [= Hk]. by apply (no_uidx col).
Qed.

Lemma stable_remove_unique (udeleted : list (string * pyval)) :
  preserves Q (remove_unique namespace id udeleted).
Proof.
  apply preserves_for_each. intros [col jvalue] _.
  apply preserves_bind; [apply preserves_lua_arg|intros value].
  apply preserves_bind.
  { apply preserves_call. intros st. apply stable. by right; right. }
  intros [|owner| | |]; try apply preserves_ret.
  apply preserves_when, preserves_bind; [|intros; apply preserves_ret].
  apply preserves_call. intros st. apply stable. left. cbn.
  intros [= Hk]. by apply (no_uidx col).
Qed.

(** The script from "remove old index data" on, when it is no delete
    or [K] is not the row. *)
Lemma stable_script_tail nkeys scored prefix suffix is_delete :
  (is_delete = true → row_key namespace id ≠ K) →
  manifest_key namespace ≠ K →
  preserves Q (script_tail namespace id nkeys scored prefix suffix is_delete).
Proof.
  intros Hrow Hman. unfold script_tail.
  pose proof (stable_call_other K Q stable) as Hother.
  apply preserves_bind; [by apply (stable_remove_old_index _ _ K)|intros _].
  apply preserves_bind.
  { destruct is_delete; [|apply preserves_ret]. specialize (Hrow eq_refl).
    cbn [when].
    apply preserves_bind; [|intros _; apply Hother; cbn; congruence].
    apply preserves_call. intros st. apply stable. left. cbn. congruence. }
  intros _.
  apply preserves_bind; [by apply (stable_add_new_index _ _ K)|intros _].
  apply preserves_bind; [apply preserves_when, Hother; cbn; congruence|intros _].
  apply preserves_ret.
Qed.

End stable_phases.

(** The script after its unique passes, not in delete mode, and one
    field of the row. *)
Lemma script_writes_row_field `{!Cjson} (namespace : string) (n : Z)
    (udelete : gmap string pyval) (delete : list string)
    (data : gmap string string) (keys : list string) (scored : gmap string Z)
    (prefix suffix : list (string * pyval * Z)) (f : string) (o : option string) :
  ensures (λ st, hget st (row_key namespace (pretty n)) f = o)
    (script_writes namespace (pretty n) udelete delete
       (flat_map (λ pair, [pair.1; pair.2]) (map_to_list data)) keys scored
       prefix suffix false)
    (λ _ st, hget st (row_key namespace (pretty n)) f
             = row_field_after data delete f o).
Proof.
  set (K := row_key namespace (pretty n)).
  assert (Huidx : ∀ c, uidx_key namespace c ≠ K).
  { intros c Heq. by apply (row_key_ne_uidx_key namespace c n). }
  rewrite script_writes_tail. fold K.
  eapply ensures_bind.
  { apply preserves_ensures.
    apply (stable_remove_unique namespace (pretty n) K _
             (hash_stable_hget K f o) Huidx). }
  intros [].
  eapply (ensures_bind _ _ _
            (λ _ st, hget st K f = if bool_decide (f ∈ delete) then None else o)).
  { apply ensures_when.
    - intros _. apply ensures_call_ret. intros st r st' HQ Hexec. cbn [exec] in Hexec.
      destruct delete as [|d delete]; [done|].
      destruct (hash_at st K) as [h|] eqn:Hh; cbn [mbind option_bind] in Hexec;
        [|done].
      injection Hexec as _ <-. rewrite hget_put_hash_eq.
      rewrite (hget_hash_at _ _ _ _ Hh) in HQ.
      change (hdel_hash delete (base.delete d h)) with (hdel_hash (d :: delete) h).
      case_bool_decide as Hf; [by apply hdel_hash_lookup_in|].
      by rewrite hdel_hash_lookup.
    - intros Hlen%bool_decide_eq_false st HQ.
      destruct delete; [|cbn in Hlen; lia].
      rewrite bool_decide_eq_false_2; [done|]. apply not_elem_of_nil. }
  intros [].
  eapply (ensures_bind _ _ _
            (λ _ st, hget st K f = row_field_after data delete f o)).
  { apply ensures_when.
    - intros _. apply ensures_call_ret. intros st r st' HQ Hexec. cbn [exec] in Hexec.
      rewrite pairs_of_flat in Hexec.
      destruct (flat_map _ _) eqn:Hflat; [done|]. cbn [mbind option_bind] in Hexec.
      destruct (hash_at st K) as [h|] eqn:Hh; cbn [mbind option_bind] in Hexec;
        [|done].
      injection Hexec as _ <-. rewrite hget_put_hash_eq.
      rewrite hmset_hash_lookup by apply NoDup_fst_map_to_list.
      rewrite list_to_map_to_list. unfold row_field_after.
      destruct (data !! f); [done|]. by rewrite <- (hget_hash_at _ _ _ _ Hh).
    - intros Hlen%bool_decide_eq_false st HQ. unfold row_field_after.
      destruct (map_to_list data) as [|[k v] rest] eqn:Hl; [|cbn in Hlen; lia].
      apply map_to_list_empty_iff in Hl. subst data. by rewrite lookup_empty. }
  intros [].
  apply preserves_ensures.
  apply (stable_script_tail namespace (pretty n) K _ (hash_stable_hget K f _));
    [done|].
  intros Heq. by apply (row_key_ne_manifest_key namespace n).
Qed.

(** The unique passes leave the row alone. *)
Lemma unique_passes_row_field `{!Cjson} (namespace : string) (n : Z)
    (unique : list (string * string)) (f : string) (w1 w2 : world) r :
  unique_pass namespace (pretty n) true unique w1 = (Ok r, w2) →
  hget (db w2) (row_key namespace (pretty n)) f
  = hget (db w1) (row_key namespace (pretty n)) f.
Proof.
  intros Hwrite.
  pose proof (stable_write_pass namespace (pretty n)
                (row_key namespace (pretty n)) _
                (hash_stable_hget _ f (hget (db w1) (row_key namespace (pretty n)) f))
                (λ c Heq, row_key_ne_uidx_key namespace c n (eq_sym Heq))
                unique w1 eq_refl) as Hkeep.
  by rewrite Hwrite in Hkeep.
Qed.

(** X3. The row of an entity with an integer id when
    [redis_writer_lua] returns, not in delete mode: a field passed in
    [data] has the value passed, a field passed in [delete] only is
    gone, and every other field is as it was. *)
Theorem row_fields_after_apply `{!Cjson, !Util} (namespace : string) (n : Z)
    (unique : gmap string string) (udelete : gmap string pyval)
    (delete : list string) (data : gmap string string) (keys : list string)
    (scored : gmap string Z) (prefix suffix : list (string * pyval))
    (w w' : world) (f : string) :
  redis_writer_lua namespace (pretty n) unique udelete delete data keys scored
    prefix suffix false w = (Ok (), w') →
  hget (db w') (row_key namespace (pretty n)) f
  = row_field_after data delete f (hget (db w) (row_key namespace (pretty n)) f).
Proof.
  intros Hrun.
  apply writer_Ok_inv in Hrun as (w1 & w2 & res & _ & Hdb & Hwrite & Hscript).
  apply (script_writes_row_field namespace n udelete delete data keys scored
           _ _ f (hget (db w) (row_key namespace (pretty n)) f)) in Hscript;
    [done|].
  rewrite <- Hdb. by eapply unique_passes_row_field.
Qed.

(* ================================================================== *)
(** * The commands behind a change of the data *)
(* ================================================================== *)

Lemma replay_app (cs cs' : list command) (st : store) :
  replay (cs ++ cs') st = replay cs' (replay cs st).
Proof. unfold replay. apply foldl_app. Qed.

Section runs_rules.
Context {A B : Type}.
Implicit Types (P : command → Prop).

Lemma runs_ret P (a : A) : runs P (mret a : M A).
Proof. intros w. exists []. cbn. by rewrite app_nil_r. Qed.

Lemma runs_raise P e : runs P (raise e : M A).
Proof. intros w. exists []. cbn. by rewrite app_nil_r. Qed.

Lemma runs_lift P (r : result A) : runs P (lift r).
Proof. intros w. exists []. cbn. by rewrite app_nil_r. Qed.

Lemma runs_bind P (m : M A) (f : A → M B) :
  runs P m → (∀ a, runs P (f a)) → runs P (m ≫= f).
Proof.
  intros Hm Hf w. rewrite bind_unfold.
  destruct (Hm w) as (cs & Htr & Hdb & Hcs).
  destruct (m w) as [[a|e] w1]; cbn [snd] in *; [|by exists cs].
  destruct (Hf a w1) as (cs' & Htr' & Hdb' & Hcs').
  exists (cs ++ cs'). rewrite Htr', Htr, Hdb', Hdb, replay_app, app_assoc.
  repeat split; auto. by apply Forall_app.
Qed.

Lemma runs_mono P P' (m : M A) :
  (∀ c, P c → P' c) → runs P m → runs P' m.
Proof.
  intros HPP Hm w. destruct (Hm w) as (cs & Htr & Hdb & Hcs).
  exists cs. repeat split; auto. eapply Forall_impl; eauto.
Qed.

(** A property the commands keep is kept by the run. *)
Lemma runs_preserves P (Q : store → Prop) (m : M A) :
  runs P m → (∀ c st, P c → Q st → Q (step c st)) → preserves Q m.
Proof.
  intros Hm Hstep w HQ. destruct (Hm w) as (cs & _ & Hdb & Hcs).
  rewrite Hdb. clear Hdb. revert HQ. generalize (db w) as st.
  induction Hcs as [|c cs Hc Hcs IH]; intros st HQ; [done|].
  cbn. apply IH. by apply Hstep.
Qed.

End runs_rules.

Lemma runs_call (P : command → Prop) (c : command) : P c → runs P (call c).
Proof.
  intros Hc w. exists [c]. rewrite call_unfold. unfold replay, step. cbn [foldl].
  destruct (exec c (db w)) as [[r st]|]; cbn; repeat split; auto.
Qed.

Lemma runs_for_each {A} (P : command → Prop) (l : list A) (body : A → M unit) :
  (∀ x, x ∈ l → runs P (body x)) → runs P (for_each l body).
Proof.
  induction l as [|x l IH]; intros Hbody; cbn [for_each]; [apply runs_ret|].
  apply runs_bind; [apply Hbody; set_solver|].
  intros _. apply IH. intros y Hy. apply Hbody. set_solver.
Qed.

Lemma runs_when (P : command → Prop) c (m : M unit) :
  runs P m → runs P (when c m).
Proof. destruct c; [done|intros _; apply runs_ret]. Qed.

Lemma runs_lua_arg `{!Cjson} (P : command → Prop) v : runs P (lua_arg v).
Proof. unfold lua_arg. destruct (lua_arg_s v); [apply runs_ret|apply runs_raise]. Qed.

Lemma runs_member_of `{!Cjson} (P : command → Prop) v id : runs P (member_of v id).
Proof.
  unfold member_of. destruct (lua_format_s v); [apply runs_ret|apply runs_raise].
Qed.

(* ================================================================== *)
(** * What a command does to the members of a set *)
(* ================================================================== *)

Lemma put_hash_lookup_ne key K h (st : store) :
  key ≠ K → put_hash key h st !! K = st !! K.
Proof.
  intros Hne. unfold put_hash. case_decide;
    by rewrite ?lookup_delete_ne, ?lookup_insert_ne.
Qed.

Lemma put_set_lookup_ne key K s (st : store) :
  key ≠ K → put_set key s st !! K = st !! K.
Proof.
  intros Hne. unfold put_set. case_decide;
    by rewrite ?lookup_delete_ne, ?lookup_insert_ne.
Qed.

Lemma put_zset_lookup_ne key K z (st : store) :
  key ≠ K → put_zset key z st !! K = st !! K.
Proof.
  intros Hne. unfold put_zset. case_decide;
    by rewrite ?lookup_delete_ne, ?lookup_insert_ne.
Qed.

(** A command on another key leaves the value at [K] alone. *)
Lemma step_lookup_other (c : command) (st : store) (K : string) :
  command_key c ≠ Some K → step c st !! K = st !! K.
Proof.
  intros Hkey. unfold step.
  destruct c; cbn [exec command_key] in *;
    repeat match goal with
    | |- context [match ?l with [] => _ | _ :: _ => _ end] => destruct l
    | |- context [hash_at ?s ?k] => destruct (hash_at s k) eqn:?
    | |- context [set_at ?s ?k] => destruct (set_at s k) eqn:?
    | |- context [zset_at ?s ?k] => destruct (zset_at s k) eqn:?
    | |- context [pairs_of ?a] => destruct (pairs_of a) eqn:?
    end; cbn [mbind option_bind]; try done;
    try (apply put_hash_lookup_ne; congruence);
    try (apply put_set_lookup_ne; congruence);
    try (apply put_zset_lookup_ne; congruence);
    try (apply lookup_delete_ne; congruence).
Qed.

(** A command for a hash or a sorted set fails on a set. *)
Lemma step_wrong_type_on_set (c : command) (st : store) (K : string)
    (S : gset string) :
  st !! K = Some (RSet S) →
  command_key c = Some K →
  match c with SADD _ _ | SREM _ _ | DEL _ => False | _ => True end →
  step c st = st.
Proof.
  intros HK Hkey Hc. unfold step.
  destruct c; cbn [command_key] in Hkey; try done; simplify_eq; cbn [exec];
    unfold hash_at, zset_at; rewrite ?HK; cbn [mbind option_bind]; try done;
    repeat match goal with
    | |- context [match ?l with [] => _ | _ :: _ => _ end] => destruct l
    | |- context [pairs_of ?a] => destruct (pairs_of a) eqn:?
    end; done.
Qed.

(** Only SREM of the member and DEL of the key end a membership. *)
Lemma member_at_step (c : command) (st : store) (K m : string) :
  c ≠ SREM K m → c ≠ DEL K →
  member_at st K m → member_at (step c st) K m.
Proof.
  intros Hsrem Hdel (S & HK & Hm).
  destruct (decide (command_key c = Some K)) as [Hkey|Hkey];
    [|exists S; by rewrite step_lookup_other].
  destruct c; cbn [command_key] in Hkey; simplify_eq;
    try (rewrite (step_wrong_type_on_set _ _ K S) by done; by exists S);
    try done.
  - unfold step. cbn [exec]. unfold set_at. rewrite HK. cbn [mbind option_bind].
    exists ({[member]} ∪ S). split; [|set_solver].
    unfold put_set. rewrite decide_False by set_solver. by rewrite lookup_insert_eq.
  - unfold step. cbn [exec]. unfold set_at. rewrite HK. cbn [mbind option_bind].
    assert (member ≠ m) by congruence.
    exists (S ∖ {[member]}). split; [|set_solver].
    unfold put_set. rewrite decide_False by set_solver. by rewrite lookup_insert_eq.
Qed.

(** Only SADD of the member starts a membership. *)
Lemma not_member_at_step (c : command) (st : store) (K m : string) :
  c ≠ SADD K m →
  ¬ member_at st K m → ¬ member_at (step c st) K m.
Proof.
  intros Hsadd Hnot (S & HK & Hm). apply Hnot.
  destruct (decide (command_key c = Some K)) as [Hkey|Hkey];
    [|exists S; by rewrite <- (step_lookup_other c)].
  unfold step in HK.
  destruct c; cbn [command_key] in Hkey; simplify_eq; cbn [exec] in HK;
    try (by exists S);
    repeat match type of HK with
    | context [match ?l with [] => _ | _ :: _ => _ end] => destruct l
    | context [pairs_of ?a] => destruct (pairs_of a) eqn:?
    | context [hash_at ?s ?k] => destruct (hash_at s k) eqn:?
    | context [set_at ?s ?k] => destruct (set_at s k) as [S0|] eqn:HS0
    | context [zset_at ?s ?k] => destruct (zset_at s k) eqn:?
    end; cbn [mbind option_bind] in HK; try (by exists S);
    try (unfold put_hash in HK; case_decide;
         rewrite ?lookup_delete_eq, ?lookup_insert_eq in HK; done);
    try (unfold put_zset in HK; case_decide;
         rewrite ?lookup_delete_eq, ?lookup_insert_eq in HK; done);
    try (rewrite lookup_delete_eq in HK; done).
  - unfold put_set in HK. case_decide as He;
      rewrite ?lookup_delete_eq, ?lookup_insert_eq in HK; [done|].
    injection HK as <-. assert (member ≠ m) by congruence.
    assert (Hin : m ∈ S0) by set_solver.
    unfold set_at in HS0. destruct (st !! K) as [[]|] eqn:HstK; simplify_eq;
      first [by eexists | set_solver].
  - unfold put_set in HK. case_decide as He;
      rewrite ?lookup_delete_eq, ?lookup_insert_eq in HK; [done|].
    injection HK as <-. assert (Hin : m ∈ S0) by set_solver.
    unfold set_at in HS0. destruct (st !! K) as [[]|] eqn:HstK; simplify_eq;
      first [by eexists | set_solver].
Qed.

(* ================================================================== *)
(** * The set indexes after a run that returns *)
(* ================================================================== *)

Lemma ensures_trivial {A} (P : store → Prop) (m : M A) :
  ensures P m (λ _ _, True).
Proof. by intros w a w' _ _. Qed.

(** A loop has established what the pass for [x] establishes and every
    pass keeps. *)
Lemma ensures_for_each_any {A} (Q : store → Prop) (l : list A)
    (body : A → M unit) (x : A) :
  x ∈ l →
  ensures (λ _, True) (body x) (λ _, Q) →
  (∀ y, y ∈ l → ensures Q (body y) (λ _, Q)) →
  ensures (λ _, True) (for_each l body) (λ _, Q).
Proof.
  induction l as [|y l IH]; intros Hin Hx HQ; [by apply elem_of_nil in Hin|].
  cbn [for_each]. apply elem_of_cons in Hin as [->|Hin].
  - eapply ensures_bind; [exact Hx|]. intros [].
    apply ensures_for_each. intros z Hz. apply HQ. set_solver.
  - eapply ensures_bind; [apply ensures_trivial|]. intros [].
    apply IH; [done|done|]. intros z Hz. apply HQ. set_solver.
Qed.

Section index_sets.
Context `{!Cjson}.
Variables (namespace id : string).

(** The commands of "add new key index data" to "add new suffix
    data". *)
Lemma add_new_index_runs nkeys scored prefix suffix :
  runs (λ c, (∃ k, k ∈ nkeys ∧ c = SADD (idx_key namespace k) id)
             ∨ ∃ k sc m, c = ZADD k sc m)
    (add_new_index namespace id nkeys scored prefix suffix).
Proof.
  unfold add_new_index.
  repeat (apply runs_bind; [|intros _]);
    apply runs_for_each; intros x Hx;
    try destruct x as [[attr token] sc]; try destruct x as [key sc];
    repeat (apply runs_bind; [|intros ?]);
    try apply runs_ret; try apply runs_member_of;
    apply runs_call; eauto 6.
Qed.

(** The commands of "remove old index data". *)
Lemma remove_old_index_runs :
  runs (λ c, is_write c = false ∨ (∃ k m, c = SREM k m) ∨ ∃ k m, c = ZREM k m)
    (remove_old_index namespace id).
Proof.
  unfold remove_old_index. apply runs_bind; [apply runs_call; by left|].
  intros [|s| | |]; try apply runs_ret.
  destruct (cjson_decode s) as [d|]; [|apply runs_raise].
  destruct d as [keys scored|keys scored prefix suffix];
    repeat (apply runs_bind; [|intros _]);
    try (apply runs_for_each; intros x _);
    try destruct x as [attr token];
    repeat (apply runs_bind; [|intros ?]);
    try apply runs_ret; try apply runs_member_of;
    apply runs_call; eauto 6.
Qed.

(** "add new key index data" makes [id] a member of the set of every
    key it is passed. *)
Lemma add_new_index_member nkeys scored prefix suffix (key : string) :
  key ∈ nkeys →
  ensures (λ _, True) (add_new_index namespace id nkeys scored prefix suffix)
    (λ _ st, member_at st (idx_key namespace key) id).
Proof.
  intros Hkey. unfold add_new_index.
  assert (Hkeep : ∀ c, (∃ k sc m, c = ZADD k sc m) ∨ (∃ k m, c = SADD k m) →
            ∀ st, member_at st (idx_key namespace key) id →
                  member_at (step c st) (idx_key namespace key) id).
  { intros c Hc st. apply member_at_step; destruct Hc as [(?&?&?&->)|(?&?&->)]; done. }
  eapply ensures_bind.
  { apply (ensures_for_each_any
             (λ st, member_at st (idx_key namespace key) id) _ _ key Hkey).
    - apply ensures_call_ret. intros st r st' _ Hexec. cbn [exec] in Hexec.
      destruct (set_at st (idx_key namespace key)) as [S|]; cbn in Hexec; [|done].
      injection Hexec as _ <-. exists ({[id]} ∪ S). split; [|set_solver].
      unfold put_set. rewrite decide_False by set_solver.
      by rewrite lookup_insert_eq.
    - intros k _. apply ensures_call_step. apply Hkeep. right. eauto. }
  intros []. apply preserves_ensures.
  repeat (apply preserves_bind; [|intros _]);
    apply preserves_for_each; intros x _;
    try destruct x as [[attr token] sc]; try destruct x as [k sc];
    repeat (apply preserves_bind; [|intros ?]);
    try apply preserves_ret; try apply preserves_member_of;
    apply preserves_call; apply Hkeep; left; eauto.
Qed.

End index_sets.

(** X4. When [redis_writer_lua] returns, in delete mode or not, the
    entity is a member of the set index of every key it was passed in
    [keys]. *)
Theorem new_keys_indexed `{!Cjson, !Util} (namespace id : string)
    (unique : gmap string string) (udelete : gmap string pyval)
    (delete : list string) (data : gmap string string) (keys : list string)
    (scored : gmap string Z) (prefix suffix : list (string * pyval))
    (is_delete : bool) (w w' : world) (key : string) :
  redis_writer_lua namespace id unique udelete delete data keys scored prefix
    suffix is_delete w = (Ok (), w') →
  key ∈ keys →
  member_at (db w') (idx_key namespace key) id.
Proof.
  intros Hrun Hkey.
  apply writer_Ok_inv in Hrun as (w1 & w2 & res & _ & _ & _ & Hscript).
  enough (Hens : ensures (λ _, True)
            (script_writes namespace id udelete delete
               (flat_map (λ pair, [pair.1; pair.2]) (map_to_list data)) keys
               scored ((λ item, (item, _prefix_score item.2)) <$> prefix)
               ((λ item, (item, _prefix_score item.2)) <$> suffix) is_delete)
            (λ _ st, member_at st (idx_key namespace key) id))
    by exact (Hens w2 res w' I Hscript).
  rewrite script_writes_tail.
  eapply (ensures_bind _ _ _ (λ _ _, True)); [apply ensures_trivial|].
  intros []. eapply (ensures_bind _ _ _ (λ _ _, True)); [apply ensures_trivial|].
  intros []. eapply (ensures_bind _ _ _ (λ _ _, True)); [apply ensures_trivial|].
  intros []. unfold script_tail.
  eapply (ensures_bind _ _ _ (λ _ _, True)); [apply ensures_trivial|].
  intros []. eapply (ensures_bind _ _ _ (λ _ _, True)); [apply ensures_trivial|].
  intros []. eapply ensures_bind; [by apply add_new_index_member|].
  intros []. apply preserves_ensures.
  apply preserves_bind; [|intros; apply preserves_ret].
  apply preserves_when, preserves_bind; [|intros; apply preserves_ret].
  apply preserves_call. intros st. by apply member_at_step.
Qed.

Section stale_keys.
Context `{!Cjson}.
Variables (namespace id : string).

(** "remove old index data" takes [id] out of the set of every key the
    stored manifest names. *)
Lemma remove_old_index_unindexes (s : string) (d : idata) (key : string) :
  cjson_decode s = Some d →
  key ∈ idata_keys d →
  ensures (λ st, hget st (manifest_key namespace) id = Some s)
    (remove_old_index namespace id)
    (λ _ st, ¬ member_at st (idx_key namespace key) id).
Proof.
  intros Hd Hkey. unfold remove_old_index.
  eapply (ensures_bind _ _ _ (λ r _, r = Bulk s)).
  { apply ensures_call. intros st r st' Hman Hexec. cbn [exec] in Hexec.
    destruct (hash_at st (manifest_key namespace)) as [h|] eqn:Hh;
      cbn [mbind option_bind] in Hexec; [|done].
    injection Hexec as <- _.
    rewrite (hget_hash_at _ _ _ _ Hh) in Hman. by rewrite Hman. }
  intros r. apply (ensures_weaken (λ _, r = Bulk s) _ _
                     (λ _ st, ¬ member_at st (idx_key namespace key) id));
    [done|done|].
  intros w [] w' -> Hrun. revert Hrun. rewrite Hd.
  assert (Hkeep : ∀ c, (∃ k m, c = SREM k m) ∨ (∃ k m, c = ZREM k m) →
            ∀ st, ¬ member_at st (idx_key namespace key) id →
                  ¬ member_at (step c st) (idx_key namespace key) id).
  { intros c Hc st. apply not_member_at_step.
    destruct Hc as [(?&?&->)|(?&?&->)]; done. }
  assert (Hloop : ∀ keys, key ∈ keys →
            ensures (λ _, True)
              (for_each keys (λ key0,
                 call (SREM (idx_key namespace key0) id);; mret ()))
              (λ _ st, ¬ member_at st (idx_key namespace key) id)).
  { intros keys Hin.
    apply (ensures_for_each_any
             (λ st, ¬ member_at st (idx_key namespace key) id) _ _ key Hin).
    - apply ensures_call_ret. intros st r st' _ Hexec. cbn [exec] in Hexec.
      destruct (set_at st (idx_key namespace key)) as [S|] eqn:HS;
        cbn in Hexec; [|done].
      injection Hexec as _ <-. intros (S' & HS' & Hin').
      unfold put_set in HS'. case_decide;
        rewrite ?lookup_delete_eq, ?lookup_insert_eq in HS'; [done|].
      injection HS' as <-. set_solver.
    - intros k _. apply ensures_call_step. apply Hkeep. left. eauto. }
  intros Hrun.
  enough (Hens : ensures (λ _, True)
            (let '(keys, scored, prefix, suffix) :=
               match d with
               | Idata2 k s0 => (k, s0, [], [])
               | Idata4 k s0 p f => (k, s0, p, f)
               end in
             for_each keys (λ key0,
               call (SREM (idx_key namespace key0) id);; mret ());;
             for_each scored (λ key0,
               call (ZREM (idx_key namespace key0) id);; mret ());;
             for_each prefix (λ '(attr, token),
               mem ← member_of token id;
               call (ZREM (pre_key namespace attr) mem);; mret ());;
             for_each suffix (λ '(attr, token),
               mem ← member_of token id;
               call (ZREM (suf_key namespace attr) mem);; mret ()))
            (λ _ st, ¬ member_at st (idx_key namespace key) id))
    by exact (Hens w () w' I Hrun).
  destruct d as [keys scored|keys scored prefix suffix]; cbn [idata_keys] in Hkey;
    (eapply ensures_bind; [by apply Hloop|]); intros [];
    apply preserves_ensures;
    repeat (apply preserves_bind; [|intros _]);
    try (apply preserves_for_each; intros x _);
    try destruct x as [attr token];
    repeat (apply preserves_bind; [|intros ?]);
    try apply preserves_ret; try apply preserves_member_of;
    apply preserves_call; apply Hkeep; right; eauto.
Qed.

End stale_keys.

(** X5. When [redis_writer_lua] returns for an entity with an integer
    id, the entity is a member of no set index that its stored manifest
    named before the call and that is not among the [keys] passed. *)
Theorem stale_keys_unindexed `{!Cjson, !Util} (namespace : string) (n : Z)
    (unique : gmap string string) (udelete : gmap string pyval)
    (delete : list string) (data : gmap string string) (keys : list string)
    (scored : gmap string Z) (prefix suffix : list (string * pyval))
    (is_delete : bool) (w w' : world) (s : string) (d : idata) (key : string) :
  redis_writer_lua namespace (pretty n) unique udelete delete data keys scored
    prefix suffix is_delete w = (Ok (), w') →
  hget (db w) (manifest_key namespace) (pretty n) = Some s →
  cjson_decode s = Some d →
  key ∈ idata_keys d →
  key ∉ keys →
  ¬ member_at (db w') (idx_key namespace key) (pretty n).
Proof.
  intros Hrun Hman Hd Hold Hnew.
  set (K := manifest_key namespace).
  assert (Huidx : ∀ c, uidx_key namespace c ≠ K).
  { intros c Heq. by apply (manifest_key_ne_uidx_key namespace c). }
  assert (Hrow : row_key namespace (pretty n) ≠ K)
    by apply row_key_ne_manifest_key.
  pose proof (hash_stable_hget K (pretty n) (Some s)) as Hstable.
  apply writer_Ok_inv in Hrun as (w1 & w2 & res & _ & Hdb & Hwrite & Hscript).
  assert (H2 : hget (db w2) K (pretty n) = Some s).
  { pose proof (stable_write_pass namespace (pretty n) K _ Hstable Huidx
                  (map_to_list unique) w1) as Hkeep.
    rewrite Hwrite in Hkeep. apply Hkeep. by rewrite Hdb. }
  enough (Hens : ensures (λ st, hget st K (pretty n) = Some s)
            (script_writes namespace (pretty n) udelete delete
               (flat_map (λ pair, [pair.1; pair.2]) (map_to_list data)) keys
               scored ((λ item, (item, _prefix_score item.2)) <$> prefix)
               ((λ item, (item, _prefix_score item.2)) <$> suffix) is_delete)
            (λ _ st, ¬ member_at st (idx_key namespace key) (pretty n)))
    by exact (Hens w2 res w' H2 Hscript).
  rewrite script_writes_tail.
  pose proof (stable_call_other K _ Hstable) as Hother.
  eapply ensures_bind.
  { apply preserves_ensures.
    apply (stable_remove_unique namespace (pretty n) K _ Hstable Huidx). }
  intros []. eapply ensures_bind.
  { apply preserves_ensures, preserves_when, Hother. cbn. congruence. }
  intros []. eapply ensures_bind.
  { apply preserves_ensures, preserves_when, Hother. cbn. congruence. }
  intros []. unfold script_tail.
  eapply ensures_bind; [by eapply remove_old_index_unindexes|].
  intros []. apply preserves_ensures.
  apply preserves_bind.
  { apply preserves_when.
    apply preserves_bind; [|intros _; apply preserves_bind;
                                      [|intros; apply preserves_ret]];
      apply preserves_call; intros st; by apply not_member_at_step. }
  intros _. apply preserves_bind.
  { eapply runs_preserves; [apply add_new_index_runs|].
    intros c st [(k & Hk & ->)|(k & sc & m & ->)]; apply not_member_at_step;
      [|done].
    intros [= Heq%idx_key_inj]. by subst k. }
  intros _. apply preserves_bind; [|intros; apply preserves_ret].
  apply preserves_when, preserves_bind; [|intros; apply preserves_ret].
  apply preserves_call. intros st. by apply not_member_at_step.
Qed.

(* ================================================================== *)
(** * The count and the snapshot [_apply_changes] returns *)
(* ================================================================== *)

Section count.
Context `{!Util}.
Variables (use_lua : bool) (cls : Model).
Variables (old : gmap string string) (new : gmap string pyval).
Variables (full delete : bool) (pk : pyval).

Lemma index_step_snapshot attr ca nval (l l' : locals) :
  index_step delete attr ca nval l = Ok l' →
  changes l' = changes l ∧ redis_data l' = redis_data l.
Proof.
  unfold index_step, index_keys. intros Hstep.
  repeat (case_match; simplify_eq/=; try done);
    repeat match goal with
    | H : context [py_lower ?v] |- _ => destruct v; simplify_eq/=
    | H : context [py_reverse ?v] |- _ => destruct v; simplify_eq/=
    end; done.
Qed.

Lemma change_step_snapshot attr ca (l : locals) :
  changes (change_step use_lua cls old new pk attr ca l) = S (changes l)
  ∧ redis_data (change_step use_lua cls old new pk attr ca l) = redis_data l.
Proof. unfold change_step. by repeat case_match. Qed.

Lemma column_step_snapshot attr ca (l l' : locals) :
  column_step use_lua cls old new full delete pk attr ca l = Ok l' →
  changes l' = (changes l + if changed old new full (attr, ca) then 1 else 0)%nat
  ∧ redis_data l' = match new !! attr with
                    | Some v => <[attr := _to_redis ca v]> (redis_data l)
                    | None => redis_data l
                    end.
Proof.
  unfold column_step, changed. cbn [fst snd].
  destruct (index_step _ _ _ _ _) as [l1|e] eqn:Hstep; [|done]. cbn.
  apply index_step_snapshot in Hstep as [Hc Hr].
  assert (Hc' : changes l1 = changes l) by (by destruct (new !! attr)).
  assert (Hr' : redis_data l1 = match new !! attr with
                                | Some v => <[attr := _to_redis ca v]> (redis_data l)
                                | None => redis_data l
                                end) by (by destruct (new !! attr)).
  clear Hc Hr.
  destruct (py_eq_opt _ _ && negb full); cbn; intros [= <-].
  - split; [lia|done].
  - destruct (change_step_snapshot attr ca l1) as [-> ->]. split; [lia|done].
Qed.

Lemma column_loop_count columns (l l' : locals) :
  column_loop use_lua cls old new full delete pk columns l = Ok l' →
  changes l' = (changes l + length (filter (λ ac, changed old new full ac) columns))%nat.
Proof.
  revert l. induction columns as [|[attr ca] rest IH]; intros l; cbn [column_loop].
  - intros [= ->]. cbn. lia.
  - destruct (column_step _ _ _ _ _ _ _ _ _ l) as [l1|e] eqn:Hstep; [|done]. cbn.
    intros Hrest. rewrite (IH _ Hrest).
    apply column_step_snapshot in Hstep as [-> _].
    destruct (changed old new full (attr, ca)) eqn:Hch;
      case_decide as Hd; cbn [length]; try done.
    + rewrite <- Nat.add_assoc. reflexivity.
    + by rewrite Nat.add_0_r.
Qed.

Lemma column_loop_redis_data columns (l l' : locals) (attr : string) :
  column_loop use_lua cls old new full delete pk columns l = Ok l' →
  (attr ∉ columns.*1 → redis_data l' !! attr = redis_data l !! attr)
  ∧ (NoDup columns.*1 → ∀ ca, (attr, ca) ∈ columns →
       redis_data l' !! attr
       = match new !! attr with
         | Some v => Some (_to_redis ca v)
         | None => redis_data l !! attr
         end).
Proof.
  revert l. induction columns as [|[a c] rest IH]; intros l; cbn [column_loop].
  - intros [= ->]. split; [done|]. intros _ ca Hin. by apply elem_of_nil in Hin.
  - destruct (column_step _ _ _ _ _ _ _ _ _ l) as [l1|e] eqn:Hstep; [|done]. cbn.
    intros Hrest. destruct (IH _ Hrest) as [Hout Hin].
    apply column_step_snapshot in Hstep as [_ Hr].
    assert (Hother : a ≠ attr → redis_data l1 !! attr = redis_data l !! attr).
    { intros Hne. rewrite Hr. destruct (new !! a); [|done].
      by rewrite lookup_insert_ne. }
    split.
    + intros Hnot. cbn in Hnot. apply not_elem_of_cons in Hnot as [Hne Hnot].
      rewrite Hout by done. apply Hother. congruence.
    + intros Hnd ca Hca. cbn in Hnd. apply NoDup_cons in Hnd as [Ha Hnd].
      apply elem_of_cons in Hca as [[= <- <-]|Hca].
      * rewrite Hout by done. rewrite Hr.
        destruct (new !! attr); [|done]. by rewrite lookup_insert_eq.
      * rewrite (Hin Hnd ca Hca). destruct (new !! attr); [done|].
        apply Hother. intros ->. apply Ha.
        apply list_elem_of_fmap. by exists (attr, ca).
Qed.

Lemma cunique_loop_snapshot groups (l l' : locals) :
  cunique_loop cls old new groups l = Ok l' →
  changes l' = changes l ∧ redis_data l' = redis_data l.
Proof.
  revert l. induction groups as [|g rest IH]; intros l; cbn [cunique_loop].
  - by intros [= ->].
  - unfold cunique_step at 1.
    destruct (cunique_ndata cls new g) as [ndata|e]; [|done]. cbn.
    intros Hrest. destruct (IH _ Hrest) as [-> ->]. by repeat case_match.
Qed.

(** [changes] counts the columns whose value differs from the old one,
    or every column on a full save; [redis_data] holds the raw new value
    of every column that has one. *)
Lemma compute_changes_snapshot (l : locals) :
  compute_changes use_lua cls old new full delete pk = Ok l →
  changes l = length (filter (λ ac, changed old new full ac) (_columns cls))
  ∧ ∀ attr,
      (attr ∉ (_columns cls).*1 → redis_data l !! attr = None)
      ∧ (NoDup (_columns cls).*1 → ∀ ca, (attr, ca) ∈ _columns cls →
           redis_data l !! attr = _to_redis ca <$> new !! attr).
Proof.
  unfold compute_changes.
  destruct (column_loop _ _ _ _ _ _ _ _ locals0) as [l1|e] eqn:Hcols; [|done].
  cbn. intros Hgroups. apply cunique_loop_snapshot in Hgroups as [-> ->].
  split; [by rewrite (column_loop_count _ _ _ Hcols)|].
  intros attr. destruct (column_loop_redis_data _ _ _ attr Hcols) as [Hout Hin].
  split; [intros Hnot; by rewrite Hout|].
  intros Hnd ca Hca. rewrite (Hin Hnd ca Hca). by destruct (new !! attr).
Qed.

End count.

Section returns.
Context `{!Cjson, !Util}.
Variables (cls : Model) (old : gmap string string) (new : gmap string pyval).
Variables (full delete : bool) (pk : pyval).

Lemma lift_Ok_inv {A} (r : result A) (w w' : world) (a : A) :
  lift r w = (Ok a, w') → r = Ok a ∧ w' = w.
Proof. unfold lift. by intros [= -> ->]. Qed.

Lemma catch_watch_Ok_inv {A} (m : M A) (w w' : world) (r : option A) :
  catch_watch m w = (Ok r, w') →
  match r with
  | Some a => m w = (Ok a, w')
  | None => m w = (Raise WatchError, w')
  end.
Proof.
  unfold catch_watch. destruct (m w) as [[a|e] w1].
  - by intros [= <- <-].
  - destruct e; intros Hrun; simplify_eq. done.
Qed.

(** A pass of the loop that returns a value returns the count and the
    snapshot computed; without Lua a delete counts one more. *)
Lemma attempt_returns (use_lua : bool) (iv : interference) (w w' : world)
    (ret : nat * gmap string string) :
  attempt use_lua cls old new full delete pk iv w = (Ok (Some ret), w') →
  ∃ l, compute_changes use_lua cls old new full delete pk = Ok l
       ∧ ret = ((changes l + if delete && negb use_lua then 1 else 0)%nat,
                redis_data l).
Proof.
  unfold attempt. intros Hrun.
  apply bind_Ok_inv in Hrun as ([] & w1 & _ & Hrun).
  apply bind_Ok_inv in Hrun as ([] & w2 & _ & Hrun).
  apply bind_Ok_inv in Hrun as (p & w3 & _ & Hrun).
  apply bind_Ok_inv in Hrun as (l & w4 & [Hl ->]%lift_Ok_inv & Hrun).
  exists l. split; [done|]. destruct use_lua.
  - apply bind_Ok_inv in Hrun as ([] & w5 & _ & Hrun).
    injection Hrun as <- _. rewrite andb_false_r. f_equal. lia.
  - apply bind_Ok_inv in Hrun as (st & w5 & _ & Hrun).
    apply bind_Ok_inv in Hrun as (p' & w6 & _ & Hrun).
    apply bind_Ok_inv in Hrun as (r & w7 & _ & Hrun).
    destruct r as [rs|]; [|done]. injection Hrun as <- _.
    rewrite andb_true_r. destruct delete; [|case_bool_decide]; cbn; f_equal; lia.
Qed.

Lemma apply_loop_returns (use_lua : bool) (sched : list interference)
    (w w' : world) (ret : nat * gmap string string) :
  apply_loop use_lua cls old new full delete pk sched w = (Ok ret, w') →
  ∃ l, compute_changes use_lua cls old new full delete pk = Ok l
       ∧ ret = ((changes l + if delete && negb use_lua then 1 else 0)%nat,
                redis_data l).
Proof.
  revert w. induction sched as [|iv rest IH]; intros w; cbn [apply_loop];
    intros Hrun; apply bind_Ok_inv in Hrun as (r & w1 & Hattempt & Hrun);
    destruct r as [ret'|]; try done.
  - injection Hrun as <- _. by eapply attempt_returns.
  - injection Hrun as <- _. by eapply attempt_returns.
  - by eapply IH.
Qed.

End returns.

Lemma apply_changes_returns `{!Cjson, !Util} (use_lua : bool)
    (sched : list interference) (cls : Model) (old : gmap string string)
    (new : gmap string pyval) (full delete : bool) (w w' : world)
    (ret : nat * gmap string string) :
  _apply_changes use_lua sched cls old new full delete w = (Ok ret, w') →
  ∃ pk l, primary_key cls old new = Some pk
          ∧ truthy pk = true
          ∧ compute_changes use_lua cls old new full delete pk = Ok l
          ∧ ret = ((changes l + if delete && negb use_lua then 1 else 0)%nat,
                   redis_data l).
Proof.
  unfold _apply_changes.
  destruct (primary_key cls old new) as [pk|]; [|done].
  destruct (truthy pk) eqn:Ht; [|done].
  intros (l & Hl & ->)%apply_loop_returns. by exists pk, l.
Qed.

(** X6. The count [_apply_changes] returns is the number of columns
    whose new value differs from the old one read back through the
    column, or of all columns when [full] is set; without Lua a delete
    counts one more. *)
Theorem apply_counts_changed_columns `{!Cjson, !Util} (use_lua : bool)
    (sched : list interference) (cls : Model) (old : gmap string string)
    (new : gmap string pyval) (full delete : bool) (w w' : world)
    (n : nat) (rd : gmap string string) :
  _apply_changes use_lua sched cls old new full delete w = (Ok (n, rd), w') →
  n = (length (filter (λ ac, changed old new full ac) (_columns cls))
       + if delete && negb use_lua then 1 else 0)%nat.
Proof.
  intros (pk & l & _ & _ & Hl & [= -> _])%apply_changes_returns.
  by destruct (compute_changes_snapshot _ _ _ _ _ _ _ _ Hl) as [-> _].
Qed.

(** X7. After a save that returns, where the column names are
    distinct, the entity is neither new, modified nor deleted, its data
    are as they were, and its snapshot [_last] holds the raw value of
    every column that has a value and nothing else. *)
Theorem save_updates_snapshot `{!Cjson, !Util} (use_lua : bool)
    (sched : list interference) (cls : Model) (self self' : entity)
    (full : bool) (w w' : world) (n : nat) :
  NoDup (_columns cls).*1 →
  save use_lua sched cls self full w = (Ok (n, self'), w') →
  _new self' = false ∧ _modified self' = false ∧ _deleted self' = false
  ∧ _data self' = _data self
  ∧ (∀ attr ca, (attr, ca) ∈ _columns cls →
       _last self' !! attr = _to_redis ca <$> _data self !! attr)
  ∧ (∀ attr, attr ∉ (_columns cls).*1 → _last self' !! attr = None).
Proof.
  intros Hnd Hsave. unfold save in Hsave.
  apply bind_Ok_inv in Hsave as ([ret rd] & w1 & Happly & Hret).
  injection Hret as <- <- <-. cbn.
  apply apply_changes_returns in Happly as (pk & l & _ & _ & Hl & [= _ ->]).
  destruct (compute_changes_snapshot _ _ _ _ _ _ _ _ Hl) as [_ Hrd].
  repeat split; try done.
  - intros attr ca Hca. by apply (Hrd attr).
  - intros attr Hnot. by apply (Hrd attr).
Qed.

(** X8. An entity that was saved and not touched since counts no change
    when it is saved again without [full], with or without Lua and
    whatever other clients did in between, where the column names are
    distinct and the raw value of each of its values reads back as a
    value equal to it. *)
Theorem second_save_counts_zero `{!Cjson, !Util} (use_lua use_lua' : bool)
    (sched sched' : list interference) (cls : Model) (self self' self'' : entity)
    (full : bool) (w w' w'' w''' : world) (n m : nat) :
  NoDup (_columns cls).*1 →
  (∀ attr ca v, (attr, ca) ∈ _columns cls → _data self !! attr = Some v →
     py_eq v (_from_redis ca (_to_redis ca v)) = true) →
  save use_lua sched cls self full w = (Ok (n, self'), w') →
  save use_lua' sched' cls self' false w'' = (Ok (m, self''), w''') →
  m = 0%nat.
Proof.
  intros Hnd Hcodec Hfirst Hsecond.
  unfold save in Hfirst.
  apply bind_Ok_inv in Hfirst as ([ret rd] & w1 & Happly & [= _ <- _]).
  apply apply_changes_returns in Happly as (pk & l & _ & _ & Hl & [= _ ->]).
  destruct (compute_changes_snapshot _ _ _ _ _ _ _ _ Hl) as [_ Hrd].
  unfold save in Hsecond. cbn [_new _data _last orb] in Hsecond.
  apply bind_Ok_inv in Hsecond as ([ret' rd'] & w2 & Happly & [= <- _]).
  apply apply_changes_returns in Happly as (pk' & l' & _ & _ & Hl' & [= -> _]).
  destruct (compute_changes_snapshot _ _ _ _ _ _ _ _ Hl') as [-> _].
  cbn [andb]. rewrite Nat.add_0_r.
  apply length_zero_iff_nil, elem_of_nil_inv.
  intros [attr ca] [Hch Hca]%list_elem_of_filter. revert Hch.
  unfold changed. cbn [fst snd negb]. rewrite andb_true_r.
  destruct (Hrd attr) as [_ Hin]. rewrite (Hin Hnd ca Hca).
  destruct (_data self !! attr) as [v|] eqn:Hv; cbn; [|by intros ?].
  rewrite (Hcodec attr ca v Hca Hv). by intros ?.
Qed.

(** X9. Saving an entity whose snapshot and data hold no primary key,
    or a false one only, raises [ColumnError] and sends nothing. *)
Theorem save_without_primary_key `{!Cjson, !Util} (use_lua : bool)
    (sched : list interference) (cls : Model) (self : entity) (full : bool)
    (w : world) :
  (∀ s, _last self !! _pkey cls = Some s → s = "") →
  (∀ v, _data self !! _pkey cls = Some v → truthy v = false) →
  save use_lua sched cls self full w
  = (Raise (ColumnError "Missing primary key value"), w).
Proof.
  intros Hold Hnew.
  assert (Hpk : primary_key cls (_last self) (_data self) = None
                ∨ ∃ v, primary_key cls (_last self) (_data self) = Some v
                       ∧ truthy v = false).
  { unfold primary_key.
    destruct (_last self !! _pkey cls) as [s|] eqn:Hs.
    - rewrite (Hold s eq_refl). cbn [truthy]. rewrite bool_decide_eq_true_2 by done.
      cbn [negb]. destruct (_data self !! _pkey cls) as [v|] eqn:Hv; [|by left].
      right. exists v. split; [done|]. by apply Hnew.
    - destruct (_data self !! _pkey cls) as [v|] eqn:Hv; [|by left].
      right. exists v. split; [done|]. by apply Hnew. }
  unfold save. rewrite bind_unfold. unfold _apply_changes.
  destruct Hpk as [->|(v & -> & ->)]; done.
Qed.

(** X10. Without Lua a model with more than one unique column, or with a
    composite unique constraint, cannot be written at all: every apply,
    also a delete and one that changes nothing, raises [ColumnError]
    before any command is sent. *)
Theorem no_lua_refuses `{!Cjson, !Util} (sched : list interference)
    (cls : Model) (old : gmap string string) (new : gmap string pyval)
    (full delete : bool) (w : world) :
  (1 < size (_unique cls))%nat ∨ _cunique cls ≠ ∅ →
  ∃ msg, _apply_changes false sched cls old new full delete w
         = (Raise (ColumnError msg), w).
Proof.
  intros Hmodel. unfold _apply_changes.
  destruct (primary_key cls old new) as [pk|]; [|by eexists].
  destruct (truthy pk); [|by eexists].
  assert (Hattempt : ∀ iv, ∃ msg,
            attempt false cls old new full delete pk iv w
            = (Raise (ColumnError msg), w)).
  { intros iv. unfold attempt. cbn [negb]. rewrite !andb_true_r.
    destruct (bool_decide (1 < size (_unique cls))%nat) eqn:Hu; [by eexists|].
    destruct Hmodel as [Hsize|Hcu]; [by apply bool_decide_eq_false in Hu|].
    rewrite (bool_decide_eq_true_2 _ Hcu). by eexists. }
  destruct sched as [|iv rest]; cbn [apply_loop]; rewrite bind_unfold;
    [destruct (Hattempt quiet) as [msg ->]|destruct (Hattempt iv) as [msg ->]];
    by eexists.
Qed.

(* ================================================================== *)
(** * The path without Lua: the check of the unique column *)
(* ================================================================== *)

Section unique_check.
Variables (cls : Model) (old : gmap string string) (new : gmap string pyval).
Variables (full : bool) (pk : pyval).
Variables (col : string) (ca : Column) (nv : pyval).
Hypothesis the_column : column cls col = Ok ca.
Hypothesis new_value : new !! col = Some nv.
Hypothesis new_truthy : truthy nv = true.
Hypothesis new_differs : old !! col ≠ Some (_to_redis ca nv) ∨ full = true.

Local Abbreviation ikey := (uidx_key (_namespace cls) col).
Local Abbreviation rnval := (_to_redis ca nv).

(** The check from WATCH to the reply of HGET. *)
Lemma check_unique_step_unfold (iv : interference) (w : world) :
  check_unique_step cls old new full pk iv col pipeline0 w
  = let st := replay (early iv) (db w) in
    let p := Pipeline [ikey] false (marks [ikey] (early iv) (db w)) in
    match hash_at st ikey with
    | None => (Raise ResponseError,
               World st (trace w ++ [WATCH ikey; HGET ikey rnval]) (known w))
    | Some h =>
        match h !! rnval with
        | Some owner =>
            if bool_decide (owner = "") || bool_decide (owner = py_str pk)
            then (Ok (Pipeline [ikey] true (dirty p)),
                  World st (trace w ++ [WATCH ikey; HGET ikey rnval]) (known w))
            else (Raise (UniqueKeyViolation nv ikey),
                  World st (trace w ++ [WATCH ikey; HGET ikey rnval; UNWATCH])
                    (known w))
        | None =>
            (Ok (Pipeline [ikey] true (dirty p)),
             World st (trace w ++ [WATCH ikey; HGET ikey rnval]) (known w))
        end
    end.
Proof.
  unfold check_unique_step. rewrite new_value, the_column.
  rewrite bind_unfold. unfold lift at 1. cbn [mbind result_bind fst snd].
  cbn [truthy_opt default]. rewrite new_truthy. cbn [andb].
  assert (Hgo : bool_decide (old !! col ≠ Some rnval) || full = true).
  { destruct new_differs as [Hne| ->]; [|by rewrite orb_true_r].
    by rewrite (bool_decide_eq_true_2 _ Hne). }
  rewrite Hgo. cbn [negb].
  unfold pipe_watch, pipeline0. cbn [explicit_transaction watching dirty].
  rewrite !bind_unfold, call_unfold. cbn [exec db trace known].
  rewrite ret_unfold. unfold others at 1, id. rewrite !bind_unfold.
  cbn [watching explicit_transaction dirty orb db trace known].
  rewrite call_unfold. cbn [exec db trace known].
  destruct (hash_at (replay (early iv) (db w)) ikey) as [h|] eqn:Hh;
    cbn [mbind option_bind]; [|by rewrite <- app_assoc].
  rewrite <- !app_assoc. cbn [app].
  destruct (h !! rnval) as [owner|]; cbn [from_option].
  - destruct (bool_decide (owner = "") || bool_decide (owner = py_str pk));
      [done|].
    unfold pipe_unwatch. cbn [watching]. rewrite !bind_unfold, call_unfold.
    cbn [exec db trace known]. rewrite <- !app_assoc. done.
  - done.
Qed.

End unique_check.

Lemma marks_app (watched : list string) (cmds cmds' : list command)
    (st : store) :
  marks watched (cmds ++ cmds') st
  = marks watched cmds st || marks watched cmds' (replay cmds st).
Proof.
  revert st. induction cmds as [|c cmds IH]; intros st; cbn [marks app]; [done|].
  by rewrite IH, orb_assoc.
Qed.

Lemma hget_Some_hash_at (st : store) (key field value : string) :
  hget st key field = Some value →
  ∃ h, hash_at st key = Some h ∧ h !! field = Some value.
Proof.
  unfold hget, hash_at. destruct (st !! key) as [[h| |]|]; try done. eauto.
Qed.

Section one_unique_column.
Context `{!Cjson, !Util}.
Variables (cls : Model) (old : gmap string string) (new : gmap string pyval).
Variables (full delete : bool) (pk : pyval).
Variables (col : string) (ca : Column) (nv : pyval).
Hypothesis no_groups : _cunique cls = ∅.
Hypothesis one_unique : elements (_unique cls) = [col].
Hypothesis the_column : column cls col = Ok ca.
Hypothesis new_value : new !! col = Some nv.
Hypothesis new_truthy : truthy nv = true.
Hypothesis new_differs : old !! col ≠ Some (_to_redis ca nv) ∨ full = true.

Local Abbreviation ikey := (uidx_key (_namespace cls) col).
Local Abbreviation rnval := (_to_redis ca nv).

(** A pass from its start to the end of the check. *)
Lemma attempt_check (iv : interference) (w : world) :
  attempt false cls old new full delete pk iv w
  = match check_unique_step cls old new full pk iv col pipeline0 w with
    | (Ok p, w1) =>
        (l ← lift (compute_changes false cls old new full delete pk);
         st ← get_db;
         let l :=
           if delete then
             let l := with_changes S l in
             with_pipe (λ q, q ++ gindex_unindex (_gindex cls) st (py_str pk)
                               ++ [DEL (row_key (_namespace cls) (py_str pk))]) l
           else
             let l := if bool_decide (data l ≠ ∅)
                      then with_pipe (λ q, q ++ [HMSET (row_key (_namespace cls) (py_str pk))
                             (flat_map (λ fv, [fv.1; fv.2]) (map_to_list (data l)))]) l
                      else l in
             with_pipe (λ q, q ++ gindex_index (_gindex cls) st (py_str pk)
                                    (elements (keys l)) (scores l) (prefix l) (suffix l)) l in
         p ← others (late iv) p;
         r ← catch_watch (pipe_execute p (pipe l));
         match r with
         | None => mret None
         | Some _ => mret (Some (changes l, redis_data l))
         end) w1
    | (Raise e, w1) => (Raise e, w1)
    end.
Proof.
  unfold attempt. cbn [negb]. rewrite !andb_true_r.
  assert (Hsize : bool_decide (1 < size (_unique cls))%nat = false).
  { apply bool_decide_eq_false. unfold size, set_size. cbn.
    rewrite one_unique. cbn. lia. }
  rewrite Hsize. rewrite (bool_decide_eq_false_2 (_cunique cls ≠ ∅)) by (by intros ?).
  rewrite one_unique. cbn [check_unique].
  do 2 (rewrite bind_unfold, ret_unfold).
  rewrite bind_unfold, (bind_unfold (check_unique_step _ _ _ _ _ _ _ _)).
  destruct (check_unique_step cls old new full pk iv col pipeline0 w)
    as [[p|e] w1]; [|done].
  rewrite ret_unfold. done.
Qed.

(** A conflict ends the pass with UniqueKeyViolation after UNWATCH. *)
Lemma attempt_conflict (iv : interference) (w : world) (owner : string) :
  hget (replay (early iv) (db w)) ikey rnval = Some owner →
  owner ≠ "" → owner ≠ py_str pk →
  attempt false cls old new full delete pk iv w
  = (Raise (UniqueKeyViolation nv ikey),
     World (replay (early iv) (db w))
       (trace w ++ [WATCH ikey; HGET ikey rnval; UNWATCH]) (known w)).
Proof.
  intros (h & Hh & Hown)%hget_Some_hash_at Hne Hother.
  rewrite attempt_check.
  rewrite (check_unique_step_unfold cls old new full pk col ca nv) by done.
  cbn zeta. rewrite Hh, Hown.
  by rewrite !bool_decide_eq_false_2.
Qed.

(** A pass whose watched index another client modified ends with the
    WatchError of EXEC: none of its queued commands has run. *)
Lemma attempt_watch_conflict (iv : interference) (w : world) (l : locals) :
  is_Some (hash_at (replay (early iv) (db w)) ikey) →
  (∀ owner, hget (replay (early iv) (db w)) ikey rnval = Some owner →
            owner = "" ∨ owner = py_str pk) →
  compute_changes false cls old new full delete pk = Ok l →
  delete = true ∨ data l ≠ ∅ →
  marks [ikey] (early iv ++ late iv) (db w) = true →
  attempt false cls old new full delete pk iv w
  = (Ok None,
     World (replay (late iv) (replay (early iv) (db w)))
       (trace w ++ [WATCH ikey; HGET ikey rnval; MULTI; EXEC; UNWATCH])
       (known w)).
Proof.
  intros [h Hh] Hfree Hl Hstack Htouch.
  set (p := Pipeline [ikey] true (marks [ikey] (early iv) (db w))).
  set (w1 := World (replay (early iv) (db w))
               (trace w ++ [WATCH ikey; HGET ikey rnval]) (known w)).
  assert (Hcheck : check_unique_step cls old new full pk iv col pipeline0 w
                   = (Ok p, w1)).
  { rewrite (check_unique_step_unfold cls old new full pk col ca nv) by done.
    cbn zeta. rewrite Hh.
    destruct (h !! rnval) as [owner|] eqn:Hown; [|done].
    rewrite <- (hget_hash_at _ _ _ _ Hh) in Hown.
    destruct (Hfree owner Hown) as [->| ->].
    - by rewrite bool_decide_eq_true_2.
    - rewrite orb_comm. by rewrite bool_decide_eq_true_2. }
  rewrite attempt_check, Hcheck.
  rewrite bind_unfold. unfold lift at 1. rewrite Hl.
  rewrite bind_unfold. unfold get_db at 1.
  rewrite bind_unfold. unfold others at 1.
  cbn [watching explicit_transaction dirty db trace known p w1].
  rewrite bind_unfold.
  assert (Hdirty : marks [ikey] (early iv) (db w)
                   || marks [ikey] (late iv) (replay (early iv) (db w)) = true).
  { by rewrite <- marks_app. }
  rewrite Hdirty.
  match goal with
  | |- context [pipe_execute ?q (pipe ?l0)] =>
      assert (Hne : pipe l0 ≠ []); [|destruct (pipe l0) as [|c0 stack] eqn:Hpipe; [done|]]
  end.
  { destruct delete.
    - cbn. intros Heq. apply app_eq_nil in Heq as [_ Heq].
      by apply app_eq_nil in Heq as [_ Heq].
    - destruct Hstack as [?|Hdata]; [done|].
      rewrite (bool_decide_eq_true_2 _ Hdata). cbn.
      intros Heq. apply app_eq_nil in Heq as [Heq _].
      by apply app_eq_nil in Heq as [_ Heq]. }
  unfold catch_watch, pipe_execute. cbn [dirty db trace known].
  rewrite ret_unfold. rewrite <- app_assoc. done.
Qed.

End one_unique_column.

(** X11. Without Lua, for a model with one unique column and no
    composite constraint: when the new value of the unique column is
    true and differs in raw form from the old one (or [full] is set),
    and the unique index names another entity as its owner when it is
    read, [_apply_changes] raises UniqueKeyViolation in its first pass.
    It has sent WATCH, HGET and UNWATCH, no MULTI and no EXEC, and the
    data are as the other clients left them. *)
Theorem fallback_conflict_raises `{!Cjson, !Util} (sched : list interference)
    (cls : Model) (old : gmap string string) (new : gmap string pyval)
    (full delete : bool) (w : world) (pk : pyval) (col : string) (ca : Column)
    (nv : pyval) (owner : string) :
  primary_key cls old new = Some pk →
  truthy pk = true →
  _cunique cls = ∅ →
  elements (_unique cls) = [col] →
  column cls col = Ok ca →
  new !! col = Some nv →
  truthy nv = true →
  old !! col ≠ Some (_to_redis ca nv) ∨ full = true →
  hget (replay (early (default quiet (head sched))) (db w))
    (uidx_key (_namespace cls) col) (_to_redis ca nv) = Some owner →
  owner ≠ "" →
  owner ≠ py_str pk →
  _apply_changes false sched cls old new full delete w
  = (Raise (UniqueKeyViolation nv (uidx_key (_namespace cls) col)),
     World (replay (early (default quiet (head sched))) (db w))
       (trace w ++ [WATCH (uidx_key (_namespace cls) col);
                    HGET (uidx_key (_namespace cls) col) (_to_redis ca nv);
                    UNWATCH])
       (known w)).
Proof.
  intros Hpk Ht Hcu Hu Hca Hnv Htrue Hdiff Hown Hne Hother.
  unfold _apply_changes. rewrite Hpk, Ht.
  destruct sched as [|iv rest]; cbn [apply_loop head default] in *;
    rewrite bind_unfold;
    by rewrite (attempt_conflict cls old new full delete pk col ca nv
                  Hcu Hu Hca Hnv Htrue Hdiff _ w owner Hown Hne Hother).
Qed.

(** X12. Without Lua, for a model with one unique column and no
    composite constraint: a pass in which the unique value is free and
    something is queued (a delete, or column data to write), but
    another client modifies the watched unique index before EXEC (a
    write that changes nothing does not count), is given up at EXEC with
    none of its queued commands run; the pipeline is reset, which sends
    UNWATCH, and [_apply_changes] starts over on what the other client
    left.  The unique index holds a hash or nothing. *)
Theorem watch_conflict_retries `{!Cjson, !Util} (iv : interference)
    (rest : list interference) (cls : Model) (old : gmap string string)
    (new : gmap string pyval) (full delete : bool) (w : world) (pk : pyval)
    (col : string) (ca : Column) (nv : pyval) (l : locals) :
  primary_key cls old new = Some pk →
  truthy pk = true →
  _cunique cls = ∅ →
  elements (_unique cls) = [col] →
  column cls col = Ok ca →
  new !! col = Some nv →
  truthy nv = true →
  old !! col ≠ Some (_to_redis ca nv) ∨ full = true →
  is_Some (hash_at (replay (early iv) (db w)) (uidx_key (_namespace cls) col)) →
  (∀ owner, hget (replay (early iv) (db w)) (uidx_key (_namespace cls) col)
              (_to_redis ca nv) = Some owner →
            owner = "" ∨ owner = py_str pk) →
  compute_changes false cls old new full delete pk = Ok l →
  delete = true ∨ data l ≠ ∅ →
  marks [uidx_key (_namespace cls) col] (early iv ++ late iv) (db w) = true →
  _apply_changes false (iv :: rest) cls old new full delete w
  = _apply_changes false rest cls old new full delete
      (World (replay (late iv) (replay (early iv) (db w)))
         (trace w ++ [WATCH (uidx_key (_namespace cls) col);
                      HGET (uidx_key (_namespace cls) col) (_to_redis ca nv);
                      MULTI; EXEC; UNWATCH])
         (known w)).
Proof.
  intros Hpk Ht Hcu Hu Hca Hnv Htrue Hdiff Hhash Hfree Hl Hstack Htouch.
  unfold _apply_changes. rewrite Hpk, Ht. cbn [apply_loop].
  rewrite bind_unfold.
  by rewrite (attempt_watch_conflict cls old new full delete pk col ca nv
                Hcu Hu Hca Hnv Htrue Hdiff iv w l Hhash Hfree Hl Hstack Htouch).
Qed.

(* ================================================================== *)
(** * The fields a pass with Lua sets and deletes *)
(* ================================================================== *)

Section row_changes_of_columns.
Context `{!Util}.
Variables (cls : Model) (old : gmap string string) (new : gmap string pyval).
Variables (full delete : bool) (pk : pyval).

Lemma change_step_row attr ca (l : locals) :
  data (change_step true cls old new pk attr ca l)
  = match new !! attr with
    | Some v => <[attr := _to_redis ca v]> (data l)
    | None => data l
    end
  ∧ deleted (change_step true cls old new pk attr ca l)
    = match new !! attr, old !! attr with
      | None, Some _ => deleted l ++ [attr]
      | _, _ => deleted l
      end.
Proof.
  unfold change_step.
  destruct (new !! attr) as [v|], (old !! attr) as [ro|]; cbn;
    by repeat case_match.
Qed.

Lemma column_step_row attr ca (l l' : locals) :
  column_step true cls old new full delete pk attr ca l = Ok l' →
  data l' = (if changed old new full (attr, ca)
             then match new !! attr with
                  | Some v => <[attr := _to_redis ca v]> (data l)
                  | None => data l
                  end
             else data l)
  ∧ deleted l' = (if changed old new full (attr, ca)
                  then match new !! attr, old !! attr with
                       | None, Some _ => deleted l ++ [attr]
                       | _, _ => deleted l
                       end
                  else deleted l).
Proof.
  unfold column_step, changed. cbn [fst snd].
  destruct (index_step _ _ _ _ _) as [l1|e] eqn:Hstep; [|done]. cbn.
  apply index_step_row in Hstep. unfold row_changes in Hstep.
  assert (Hd : data l1 = data l ∧ deleted l1 = deleted l).
  { destruct (new !! attr); cbn in Hstep; by simplify_eq. }
  destruct Hd as [Hd1 Hd2].
  destruct (py_eq_opt _ _ && negb full); cbn; intros [= <-].
  - done.
  - destruct (change_step_row attr ca l1) as [-> ->]. by rewrite Hd1, Hd2.
Qed.

Lemma column_loop_row columns (l l' : locals) (attr : string) :
  column_loop true cls old new full delete pk columns l = Ok l' →
  (attr ∉ columns.*1 →
     data l' !! attr = data l !! attr ∧ (attr ∈ deleted l' ↔ attr ∈ deleted l))
  ∧ (NoDup columns.*1 → ∀ ca, (attr, ca) ∈ columns →
       data l' !! attr
       = (if changed old new full (attr, ca)
          then match new !! attr with
               | Some v => Some (_to_redis ca v)
               | None => data l !! attr
               end
          else data l !! attr)
       ∧ (attr ∈ deleted l' ↔
          attr ∈ deleted l
          ∨ (changed old new full (attr, ca) = true
             ∧ new !! attr = None ∧ is_Some (old !! attr)))).
Proof.
  revert l. induction columns as [|[a c] rest IH]; intros l; cbn [column_loop].
  - intros [= ->]. split; [done|]. intros _ ca Hin. by apply elem_of_nil in Hin.
  - destruct (column_step _ _ _ _ _ _ _ _ _ l) as [l1|e] eqn:Hstep; [|done]. cbn.
    intros Hrest. destruct (IH _ Hrest) as [Hout Hin].
    apply column_step_row in Hstep as [Hd Hdel].
    assert (Hother : a ≠ attr →
              data l1 !! attr = data l !! attr
              ∧ (attr ∈ deleted l1 ↔ attr ∈ deleted l)).
    { intros Hne. rewrite Hd, Hdel.
      destruct (changed old new full (a, c)); [|done].
      destruct (new !! a) as [v|]; [by rewrite lookup_insert_ne|].
      destruct (old !! a); [|done]. split; [done|].
      rewrite elem_of_app, list_elem_of_singleton. naive_solver. }
    split.
    + intros Hnot. cbn in Hnot. apply not_elem_of_cons in Hnot as [Hne Hnot].
      destruct (Hout Hnot) as [-> ->]. apply Hother. congruence.
    + intros Hnd ca Hca. cbn in Hnd. apply NoDup_cons in Hnd as [Ha Hnd].
      apply elem_of_cons in Hca as [[= <- <-]|Hca].
      * destruct (Hout Ha) as [-> ->]. rewrite Hd, Hdel.
        destruct (changed old new full (attr, ca)); [|naive_solver].
        destruct (new !! attr) as [v|] eqn:Hv.
        -- rewrite lookup_insert_eq. naive_solver.
        -- destruct (old !! attr) as [ro|] eqn:Hro.
           ++ rewrite elem_of_app, list_elem_of_singleton. naive_solver.
           ++ split; [done|]. split; [tauto|].
              intros [?|(_ & _ & [? ?])]; done.
      * assert (a ≠ attr) as Hne.
        { intros ->. apply Ha. apply list_elem_of_fmap. by exists (attr, ca). }
        destruct (Hin Hnd ca Hca) as [-> ->].
        destruct (Hother Hne) as [-> ->]. done.
Qed.

(** The fields the script is passed for a column: the raw new value
    where the column counts as changed and has a value, the name of the
    column where it counts as changed, has none and had one. *)
Lemma compute_changes_row (l : locals) (attr : string) (ca : Column) :
  NoDup (_columns cls).*1 →
  (attr, ca) ∈ _columns cls →
  compute_changes true cls old new full delete pk = Ok l →
  data l !! attr = (if changed old new full (attr, ca)
                    then _to_redis ca <$> new !! attr else None)
  ∧ (attr ∈ deleted l ↔ changed old new full (attr, ca) = true
                         ∧ new !! attr = None ∧ is_Some (old !! attr)).
Proof.
  intros Hnd Hca. unfold compute_changes.
  destruct (column_loop _ _ _ _ _ _ _ _ locals0) as [l1|e] eqn:Hcols; [|done].
  cbn. intros Hgroups. apply cunique_loop_row in Hgroups.
  unfold row_changes in Hgroups. injection Hgroups as _ -> ->.
  destruct (column_loop_row _ _ _ attr Hcols) as [_ Hin].
  destruct (Hin Hnd ca Hca) as [-> ->]. cbn.
  split.
  - destruct (changed old new full (attr, ca)); [|done].
    by destruct (new !! attr).
  - rewrite elem_of_nil. naive_solver.
Qed.

End row_changes_of_columns.

(* ================================================================== *)
(** * The row and the snapshot after a save *)
(* ================================================================== *)

(** An apply with Lua that returns has run the script once, on the
    changes computed. *)
Lemma apply_changes_lua_inv `{!Cjson, !Util} (sched : list interference)
    (cls : Model) (old : gmap string string) (new : gmap string pyval)
    (full delete : bool) (w w' : world) (ret : nat * gmap string string) :
  _apply_changes true sched cls old new full delete w = (Ok ret, w') →
  ∃ pk l,
    primary_key cls old new = Some pk
    ∧ truthy pk = true
    ∧ compute_changes true cls old new full delete pk = Ok l
    ∧ redis_writer_lua (_namespace cls) (py_str pk) (unique l) (udeleted l)
        (deleted l) (data l) (elements (keys l)) (scores l) (prefix l)
        (suffix l) delete w = (Ok (), w')
    ∧ ret = (changes l, redis_data l).
Proof.
  intros Hrun. unfold _apply_changes in Hrun.
  destruct (primary_key cls old new) as [pk|] eqn:Hpk; [|done].
  destruct (truthy pk) eqn:Ht; [|done].
  rewrite apply_loop_lua in Hrun. unfold lua_attempt in Hrun.
  apply bind_Ok_inv in Hrun as (l & w1 & [Hl ->]%lift_Ok_inv & Hrun).
  apply bind_Ok_inv in Hrun as ([] & w2 & Hscript & [= <- <-]).
  by exists pk, l.
Qed.

(** X13. Where the row of an entity with an integer primary key agrees
    with its snapshot [_last] on every column, it does so again after a
    save with Lua that returns: the row holds what the entity will be
    compared with.  The column names are distinct, and for a column
    that does not count as changed the old raw value is the raw form of
    its value. *)
Theorem row_matches_snapshot_after_save `{!Cjson, !Util}
    (sched : list interference) (cls : Model) (self self' : entity)
    (full : bool) (w w' : world) (k : nat) (pk : pyval) (n : Z) :
  NoDup (_columns cls).*1 →
  primary_key cls (_last self) (_data self) = Some pk →
  py_str pk = pretty n →
  (∀ attr ca, (attr, ca) ∈ _columns cls →
     hget (db w) (row_key (_namespace cls) (pretty n)) attr = _last self !! attr) →
  (∀ attr ca, (attr, ca) ∈ _columns cls →
     changed (_last self) (_data self) (full || _new self) (attr, ca) = false →
     _to_redis ca <$> _data self !! attr = _last self !! attr) →
  save true sched cls self full w = (Ok (k, self'), w') →
  ∀ attr ca, (attr, ca) ∈ _columns cls →
    hget (db w') (row_key (_namespace cls) (pretty n)) attr = _last self' !! attr.
Proof.
  intros Hnd Hpk Hint Hstep Hcanon Hsave attr ca Hca.
  unfold save in Hsave.
  apply bind_Ok_inv in Hsave as ([ret rd] & w1 & Happly & [= <- <- <-]).
  cbn [_last].
  apply apply_changes_lua_inv in Happly
    as (pk' & l & Hpk' & _ & Hl & Hscript & [= _ ->]).
  rewrite Hpk in Hpk'. injection Hpk' as <-. rewrite Hint in Hscript.
  apply writer_Ok_inv in Hscript as (w2 & w3 & res & _ & Hdb & Hwrite & Hscript).
  apply (script_writes_row_field (_namespace cls) n _ _ _ _ _ _ _ attr
           (hget (db w) (row_key (_namespace cls) (pretty n)) attr)) in Hscript;
    [|rewrite <- Hdb; by eapply unique_passes_row_field].
  rewrite Hscript. clear Hscript Hwrite.
  destruct (compute_changes_snapshot _ _ _ _ _ _ _ _ Hl) as [_ Hrd].
  destruct (Hrd attr) as [_ Hrd']. rewrite (Hrd' Hnd ca Hca). clear Hrd Hrd'.
  destruct (compute_changes_row _ _ _ _ _ _ _ _ _ Hnd Hca Hl) as [Hdata Hdel].
  unfold row_field_after. rewrite Hdata.
  destruct (changed _ _ _ (attr, ca)) eqn:Hch.
  - destruct (_data self !! attr) as [v|] eqn:Hv; cbn; [done|].
    case_bool_decide as Hd; [done|].
    rewrite (Hstep attr ca Hca).
    destruct (_last self !! attr) as [ro|] eqn:Hro; [|done].
    exfalso. apply Hd, Hdel. eauto.
  - rewrite bool_decide_eq_false_2 by (rewrite Hdel; naive_solver).
    rewrite (Hstep attr ca Hca). symmetry. by apply Hcanon.
Qed.

(* ================================================================== *)
(** * The keys the script sends commands to *)
(* ================================================================== *)

Lemma key_ends_in_letter (namespace body tail : string) (c : ascii) (n : Z) :
  last_char tail = Some c → ¬ is_digit c → tail ≠ "" →
  row_key namespace (pretty n) ≠ namespace +:+ ":" +:+ body +:+ tail.
Proof.
  intros Hlast Hc Htail. unfold row_key. intros Heq.
  apply String.app_inj, String.app_inj in Heq.
  destruct (last_char_pretty_Z n) as (d & Hd & Hdigit).
  rewrite Heq, last_char_app in Hd by done. congruence.
Qed.

Lemma row_key_ne_idx_key (namespace k : string) (n : Z) :
  row_key namespace (pretty n) ≠ idx_key namespace k.
Proof. apply (key_ends_in_letter _ _ ":idx" "x"); [done|by intros [? ?]|done]. Qed.

Lemma row_key_ne_pre_key (namespace a : string) (n : Z) :
  row_key namespace (pretty n) ≠ pre_key namespace a.
Proof. apply (key_ends_in_letter _ _ ":pre" "e"); [done|by intros [? ?]|done]. Qed.

Lemma row_key_ne_suf_key (namespace a : string) (n : Z) :
  row_key namespace (pretty n) ≠ suf_key namespace a.
Proof. apply (key_ends_in_letter _ _ ":suf" "f"); [done|by intros [? ?]|done]. Qed.

Section script_keys.
Context `{!Cjson}.
Variables (namespace id K : string).
Hypothesis no_uidx : ∀ c, uidx_key namespace c ≠ K.
Hypothesis no_idx : ∀ k, idx_key namespace k ≠ K.
Hypothesis no_pre : ∀ a, pre_key namespace a ≠ K.
Hypothesis no_suf : ∀ a, suf_key namespace a ≠ K.
Hypothesis no_manifest : manifest_key namespace ≠ K.

Local Abbreviation off := (λ c : command, command_key c ≠ Some K).

Lemma off_call (c : command) (k : string) :
  command_key c = Some k → k ≠ K → runs off (call c).
Proof. intros Hc Hk. apply runs_call. rewrite Hc. congruence. Qed.

Lemma unique_pass_off write (unique : list (string * string)) :
  runs off (unique_pass namespace id write unique).
Proof.
  induction unique as [|[col value] rest IH]; cbn [unique_pass]; [apply runs_ret|].
  destruct write.
  - apply runs_bind; [by eapply off_call|by intros _].
  - apply runs_bind; [by eapply off_call|].
    intros [|owner| | |]; try done. case_bool_decide; [apply runs_ret|done].
Qed.

Lemma remove_unique_off (udeleted : list (string * pyval)) :
  runs off (remove_unique namespace id udeleted).
Proof.
  apply runs_for_each. intros [col jvalue] _.
  apply runs_bind; [apply runs_lua_arg|intros value].
  apply runs_bind; [by eapply off_call|].
  intros [|owner| | |]; try apply runs_ret.
  apply runs_when, runs_bind; [by eapply off_call|intros; apply runs_ret].
Qed.

Lemma remove_old_index_off : runs off (remove_old_index namespace id).
Proof.
  unfold remove_old_index. apply runs_bind; [by eapply off_call|].
  intros [|s| | |]; try apply runs_ret.
  destruct (cjson_decode s) as [d|]; [|apply runs_raise].
  destruct d as [keys scored|keys scored prefix suffix];
    repeat (apply runs_bind; [|intros _]);
    try (apply runs_for_each; intros x _);
    try destruct x as [attr token];
    repeat (apply runs_bind; [|intros ?]);
    try apply runs_ret; try apply runs_member_of;
    by eapply off_call.
Qed.

Lemma add_new_index_off nkeys scored prefix suffix :
  runs off (add_new_index namespace id nkeys scored prefix suffix).
Proof.
  unfold add_new_index.
  repeat (apply runs_bind; [|intros _]);
    apply runs_for_each; intros x _;
    try destruct x as [[attr token] sc]; try destruct x as [key sc];
    repeat (apply runs_bind; [|intros ?]);
    try apply runs_ret; try apply runs_member_of;
    by eapply off_call.
Qed.

(** The script sends commands to the row only to set fields, to delete
    fields, and to delete the row. *)
Lemma script_off_row unique udeleted deleted data nkeys scored prefix suffix
    is_delete :
  row_key namespace id ≠ K
  ∨ (deleted = [] ∧ data = [] ∧ is_delete = false) →
  runs off (_redis_writer_lua namespace id unique udeleted deleted data nkeys
              scored prefix suffix is_delete).
Proof.
  intros Hrow. unfold _redis_writer_lua. apply runs_bind.
  { cbn [unique_passes]. apply runs_bind; [apply unique_pass_off|].
    intros [c|]; [apply runs_ret|].
    apply runs_bind; [apply unique_pass_off|].
    intros [c|]; apply runs_ret. }
  intros [c|]; [apply runs_ret|]. unfold script_writes.
  apply runs_bind; [apply remove_unique_off|intros _].
  apply runs_bind.
  { destruct Hrow as [Hrow|(-> & _)]; [|apply runs_ret].
    apply runs_when, runs_bind; [by eapply off_call|intros; apply runs_ret]. }
  intros _. apply runs_bind.
  { destruct Hrow as [Hrow|(_ & -> & _)]; [|apply runs_ret].
    apply runs_when, runs_bind; [by eapply off_call|intros; apply runs_ret]. }
  intros _. apply runs_bind; [apply remove_old_index_off|intros _].
  apply runs_bind.
  { destruct Hrow as [Hrow|(_ & _ & ->)]; [|apply runs_ret].
    apply runs_when, runs_bind; [by eapply off_call|intros _].
    apply runs_bind; [by eapply off_call|intros; apply runs_ret]. }
  intros _. apply runs_bind; [apply add_new_index_off|intros _].
  apply runs_bind; [|intros; apply runs_ret].
  apply runs_when, runs_bind; [by eapply off_call|intros; apply runs_ret].
Qed.

End script_keys.

(** X14. Saving with Lua and without [full] an entity with an integer
    primary key that is not new and counts no change never creates its
    row: where there is no row, after a delete by another client say,
    there is none after the save, whether it returns or raises. *)
Theorem unchanged_save_creates_no_row `{!Cjson, !Util}
    (sched : list interference) (cls : Model) (self : entity) (w : world)
    (pk : pyval) (n : Z) :
  primary_key cls (_last self) (_data self) = Some pk →
  py_str pk = pretty n →
  _new self = false →
  (∀ attr ca, (attr, ca) ∈ _columns cls →
     py_eq_opt (_data self !! attr) (_from_redis ca <$> _last self !! attr)
     = true) →
  db w !! row_key (_namespace cls) (pretty n) = None →
  db (save true sched cls self false w).2
    !! row_key (_namespace cls) (pretty n) = None.
Proof.
  intros Hpk Hint Hnew Hsame Hrow.
  set (K := row_key (_namespace cls) (pretty n)).
  enough (Hp : preserves (λ st, st !! K = None) (save true sched cls self false))
    by exact (Hp w Hrow).
  unfold save. rewrite Hnew. cbn [orb].
  apply preserves_bind; [|intros [ret rd]; apply preserves_ret].
  unfold _apply_changes. rewrite Hpk.
  destruct (truthy pk); [|apply preserves_raise].
  intros w0 HQ. rewrite apply_loop_lua. revert w0 HQ.
  change (preserves (λ st, st !! K = None)
            (lua_attempt cls (_last self) (_data self) false false pk)).
  unfold lua_attempt. intros w0 HQ. rewrite bind_unfold. unfold lift at 1.
  destruct (compute_changes true cls (_last self) (_data self) false false pk)
    as [l|e] eqn:Hl; [|done].
  revert w0 HQ.
  change (preserves (λ st, st !! K = None)
            (redis_writer_lua (_namespace cls) (py_str pk) (unique l)
               (udeleted l) (deleted l) (data l) (elements (keys l)) (scores l)
               (prefix l) (suffix l) false;;
             mret (changes l, redis_data l))).
  apply preserves_bind; [|intros; apply preserves_ret].
  unfold redis_writer_lua.
  apply preserves_bind; [|intros [c|cnt]; [destruct (unique l !! c)|];
                           first [apply preserves_raise | apply preserves_ret]].
  pose proof (compute_changes_unchanged _ _ _ _ _ _ _ Hsame Hl) as Hrc.
  unfold row_changes in Hrc. injection Hrc as _ Hdata Hdel.
  eapply runs_preserves.
  - apply (script_off_row (_namespace cls) (py_str pk) K).
    + intros c Heq. by apply (row_key_ne_uidx_key (_namespace cls) c n).
    + intros c Heq. by apply (row_key_ne_idx_key (_namespace cls) c n).
    + intros c Heq. by apply (row_key_ne_pre_key (_namespace cls) c n).
    + intros c Heq. by apply (row_key_ne_suf_key (_namespace cls) c n).
    + intros Heq. by apply (row_key_ne_manifest_key (_namespace cls) n).
    + right. rewrite Hdata, Hdel, map_to_list_empty. done.
  - intros c st Hc HQ. cbn beta in *. by rewrite step_lookup_other.
Qed.

(* ================================================================== *)
(** * Loading an entity from its row *)
(* ================================================================== *)

Section loading.
Variables (cls : Model) (kwargs : gmap string pyval).

Lemma init_step_last attr ca (self self' : entity) :
  init_step cls kwargs attr ca self = Ok self' →
  _new self' = _new self
  ∧ _last self' = match kwargs !! attr with
                  | Some (PStr s) => <[attr := s]> (_last self)
                  | Some c => <[attr := _to_redis ca c]> (_last self)
                  | None => _last self
                  end.
Proof.
  unfold init_step. case_match; [done|].
  destruct (_init_ ca _ _) as [v|e]; [|done]. cbn. by intros [= <-].
Qed.

Lemma init_loop_last columns (self self' : entity) (attr : string) :
  init_loop cls kwargs columns self = Ok self' →
  _new self' = _new self
  ∧ (attr ∉ columns.*1 → _last self' !! attr = _last self !! attr)
  ∧ (NoDup columns.*1 → ∀ ca, (attr, ca) ∈ columns →
       _last self' !! attr
       = match kwargs !! attr with
         | Some (PStr s) => Some s
         | Some c => Some (_to_redis ca c)
         | None => _last self !! attr
         end).
Proof.
  revert self. induction columns as [|[a c] rest IH]; intros self; cbn [init_loop].
  - intros [= ->]. repeat split; try done. intros _ ca Hin.
    by apply elem_of_nil in Hin.
  - destruct (init_step cls kwargs a c self) as [self1|e] eqn:Hstep; [|done]. cbn.
    intros Hrest. destruct (IH _ Hrest) as (Hnew & Hout & Hin).
    apply init_step_last in Hstep as [Hnew1 Hlast1].
    assert (Hother : a ≠ attr → _last self1 !! attr = _last self !! attr).
    { intros Hne. rewrite Hlast1.
      destruct (kwargs !! a) as [[]|]; by rewrite ?lookup_insert_ne. }
    split; [congruence|]. split.
    + intros Hnot. cbn in Hnot. apply not_elem_of_cons in Hnot as [Hne Hnot].
      rewrite Hout by done. apply Hother. congruence.
    + intros Hnd ca Hca. cbn in Hnd. apply NoDup_cons in Hnd as [Ha Hnd].
      apply elem_of_cons in Hca as [[= <- <-]|Hca].
      * rewrite Hout by done. rewrite Hlast1.
        destruct (kwargs !! attr) as [[]|]; by rewrite ?lookup_insert_eq.
      * rewrite (Hin Hnd ca Hca).
        destruct (kwargs !! attr) as [[]|]; try done.
        apply Hother. intros ->. apply Ha.
        apply list_elem_of_fmap. by exists (attr, ca).
Qed.

End loading.

(** An entity built from the fields of a row is not new, and its
    snapshot holds the field of every column. *)
Lemma construct_from_row (cls : Model) (h : gmap string string) (e : entity) :
  NoDup (_columns cls).*1 →
  construct cls (PStr <$> h) true = Ok e →
  _new e = false
  ∧ ∀ attr ca, (attr, ca) ∈ _columns cls → _last e !! attr = h !! attr.
Proof.
  intros Hnd. unfold construct.
  destruct (init_loop _ _ _ _) as [self|err] eqn:Hloop; [|done]. cbn.
  intros [= <-]. cbn [_new _last]. split.
  - by destruct (init_loop_last _ _ _ _ _ "" Hloop) as (-> & _).
  - intros attr ca Hca.
    destruct (init_loop_last _ _ _ _ _ attr Hloop) as (_ & _ & Hin).
    rewrite (Hin Hnd ca Hca). rewrite lookup_fmap. cbn [_last].
    by destruct (h !! attr).
Qed.

(* ================================================================== *)
(** * [get] and [refresh] read the row back *)
(* ================================================================== *)

(** X15. [get] of an id the session does not hold, whose row has fields
    from which an entity can be built, returns that entity: it is not
    new, and its snapshot [_last] is the row on every column.  The
    column names are distinct. *)
Theorem get_loads_row `{!Unicode} (cls : Model) (w : world) (n : Z)
    (h : gmap string string) (e : entity) :
  NoDup (_columns cls).*1 →
  known w !! row_key (_namespace cls) (pretty n) = None →
  hash_at (db w) (row_key (_namespace cls) (pretty n)) = Some h →
  h ≠ ∅ →
  construct cls (PStr <$> h) true = Ok e →
  (∃ w', get cls (OneId (PInt n)) w = (Ok (GotOne (Some e)), w'))
  ∧ _new e = false
  ∧ ∀ attr ca, (attr, ca) ∈ _columns cls →
      _last e !! attr = hget (db w) (row_key (_namespace cls) (pretty n)) attr.
Proof.
  intros Hnd Hknown Hh Hne He.
  destruct (construct_from_row cls h e Hnd He) as [Hnew Hlast].
  split; [|split; [done|]].
  - destruct (get_run cls w (OneId (PInt n)) [n]) as [w' Hw']; [done| |].
    + constructor; [|constructor]. right. exists h. split; [done|]. right. eauto.
    + assert (Hres : resolve cls w n = Some e).
      { unfold resolve, pk_of. by rewrite Hknown, Hh, decide_False, He. }
      exists w'. rewrite Hw'. cbn. by rewrite Hres.
  - intros attr ca Hca. rewrite (Hlast attr ca Hca).
    by rewrite (hget_hash_at _ _ _ _ Hh).
Qed.

(** X16. [refresh] writes nothing: the data are as they were, and the
    only command it sends, if any, is HGETALL of the row of the
    entity. *)
Theorem refresh_reads_only (cls : Model) (self : entity) (force : bool)
    (w : world) :
  db (refresh cls self force w).2 = db w
  ∧ (trace (refresh cls self force w).2 = trace w
     ∨ trace (refresh cls self force w).2 = trace w ++ [HGETALL (_pk cls self)]).
Proof.
  unfold refresh.
  destruct (_deleted self); [by split; [|left]|].
  destruct (_modified self && negb force); [by split; [|left]|].
  destruct (_new self); [by split; [|left]|].
  rewrite call_unfold. cbn [exec].
  destruct (hash_at (db w) (_pk cls self)) as [h|]; cbn [mbind option_bind];
    [|by split; [|right]].
  rewrite init_unfold.
  destruct (construct cls (PStr <$> h) true) as [e|err]; cbn [snd];
    [|by split; [|right]].
  unfold session_add. cbn [db trace known].
  destruct (_data e !! _pkey cls); by split; [|right].
Qed.

(** X17. [refresh] of an entity that is neither deleted nor new, and not
    modified unless forced, sets it to what its row holds, whatever it
    held: it is then not new, and its snapshot is the row on every
    column.  The row is not checked for fields: where it is gone, the
    snapshot is empty on every column.  The column names are
    distinct. *)
Theorem refresh_loads_row (cls : Model) (self e : entity) (force : bool)
    (w : world) (h : gmap string string) :
  NoDup (_columns cls).*1 →
  _deleted self = false →
  _new self = false →
  _modified self = false ∨ force = true →
  hash_at (db w) (_pk cls self) = Some h →
  construct cls (PStr <$> h) true = Ok e →
  (refresh cls self force w).1 = Refreshed e
  ∧ _new e = false
  ∧ ∀ attr ca, (attr, ca) ∈ _columns cls →
      _last e !! attr = hget (db w) (_pk cls self) attr.
Proof.
  intros Hnd Hdel Hnew Hmod Hh He.
  destruct (construct_from_row cls h e Hnd He) as [Hnew' Hlast].
  split; [|split; [done|]].
  - unfold refresh. rewrite Hdel, Hnew.
    assert (_modified self && negb force = false) as ->.
    { destruct Hmod as [-> | ->]; [done|]. apply andb_false_r. }
    rewrite call_unfold. cbn [exec]. rewrite Hh. cbn [mbind option_bind].
    by rewrite init_unfold, He.
  - intros attr ca Hca. rewrite (Hlast attr ca Hca).
    by rewrite (hget_hash_at _ _ _ _ Hh).
Qed.

(* ================================================================== *)
(** * [Model.delete] *)
(* ================================================================== *)

(** X18. After a delete with Lua that returns, of an entity with an
    integer primary key, the entity is marked deleted and modified and
    its data and snapshot are kept; its row and its manifest entry are
    gone, and [get] of its id finds nothing once the session has
    forgotten it. *)
Theorem deleted_entity_is_not_loaded `{!Cjson, !Util, !Unicode}
    (sched : list interference) (cls : Model)
    (_on_delete forget : entity → M unit) (skip : bool) (self self' : entity)
    (w w' : world) (pk : pyval) (n : Z) :
  primary_key cls (_last self) ∅ = Some pk →
  py_str pk = pretty n →
  entity_delete true sched cls _on_delete forget skip self w = (Ok self', w') →
  _deleted self' = true ∧ _modified self' = true
  ∧ _data self' = _data self ∧ _last self' = _last self
  ∧ db w' !! row_key (_namespace cls) (pretty n) = None
  ∧ hget (db w') (manifest_key (_namespace cls)) (pretty n) = None
  ∧ (known w' !! row_key (_namespace cls) (pretty n) = None →
     (∃ w'', get cls (OneId (PInt n)) w' = (Ok (GotOne None), w''))
     ∧ ∃ w'', get cls (ManyIds [PInt n]) w' = (Ok (GotList []), w'')).
Proof.
  intros Hpk Hint Hrun. unfold entity_delete in Hrun.
  apply bind_Ok_inv in Hrun as ([] & w1 & _ & Hrun).
  apply bind_Ok_inv in Hrun as ([] & w2 & _ & Hrun).
  apply bind_Ok_inv in Hrun as (ret & w3 & Happly & [= <- <-]).
  cbn [_deleted _modified _data _last].
  apply apply_changes_lua_inv in Happly
    as (pk' & l & Hpk' & _ & Hl & Hscript & _).
  rewrite Hpk in Hpk'. injection Hpk' as <-. rewrite Hint in Hscript.
  pose proof (compute_changes_delete _ _ _ _ _ _ _ Hl) as Hidx.
  unfold index_entries in Hidx. injection Hidx as Hk Hs Hp Hf.
  rewrite Hk, Hs, Hp, Hf, elements_empty in Hscript.
  apply writer_Ok_inv in Hscript as (w4 & w5 & res & _ & _ & _ & Hscript).
  cbn [fmap list_fmap] in Hscript.
  apply script_writes_Ok_delete in Hscript as (Hrow & Hman & _).
  do 6 (split; [done|]). intros Hknown. split.
  - destruct (get_run cls w3 (OneId (PInt n)) [n]) as [w'' Hw'']; [done| |].
    + constructor; [|constructor]. right. exists ∅. split; [|by left].
      unfold hash_at, pk_of. by rewrite Hrow.
    + exists w''. rewrite Hw''. cbn. unfold resolve, pk_of, hash_at.
      by rewrite Hknown, Hrow.
  - destruct (get_run cls w3 (ManyIds [PInt n]) [n]) as [w'' Hw'']; [done| |].
    + constructor; [|constructor]. right. exists ∅. split; [|by left].
      unfold hash_at, pk_of. by rewrite Hrow.
    + exists w''. rewrite Hw''. cbn. unfold resolve, pk_of, hash_at.
      by rewrite Hknown, Hrow.
Qed.

(* ================================================================== *)
(** * The unique entries of a unique column *)
(* ================================================================== *)

Section unique_column.
Context `{!Util}.
Variables (cls : Model) (old : gmap string string) (new : gmap string pyval).
Variables (full delete : bool) (pk : pyval).

Lemma change_step_unique_ne attr' attr ca (l : locals) :
  attr ≠ attr' →
  unique_entries attr' (change_step true cls old new pk attr ca l)
  = unique_entries attr' l.
Proof.
  intros Hne. unfold change_step, unique_entries.
  repeat (case_match; simplify_eq/=; rewrite ?lookup_insert_ne by done; try done).
Qed.

Lemma change_step_unique_own attr ca (l : locals) :
  attr ∈ _unique cls →
  unique_entries attr l = (None, None) →
  unique_entries attr (change_step true cls old new pk attr ca l)
  = column_entries old new attr ca.
Proof.
  intros Hin. unfold change_step, unique_entries, column_entries.
  rewrite (bool_decide_eq_true_2 _ Hin). intros [= Hu Hd].
  destruct (new !! attr) as [v|], (old !! attr) as [ro|]; cbn;
    repeat (case_bool_decide; simplify_eq/=);
    rewrite ?lookup_insert_eq, ?Hu, ?Hd; try done; congruence.
Qed.

Lemma column_step_unique_ne attr' attr ca (l l' : locals) :
  attr ≠ attr' →
  column_step true cls old new full delete pk attr ca l = Ok l' →
  unique_entries attr' l' = unique_entries attr' l.
Proof.
  intros Hne. unfold column_step.
  destruct (index_step _ _ _ _ _) as [l1|e] eqn:Hidx; [|done]. cbn.
  eapply index_step_unique with (attr' := attr') in Hidx.
  assert (Hl1 : unique_entries attr' l1 = unique_entries attr' l).
  { rewrite Hidx. by case_match. }
  destruct (py_eq_opt _ _ && negb full); intros [= <-]; [done|].
  by rewrite change_step_unique_ne.
Qed.

Lemma column_step_unique_own attr ca (l l' : locals) :
  attr ∈ _unique cls →
  changed old new full (attr, ca) = true →
  unique_entries attr l = (None, None) →
  column_step true cls old new full delete pk attr ca l = Ok l' →
  unique_entries attr l' = column_entries old new attr ca.
Proof.
  intros Hin Hch Hnone. unfold column_step. unfold changed in Hch. cbn in Hch.
  destruct (index_step _ _ _ _ _) as [l1|e] eqn:Hidx; [|done]. cbn.
  eapply index_step_unique with (attr' := attr) in Hidx.
  assert (Hl1 : unique_entries attr l1 = (None, None)).
  { rewrite Hidx, <- Hnone. by case_match. }
  apply negb_true_iff in Hch. rewrite Hch. intros [= <-].
  by apply change_step_unique_own.
Qed.

Lemma column_loop_unique_ne attr' columns (l l' : locals) :
  attr' ∉ columns.*1 →
  column_loop true cls old new full delete pk columns l = Ok l' →
  unique_entries attr' l' = unique_entries attr' l.
Proof.
  revert l. induction columns as [|[a c] rest IH]; intros l Hnot;
    cbn [column_loop].
  - by intros [= ->].
  - cbn in Hnot. apply not_elem_of_cons in Hnot as [Hne Hnot].
    destruct (column_step _ _ _ _ _ _ _ a c l) as [l1|e] eqn:Hstep; [|done].
    cbn. intros Hrest. rewrite (IH _ Hnot Hrest).
    eapply column_step_unique_ne; [|done]. congruence.
Qed.

Lemma column_loop_unique_own attr ca columns (l l' : locals) :
  NoDup columns.*1 →
  (attr, ca) ∈ columns →
  attr ∈ _unique cls →
  changed old new full (attr, ca) = true →
  unique_entries attr l = (None, None) →
  column_loop true cls old new full delete pk columns l = Ok l' →
  unique_entries attr l' = column_entries old new attr ca.
Proof.
  revert l. induction columns as [|[a c] rest IH]; intros l Hnd Hca Hin Hch Hnone;
    cbn [column_loop]; [by apply elem_of_nil in Hca|].
  cbn in Hnd. apply NoDup_cons in Hnd as [Ha Hnd].
  destruct (column_step _ _ _ _ _ _ _ a c l) as [l1|e] eqn:Hstep; [|done].
  cbn. intros Hrest. apply elem_of_cons in Hca as [[= <- <-]|Hca].
  - rewrite (column_loop_unique_ne _ _ _ _ Ha Hrest).
    by eapply column_step_unique_own.
  - apply (IH l1); try done.
    rewrite <- Hnone. eapply column_step_unique_ne; [|done].
    intros ->. apply Ha. apply list_elem_of_fmap. by exists (attr, ca).
Qed.

(** After both loops: the raw new value to add, and the old value to
    remove where the raw values differ or the new one is missing. *)
Lemma compute_changes_unique_column (attr : string) (ca : Column) (l : locals) :
  NoDup (_columns cls).*1 →
  (attr, ca) ∈ _columns cls →
  attr ∈ _unique cls →
  (∀ g, g ∈ _cunique cls → String.concat ":" g ≠ attr) →
  changed old new full (attr, ca) = true →
  compute_changes true cls old new full delete pk = Ok l →
  unique_entries attr l = column_entries old new attr ca.
Proof.
  intros Hnd Hca Hin Hgroups Hch. unfold compute_changes.
  destruct (column_loop _ _ _ _ _ _ _ _ locals0) as [l1|e] eqn:Hcols; [|done].
  cbn. intros Hloop.
  erewrite cunique_loop_other with (l := l1); [| |done].
  - by apply (column_loop_unique_own attr ca (_columns cls) locals0 l1).
  - intros g Hg. apply Hgroups. by apply elem_of_elements.
Qed.

End unique_column.

(* ================================================================== *)
(** * A value passed in [udelete] is not left with the entity *)
(* ================================================================== *)

Lemma hash_stable_hget_ne (K F : string) (o : option string) :
  hash_stable K (λ st, hget st K F ≠ o).
Proof.
  intros c st [Hc|[Hc|Hc]] HQ.
  - by rewrite hget_step_other_key.
  - by rewrite hget_step_index_cmd.
  - by rewrite hget_step_read.
Qed.

Section disown.
Context `{!Cjson}.
Variables (namespace id : string).

Lemma remove_unique_disowns (udeleted : gmap string pyval)
    (col value : string) (jv : pyval) :
  udeleted !! col = Some jv →
  lua_arg_s jv = Some value →
  ensures (λ _, True)
    (remove_unique namespace id (map_to_list udeleted))
    (λ _ st, hget st (uidx_key namespace col) value ≠ Some id).
Proof.
  intros Hcol Hfmt.
  assert (Hone : ∀ (P : store → Prop) (body : string * pyval → M unit) y,
            ensures P (for_each [y] body) (λ _, P) →
            ensures P (body y) (λ _, P)).
  { intros P body y Hy w [] w' HP Hrun. apply (Hy w () w' HP).
    cbn [for_each]. by rewrite bind_unfold, Hrun. }
  unfold remove_unique in *.
  match goal with |- ensures _ (for_each _ ?b) _ => set (body := b) in * end.
  apply (ensures_for_each_elem _ _ _ _ (col, jv)).
  - by apply elem_of_map_to_list.
  - apply NoDup_map_to_list.
  - by intros y Hy Hne w a w' _ _.
  - intros w [] w' _ Hrun. unfold body, lua_arg in Hrun. rewrite Hfmt in Hrun.
    change ((known ← call (HGET (uidx_key namespace col) value);
             match known with
             | Bulk owner =>
                 when (bool_decide (owner = id))
                   (call (HDEL (uidx_key namespace col) [value]);; mret ())
             | _ => mret ()
             end) w = (Ok (), w')) in Hrun.
    apply bind_Ok_inv in Hrun as (r & w1 & Hget & Hrest).
    apply call_Ok_inv in Hget as (Hexec & _ & _). cbn [exec] in Hexec.
    destruct (hash_at (db w) (uidx_key namespace col)) as [h|] eqn:Hh;
      cbn [mbind option_bind] in Hexec; [|done].
    injection Hexec as <- Hdb.
    assert (Hkeep : hget (db w1) (uidx_key namespace col) value = h !! value).
    { rewrite <- Hdb. by apply hget_hash_at. }
    destruct (h !! value) as [owner|] eqn:Hv; cbn in Hrest.
    + case_bool_decide as Hown; cbn [when] in Hrest.
      * apply call_ret_Ok_inv in Hrest as [[r Hexec] _]. cbn [exec] in Hexec.
        destruct (hash_at (db w1) (uidx_key namespace col)) as [h1|] eqn:Hh1;
          cbn [mbind option_bind] in Hexec; [|done].
        injection Hexec as _ <-. rewrite hget_put_hash_eq.
        unfold hdel_hash. cbn [foldl]. by rewrite lookup_delete_eq.
      * injection Hrest as <-. rewrite Hkeep. congruence.
    + injection Hrest as <-. by rewrite Hkeep.
  - intros [c jv'] Hy Hne. apply (Hone _ body).
    apply preserves_ensures. intros w0 HQ.
    change (for_each [(c, jv')] body)
      with (remove_unique namespace id [(c, jv')]).
    assert (Hother : ∀ c' jv'', (c', jv'') ∈ [(c, jv')] →
              uidx_key namespace c' = uidx_key namespace col →
              lua_arg_s jv'' ≠ Some value).
    { intros c' jv'' [= -> ->]%list_elem_of_singleton Hkey%uidx_key_inj. subst c.
      apply elem_of_map_to_list in Hy. congruence. }
    destruct (hget (db w0) (uidx_key namespace col) value) as [o|] eqn:Ho.
    + rewrite (remove_unique_keeps namespace id (uidx_key namespace col)
                 value (Some o) [(c, jv')] Hother w0 Ho). congruence.
    + by rewrite (remove_unique_keeps namespace id (uidx_key namespace col)
                    value None [(c, jv')] Hother w0 Ho).
Qed.

End disown.

(** When [redis_writer_lua] returns, no value it was passed in
    [udelete] is left with the entity. *)
Lemma writer_disowns `{!Cjson, !Util} (namespace : string)
    (n : Z) (unique : gmap string string) (udelete : gmap string pyval)
    (delete : list string) (data : gmap string string) (keys : list string)
    (scored : gmap string Z) (prefix suffix : list (string * pyval))
    (is_delete : bool) (w w' : world) (col value : string) (jv : pyval) :
  redis_writer_lua namespace (pretty n) unique udelete delete data keys scored
    prefix suffix is_delete w = (Ok (), w') →
  udelete !! col = Some jv →
  lua_arg_s jv = Some value →
  hget (db w') (uidx_key namespace col) value ≠ Some (pretty n).
Proof.
  intros Hrun Hcol Hfmt.
  apply writer_Ok_inv in Hrun as (w1 & w2 & res & _ & _ & _ & Hscript).
  apply (script_writes_ensures namespace (pretty n) (uidx_key namespace col)
           (λ st, hget st (uidx_key namespace col) value ≠ Some (pretty n))
           (hash_stable_hget_ne _ _ _) (row_key_ne_uidx_key _ _ _)
           (manifest_key_ne_uidx_key _ _)
           (λ _, True)
           udelete _ _ _ _ _ _ is_delete) in Hscript; [done| |done].
  by eapply remove_unique_disowns.
Qed.

(* ================================================================== *)
(** * Unique columns through [_apply_changes] and [delete] *)
(* ================================================================== *)

(** X19. After an [_apply_changes] with Lua that returns, for an entity
    with an integer primary key, the entity owns the raw new value of a
    unique column that counted as changed, provided the old value the
    script is told to remove (the old raw value converted by the
    column) is not sent to the server as that same raw value (a number
    is sent as [redis.call] prints its double).  The column names are
    distinct and no composite group is named like the column. *)
Theorem changed_unique_value_owned `{!Cjson, !Util} (sched : list interference)
    (cls : Model) (old : gmap string string) (new : gmap string pyval)
    (full delete : bool) (w w' : world) (ret : nat * gmap string string)
    (pk : pyval) (n : Z) (attr : string) (ca : Column) (v : pyval) :
  NoDup (_columns cls).*1 →
  (attr, ca) ∈ _columns cls →
  attr ∈ _unique cls →
  (∀ g, g ∈ _cunique cls → String.concat ":" g ≠ attr) →
  primary_key cls old new = Some pk →
  py_str pk = pretty n →
  new !! attr = Some v →
  changed old new full (attr, ca) = true →
  (∀ ro, old !! attr = Some ro → ro ≠ _to_redis ca v →
     lua_arg_s (_from_redis ca ro) ≠ Some (_to_redis ca v)) →
  _apply_changes true sched cls old new full delete w = (Ok ret, w') →
  hget (db w') (uidx_key (_namespace cls) attr) (_to_redis ca v)
  = Some (pretty n).
Proof.
  intros Hnd Hca Hin Hgroups Hpk Hint Hnew Hch Hfresh Hrun.
  apply apply_changes_lua_inv in Hrun as (pk' & l & Hpk' & _ & Hl & Hscript & _).
  rewrite Hpk in Hpk'. injection Hpk' as <-. rewrite Hint in Hscript.
  pose proof (compute_changes_unique_column _ _ _ _ _ _ attr ca l
                Hnd Hca Hin Hgroups Hch Hl) as Hentries.
  unfold unique_entries, column_entries in Hentries. rewrite Hnew in Hentries.
  injection Hentries as Hu Hd. cbn in Hu.
  apply writer_Ok_inv in Hscript as (w1 & w2 & res & _ & _ & Hwrite & Hscript).
  pose proof (write_pass_sets (_namespace cls) (pretty n)
                (map_to_list (unique l)) attr (_to_redis ca v)) as Hset.
  specialize (Hset ltac:(by apply elem_of_map_to_list) w1 None w2 I Hwrite).
  apply (script_writes_ensures (_namespace cls) (pretty n)
           (uidx_key (_namespace cls) attr)
           (λ st, hget st (uidx_key (_namespace cls) attr) (_to_redis ca v)
                  = Some (pretty n))
           (hash_stable_hget _ _ _) (row_key_ne_uidx_key _ _ _)
           (manifest_key_ne_uidx_key _ _)
           (λ st, hget st (uidx_key (_namespace cls) attr) (_to_redis ca v)
                  = Some (pretty n))
           (udeleted l) _ _ _ _ _ _ delete) in Hscript; [done| |done].
  apply preserves_ensures, remove_unique_keeps.
  intros c jv Hc Hkey%uidx_key_inj. subst c.
  apply elem_of_map_to_list in Hc. rewrite Hd in Hc.
  destruct (old !! attr) as [ro|] eqn:Hold; [|done].
  case_bool_decide as Hne; [|done]. injection Hc as <-. by apply Hfresh.
Qed.

(** X20. After an [_apply_changes] with Lua that returns, for an entity
    with an integer primary key, the entity no longer owns the old value
    of a unique column that counted as changed and whose raw value was
    replaced by another one: the value freed is the old raw value
    converted by the column, as the script sends it to the server (a
    string as it is, a number as [redis.call] prints its double, so
    that the entry of an integer of more than seventeen digits is not
    the one freed).  The column names are distinct and no composite
    group is named like the column. *)
Theorem replaced_unique_value_released `{!Cjson, !Util}
    (sched : list interference) (cls : Model) (old : gmap string string)
    (new : gmap string pyval) (full delete : bool) (w w' : world)
    (ret : nat * gmap string string) (pk : pyval) (n : Z) (attr : string)
    (ca : Column) (v : pyval) (ro value : string) :
  NoDup (_columns cls).*1 →
  (attr, ca) ∈ _columns cls →
  attr ∈ _unique cls →
  (∀ g, g ∈ _cunique cls → String.concat ":" g ≠ attr) →
  primary_key cls old new = Some pk →
  py_str pk = pretty n →
  old !! attr = Some ro →
  new !! attr = Some v →
  ro ≠ _to_redis ca v →
  changed old new full (attr, ca) = true →
  lua_arg_s (_from_redis ca ro) = Some value →
  _apply_changes true sched cls old new full delete w = (Ok ret, w') →
  hget (db w') (uidx_key (_namespace cls) attr) value ≠ Some (pretty n).
Proof.
  intros Hnd Hca Hin Hgroups Hpk Hint Hold Hnew Hne Hch Hfmt Hrun.
  apply apply_changes_lua_inv in Hrun as (pk' & l & Hpk' & _ & Hl & Hscript & _).
  rewrite Hpk in Hpk'. injection Hpk' as <-. rewrite Hint in Hscript.
  pose proof (compute_changes_unique_column _ _ _ _ _ _ attr ca l
                Hnd Hca Hin Hgroups Hch Hl) as Hentries.
  unfold unique_entries, column_entries in Hentries.
  rewrite Hnew, Hold, (bool_decide_eq_true_2 _ Hne) in Hentries.
  injection Hentries as _ Hd.
  by eapply writer_disowns.
Qed.

(** X21. After a delete with Lua that returns, of an entity with an
    integer primary key, the entity owns none of the raw values its
    snapshot holds for a unique column.  The column names are distinct
    and no composite group is named like the column. *)
Theorem delete_releases_unique_values `{!Cjson, !Util}
    (sched : list interference) (cls : Model)
    (_on_delete forget : entity → M unit) (skip : bool) (self self' : entity)
    (w w' : world) (pk : pyval) (n : Z) (attr : string) (ca : Column)
    (ro : string) :
  NoDup (_columns cls).*1 →
  (attr, ca) ∈ _columns cls →
  attr ∈ _unique cls →
  (∀ g, g ∈ _cunique cls → String.concat ":" g ≠ attr) →
  primary_key cls (_last self) ∅ = Some pk →
  py_str pk = pretty n →
  _last self !! attr = Some ro →
  entity_delete true sched cls _on_delete forget skip self w = (Ok self', w') →
  hget (db w') (uidx_key (_namespace cls) attr) ro ≠ Some (pretty n).
Proof.
  intros Hnd Hca Hin Hgroups Hpk Hint Hold Hrun. unfold entity_delete in Hrun.
  apply bind_Ok_inv in Hrun as ([] & w1 & _ & Hrun).
  apply bind_Ok_inv in Hrun as ([] & w2 & _ & Hrun).
  apply bind_Ok_inv in Hrun as (ret & w3 & Happly & [= <- <-]).
  apply apply_changes_lua_inv in Happly
    as (pk' & l & Hpk' & _ & Hl & Hscript & _).
  rewrite Hpk in Hpk'. injection Hpk' as <-. rewrite Hint in Hscript.
  assert (Hch : changed (_last self) ∅ false (attr, ca) = true).
  { unfold changed. cbn. by rewrite lookup_empty, Hold. }
  pose proof (compute_changes_unique_column _ _ _ _ _ _ attr ca l
                Hnd Hca Hin Hgroups Hch Hl) as Hentries.
  unfold unique_entries, column_entries in Hentries.
  rewrite lookup_empty, Hold in Hentries. injection Hentries as _ Hd.
  by eapply writer_disowns.
Qed.

(* ================================================================== *)
(** * The order of strings *)
(* ================================================================== *)

Lemma ascii_compare_Lt_trans (a b c : ascii) :
  Ascii.compare a b = Lt → Ascii.compare b c = Lt → Ascii.compare a c = Lt.
Proof.
  unfold Ascii.compare. rewrite !N.compare_lt_iff. apply N.lt_trans.
Qed.

Lemma string_compare_Lt_trans (s1 s2 s3 : string) :
  String.compare s1 s2 = Lt → String.compare s2 s3 = Lt →
  String.compare s1 s3 = Lt.
Proof.
  revert s2 s3. induction s1 as [|a s1 IH]; intros [|b s2] [|c s3]; cbn;
    try done.
  destruct (Ascii.compare a b) eqn:Hab; try done;
    destruct (Ascii.compare b c) eqn:Hbc; try done.
  - apply Ascii.compare_eq_iff in Hab, Hbc. subst.
    assert (Ascii.compare c c = Eq) as ->; [|by apply IH].
    unfold Ascii.compare. apply N.compare_refl.
  - apply Ascii.compare_eq_iff in Hab. subst. by rewrite Hbc.
  - apply Ascii.compare_eq_iff in Hbc. subst. by rewrite Hab.
  - by rewrite (ascii_compare_Lt_trans a b c).
Qed.

Lemma string_compare_refl (s : string) : String.compare s s = Eq.
Proof.
  induction s as [|a s IH]; cbn; [done|].
  assert (Ascii.compare a a = Eq) as ->; [|done].
  unfold Ascii.compare. apply N.compare_refl.
Qed.

#[local] Instance string_leb_total :
  Total (λ a b : string, Is_true (String.leb a b)).
Proof.
  intros a b. destruct (String.leb_total a b) as [H|H]; rewrite H; [by left|by right].
Qed.

#[local] Instance string_leb_trans :
  Transitive (λ a b : string, Is_true (String.leb a b)).
Proof.
  intros a b c. unfold String.leb.
  destruct (String.compare a b) eqn:Hab; try done;
    destruct (String.compare b c) eqn:Hbc; try done; intros _ _.
  - apply String.compare_eq_iff in Hab, Hbc. subst. by rewrite string_compare_refl.
  - apply String.compare_eq_iff in Hab. subst. by rewrite Hbc.
  - apply String.compare_eq_iff in Hbc. subst. by rewrite Hab.
  - by rewrite (string_compare_Lt_trans a b c).
Qed.

#[local] Instance string_leb_antisymm :
  AntiSymm (=) (λ a b : string, Is_true (String.leb a b)).
Proof.
  intros a b Hab Hba. apply String.leb_antisym; by apply Is_true_eq_true.
Qed.

(* ================================================================== *)
(** * [tuple(sorted(set(comp)))] *)
(* ================================================================== *)

Lemma sorted_set_elem (comp : list string) (x : string) :
  x ∈ sorted_set comp ↔ x ∈ comp.
Proof.
  unfold sorted_set. by rewrite merge_sort_Permutation, elem_of_remove_dups.
Qed.




(* ================================================================== *)
(** * The loop over the constraints *)
(* ================================================================== *)

Lemma check_columns_Ok (columns : list (string * Column)) (key : list string) :
  check_columns columns key = Ok () ↔ Forall (λ c, c ∈ columns.*1) key.
Proof.
  induction key as [|col rest IH]; cbn [check_columns].
  - split; [constructor|done].
  - rewrite Forall_cons. case_bool_decide as Hcol.
    + rewrite IH. naive_solver.
    + split; [done|]. by intros [? _].
Qed.



(** When the loop returns and when not, from any state in which [seen]
    has the keys of [cunique]. *)
Lemma cunique_groups_spec (columns : list (string * Column))
    (comps : list (list string)) (seen : gmap (list string) (list string))
    (cunique G : gset (list string)) :
  (∀ k, is_Some (seen !! k) ↔ k ∈ cunique) →
  cunique_groups columns comps seen cunique = Ok G
  ↔ NoDup (sorted_set <$> comps)
    ∧ Forall (λ k, length k ≠ 1%nat ∧ k ∉ cunique
                   ∧ Forall (λ c, c ∈ columns.*1) k) (sorted_set <$> comps)
    ∧ G = list_to_set (sorted_set <$> comps) ∪ cunique.
Proof.
  revert seen cunique. induction comps as [|comp rest IH]; intros seen cunique Hseen;
    cbn [cunique_groups fmap list_fmap list_to_set].
  - split.
    + intros [= <-]. split; [constructor|]. split; [constructor|]. set_solver.
    + intros (_ & _ & ->). f_equal. set_solver.
  - fold (sorted_set <$> rest). set (key := sorted_set comp).
    case_bool_decide as Hlen.
    { split; [done|]. intros (_ & Hall & _). inversion Hall; naive_solver. }
    case_bool_decide as Hin.
    { split; [done|]. intros (_ & Hall & _). apply Hseen in Hin.
      inversion Hall; naive_solver. }
    destruct (check_columns columns key) as [[]|e] eqn:Hcheck.
    + apply check_columns_Ok in Hcheck.
      rewrite (IH (<[key := comp]> seen) ({[key]} ∪ cunique)).
      * rewrite NoDup_cons, Forall_cons. split.
        -- intros (Hnd & Hall & ->). split; [split; [|done]|split; [split|]].
           ++ intros Hdup. eapply Forall_forall in Hall; [|exact Hdup].
              set_solver.
           ++ split; [done|]. split; [|done]. intros Hk. apply Hin.
              by apply Hseen.
           ++ eapply Forall_impl; [exact Hall|]. cbn. intros k (? & ? & ?).
              split; [done|]. split; [set_solver|done].
           ++ set_solver.
        -- intros ([Hfresh Hnd] & [Hkey Hall] & ->). split; [done|]. split.
           ++ apply Forall_forall. intros k Hk.
              pose proof (proj1 (Forall_forall _ _) Hall k Hk) as (? & ? & ?).
              split; [done|]. split; [|done].
              intros [->%elem_of_singleton|?]%elem_of_union; done.
           ++ set_solver.
      * intros k. destruct (decide (k = key)) as [->|Hne].
        -- rewrite lookup_insert_eq. split; [set_solver|by eexists].
        -- rewrite lookup_insert_ne by done. rewrite Hseen. set_solver.
    + split; [done|]. intros (_ & Hall & _). apply Forall_cons in Hall as [(_ & _ & Hcols) _].
      apply check_columns_Ok in Hcols. fold key in Hcols. congruence.
Qed.

Lemma nothing_seen (k : list string) :
  is_Some ((∅ : gmap (list string) (list string)) !! k)
  ↔ k ∈ (∅ : gset (list string)).
Proof.
  rewrite lookup_empty. split; [by intros [? ?]|].
  intros Hk. by apply not_elem_of_empty in Hk.
Qed.

(** X22. The metaclass accepts [unique_together] exactly when the
    constraints have pairwise different sets of columns, none has one
    column only, and every name is a column; [_cunique] is then the set
    of their names sorted and without repetition.  A constraint with no
    name at all is accepted. *)
Theorem composite_unique_accepts (columns : list (string * Column))
    (ut : unique_together) (G : gset (list string)) :
  composite_unique columns ut = Ok G
  ↔ NoDup (sorted_set <$> composite_list ut)
    ∧ Forall (λ comp, length (sorted_set comp) ≠ 1%nat
                      ∧ Forall (λ c, c ∈ columns.*1) comp) (composite_list ut)
    ∧ G = list_to_set (sorted_set <$> composite_list ut).
Proof.
  unfold composite_unique. rewrite cunique_groups_spec by exact nothing_seen.
  rewrite Forall_fmap, union_empty_r_L.
  assert (Hiff : ∀ comp,
            ((λ k, length k ≠ 1%nat ∧ k ∉ (∅ : gset (list string))
                   ∧ Forall (λ c, c ∈ columns.*1) k) ∘ sorted_set) comp
            ↔ length (sorted_set comp) ≠ 1%nat
              ∧ Forall (λ c, c ∈ columns.*1) comp).
  { intros comp. unfold compose.
    assert (Forall (λ c, c ∈ columns.*1) (sorted_set comp)
            ↔ Forall (λ c, c ∈ columns.*1) comp) as ->.
    { rewrite !Forall_forall. by setoid_rewrite sorted_set_elem. }
    split; [naive_solver|]. intros [? ?]. split; [done|]. split; [|done].
    apply not_elem_of_empty. }
  by rewrite (Forall_iff _ _ _ Hiff).
Qed.



(* ================================================================== *)
(** * Saving an entity whose fields did not change: what is sent *)
(* ================================================================== *)

(** Commands that are not addressed to [K] leave the value at [K]
    alone. *)
Lemma replay_lookup_off (cs : list command) (st : store) (K : string) :
  Forall (λ c, command_key c ≠ Some K) cs → replay cs st !! K = st !! K.
Proof.
  revert st. induction cs as [|c cs IH]; intros st Hoff; [done|].
  apply Forall_cons in Hoff as [Hc Hoff]. cbn [replay foldl].
  change (foldl (λ st c, step c st) (step c st) cs) with (replay cs (step c st)).
  by rewrite (IH _ Hoff), step_lookup_other.
Qed.

(** The pass with [write = true] sends one HSET per entry, in order. *)
Lemma unique_pass_write_trace `{!Cjson} (namespace id : string)
    (unique : list (string * string)) (w w' : world) (r : option string) :
  unique_pass namespace id true unique w = (Ok r, w') →
  trace w' = trace w
             ++ ((λ cv, HSET (uidx_key namespace cv.1) cv.2 id) <$> unique).
Proof.
  revert w. induction unique as [|[col value] rest IH]; intros w;
    cbn [unique_pass].
  - intros [= _ <-]. by rewrite app_nil_r.
  - intros (a & w1 & Hcall & Hrest)%bind_Ok_inv.
    apply call_Ok_inv in Hcall as (_ & Ht & _).
    rewrite (IH _ Hrest), Ht. cbn [fmap list_fmap fst snd].
    by rewrite <- app_assoc.
Qed.

Lemma save_unfold `{!Cjson, !Util} (use_lua : bool) (sched : list interference)
    (cls : Model) (self : entity) (full : bool) (w : world) :
  save use_lua sched cls self full w
  = match _apply_changes use_lua sched cls (_last self) (_data self)
            (full || _new self) false w with
    | (Ok (ret, data), w') =>
        (Ok (ret, Entity false (_data self) data false false (_init self)), w')
    | (Raise e, w') => (Raise e, w')
    end.
Proof.
  unfold save. rewrite bind_unfold.
  by destruct (_apply_changes _ _ _ _ _ _ _ w) as [[[ret data]|e] w'].
Qed.

(** With no field to set or to delete and no delete, the apply of an
    entity with an integer primary key sends nothing to its row. *)
Lemma apply_unchanged_runs `{!Cjson, !Util} (sched : list interference)
    (cls : Model) (old : gmap string string) (new : gmap string pyval)
    (pk : pyval) (n : Z) :
  primary_key cls old new = Some pk →
  py_str pk = pretty n →
  (∀ attr ca, (attr, ca) ∈ _columns cls →
     py_eq_opt (new !! attr) (_from_redis ca <$> old !! attr) = true) →
  runs (no_row_write (row_key (_namespace cls) (pretty n)))
    (_apply_changes true sched cls old new false false).
Proof.
  intros Hpk Hint Hsame.
  set (K := row_key (_namespace cls) (pretty n)).
  unfold _apply_changes. rewrite Hpk.
  destruct (truthy pk); [|apply runs_raise].
  intros w0. rewrite apply_loop_lua. revert w0.
  change (runs (no_row_write K) (lua_attempt cls old new false false pk)).
  unfold lua_attempt. intros w0. rewrite bind_unfold. unfold lift at 1.
  destruct (compute_changes true cls old new false false pk) as [l|e] eqn:Hl;
    [|exists []; by rewrite app_nil_r].
  revert w0.
  change (runs (no_row_write K)
            (redis_writer_lua (_namespace cls) (py_str pk) (unique l)
               (udeleted l) (deleted l) (data l) (elements (keys l)) (scores l)
               (prefix l) (suffix l) false;;
             mret (changes l, redis_data l))).
  apply runs_bind; [|intros; apply runs_ret].
  unfold redis_writer_lua.
  apply runs_bind; [|intros [c|cnt]; [destruct (unique l !! c)|];
                      first [apply runs_raise | apply runs_ret]].
  pose proof (compute_changes_unchanged _ _ _ _ _ _ _ Hsame Hl) as Hrc.
  unfold row_changes in Hrc. injection Hrc as _ Hdata Hdel.
  apply (script_off_row (_namespace cls) (py_str pk) K).
  - intros c Heq. by apply (row_key_ne_uidx_key (_namespace cls) c n).
  - intros c Heq. by apply (row_key_ne_idx_key (_namespace cls) c n).
  - intros c Heq. by apply (row_key_ne_pre_key (_namespace cls) c n).
  - intros c Heq. by apply (row_key_ne_suf_key (_namespace cls) c n).
  - intros Heq. by apply (row_key_ne_manifest_key (_namespace cls) n).
  - right. rewrite Hdata, Hdel, map_to_list_empty. done.
Qed.

(** C3, as amended. Saving with [full=False] an entity that is
    persisted (not new, with an integer primary key) and whose current
    values all equal its last-persisted ones sends no command to the
    entity row and leaves the row as it was: no field is set or deleted
    and the row is not removed.  When the save returns, its changed-count
    is 0; the script has run all the same: it has written every unique
    entry the pass computed (those of the composite-unique groups whose
    tuple has no null), and its last commands are the commands that write
    the index entries followed by the write of the manifest, which then
    holds the encoding of these entries. *)
Theorem unchanged_save_no_row_write `{!Cjson, !Util}
    (sched : list interference) (cls : Model) (self : entity) (w : world)
    (pk : pyval) (n : Z) :
  primary_key cls (_last self) (_data self) = Some pk →
  py_str pk = pretty n →
  _new self = false →
  (∀ attr ca, (attr, ca) ∈ _columns cls →
     py_eq_opt (_data self !! attr) (_from_redis ca <$> _last self !! attr)
     = true) →
  let namespace := _namespace cls in
  let id := pretty n in
  let run := save true sched cls self false w in
  ∃ cs,
    trace run.2 = trace w ++ cs
    ∧ Forall (no_row_write (row_key namespace id)) cs
    ∧ db run.2 !! row_key namespace id = db w !! row_key namespace id
    ∧ ∀ ret self',
        run.1 = Ok (ret, self') →
        ret = 0%nat
        ∧ ∃ l,
            compute_changes true cls (_last self) (_data self) false false pk
            = Ok l
            ∧ row_changes l = (0%nat, ∅, [])
            ∧ (∀ name value,
                 unique l !! name = Some value →
                 HSET (uidx_key namespace name) value id ∈ cs)
            ∧ ∃ before adds,
                let encoded := cjson_encode (elements (keys l))
                                 (map_to_list (scores l)).*1 (prefix l)
                                 (suffix l) in
                cs = before ++ adds ++ [HSET (manifest_key namespace) id encoded]
                ∧ index_adds namespace id (elements (keys l))
                    (map_to_list (scores l)) (prefix l) (suffix l) = Some adds
                ∧ hget (db run.2) (manifest_key namespace) id = Some encoded.
Proof.
  intros Hpk Hint Hnew Hsame namespace id run. subst namespace id.
  pose proof (apply_unchanged_runs sched cls (_last self) (_data self) pk n
                Hpk Hint Hsame w) as (cs & Htr & Hdb & Hoff).
  assert (Hrun : run = save true sched cls self false w) by done.
  rewrite save_unfold, Hnew in Hrun. cbn [orb] in Hrun.
  destruct (_apply_changes true sched cls (_last self) (_data self) false false w)
    as [[[r rd]|e] w'] eqn:Happly; cbn [snd] in Htr, Hdb.
  2:{ exists cs. rewrite Hrun. cbn [fst snd]. split; [done|]. split; [done|].
      split; [|done]. rewrite Hdb. by apply replay_lookup_off. }
  exists cs. rewrite Hrun. cbn [fst snd]. split; [done|]. split; [done|].
  split; [rewrite Hdb; by apply replay_lookup_off|].
  intros ret self' [= <- _].
  apply apply_changes_lua_inv in Happly
    as (pk' & l & Hpk' & _ & Hl & Hscript & [= -> ->]).
  rewrite Hpk in Hpk'. injection Hpk' as <-. rewrite Hint in Hscript.
  pose proof (compute_changes_unchanged _ _ _ _ _ _ _ Hsame Hl) as Hrc.
  split; [by injection Hrc|]. exists l. split; [done|]. split; [done|].
  apply writer_Ok_inv in Hscript as (w1 & w2 & res & Hcheck & _ & Hwrite & Hrest).
  destruct (unique_pass_check (_namespace cls) (pretty n)
              (map_to_list (unique l)) w)
    as (reads & Hw1 & _ & _).
  rewrite Hcheck in Hw1. cbn [snd] in Hw1.
  apply unique_pass_write_trace in Hwrite as Hw2.
  apply script_writes_Ok_manifest in Hrest
    as (Hman & before & adds & Htr' & _ & Hadds).
  assert (Hcs : cs = (reads ++ ((λ cv, HSET (uidx_key (_namespace cls) cv.1)
                                         cv.2 (pretty n))
                                  <$> map_to_list (unique l)) ++ before)
                     ++ adds
                     ++ [HSET (manifest_key (_namespace cls)) (pretty n)
                           (cjson_encode (elements (keys l))
                              (map_to_list (scores l)).*1 (prefix l) (suffix l))]).
  { apply (app_inv_head (trace w)). rewrite <- Htr, Htr', Hw2, Hw1. cbn [trace].
    by rewrite <- !app_assoc. }
  split.
  - intros name value Hname. rewrite Hcs.
    apply elem_of_app. left. apply elem_of_app. right. apply elem_of_app. left.
    apply list_elem_of_fmap. exists (name, value). split; [done|].
    by apply elem_of_map_to_list.
  - by exists (reads ++ ((λ cv, HSET (uidx_key (_namespace cls) cv.1) cv.2
                                 (pretty n))
                          <$> map_to_list (unique l)) ++ before), adds.
Qed.

(* ================================================================== *)
(** * The keys of the indexes are no unique index *)
(* ================================================================== *)

Lemma string_app_assoc (s t u : string) : (s +:+ t) +:+ u = s +:+ (t +:+ u).
Proof.
  induction s as [|c s IH]; [by rewrite !string_app_nil|].
  by rewrite !string_app_cons, IH.
Qed.

Lemma idx_key_ne_uidx_key (namespace k col : string) :
  idx_key namespace k ≠ uidx_key namespace col.
Proof.
  unfold idx_key, uidx_key. intros Heq.
  apply String.app_inj, String.app_inj in Heq.
  change ":idx" with (":" +:+ "idx") in Heq.
  change ":uidx" with (":u" +:+ "idx") in Heq.
  rewrite <- !string_app_assoc in Heq. apply string_app_inj_r in Heq.
  apply (f_equal last_char) in Heq. rewrite !last_char_app in Heq by done.
  done.
Qed.

Lemma pre_key_ne_uidx_key (namespace a col : string) :
  pre_key namespace a ≠ uidx_key namespace col.
Proof.
  unfold pre_key, uidx_key. intros Heq.
  apply String.app_inj, String.app_inj in Heq.
  apply (f_equal last_char) in Heq. rewrite !last_char_app in Heq by done.
  done.
Qed.

Lemma suf_key_ne_uidx_key (namespace a col : string) :
  suf_key namespace a ≠ uidx_key namespace col.
Proof.
  unfold suf_key, uidx_key. intros Heq.
  apply String.app_inj, String.app_inj in Heq.
  apply (f_equal last_char) in Heq. rewrite !last_char_app in Heq by done.
  done.
Qed.

(* ================================================================== *)
(** * Commands the server accepts *)
(* ================================================================== *)

Section typed_store.
Variable (ty : string → kind).

Lemma typed_hash_at (st : store) (k : string) :
  typed ty st → ty k = KHash → ∃ h, hash_at st k = Some h.
Proof.
  intros Ht Hk. unfold hash_at. destruct (st !! k) as [v|] eqn:Hv; [|eauto].
  apply Ht in Hv. cbn beta in Hv. rewrite Hk in Hv. destruct v; try done. eauto.
Qed.

Lemma typed_set_at (st : store) (k : string) :
  typed ty st → ty k = KSet → ∃ s, set_at st k = Some s.
Proof.
  intros Ht Hk. unfold set_at. destruct (st !! k) as [v|] eqn:Hv; [|eauto].
  apply Ht in Hv. cbn beta in Hv. rewrite Hk in Hv. destruct v; try done. eauto.
Qed.

Lemma typed_zset_at (st : store) (k : string) :
  typed ty st → ty k = KZSet → ∃ z, zset_at st k = Some z.
Proof.
  intros Ht Hk. unfold zset_at. destruct (st !! k) as [v|] eqn:Hv; [|eauto].
  apply Ht in Hv. cbn beta in Hv. rewrite Hk in Hv. destruct v; try done. eauto.
Qed.

Lemma typed_delete (st : store) (k : string) :
  typed ty st → typed ty (delete k st).
Proof. apply map_Forall_delete. Qed.

Lemma typed_put_hash (st : store) (k : string) h :
  typed ty st → ty k = KHash → typed ty (put_hash k h st).
Proof.
  intros Ht Hk. unfold put_hash. case_decide; [by apply typed_delete|].
  by apply map_Forall_insert_2.
Qed.

Lemma typed_put_set (st : store) (k : string) s :
  typed ty st → ty k = KSet → typed ty (put_set k s st).
Proof.
  intros Ht Hk. unfold put_set. case_decide; [by apply typed_delete|].
  by apply map_Forall_insert_2.
Qed.

Lemma typed_put_zset (st : store) (k : string) z :
  typed ty st → ty k = KZSet → typed ty (put_zset k z st).
Proof.
  intros Ht Hk. unfold put_zset. case_decide; [by apply typed_delete|].
  by apply map_Forall_insert_2.
Qed.

(** The server answers an accepted command on typed data, and the data
    stay typed. *)
Lemma exec_accepted (c : command) (st : store) :
  typed ty st → accepted ty c →
  ∃ r st', exec c st = Some (r, st') ∧ typed ty st'.
Proof.
  intros Ht Hc. destruct c; cbn [accepted] in Hc; cbn [exec].
  - destruct (typed_hash_at st key Ht Hc) as [h ->]. cbn. eauto.
  - destruct (typed_hash_at st key Ht Hc) as [h ->]. cbn. eauto.
  - destruct (typed_hash_at st key Ht Hc) as [h ->]. cbn.
    eauto using typed_put_hash.
  - destruct Hc as (Hk & Hargs & [pairs Hpairs]).
    destruct args as [|a args]; [done|]. rewrite Hpairs.
    destruct (typed_hash_at st key Ht Hk) as [h ->]. cbn.
    eauto using typed_put_hash.
  - destruct Hc as (Hk & Hfields).
    destruct fields as [|f fields]; [done|].
    destruct (typed_hash_at st key Ht Hk) as [h ->]. cbn.
    eauto using typed_put_hash.
  - destruct (typed_set_at st key Ht Hc) as [s ->]. cbn.
    eauto using typed_put_set.
  - destruct (typed_set_at st key Ht Hc) as [s ->]. cbn.
    eauto using typed_put_set.
  - destruct (typed_zset_at st key Ht Hc) as [z ->]. cbn.
    eauto using typed_put_zset.
  - destruct (typed_zset_at st key Ht Hc) as [z ->]. cbn.
    eauto using typed_put_zset.
  - eauto using typed_delete.
  - eauto.
  - eauto.
  - eauto.
  - eauto.
Qed.

End typed_store.

(* ================================================================== *)
(** * Rules for runs that return *)
(* ================================================================== *)

Section succeeds_rules.
Context {A B : Type}.
Implicit Types (P : store → Prop).

Lemma succeeds_ret P (a : A) (Q : A → store → Prop) :
  (∀ st, P st → Q a st) → succeeds P (mret a : M A) Q.
Proof. intros HQ w HP. exists a, w. split; [done|]. by apply HQ. Qed.

Lemma succeeds_bind P (m : M A) (f : A → M B) (Q : A → store → Prop)
    (R : B → store → Prop) :
  succeeds P m Q → (∀ a, succeeds (Q a) (f a) R) → succeeds P (m ≫= f) R.
Proof.
  intros Hm Hf w HP. destruct (Hm w HP) as (a & w1 & Hrun & HQ).
  destruct (Hf a w1 HQ) as (b & w2 & Hrun' & HR).
  exists b, w2. by rewrite bind_unfold, Hrun.
Qed.

Lemma succeeds_ret_bind P (a : A) (f : A → M B) (R : B → store → Prop) :
  succeeds P (f a) R → succeeds P (mret a ≫= f) R.
Proof. intros Hf w HP. rewrite bind_unfold, ret_unfold. by apply Hf. Qed.

Lemma succeeds_weaken P P' (m : M A) (Q Q' : A → store → Prop) :
  succeeds P m Q → (∀ st, P' st → P st) → (∀ a st, Q a st → Q' a st) →
  succeeds P' m Q'.
Proof.
  intros Hm HP HQ w HP'. destruct (Hm w (HP _ HP')) as (a & w1 & Hrun & HQa).
  exists a, w1. split; [done|]. by apply HQ.
Qed.

Lemma succeeds_pure (φ : Prop) P (m : M A) (Q : A → store → Prop) :
  (φ → succeeds P m Q) → succeeds (λ st, φ ∧ P st) m Q.
Proof. intros Hm w [Hφ HP]. by apply Hm. Qed.

End succeeds_rules.

Lemma succeeds_for_each {A} (Inv : store → Prop) (l : list A)
    (body : A → M unit) :
  (∀ x, x ∈ l → succeeds Inv (body x) (λ _, Inv)) →
  succeeds Inv (for_each l body) (λ _, Inv).
Proof.
  induction l as [|x l IH]; intros Hbody; cbn [for_each];
    [by apply succeeds_ret|].
  eapply succeeds_bind; [apply Hbody; set_solver|].
  intros []. apply IH. intros y Hy. apply Hbody. set_solver.
Qed.

Lemma succeeds_when (Inv : store → Prop) (c : bool) (body : M unit) :
  (c = true → succeeds Inv body (λ _, Inv)) →
  succeeds Inv (when c body) (λ _, Inv).
Proof. destruct c; [by intros Hb; apply Hb|intros _; by apply succeeds_ret]. Qed.

(** An accepted command returns on typed data and keeps them typed, and
    it keeps what its step keeps. *)
Lemma succeeds_call (ty : string → kind) (R : store → Prop) (c : command) :
  accepted ty c →
  (∀ st, R st → R (step c st)) →
  succeeds (λ st, typed ty st ∧ R st) (call c) (λ _ st, typed ty st ∧ R st).
Proof.
  intros Hc HR w [Ht HRw].
  destruct (exec_accepted ty c (db w) Ht Hc) as (r & st' & Hexec & Ht').
  exists r, (World st' (trace w ++ [c]) (known w)).
  rewrite call_unfold, Hexec. split; [done|]. split; [done|].
  specialize (HR _ HRw). unfold step in HR. by rewrite Hexec in HR.
Qed.

Lemma succeeds_call_unit (ty : string → kind) (R : store → Prop) (c : command) :
  accepted ty c →
  (∀ st, R st → R (step c st)) →
  succeeds (λ st, typed ty st ∧ R st) (call c;; mret ())
    (λ _ st, typed ty st ∧ R st).
Proof.
  intros Hc HR. eapply succeeds_bind; [by apply succeeds_call|].
  intros r. by apply succeeds_ret.
Qed.

(** The reply to HGET on a hash. *)
Lemma succeeds_HGET (ty : string → kind) (R : store → Prop) (k f : string) :
  ty k = KHash →
  succeeds (λ st, typed ty st ∧ R st) (call (HGET k f))
    (λ r st, (r = from_option Bulk Nil (hget st k f)) ∧ typed ty st ∧ R st).
Proof.
  intros Hk w [Ht HRw].
  destruct (typed_hash_at ty (db w) k Ht Hk) as [h Hh].
  exists (from_option Bulk Nil (h !! f)), (World (db w) (trace w ++ [HGET k f]) (known w)).
  rewrite call_unfold, (exec_HGET _ _ _ _ Hh). split; [done|]. cbn [db].
  by rewrite (hget_hash_at _ _ _ _ Hh).
Qed.

(* ================================================================== *)
(** * The script returns *)
(* ================================================================== *)

Section script_returns.
Context `{!Cjson}.
Variables (ty : string → kind) (namespace : string) (n : Z).
Variable (R : store → Prop).
Hypothesis R_stable :
  ∀ c st, command_key c ≠ Some (manifest_key namespace) → R st → R (step c st).

Local Abbreviation J := (λ st : store, typed ty st ∧ R st).

(** The check pass returns with no conflict where every entry is free
    or the entity's own. *)
Lemma unique_pass_check_returns (unique : list (string * string)) (w : world) :
  typed ty (db w) →
  Forall (λ cv, ty (uidx_key namespace cv.1) = KHash) unique →
  Forall (λ cv, hget (db w) (uidx_key namespace cv.1) cv.2 = None
                ∨ hget (db w) (uidx_key namespace cv.1) cv.2 = Some (pretty n))
    unique →
  ∃ w', unique_pass namespace (pretty n) false unique w = (Ok None, w')
        ∧ db w' = db w.
Proof.
  intros Ht. revert w Ht.
  induction unique as [|[col value] rest IH]; intros w Ht Hk Hfree;
    cbn [unique_pass]; [by exists w|].
  apply Forall_cons in Hk as [Hk Hks]. apply Forall_cons in Hfree as [Hf Hfs].
  cbn [fst snd] in Hk, Hf.
  destruct (typed_hash_at ty (db w) _ Ht Hk) as [h Hh].
  rewrite bind_unfold, call_unfold, (exec_HGET _ _ _ _ Hh).
  rewrite (hget_hash_at _ _ _ _ Hh) in Hf.
  destruct (IH (World (db w) (trace w ++ [HGET (uidx_key namespace col) value])
                  (known w)) Ht Hks Hfs) as (w' & Hrun & Hdb).
  destruct Hf as [-> | ->]; cbn [from_option].
  - by exists w'.
  - rewrite bool_decide_eq_false_2 by (by intros ?). by exists w'.
Qed.

Lemma unique_pass_write_returns (unique : list (string * string)) :
  Forall (λ cv, ty (uidx_key namespace cv.1) = KHash) unique →
  succeeds J (unique_pass namespace (pretty n) true unique)
    (λ r st, r = None ∧ J st).
Proof.
  induction unique as [|[col value] rest IH]; intros Hk; cbn [unique_pass].
  - by apply succeeds_ret.
  - apply Forall_cons in Hk as [Hk Hks]. cbn [fst] in Hk.
    eapply succeeds_bind; [|intros r; by apply IH].
    apply (succeeds_call ty R); [done|].
    intros st. apply R_stable. cbn [command_key]. intros [= Heq].
    by apply (manifest_key_ne_uidx_key namespace col).
Qed.

Lemma remove_unique_returns (udeleted : list (string * pyval)) :
  Forall (λ cv, ty (uidx_key namespace cv.1) = KHash ∧ is_Some (lua_arg_s cv.2))
    udeleted →
  succeeds J (remove_unique namespace (pretty n) udeleted) (λ _, J).
Proof.
  intros Hk. apply succeeds_for_each. intros [col jv] Hin.
  rewrite Forall_forall in Hk. destruct (Hk _ Hin) as [Hcol [v Hv]].
  cbn [fst snd] in Hcol, Hv.
  assert (Hoff : ∀ c, command_key c = Some (uidx_key namespace col) →
                      ∀ st, R st → R (step c st)).
  { intros c Hc st. apply R_stable. rewrite Hc. intros [= Heq].
    by apply (manifest_key_ne_uidx_key namespace col). }
  unfold lua_arg. rewrite Hv.
  apply succeeds_ret_bind.
  eapply succeeds_bind; [apply (succeeds_call ty R); [done|by apply Hoff]|].
  intros [|owner| | |]; try by apply succeeds_ret.
  apply succeeds_when. intros _.
  apply succeeds_call_unit; [done|by apply Hoff].
Qed.

Lemma row_HDEL_returns (deleted : list string) :
  ty (row_key namespace (pretty n)) = KHash →
  succeeds J
    (when (bool_decide (0 < length deleted)%nat)
       (call (HDEL (row_key namespace (pretty n)) deleted);; mret ()))
    (λ _, J).
Proof.
  intros Hrow. apply succeeds_when. intros Hlen%bool_decide_eq_true.
  apply succeeds_call_unit.
  - split; [done|]. intros ->. cbn in Hlen. lia.
  - intros st. apply R_stable. intros [= Heq].
    by apply (row_key_ne_manifest_key namespace n).
Qed.

Lemma row_HMSET_returns (data : gmap string string) :
  ty (row_key namespace (pretty n)) = KHash →
  succeeds J
    (when (bool_decide
             (0 < length (flat_map (λ pair : string * string, [pair.1; pair.2])
                            (map_to_list data)))%nat)
       (call (HMSET (row_key namespace (pretty n))
                (flat_map (λ pair : string * string, [pair.1; pair.2])
                   (map_to_list data)));; mret ()))
    (λ _, J).
Proof.
  intros Hrow. apply succeeds_when. intros Hlen%bool_decide_eq_true.
  apply succeeds_call_unit.
  - split; [done|]. split; [|by rewrite pairs_of_flat].
    intros Heq. rewrite Heq in Hlen. cbn in Hlen. lia.
  - intros st. apply R_stable. intros [= Heq].
    by apply (row_key_ne_manifest_key namespace n).
Qed.

End script_returns.

Section script_tail_returns.
Context `{!Cjson}.
Variables (ty : string → kind) (namespace id : string).

Local Abbreviation T := (λ st : store, typed ty st ∧ True).

Ltac token_loop Hkinded :=
  apply succeeds_for_each;
  let Hin := fresh "Hin" in
  let Hkey := fresh "Hkey" in
  let Hs := fresh "Hs" in
  intros x Hin; rewrite Forall_forall in Hkinded;
  destruct (Hkinded _ Hin) as [Hkey [? Hs]];
  repeat match goal with x : (_ * _)%type |- _ => destruct x end;
  cbn [fst snd] in Hkey, Hs; unfold member_of; rewrite Hs;
  apply succeeds_ret_bind; by apply succeeds_call_unit.

Lemma remove_old_index_returns (m0 : option string) :
  ty (manifest_key namespace) = KHash →
  match m0 with
  | Some s =>
      match cjson_decode s with
      | Some d => manifest_kinded ty namespace d
      | None => False
      end
  | None => True
  end →
  succeeds (λ st, typed ty st ∧ hget st (manifest_key namespace) id = m0)
    (remove_old_index namespace id) (λ _, T).
Proof.
  intros Hman Hm0. unfold remove_old_index.
  eapply succeeds_bind; [by apply succeeds_HGET|].
  intros r w (-> & Ht & Hm). rewrite Hm.
  match goal with
  | |- ∃ a w', ?m w = _ ∧ _ =>
      enough (Hb : succeeds T m (λ _, T)) by (apply Hb; by split)
  end.
  clear w Ht Hm.
  destruct m0 as [s|]; cbn [from_option]; [|by apply succeeds_ret].
  destruct (cjson_decode s) as [d|]; [|done].
  assert (Hloops : ∀ keys scored prefix suffix,
    Forall (λ k, ty (idx_key namespace k) = KSet) keys →
    Forall (λ k, ty (idx_key namespace k) = KZSet) scored →
    Forall (token_kinded ty (pre_key namespace)) prefix →
    Forall (token_kinded ty (suf_key namespace)) suffix →
    succeeds T
      (for_each keys (λ key, call (SREM (idx_key namespace key) id);; mret ());;
       for_each scored (λ key, call (ZREM (idx_key namespace key) id);; mret ());;
       for_each prefix (λ '(attr, token),
         mem ← member_of token id;
         call (ZREM (pre_key namespace attr) mem);; mret ());;
       for_each suffix (λ '(attr, token),
         mem ← member_of token id;
         call (ZREM (suf_key namespace attr) mem);; mret ()))
      (λ _, T)).
  { intros keys scored prefix suffix Hkeys Hscored Hpre Hsuf.
    rewrite Forall_forall in Hkeys. rewrite Forall_forall in Hscored.
    eapply succeeds_bind; [|intros []; eapply succeeds_bind; [|intros [];
      eapply succeeds_bind; [|intros []]]].
    - apply succeeds_for_each. intros k Hin.
      apply succeeds_call_unit; [by apply Hkeys|done].
    - apply succeeds_for_each. intros k Hin.
      apply succeeds_call_unit; [by apply Hscored|done].
    - token_loop Hpre.
    - token_loop Hsuf. }
  destruct d as [keys scored|keys scored prefix suffix];
    cbn [manifest_kinded] in Hm0; destruct Hm0 as (H1 & H2 & H3 & H4);
    by apply Hloops.
Qed.

Lemma add_new_index_returns (nkeys : list string) (scored : list (string * Z))
    (prefix suffix : list (string * pyval * Z)) :
  Forall (λ k, ty (idx_key namespace k) = KSet) nkeys →
  Forall (λ ks, ty (idx_key namespace ks.1) = KZSet) scored →
  Forall (λ e, token_kinded ty (pre_key namespace) e.1) prefix →
  Forall (λ e, token_kinded ty (suf_key namespace) e.1) suffix →
  succeeds T (add_new_index namespace id nkeys scored prefix suffix) (λ _, T).
Proof.
  intros Hkeys Hscored Hpre Hsuf. unfold add_new_index.
  rewrite Forall_forall in Hkeys. rewrite Forall_forall in Hscored.
  eapply succeeds_bind; [|intros []; eapply succeeds_bind; [|intros [];
    eapply succeeds_bind; [|intros []]]].
  - apply succeeds_for_each. intros k Hin.
    apply succeeds_call_unit; [by apply Hkeys|done].
  - apply succeeds_for_each. intros [k sc] Hin.
    apply succeeds_call_unit; [by apply (Hscored _ Hin)|done].
  - token_loop Hpre.
  - token_loop Hsuf.
Qed.

Lemma script_tail_returns (m0 : option string) (nkeys : list string)
    (scored : gmap string Z) (prefix suffix : list (string * pyval * Z))
    (is_delete : bool) :
  ty (manifest_key namespace) = KHash →
  match m0 with
  | Some s =>
      match cjson_decode s with
      | Some d => manifest_kinded ty namespace d
      | None => False
      end
  | None => True
  end →
  Forall (λ k, ty (idx_key namespace k) = KSet) nkeys →
  Forall (λ ks, ty (idx_key namespace ks.1) = KZSet) (map_to_list scored) →
  Forall (λ e, token_kinded ty (pre_key namespace) e.1) prefix →
  Forall (λ e, token_kinded ty (suf_key namespace) e.1) suffix →
  succeeds (λ st, typed ty st ∧ hget st (manifest_key namespace) id = m0)
    (script_tail namespace id nkeys scored prefix suffix is_delete)
    (λ r _, ∃ cnt, r = Count cnt).
Proof.
  intros Hman Hm0 Hkeys Hscored Hpre Hsuf. unfold script_tail.
  eapply succeeds_bind; [by apply remove_old_index_returns|intros []].
  eapply succeeds_bind; [|intros []].
  { apply succeeds_when. intros _.
    eapply succeeds_bind; [by apply (succeeds_call ty (λ _, True))|intros r].
    by apply succeeds_call_unit. }
  eapply succeeds_bind; [by apply add_new_index_returns|intros []].
  eapply succeeds_bind; [|intros []].
  { apply succeeds_when. intros _. by apply succeeds_call_unit. }
  apply succeeds_ret. intros st _. eauto.
Qed.

End script_tail_returns.

(** The script returns a count where no entry it claims belongs to
    another entity and the server refuses none of its commands. *)
Lemma script_returns `{!Cjson} (ty : string → kind) (namespace : string) (n : Z)
    (unique : gmap string string) (udeleted : gmap string pyval)
    (deleted : list string) (data : gmap string string) (nkeys : list string)
    (scored : gmap string Z) (prefix suffix : list (string * pyval * Z))
    (is_delete : bool) (w : world) :
  typed ty (db w) →
  map_Forall (λ col _, ty (uidx_key namespace col) = KHash) unique →
  map_Forall (λ col v, ty (uidx_key namespace col) = KHash
                       ∧ is_Some (lua_arg_s v)) udeleted →
  ty (row_key namespace (pretty n)) = KHash →
  ty (manifest_key namespace) = KHash →
  Forall (λ k, ty (idx_key namespace k) = KSet) nkeys →
  map_Forall (λ k _, ty (idx_key namespace k) = KZSet) scored →
  Forall (λ e, token_kinded ty (pre_key namespace) e.1) prefix →
  Forall (λ e, token_kinded ty (suf_key namespace) e.1) suffix →
  match hget (db w) (manifest_key namespace) (pretty n) with
  | Some s =>
      match cjson_decode s with
      | Some d => manifest_kinded ty namespace d
      | None => False
      end
  | None => True
  end →
  unclaimed namespace (pretty n) unique (db w) →
  ∃ cnt w',
    _redis_writer_lua namespace (pretty n) unique udeleted deleted
      (flat_map (λ pair, [pair.1; pair.2]) (map_to_list data)) nkeys scored
      prefix suffix is_delete w = (Ok (Count cnt), w').
Proof.
  intros Ht Hu Hd Hrow Hman Hkeys Hscored Hpre Hsuf Hm0 Hfree.
  set (m0 := hget (db w) (manifest_key namespace) (pretty n)) in *.
  set (R := λ st : store, hget st (manifest_key namespace) (pretty n) = m0).
  assert (HR : ∀ c st, command_key c ≠ Some (manifest_key namespace) →
                       R st → R (step c st)).
  { intros c st Hc HRst. unfold R. by rewrite hget_step_other_key. }
  apply map_Forall_to_list in Hu. apply map_Forall_to_list in Hd.
  apply map_Forall_to_list in Hscored. apply map_Forall_to_list in Hfree.
  assert (Hu' : Forall (λ cv : string * string,
                          ty (uidx_key namespace cv.1) = KHash)
                  (map_to_list unique)).
  { eapply Forall_impl; [exact Hu|]. by intros [??]. }
  assert (Hd' : Forall (λ cv : string * pyval,
                          ty (uidx_key namespace cv.1) = KHash
                          ∧ is_Some (lua_arg_s cv.2))
                  (map_to_list udeleted)).
  { eapply Forall_impl; [exact Hd|]. by intros [??]. }
  assert (Hs' : Forall (λ ks : string * Z, ty (idx_key namespace ks.1) = KZSet)
                  (map_to_list scored)).
  { eapply Forall_impl; [exact Hscored|]. by intros [??]. }
  assert (Hf' : Forall (λ cv : string * string,
                   hget (db w) (uidx_key namespace cv.1) cv.2 = None
                   ∨ hget (db w) (uidx_key namespace cv.1) cv.2
                     = Some (pretty n)) (map_to_list unique)).
  { eapply Forall_impl; [exact Hfree|]. by intros [??]. }
  destruct (unique_pass_check_returns ty namespace n (map_to_list unique) w
              Ht Hu' Hf') as (w1 & Hcheck & Hdb).
  unfold _redis_writer_lua. cbn [unique_passes].
  rewrite !bind_unfold, Hcheck. rewrite <- !bind_unfold.
  enough (Hrest : succeeds (λ st, typed ty st ∧ R st)
            (r ← (r ← unique_pass namespace (pretty n) true (map_to_list unique);
                  match r with
                  | Some col => mret (Some col)
                  | None => mret None
                  end);
             match r with
             | Some col => mret (Conflict col)
             | None =>
                 script_writes namespace (pretty n) udeleted deleted
                   (flat_map (λ pair, [pair.1; pair.2]) (map_to_list data))
                   nkeys scored prefix suffix is_delete
             end)
            (λ r _, ∃ cnt, r = Count cnt)).
  { destruct (Hrest w1) as (r & w' & Hrun & cnt & ->).
    - split; [by rewrite Hdb|]. unfold R. by rewrite Hdb.
    - by exists cnt, w'. }
  eapply succeeds_bind.
  { eapply succeeds_bind; [by apply (unique_pass_write_returns ty namespace n R)|].
    intros r. apply succeeds_pure. intros ->.
    apply (succeeds_ret _ _ (λ r st, r = None ∧ typed ty st ∧ R st)). done. }
  intros r. apply succeeds_pure. intros ->.
  rewrite script_writes_tail.
  eapply succeeds_bind;
    [by apply (remove_unique_returns ty namespace n R)|intros []].
  eapply succeeds_bind;
    [by apply (row_HDEL_returns ty namespace n R)|intros []].
  eapply succeeds_bind;
    [by apply (row_HMSET_returns ty namespace n R)|intros []].
  by apply (script_tail_returns ty namespace (pretty n) m0).
Qed.

(** [_apply_changes] with the script returns in the same case. *)
Lemma apply_changes_returns_Ok `{!Cjson, !Util} (sched : list interference)
    (cls : Model) (old : gmap string string) (new : gmap string pyval)
    (full delete : bool) (w : world) (pk : pyval) (n : Z) (l : locals)
    (ty : string → kind) :
  primary_key cls old new = Some pk →
  truthy pk = true →
  py_str pk = pretty n →
  compute_changes true cls old new full delete pk = Ok l →
  serves ty (_namespace cls) (pretty n) l (db w) →
  unclaimed (_namespace cls) (pretty n) (unique l) (db w) →
  ∃ w', _apply_changes true sched cls old new full delete w
        = (Ok (changes l, redis_data l), w').
Proof.
  intros Hpk Htruthy Hint Hl
    (Ht & Hu & Hd & Hrow & Hman & Hkeys & Hscored & Hpre & Hsuf & Hm0) Hfree.
  rewrite (apply_changes_lua _ _ _ _ _ _ pk) by done.
  unfold lua_attempt, lift. rewrite bind_unfold, Hl, bind_unfold.
  unfold redis_writer_lua. rewrite bind_unfold, Hint.
  destruct (script_returns ty (_namespace cls) n (unique l) (udeleted l)
              (deleted l) (data l) (elements (keys l)) (scores l)
              ((λ item, (item, _prefix_score item.2)) <$> prefix l)
              ((λ item, (item, _prefix_score item.2)) <$> suffix l)
              delete w) as (cnt & w' & ->); try done.
  - by apply Forall_fmap.
  - by apply Forall_fmap.
  - by exists w'.
Qed.

(* ================================================================== *)
(** * The commands of the script and one unique index *)
(* ================================================================== *)

Lemma runs_ret_bind {A B} (P : command → Prop) (a : A) (f : A → M B) :
  runs P (f a) → runs P (mret a ≫= f).
Proof. intros Hf w. rewrite bind_unfold, ret_unfold. apply Hf. Qed.

Lemma runs_raise_bind {A B} (P : command → Prop) (e : exn) (f : A → M B) :
  runs P (raise e ≫= f).
Proof. intros w. rewrite bind_unfold. exists []. cbn. by rewrite app_nil_r. Qed.

Section index_commands.
Context `{!Cjson}.
Variables (namespace id K : string) (P : command → Prop).
Hypothesis P_off : ∀ c, command_key c ≠ Some K → P c.
Hypothesis no_row : row_key namespace id ≠ K.
Hypothesis no_idx : ∀ k, idx_key namespace k ≠ K.
Hypothesis no_pre : ∀ a, pre_key namespace a ≠ K.
Hypothesis no_suf : ∀ a, suf_key namespace a ≠ K.
Hypothesis no_manifest : manifest_key namespace ≠ K.

Lemma P_call (c : command) (k : string) :
  command_key c = Some k → k ≠ K → runs P (call c).
Proof. intros Hc Hk. apply runs_call, P_off. rewrite Hc. congruence. Qed.

Lemma unique_pass_runs (write : bool) (unique : list (string * string)) :
  (∀ col v, (col, v) ∈ unique → uidx_key namespace col ≠ K) →
  runs P (unique_pass namespace id write unique).
Proof.
  induction unique as [|[col value] rest IH]; intros Hcols; cbn [unique_pass];
    [apply runs_ret|].
  assert (Hcol : uidx_key namespace col ≠ K) by (eapply Hcols; by left).
  assert (Hrest : runs P (unique_pass namespace id write rest)).
  { apply IH. intros c v Hin. eapply Hcols. by right. }
  destruct write.
  - apply runs_bind; [by eapply P_call|by intros _].
  - apply runs_bind; [by eapply P_call|].
    intros [|owner| | |]; try done. case_bool_decide; [apply runs_ret|done].
Qed.

Lemma remove_unique_runs (udeleted : list (string * pyval)) :
  (∀ col jv v, (col, jv) ∈ udeleted → lua_arg_s jv = Some v →
     P (HGET (uidx_key namespace col) v)
     ∧ P (HDEL (uidx_key namespace col) [v])) →
  runs P (remove_unique namespace id udeleted).
Proof.
  intros Hcols. apply runs_for_each. intros [col jvalue] Hin.
  unfold lua_arg. destruct (lua_arg_s jvalue) as [v|] eqn:Hv;
    [|apply runs_raise_bind].
  destruct (Hcols col jvalue v Hin Hv) as [Hget Hdel].
  apply runs_ret_bind.
  apply runs_bind; [by apply runs_call|].
  intros [|owner| | |]; try apply runs_ret.
  apply runs_when, runs_bind; [by apply runs_call|intros; apply runs_ret].
Qed.

Lemma script_runs unique udeleted deleted data nkeys scored prefix suffix
    is_delete :
  (∀ col v, unique !! col = Some v → uidx_key namespace col ≠ K) →
  (∀ col jv v, udeleted !! col = Some jv → lua_arg_s jv = Some v →
     P (HGET (uidx_key namespace col) v)
     ∧ P (HDEL (uidx_key namespace col) [v])) →
  runs P (_redis_writer_lua namespace id unique udeleted deleted data nkeys
            scored prefix suffix is_delete).
Proof.
  intros Hu Hd.
  assert (Hpass : ∀ write,
    runs P (unique_pass namespace id write (map_to_list unique))).
  { intros write. apply unique_pass_runs. intros col v Hin.
    apply elem_of_map_to_list in Hin. by eapply Hu. }
  unfold _redis_writer_lua. apply runs_bind.
  { cbn [unique_passes]. apply runs_bind; [apply Hpass|].
    intros [c|]; [apply runs_ret|].
    apply runs_bind; [apply Hpass|].
    intros [c|]; apply runs_ret. }
  intros [c|]; [apply runs_ret|]. unfold script_writes.
  apply runs_bind.
  { apply remove_unique_runs. intros col jv v Hin.
    apply elem_of_map_to_list in Hin. by eapply Hd. }
  intros _. apply runs_bind.
  { apply runs_when, runs_bind; [by eapply P_call|intros; apply runs_ret]. }
  intros _. apply runs_bind.
  { apply runs_when, runs_bind; [by eapply P_call|intros; apply runs_ret]. }
  intros _. apply runs_bind.
  { eapply runs_mono; [exact P_off|]. by apply remove_old_index_off. }
  intros _. apply runs_bind.
  { apply runs_when, runs_bind; [by eapply P_call|intros _].
    apply runs_bind; [by eapply P_call|intros; apply runs_ret]. }
  intros _. apply runs_bind.
  { eapply runs_mono; [exact P_off|]. by apply add_new_index_off. }
  intros _. apply runs_bind; [|intros; apply runs_ret].
  apply runs_when, runs_bind; [by eapply P_call|intros; apply runs_ret].
Qed.

End index_commands.

(** The apply of an entity with an integer primary key, and the unique
    index of a name for which the pass computes no unique-add. *)
Lemma apply_runs_index `{!Cjson, !Util} (P : command → Prop)
    (sched : list interference) (cls : Model) (old : gmap string string)
    (new : gmap string pyval) (full delete : bool) (pk : pyval) (n : Z)
    (attr : string) :
  (∀ c, command_key c ≠ Some (uidx_key (_namespace cls) attr) → P c) →
  primary_key cls old new = Some pk →
  py_str pk = pretty n →
  (∀ l, compute_changes true cls old new full delete pk = Ok l →
        unique l !! attr = None
        ∧ ∀ jv v, udeleted l !! attr = Some jv → lua_arg_s jv = Some v →
                  P (HGET (uidx_key (_namespace cls) attr) v)
                  ∧ P (HDEL (uidx_key (_namespace cls) attr) [v])) →
  runs P (_apply_changes true sched cls old new full delete).
Proof.
  intros HP Hpk Hint Hgroup.
  set (K := uidx_key (_namespace cls) attr).
  unfold _apply_changes. rewrite Hpk.
  destruct (truthy pk); [|apply runs_raise].
  intros w0. rewrite apply_loop_lua. revert w0.
  change (runs P (lua_attempt cls old new full delete pk)).
  unfold lua_attempt. intros w0. rewrite bind_unfold. unfold lift at 1.
  destruct (compute_changes true cls old new full delete pk) as [l|e] eqn:Hl;
    [|exists []; by rewrite app_nil_r].
  revert w0.
  change (runs P
            (redis_writer_lua (_namespace cls) (py_str pk) (unique l)
               (udeleted l) (deleted l) (data l) (elements (keys l)) (scores l)
               (prefix l) (suffix l) delete;;
             mret (changes l, redis_data l))).
  apply runs_bind; [|intros; apply runs_ret].
  unfold redis_writer_lua.
  apply runs_bind; [|intros [c|cnt]; [destruct (unique l !! c)|];
                      first [apply runs_raise | apply runs_ret]].
  destruct (Hgroup l eq_refl) as [Hu Hd].
  assert (Hother : ∀ col, col ≠ attr → uidx_key (_namespace cls) col ≠ K).
  { intros col Hne Heq. by apply uidx_key_inj in Heq. }
  rewrite Hint.
  apply (script_runs (_namespace cls) (pretty n) K P HP).
  - intros Heq. by apply (row_key_ne_uidx_key (_namespace cls) attr n).
  - intros k. apply idx_key_ne_uidx_key.
  - intros a. apply pre_key_ne_uidx_key.
  - intros a. apply suf_key_ne_uidx_key.
  - apply manifest_key_ne_uidx_key.
  - intros col v Hcol. apply Hother. intros ->. by rewrite Hu in Hcol.
  - intros col jv v Hcol Hv. destruct (decide (col = attr)) as [->|Hne].
    + by apply (Hd jv).
    + split; apply HP; cbn [command_key]; intros [= Heq];
        by apply (Hother col Hne).
Qed.

(** The script names a conflict only for an entry that another id
    owns. *)
Lemma script_conflict_owner `{!Cjson} namespace id unique udeleted deleted data
    nkeys scored prefix suffix is_delete (w w' : world) (col : string) :
  _redis_writer_lua namespace id unique udeleted deleted data nkeys scored
    prefix suffix is_delete w = (Ok (Conflict col), w') →
  ∃ v o, unique !! col = Some v
         ∧ hget (db w) (uidx_key namespace col) v = Some o ∧ o ≠ id.
Proof.
  unfold _redis_writer_lua. cbn [unique_passes].
  intros (r & w1 & Hpasses & Hrest)%bind_Ok_inv.
  destruct r as [c|]; last first.
  { unfold script_writes in Hrest. repeat
      (apply bind_Ok_inv in Hrest as (? & ? & _ & Hrest)). done. }
  injection Hrest as -> ->.
  apply bind_Ok_inv in Hpasses as (r & w0 & Hcheck & Hrest).
  pose proof (unique_pass_check namespace id (map_to_list unique) w)
    as (reads & _ & _ & Hres).
  rewrite Hcheck in Hres. cbn [fst] in Hres.
  destruct r as [c|].
  - injection Hrest as -> _. destruct Hres as (v & o & Hin & Ho & Hne).
    exists v, o. by apply elem_of_map_to_list in Hin.
  - exfalso. apply bind_Ok_inv in Hrest as (r & w2 & Hwrite & Hrest).
    apply unique_pass_write_None in Hwrite as ->. done.
Qed.

(** C6, as amended. For a composite-unique group whose index name is
    the name of no unique column and of no other group: when a component
    of the new tuple is null no unique-add is computed for the group, and
    when a component of the old tuple is null no unique-remove is.  So
    the group never refuses an entity with a null component in it: its
    apply under the atomic-script protocol raises no
    [UniqueKeyViolation] on the index of the group, whatever the store
    holds, and a [UniqueKeyViolation] it raises names an entry of another
    unique column or group that another entity owns.  With an integer
    primary key the apply sets no entry of the index of the group (it
    only reads and releases the entry of the old tuple), and sends it no
    command at all when the old tuple has a null too.  And the entity is
    saved, whatever other entities hold in the group: where every entry
    the pass claims is free or the entity's own and the server refuses no
    command of the script, the apply returns the count and the snapshot,
    and, unless it is a delete, the row then holds the new values. *)
Theorem null_component_exempt `{!Cjson, !Util} (sched : list interference)
    (cls : Model) (old : gmap string string) (new : gmap string pyval)
    (full delete : bool) (uniq : list string) :
  uniq ∈ _cunique cls →
  String.concat ":" uniq ∉ _unique cls →
  (∀ g, g ∈ _cunique cls →
        String.concat ":" g = String.concat ":" uniq → g = uniq) →
  let attr := String.concat ":" uniq in
  let namespace := _namespace cls in
  let K := uidx_key namespace attr in
  (∀ pk l,
     compute_changes true cls old new full delete pk = Ok l →
     ((∃ c, c ∈ uniq ∧ new !! c = None) → unique l !! attr = None)
     ∧ ((∃ c, c ∈ uniq ∧ old !! c = None) → udeleted l !! attr = None))
  ∧ ((∃ c, c ∈ uniq ∧ new !! c = None) →
     ∀ w,
       let run := _apply_changes true sched cls old new full delete w in
       (∀ value, run.1 ≠ Raise (UniqueKeyViolation value K))
       ∧ (∀ value key,
            run.1 = Raise (UniqueKeyViolation value key) →
            ∃ pk l col v owner,
              primary_key cls old new = Some pk
              ∧ compute_changes true cls old new full delete pk = Ok l
              ∧ unique l !! col = Some v
              ∧ col ≠ attr
              ∧ value = PStr v
              ∧ key = uidx_key namespace col
              ∧ hget (db w) key v = Some owner
              ∧ owner ≠ py_str pk)
       ∧ ∀ (pk : pyval) (n : Z) (l : locals),
           primary_key cls old new = Some pk →
           truthy pk = true →
           py_str pk = pretty n →
           compute_changes true cls old new full delete pk = Ok l →
           (∃ cs,
              trace run.2 = trace w ++ cs
              ∧ db run.2 = replay cs (db w)
              ∧ Forall (sets_no_entry K) cs
              ∧ ((∃ c, c ∈ uniq ∧ old !! c = None) →
                 Forall (λ c, command_key c ≠ Some K) cs
                 ∧ db run.2 !! K = db w !! K))
           ∧ ∀ ty,
               serves ty namespace (pretty n) l (db w) →
               unclaimed namespace (pretty n) (unique l) (db w) →
               ∃ w',
                 run = (Ok (changes l, redis_data l), w')
                 ∧ (delete = false →
                    ∀ f, hget (db w') (row_key namespace (pretty n)) f
                         = row_field_after (data l) (deleted l) f
                             (hget (db w) (row_key namespace (pretty n)) f))).
Proof.
  intros Hin Hname Hinj attr namespace K. subst namespace.
  assert (Hadd : ∀ pk l,
    compute_changes true cls old new full delete pk = Ok l →
    (∃ c, c ∈ uniq ∧ new !! c = None) → unique l !! attr = None).
  { intros pk l Hl (c & Hc & Hnone).
    destruct (compute_changes_group _ _ _ _ _ _ _ uniq l Hin Hname Hinj Hl)
      as (ndata & Hnd & Hentries).
    unfold unique_entries, group_entries in Hentries.
    injection Hentries as Hu _. unfold attr. rewrite Hu.
    rewrite (cunique_ndata_spec _ _ _ _ Hnd), bool_decide_eq_false_2; [done|].
    rewrite Forall_forall. intros Hall. destruct (Hall c Hc). congruence. }
  assert (Hdel : ∀ pk l,
    compute_changes true cls old new full delete pk = Ok l →
    (∃ c, c ∈ uniq ∧ old !! c = None) → udeleted l !! attr = None).
  { intros pk l Hl (c & Hc & Hnone).
    destruct (compute_changes_group _ _ _ _ _ _ _ uniq l Hin Hname Hinj Hl)
      as (ndata & Hnd & Hentries).
    unfold unique_entries, group_entries in Hentries.
    injection Hentries as _ Hd. unfold attr. rewrite Hd.
    rewrite no_None_odata, (bool_decide_eq_false_2 (Forall _ _)), andb_false_r;
      [done|].
    rewrite Forall_forall. intros Hall. destruct (Hall c Hc). congruence. }
  split; [intros pk l Hl; split; [exact (Hadd pk l Hl)|exact (Hdel pk l Hl)]|].
  intros Hnull w run.
  assert (Hrun : run = _apply_changes true sched cls old new full delete w)
    by done.
  clearbody run.
  assert (Hraise : ∀ value key,
    run.1 = Raise (UniqueKeyViolation value key) →
    ∃ pk l col v owner,
      primary_key cls old new = Some pk
      ∧ compute_changes true cls old new full delete pk = Ok l
      ∧ unique l !! col = Some v
      ∧ col ≠ attr
      ∧ value = PStr v
      ∧ key = uidx_key (_namespace cls) col
      ∧ hget (db w) key v = Some owner
      ∧ owner ≠ py_str pk).
  { intros value key Hraise. rewrite Hrun in Hraise.
    unfold _apply_changes in Hraise.
    destruct (primary_key cls old new) as [pk|] eqn:Hpk; [|done].
    destruct (truthy pk) eqn:Ht; [|done].
    rewrite apply_loop_lua in Hraise. unfold lua_attempt, lift in Hraise.
    rewrite bind_unfold in Hraise.
    destruct (compute_changes true cls old new full delete pk) as [l|e] eqn:Hl.
    2:{ injection Hraise as ->. by eapply compute_changes_raises in Hl. }
    rewrite bind_unfold in Hraise. unfold redis_writer_lua in Hraise.
    rewrite bind_unfold in Hraise.
    destruct (_redis_writer_lua _ _ _ _ _ _ _ _ _ _ _ w) as [[[col|cnt]|e] w1]
      eqn:Hscript; [| done |].
    2:{ apply script_raises_only in Hscript. by subst e. }
    apply script_conflict_owner in Hscript as (v & o & Hv & Ho & Hne).
    rewrite Hv in Hraise. injection Hraise as <- <-.
    exists pk, l, col, v, o. repeat split; try done.
    intros ->. by rewrite (Hadd pk l Hl Hnull) in Hv. }
  split; [|split; [exact Hraise|]].
  { intros value Hr. apply Hraise in Hr
      as (pk & l & col & v & o & _ & _ & _ & Hne & _ & Hkey & _).
    by apply uidx_key_inj in Hkey. }
  intros pk n l Hpk Htruthy Hint Hl. split.
  - destruct (apply_runs_index (sets_no_entry K) sched cls old new full delete
                pk n attr) with (w := w) as (cs & Htr & Hdb & Hcs); try done.
    { intros c Hc Hk. done. }
    { intros l' Hl'. split; [by apply (Hadd pk)|]. intros jv v _ _. by split. }
    rewrite <- Hrun in Htr, Hdb.
    exists cs. split; [done|]. split; [done|]. split; [done|].
    intros Hold.
    destruct (apply_runs_index (λ c, command_key c ≠ Some K) sched cls old new
                full delete pk n attr) with (w := w)
      as (cs' & Htr' & Hdb' & Hcs'); try done.
    { intros l' Hl'. split; [by apply (Hadd pk)|].
      intros jv v Hjv. by rewrite (Hdel pk l' Hl' Hold) in Hjv. }
    rewrite <- Hrun in Htr', Hdb'.
    assert (cs' = cs) as ->.
    { apply (app_inv_head (trace w)). by rewrite <- Htr, <- Htr'. }
    split; [done|]. rewrite Hdb. by apply replay_lookup_off.
  - intros ty Hserves Hfree.
    destruct (apply_changes_returns_Ok sched cls old new full delete w pk n l ty)
      as [w' Hok]; try done.
    exists w'. rewrite Hrun. split; [done|]. intros -> f.
    rewrite (apply_changes_lua _ _ _ _ _ _ pk) in Hok by done.
    unfold lua_attempt in Hok.
    apply bind_Ok_inv in Hok as (l' & w1 & [Hl' ->]%lift_Ok_inv & Hok).
    rewrite Hl in Hl'. injection Hl' as <-.
    apply bind_Ok_inv in Hok as ([] & w2 & Hscript & [= <-]).
    rewrite Hint in Hscript.
    apply writer_Ok_inv in Hscript as (w3 & w4 & res & _ & Hdb & Hwrite & Hscript).
    apply (script_writes_row_field (_namespace cls) n (udeleted l) (deleted l)
             (data l) (elements (keys l)) (scores l) _ _ f
             (hget (db w) (row_key (_namespace cls) (pretty n)) f)) in Hscript;
      [done|].
    rewrite <- Hdb. by eapply unique_passes_row_field.
Qed.

(* ================================================================== *)
(** * The theorems on the examples *)
(* ================================================================== *)

Lemma User_columns_NoDup : NoDup (_columns User).*1.
Proof. refine (bool_decide_unpack _ _). by vm_compute. Qed.

Lemma User_email_column : ("email", String_) ∈ _columns User.
Proof. apply elem_of_cons. by left. Qed.

Lemma User_email_unique : "email" ∈ _unique User.
Proof.
  change (_unique User) with ({["email"]} : gset string).
  by apply elem_of_singleton.
Qed.

Lemma User_groups_not_email (g : list string) :
  g ∈ _cunique User → String.concat ":" g ≠ "email".
Proof.
  change (_cunique User) with ({[ ["x"; "y"] ]} : gset (list string)).
  intros ->%elem_of_singleton. by vm_compute.
Qed.

(** The first user takes ["b@x"] when the script is run for its change
    of email. *)
Lemma unique_values_owned_after_apply_witness :
  hget (db (rename_script world1).2) (uidx_key "User" "email") "b@x"
  = Some (pretty 1).
Proof.
  apply (@unique_values_owned_after_apply example_cjson example_util "User" 1
           {["email" := "b@x"]} {["email" := PStr "a@x"]} [] {["email" := "b@x"]}
           [] ∅ [] [] false world1 (rename_script world1).2 "email" "b@x").
  - by vm_compute.
  - by vm_compute.
  - intros jv Hjv. vm_compute in Hjv. injection Hjv as <-. by vm_compute.
Defined.

(** And it gives up ["a@x"]. *)
Lemma superseded_unique_value_released_witness :
  hget (db (rename_script world1).2) (uidx_key "User" "email") "a@x" = None.
Proof.
  apply (@superseded_unique_value_released example_cjson example_util "User" 1
           {["email" := "b@x"]} {["email" := PStr "a@x"]} [] {["email" := "b@x"]}
           [] ∅ [] [] false world1 (rename_script world1).2 "email" "a@x"
           (PStr "a@x")).
  - by vm_compute.
  - by vm_compute.
  - by vm_compute.
  - by vm_compute.
Defined.

(** The row of the first user then holds the new email. *)
Lemma row_fields_after_apply_witness :
  hget (db (rename_script world1).2) (row_key "User" (pretty 1)) "email"
  = row_field_after {["email" := "b@x"]} [] "email"
      (hget (db world1) (row_key "User" (pretty 1)) "email").
Proof.
  apply (@row_fields_after_apply example_cjson example_util "User" 1
           {["email" := "b@x"]} {["email" := PStr "a@x"]} [] {["email" := "b@x"]}
           [] ∅ [] [] world1 (rename_script world1).2 "email").
  by vm_compute.
Defined.

(** The first user is in the index ["k"] after the script was passed
    that key. *)
Lemma new_keys_indexed_witness :
  member_at (db (reindex_script world1).2) (idx_key "User" "k") (pretty 1).
Proof.
  apply (@new_keys_indexed example_cjson example_util "User" (pretty 1)
           ∅ ∅ [] ∅ ["k"] ∅ [] [] false world1 (reindex_script world1).2 "k").
  - by vm_compute.
  - apply elem_of_cons. by left.
Defined.

(** It was in the index ["name:al"] of its manifest, and no longer is. *)
Lemma stale_keys_unindexed_witness :
  member_at (db world1) (idx_key "User" "name:al") (pretty 1)
  ∧ ¬ member_at (db (reindex_script world1).2) (idx_key "User" "name:al")
        (pretty 1).
Proof.
  split.
  { exists {["1"]}. split; [by vm_compute|]. by apply elem_of_singleton. }
  apply (@stale_keys_unindexed example_cjson example_util "User" 1
           ∅ ∅ [] ∅ ["k"] ∅ [] [] false world1 (reindex_script world1).2
           alice_manifest alice_idata "name:al").
  - by vm_compute.
  - by vm_compute.
  - by vm_compute.
  - refine (bool_decide_unpack _ _). by vm_compute.
  - refine (bool_decide_unpack _ _). by vm_compute.
Defined.

(** The change of email of the first user counts one column. *)
Lemma apply_counts_changed_columns_witness :
  1%nat
  = (length (filter (λ ac, changed (_last alice) alice_renamed_data false ac)
               (_columns User))
     + if false && negb true then 1 else 0)%nat.
Proof.
  apply (@apply_counts_changed_columns example_cjson example_util true [] User
           (_last alice) alice_renamed_data false false world1 alice_renamed.2
           1%nat (from_result (0%nat, ∅) alice_renamed.1).2).
  by vm_compute.
Defined.

(** The first save of the first user leaves it persisted, with the raw
    form of its values as snapshot. *)
Lemma save_updates_snapshot_witness :
  _new alice = false ∧ _modified alice = false ∧ _deleted alice = false
  ∧ _data alice = _data alice_new
  ∧ (∀ attr ca, (attr, ca) ∈ _columns User →
       _last alice !! attr = _to_redis ca <$> _data alice_new !! attr)
  ∧ (∀ attr, attr ∉ (_columns User).*1 → _last alice !! attr = None).
Proof.
  apply (@save_updates_snapshot example_cjson example_util true [] User
           alice_new alice false empty_world world1
           (from_result (0%nat, alice_new) alice_saved.1).1).
  - exact User_columns_NoDup.
  - by vm_compute.
Defined.

(** The save that follows the first save of the first user returns 0. *)
Lemma second_save_counts_zero_witness :
  (from_result (1%nat, alice) (save true [] User alice false world1).1).1
  = 0%nat.
Proof.
  apply (@second_save_counts_zero example_cjson example_util true true [] []
           User alice_new alice
           (from_result (1%nat, alice) (save true [] User alice false world1).1).2
           false empty_world world1 world1
           (save true [] User alice false world1).2
           (from_result (0%nat, alice_new) alice_saved.1).1).
  - exact User_columns_NoDup.
  - intros attr ca v Hin.
    assert (HF : Forall (λ ac : string * Column,
                   ∀ v, _data alice_new !! ac.1 = Some v →
                        py_eq v (_from_redis ac.2 (_to_redis ac.2 v)) = true)
                   (_columns User)).
    { repeat constructor; intros v' Hv'; vm_compute in Hv';
        injection Hv' as <-; by vm_compute. }
    exact (proj1 (Forall_forall _ _) HF (attr, ca) Hin v).
  - by vm_compute.
  - by vm_compute.
Defined.

(** A user with no [id] is not saved. *)
Lemma save_without_primary_key_witness :
  save true [] User nobody false empty_world
  = (Raise (ColumnError "Missing primary key value"), empty_world).
Proof.
  apply (@save_without_primary_key example_cjson example_util true [] User
           nobody false empty_world).
  - intros s Hs. by vm_compute in Hs.
  - intros v Hv. by vm_compute in Hv.
Defined.

(** [User] has a composite constraint and is refused without Lua. *)
Lemma no_lua_refuses_witness :
  ∃ msg, _apply_changes false [] User ∅ alice_data true false empty_world
         = (Raise (ColumnError msg), empty_world).
Proof.
  apply (@no_lua_refuses example_cjson example_util [] User ∅ alice_data true
           false empty_world).
  right. change (_cunique User) with ({[ ["x"; "y"] ]} : gset (list string)).
  intros Hempty. apply (non_empty_singleton_L (C := gset (list string)) ["x"; "y"]).
  exact Hempty.
Defined.

(** The second account with the email of the first is refused without
    Lua, after three commands. *)
Lemma fallback_conflict_raises_witness :
  _apply_changes false [] Account ∅ (_data frank_new) true false world_erin
  = (Raise (UniqueKeyViolation (PStr "e@x") (uidx_key (_namespace Account) "email")),
     World (replay (early (default quiet (head []))) (db world_erin))
       (trace world_erin ++ [WATCH (uidx_key (_namespace Account) "email");
                             HGET (uidx_key (_namespace Account) "email")
                               (_to_redis String_ (PStr "e@x"));
                             UNWATCH])
       (known world_erin)).
Proof.
  apply (@fallback_conflict_raises example_cjson example_util [] Account ∅
           (_data frank_new) true false world_erin (PInt 2) "email" String_
           (PStr "e@x") "1").
  - by vm_compute.
  - by vm_compute.
  - by vm_compute.
  - by vm_compute.
  - by vm_compute.
  - by vm_compute.
  - by vm_compute.
  - by right.
  - by vm_compute.
  - done.
  - by vm_compute.
Defined.

(** Another client writes to the unique index while the second account
    is saved: the pass is run again. *)
Lemma watch_conflict_retries_witness :
  _apply_changes false [rival] Account ∅ george_data true false world_erin
  = _apply_changes false [] Account ∅ george_data true false
      (World (replay (late rival) (replay (early rival) (db world_erin)))
         (trace world_erin ++ [WATCH (uidx_key (_namespace Account) "email");
                               HGET (uidx_key (_namespace Account) "email")
                                 (_to_redis String_ (PStr "g@x"));
                               MULTI; EXEC; UNWATCH])
         (known world_erin)).
Proof.
  apply (@watch_conflict_retries example_cjson example_util rival [] Account ∅
           george_data true false world_erin (PInt 2) "email" String_
           (PStr "g@x") george_changes).
  - by vm_compute.
  - by vm_compute.
  - by vm_compute.
  - by vm_compute.
  - by vm_compute.
  - by vm_compute.
  - by vm_compute.
  - by right.
  - eexists. by vm_compute.
  - intros owner Howner. by vm_compute in Howner.
  - by vm_compute.
  - right. intros Hdata. by vm_compute in Hdata.
  - by vm_compute.
Defined.

(** The row of the first user agrees with its snapshot after its change
    of email is saved. *)
Lemma row_matches_snapshot_after_save_witness :
  hget (db (save true [] User alice_edited false world1).2)
    (row_key (_namespace User) (pretty 1)) "email"
  = _last (from_result (0%nat, alice_edited)
             (save true [] User alice_edited false world1).1).2 !! "email".
Proof.
  apply (@row_matches_snapshot_after_save example_cjson example_util [] User
           alice_edited
           (from_result (0%nat, alice_edited)
              (save true [] User alice_edited false world1).1).2
           false world1 (save true [] User alice_edited false world1).2
           1%nat (PStr "1") 1) with (ca := String_).
  - exact User_columns_NoDup.
  - by vm_compute.
  - by vm_compute.
  - intros attr ca Hin.
    assert (HF : Forall (λ ac : string * Column,
                   hget (db world1) (row_key (_namespace User) (pretty 1)) ac.1
                   = _last alice_edited !! ac.1) (_columns User)).
    { repeat constructor; by vm_compute. }
    exact (proj1 (Forall_forall _ _) HF (attr, ca) Hin).
  - intros attr ca Hin.
    assert (HF : Forall (λ ac : string * Column,
                   changed (_last alice_edited) (_data alice_edited)
                     (false || _new alice_edited) ac = false →
                   _to_redis ac.2 <$> _data alice_edited !! ac.1
                   = _last alice_edited !! ac.1) (_columns User)).
    { repeat (apply Forall_cons_2;
                [intros Hch; first [by vm_compute in Hch|by vm_compute]|]).
      apply Forall_nil_2. }
    exact (proj1 (Forall_forall _ _) HF (attr, ca) Hin).
  - by vm_compute.
  - exact User_email_column.
Defined.

(** The save of the first user, unchanged, does not bring back its row
    after another client deleted it. *)
Lemma unchanged_save_creates_no_row_witness :
  db (save true [] User alice false world1_without_row).2
    !! row_key (_namespace User) (pretty 1) = None.
Proof.
  apply (@unchanged_save_creates_no_row example_cjson example_util [] User alice
           world1_without_row (PStr "1") 1).
  - by vm_compute.
  - by vm_compute.
  - by vm_compute.
  - intros attr ca Hin.
    assert (HF : Forall (λ ac : string * Column,
                   py_eq_opt (_data alice !! ac.1)
                     (_from_redis ac.2 <$> _last alice !! ac.1) = true)
                   (_columns User)).
    { repeat constructor; by vm_compute. }
    exact (proj1 (Forall_forall _ _) HF (attr, ca) Hin).
  - by vm_compute.
Defined.

(** [User.get(1)] after the first user was saved builds it from its
    row. *)
Lemma get_loads_row_witness :
  (∃ w', get User (OneId (PInt 1)) world1 = (Ok (GotOne (Some alice_loaded)), w'))
  ∧ _new alice_loaded = false
  ∧ ∀ attr ca, (attr, ca) ∈ _columns User →
      _last alice_loaded !! attr
      = hget (db world1) (row_key (_namespace User) (pretty 1)) attr.
Proof.
  apply (get_loads_row User world1 1 alice_row alice_loaded).
  - exact User_columns_NoDup.
  - by vm_compute.
  - by vm_compute.
  - intros Hrow. by vm_compute in Hrow.
  - by vm_compute.
Defined.

(** The first user, saved and not modified, is refreshed from its
    row. *)
Lemma refresh_loads_row_witness :
  (refresh User alice false world1).1 = Refreshed alice_loaded
  ∧ _new alice_loaded = false
  ∧ ∀ attr ca, (attr, ca) ∈ _columns User →
      _last alice_loaded !! attr = hget (db world1) (_pk User alice) attr.
Proof.
  apply (refresh_loads_row User alice alice_loaded false world1 alice_row).
  - exact User_columns_NoDup.
  - by vm_compute.
  - by vm_compute.
  - by left.
  - by vm_compute.
  - by vm_compute.
Defined.

(** The first user after its deletion. *)
Lemma deleted_entity_is_not_loaded_witness :
  _deleted (from_result alice alice_removed.1) = true
  ∧ _modified (from_result alice alice_removed.1) = true
  ∧ _data (from_result alice alice_removed.1) = _data alice
  ∧ _last (from_result alice alice_removed.1) = _last alice
  ∧ db alice_removed.2 !! row_key (_namespace User) (pretty 1) = None
  ∧ hget (db alice_removed.2) (manifest_key (_namespace User)) (pretty 1) = None
  ∧ (known alice_removed.2 !! row_key (_namespace User) (pretty 1) = None →
     (∃ w'', get User (OneId (PInt 1)) alice_removed.2 = (Ok (GotOne None), w''))
     ∧ ∃ w'', get User (ManyIds [PInt 1]) alice_removed.2 = (Ok (GotList []), w'')).
Proof.
  apply (@deleted_entity_is_not_loaded example_cjson example_util example_unicode [] User
           (λ _, mret ()) (λ _, mret ()) false alice
           (from_result alice alice_removed.1) world1 alice_removed.2
           (PStr "1") 1).
  - by vm_compute.
  - by vm_compute.
  - by vm_compute.
Defined.

(** The first user owns ["b@x"] after its change of email is applied. *)
Lemma changed_unique_value_owned_witness :
  hget (db alice_renamed.2) (uidx_key (_namespace User) "email")
    (_to_redis String_ (PStr "b@x")) = Some (pretty 1).
Proof.
  apply (@changed_unique_value_owned example_cjson example_util [] User
           (_last alice) alice_renamed_data false false world1 alice_renamed.2
           (from_result (0%nat, ∅) alice_renamed.1) (PStr "1") 1 "email" String_
           (PStr "b@x")).
  - exact User_columns_NoDup.
  - exact User_email_column.
  - exact User_email_unique.
  - exact User_groups_not_email.
  - by vm_compute.
  - by vm_compute.
  - by vm_compute.
  - by vm_compute.
  - intros ro Hro _. vm_compute in Hro. injection Hro as <-. by vm_compute.
  - by vm_compute.
Defined.

(** It owned ["a@x"] before, and no longer does. *)
Lemma replaced_unique_value_released_witness :
  hget (db world1) (uidx_key (_namespace User) "email") "a@x" = Some (pretty 1)
  ∧ hget (db alice_renamed.2) (uidx_key (_namespace User) "email") "a@x"
    ≠ Some (pretty 1).
Proof.
  split; [by vm_compute|].
  apply (@replaced_unique_value_released example_cjson example_util [] User
           (_last alice) alice_renamed_data false false world1 alice_renamed.2
           (from_result (0%nat, ∅) alice_renamed.1) (PStr "1") 1 "email" String_
           (PStr "b@x") "a@x" "a@x").
  - exact User_columns_NoDup.
  - exact User_email_column.
  - exact User_email_unique.
  - exact User_groups_not_email.
  - by vm_compute.
  - by vm_compute.
  - by vm_compute.
  - by vm_compute.
  - by vm_compute.
  - by vm_compute.
  - by vm_compute.
  - by vm_compute.
Defined.

(** The first user owned ["a@x"], and does not after its deletion. *)
Lemma delete_releases_unique_values_witness :
  hget (db world1) (uidx_key (_namespace User) "email") "a@x" = Some (pretty 1)
  ∧ hget (db alice_removed.2) (uidx_key (_namespace User) "email") "a@x"
    ≠ Some (pretty 1).
Proof.
  split; [by vm_compute|].
  apply (@delete_releases_unique_values example_cjson example_util [] User
           (λ _, mret ()) (λ _, mret ()) false alice
           (from_result alice alice_removed.1) world1 alice_removed.2
           (PStr "1") 1 "email" String_ "a@x").
  - exact User_columns_NoDup.
  - exact User_email_column.
  - exact User_email_unique.
  - exact User_groups_not_email.
  - by vm_compute.
  - by vm_compute.
  - by vm_compute.
  - by vm_compute.
Defined.



(** The first user saved again with nothing changed: the save returns
    the count 0, no command goes to its row, and the script has set the
    entry of the group, re-added the index entries and written the
    manifest. *)
Lemma unchanged_save_no_row_write_witness :
  (∃ self', outcome (save true [] User alice false) world1 = Ok (0%nat, self'))
  ∧ ∃ cs,
      trace (save true [] User alice false world1).2 = trace world1 ++ cs
      ∧ Forall (no_row_write (row_key (_namespace User) (pretty 1))) cs
      ∧ db (save true [] User alice false world1).2
          !! row_key (_namespace User) (pretty 1)
        = db world1 !! row_key (_namespace User) (pretty 1)
      ∧ ∀ ret self',
          (save true [] User alice false world1).1 = Ok (ret, self') →
          ret = 0%nat
          ∧ ∃ l,
              compute_changes true User (_last alice) (_data alice) false false
                (PStr "1") = Ok l
              ∧ row_changes l = (0%nat, ∅, [])
              ∧ (∀ name value,
                   unique l !! name = Some value →
                   HSET (uidx_key (_namespace User) name) value (pretty 1) ∈ cs)
              ∧ ∃ before adds,
                  cs = before ++ adds
                       ++ [HSET (manifest_key (_namespace User)) (pretty 1)
                             (cjson_encode (elements (keys l))
                                (map_to_list (scores l)).*1 (prefix l)
                                (suffix l))]
                  ∧ index_adds (_namespace User) (pretty 1) (elements (keys l))
                      (map_to_list (scores l)) (prefix l) (suffix l) = Some adds
                  ∧ hget (db (save true [] User alice false world1).2)
                      (manifest_key (_namespace User)) (pretty 1)
                    = Some (cjson_encode (elements (keys l))
                              (map_to_list (scores l)).*1 (prefix l) (suffix l)).
Proof.
  split; [eexists; by vm_compute|].
  apply (@unchanged_save_no_row_write example_cjson example_util [] User alice
           world1 (PStr "1") 1).
  - by vm_compute.
  - by vm_compute.
  - by vm_compute.
  - intros attr ca Hin.
    assert (HF : Forall (λ ac : string * Column,
                   py_eq_opt (_data alice !! ac.1)
                     (_from_redis ac.2 <$> _last alice !! ac.1) = true)
                   (_columns User)).
    { repeat constructor; by vm_compute. }
    exact (proj1 (Forall_forall _ _) HF (attr, ca) Hin).
Defined.

Lemma User_group : ["x"; "y"] ∈ _cunique User.
Proof.
  change (_cunique User) with ({[ ["x"; "y"] ]} : gset (list string)).
  by apply elem_of_singleton.
Qed.

(** The fifth user has the [x] of the first and no [y]: nothing is
    computed for the group, no command of its first save goes to the
    index of the group, and the save returns and writes the row, on the
    store that holds the first user. *)
Lemma null_component_exempt_witness :
  unique ida_changes !! "x:y" = None
  ∧ udeleted ida_changes !! "x:y" = None
  ∧ (∀ value, ida_applied.1
              ≠ Raise (UniqueKeyViolation value (uidx_key "User" "x:y")))
  ∧ (∃ cs, trace ida_applied.2 = trace world1 ++ cs
           ∧ db ida_applied.2 = replay cs (db world1)
           ∧ Forall (λ c, command_key c ≠ Some (uidx_key "User" "x:y")) cs
           ∧ db ida_applied.2 !! uidx_key "User" "x:y"
             = db world1 !! uidx_key "User" "x:y")
  ∧ ∃ w', ida_applied = (Ok (changes ida_changes, redis_data ida_changes), w')
          ∧ ∀ f, hget (db w') (row_key "User" (pretty 5)) f
                 = row_field_after (data ida_changes) (deleted ida_changes) f
                     (hget (db world1) (row_key "User" (pretty 5)) f).
Proof.
  assert (Hnull : ∃ c, c ∈ ["x"; "y"] ∧ ida_data !! c = None).
  { exists "y". split; [|by vm_compute].
    apply elem_of_cons. right. apply elem_of_cons. by left. }
  assert (Hold : ∃ c, c ∈ ["x"; "y"] ∧ (∅ : gmap string string) !! c = None).
  { exists "x". split; [|done]. apply elem_of_cons. by left. }
  destruct (@null_component_exempt example_cjson example_util [] User ∅
              ida_data true false ["x"; "y"]) as [Hchanges Hsave].
  - exact User_group.
  - refine (bool_decide_unpack _ _). by vm_compute.
  - intros g Hg _.
    change (_cunique User) with ({[ ["x"; "y"] ]} : gset (list string)) in Hg.
    by apply elem_of_singleton in Hg.
  - destruct (Hchanges (PInt 5) ida_changes) as [Hu Hd]; [by vm_compute|].
    split; [exact (Hu Hnull)|]. split; [exact (Hd Hold)|].
    destruct (Hsave Hnull world1) as (Hnever & _ & Hruns).
    split; [exact Hnever|].
    destruct (Hruns (PInt 5) 5 ida_changes) as [Hcs Hok];
      [by vm_compute|by vm_compute|by vm_compute|by vm_compute|].
    split.
    + destruct Hcs as (cs & Htr & Hdb & _ & Hoff).
      destruct (Hoff Hold) as [Hoff' Hkeep].
      exists cs. split; [exact Htr|]. split; [exact Hdb|].
      split; [exact Hoff'|exact Hkeep].
    + assert (Hs : serves user_kinds "User" (pretty 5) ida_changes (db world1)).
      { split; [refine (bool_decide_unpack _ _); by vm_compute|].
        split; [refine (bool_decide_unpack _ _); by vm_compute|].
        split; [refine (bool_decide_unpack _ _); by vm_compute|].
        split; [by vm_compute|].
        split; [by vm_compute|].
        split; [refine (bool_decide_unpack _ _); by vm_compute|].
        split; [refine (bool_decide_unpack _ _); by vm_compute|].
        split; [refine (bool_decide_unpack _ _); by vm_compute|].
        split; [refine (bool_decide_unpack _ _); by vm_compute|].
        by vm_compute. }
      destruct (Hok user_kinds) as (w' & Hrun & Hrow).
      * exact Hs.
      * refine (bool_decide_unpack _ _). by vm_compute.
      * exists w'. split; [exact Hrun|]. by apply Hrow.
Defined.

(** C6, the sentence as the spec has it: the fourth user has the [x]
    of the first and no [y], a null component in the group, and the
    email of the first; its save does not go through, it is refused on
    the index of [email]. *)
Lemma null_component_still_refused :
  (∃ c, c ∈ ["x"; "y"] ∧ hal_data !! c = None)
  ∧ outcome (save true [] User hal_new false) world1
    = Raise (UniqueKeyViolation (PStr "a@x") (uidx_key "User" "email")).
Proof.
  split; [|by vm_compute].
  exists "y". split; [|by vm_compute].
  apply elem_of_cons. right. apply elem_of_cons. by left.
Qed.

(** A unique integer of eighteen digits that is replaced: the script
    prints the old value it is told to remove as ["1e+17"], reads that
    entry, and the entry of the old value stays with the entity. *)
Lemma large_integer_old_entry_stays :
  issued (save true [] Counter large_reset false) large_saved.2
  = [HGET (uidx_key "Counter" "n") "5"; HSET (uidx_key "Counter" "n") "5" "1";
     HGET (uidx_key "Counter" "n") "1e+17"; HMSET (row_key "Counter" "1") ["n"; "5"];
     HGET (manifest_key "Counter") "1";
     HSET (manifest_key "Counter") "1" (cjson_encode [] [] [] [])]
  ∧ hget (db (save true [] Counter large_reset false large_saved.2).2)
      (uidx_key "Counter" "n") "100000000000000000" = Some "1"
  ∧ lua_arg_s (PInt (2 ^ 53 + 1)) = Some "9007199254740992".
Proof. by vm_compute. Qed.
